(** * MavericK: the admixture-model MCMC object

    A shallow embedding of [MCMCobject_admixture.cpp]: the collapsed Gibbs
    sweep over gene copies, the Metropolis update of the admixture
    parameter, the Stephens-style label alignment, the per-iteration Q
    matrix and the likelihood summaries of [perform_MCMC].

    Conventions of the embedding.
    - [std::vector] becomes [list]; [v[i]] is the total lookup [v !!! i] and
      an element assignment is [<[i:=x]>] or [alter].  The C++ subscript is
      undefined out of range; the theorems carry the shape conditions
      ([shaped], [consistent]) under which every subscript is in range.
    - [int] counters are [Z]; sizes, labels and allele codes are [nat].
    - [double] is idealised as a real number ([R], no rounding).  The two
      members that are initialised with [log(0)] take their values in
      [xreal], the reals extended with the IEEE special values.
      Two fragments are also given on the binary64 numbers of the machine
      (module [Binary64]): the reflection loops of [alpha_update], which on
      the reals always end and on binary64 do not for a proposal such as
      [1e18], and the accumulation of [d_logLikeGroup],
      whose binary64 value depends on the order of the terms.
    - The random number generator, [lgamma] and the Hungarian solver live
      outside this class.  Every function of the embedding receives the
      values returned by its calls to [runif1], [rnorm1] and [rgamma1] as
      arguments, in call order; [lgamma] and [hungarian] are section
      variables.
    - The members [old_alleleCounts], [old_alleleCountsTotals] and
      [old_admixCounts] only hold a copy inside
      [chooseBestLabelPermutation] and are local bindings there; the work
      arrays handed to the solver ([edgesLeft], [blockedLeft], ...) belong
      to the solver.
    - The two file streams that [perform_MCMC] can write a line to in every
      iteration are outside the object and are not modelled.  The loop that
      writes the labels steps [groupIndex] through the gene copies; every
      later use of [groupIndex] starts by setting it to [-1], and no
      statement about a run of [perform_MCMC] reads it. *)

From Stdlib Require Import Reals Lra Lia ZArith List Permutation.
From Stdlib Require Floats.
From stdpp Require Import base option list numbers.
From Equations Require Import Equations.
Import ListNotations.
Local Open Scope R_scope.

(** ** Numbers *)

#[export] Instance R_inhabited : Inhabited R := populate 0.
#[export] Instance R_eq_dec : EqDecision R := Req_dec_T.
#[export] Instance Rlt_decision (x y : R) : Decision (x < y) := Rlt_dec x y.
#[export] Instance Rgt_decision (x y : R) : Decision (x > y) := Rgt_dec x y.
#[export] Instance Rle_decision (x y : R) : Decision (x <= y) := Rle_dec x y.

(** [pow(x, y)] of the C library, on a positive base. *)
Definition pow (x y : R) : R := Rpower x y.

(** A [double] that may be infinite or not a number. *)
Inductive xreal : Type :=
| NaN
| NegInf
| PosInf
| Fin (x : R).

#[export] Instance xreal_inhabited : Inhabited xreal := populate (Fin 0).

(** [log(x)] with the special values of the C library. *)
Definition xlog (x : R) : xreal :=
  if decide (0 < x) then Fin (ln x)
  else if decide (x = 0) then NegInf else NaN.

Definition xexp (a : xreal) : xreal :=
  match a with
  | NaN => NaN
  | NegInf => Fin 0
  | PosInf => PosInf
  | Fin x => Fin (exp x)
  end.

Definition xneg (a : xreal) : xreal :=
  match a with
  | NaN => NaN
  | NegInf => PosInf
  | PosInf => NegInf
  | Fin x => Fin (- x)
  end.

Definition xadd (a b : xreal) : xreal :=
  match a, b with
  | NaN, _ | _, NaN => NaN
  | NegInf, PosInf | PosInf, NegInf => NaN
  | NegInf, _ | _, NegInf => NegInf
  | PosInf, _ | _, PosInf => PosInf
  | Fin x, Fin y => Fin (x + y)
  end.

Definition xsub (a b : xreal) : xreal := xadd a (xneg b).

(** Division of an extended value by a finite [double].  The divisors of
    the code are converted counts, so that a zero divisor is [+0]: an
    infinite value divided by it keeps its sign. *)
Definition xdiv (a : xreal) (d : R) : xreal :=
  match a with
  | NaN => NaN
  | NegInf => if decide (d < 0) then PosInf else NegInf
  | PosInf => if decide (d < 0) then NegInf else PosInf
  | Fin x =>
      if decide (d = 0)
      then (if decide (0 < x) then PosInf else if decide (x < 0) then NegInf else NaN)
      else Fin (x / d)
  end.

(** Modelled from the spec: [logSum] (misc.cpp is not among the sources),
    [logSum(a,b) = log(e^a + e^b)], with [e^(-inf) = 0]. *)
Definition logSum (a b : xreal) : xreal :=
  match a, b with
  | NaN, _ | _, NaN => NaN
  | PosInf, _ | _, PosInf => PosInf
  | NegInf, y => y
  | x, NegInf => x
  | Fin x, Fin y => Fin (ln (exp x + exp y))
  end.

(** The same function on finite values. *)
Definition logSum_fin (a b : R) : R := ln (exp a + exp b).

(** Modelled from the spec: [sample1] (probability.cpp is not among the
    sources), the categorical draw by cumulative sums against the threshold
    [u * pSum], [u] being the uniform deviate the call consumes.  The result
    is the 1-based position of the first cumulative sum above the threshold;
    [None] when there is none, in which case the chain stops. *)
Fixpoint sample1_scan (p : list R) (rand z : R) (i : nat) : option nat :=
  match p with
  | [] => None
  | x :: p' =>
      if decide (rand < z + x) then Some (S i)
      else sample1_scan p' rand (z + x) (S i)
  end.

Definition sample1 (p : list R) (pSum u : R) : option nat :=
  sample1_scan p (pSum * u) 0 0.

(** Sums of a list, accumulated from the left as the loops do. *)
Definition sumZ (l : list Z) : Z := fold_left Z.add l 0%Z.
Definition sumR (l : list R) : R := fold_left Rplus l 0.

(** ** The fixed inputs of a chain *)

Record config : Type := Build_config {
  K : nat;
  n : nat;
  loci : nat;
  J : list nat;
  ploidy_vec : list nat;
  data : list (list (list nat));
  geneCopies : nat;
  uniquePops : nat;
  pop_index : list nat;
  uniquePop_counts : list nat;
  lambda : R;
  alphaPropSD : R;
  beta : R;
  burnin : nat;
  samples : nat;
  thinning : nat;
  fixAlpha_on : bool;
  outputQmatrix_pop_on : bool
}.

(** The same inputs at another inverse temperature. *)
Definition with_beta (b : R) (c : config) : config :=
  {| K := K c; n := n c; loci := loci c; J := J c; ploidy_vec := ploidy_vec c;
     data := data c; geneCopies := geneCopies c; uniquePops := uniquePops c;
     pop_index := pop_index c; uniquePop_counts := uniquePop_counts c;
     lambda := lambda c; alphaPropSD := alphaPropSD c; beta := b; burnin := burnin c;
     samples := samples c; thinning := thinning c; fixAlpha_on := fixAlpha_on c;
     outputQmatrix_pop_on := outputQmatrix_pop_on c |}.

(** ** The mutable members of the object *)

Record chain : Type := Build_chain {
  groupIndex : Z;
  linearGroup : list nat;
  alleleCounts : list (list (list Z));
  alleleCountsTotals : list (list Z);
  alleleFreqs : list (list (list R));
  admixCounts : list (list Z);
  admixCountsTotals : list Z;
  admixFreqs : list (list R);
  alpha : R;
  probVec : list R;
  probVecSum : R;
  logQmatrix_gene_old : list (list R);
  logQmatrix_gene_new : list (list R);
  Qmatrix_gene_new : list (list R);
  logQmatrix_gene_running : list (list R);
  logQmatrix_gene : list (list xreal);
  Qmatrix_gene : list (list xreal);
  Qmatrix_ind : list (list xreal);
  Qmatrix_pop : list (list xreal);
  costMat : list (list R);
  bestPerm : list nat;
  bestPermOrder : list nat;
  logLikeGroup : R;
  logLikeGroup_sum : R;
  logLikeGroup_store : list R;
  logLikeGroup_sumSquared : R;
  logLikeJoint : R;
  logLikeJoint_sum : R;
  logLikeJoint_sumSquared : R;
  harmonic : xreal
}.

Definition set_groupIndex (v : Z) (s : chain) : chain :=
  {| groupIndex := v; linearGroup := linearGroup s; alleleCounts := alleleCounts s;
     alleleCountsTotals := alleleCountsTotals s; alleleFreqs := alleleFreqs s;
     admixCounts := admixCounts s; admixCountsTotals := admixCountsTotals s;
     admixFreqs := admixFreqs s; alpha := alpha s; probVec := probVec s;
     probVecSum := probVecSum s; logQmatrix_gene_old := logQmatrix_gene_old s;
     logQmatrix_gene_new := logQmatrix_gene_new s; Qmatrix_gene_new := Qmatrix_gene_new s;
     logQmatrix_gene_running := logQmatrix_gene_running s;
     logQmatrix_gene := logQmatrix_gene s; Qmatrix_gene := Qmatrix_gene s;
     Qmatrix_ind := Qmatrix_ind s; Qmatrix_pop := Qmatrix_pop s; costMat := costMat s;
     bestPerm := bestPerm s; bestPermOrder := bestPermOrder s; logLikeGroup := logLikeGroup s;
     logLikeGroup_sum := logLikeGroup_sum s; logLikeGroup_store := logLikeGroup_store s;
     logLikeGroup_sumSquared := logLikeGroup_sumSquared s; logLikeJoint := logLikeJoint s;
     logLikeJoint_sum := logLikeJoint_sum s;
     logLikeJoint_sumSquared := logLikeJoint_sumSquared s; harmonic := harmonic s |}.

Definition set_linearGroup (v : list nat) (s : chain) : chain :=
  {| groupIndex := groupIndex s; linearGroup := v; alleleCounts := alleleCounts s;
     alleleCountsTotals := alleleCountsTotals s; alleleFreqs := alleleFreqs s;
     admixCounts := admixCounts s; admixCountsTotals := admixCountsTotals s;
     admixFreqs := admixFreqs s; alpha := alpha s; probVec := probVec s;
     probVecSum := probVecSum s; logQmatrix_gene_old := logQmatrix_gene_old s;
     logQmatrix_gene_new := logQmatrix_gene_new s; Qmatrix_gene_new := Qmatrix_gene_new s;
     logQmatrix_gene_running := logQmatrix_gene_running s;
     logQmatrix_gene := logQmatrix_gene s; Qmatrix_gene := Qmatrix_gene s;
     Qmatrix_ind := Qmatrix_ind s; Qmatrix_pop := Qmatrix_pop s; costMat := costMat s;
     bestPerm := bestPerm s; bestPermOrder := bestPermOrder s; logLikeGroup := logLikeGroup s;
     logLikeGroup_sum := logLikeGroup_sum s; logLikeGroup_store := logLikeGroup_store s;
     logLikeGroup_sumSquared := logLikeGroup_sumSquared s; logLikeJoint := logLikeJoint s;
     logLikeJoint_sum := logLikeJoint_sum s;
     logLikeJoint_sumSquared := logLikeJoint_sumSquared s; harmonic := harmonic s |}.

Definition set_alleleCounts (v : list (list (list Z))) (s : chain) : chain :=
  {| groupIndex := groupIndex s; linearGroup := linearGroup s; alleleCounts := v;
     alleleCountsTotals := alleleCountsTotals s; alleleFreqs := alleleFreqs s;
     admixCounts := admixCounts s; admixCountsTotals := admixCountsTotals s;
     admixFreqs := admixFreqs s; alpha := alpha s; probVec := probVec s;
     probVecSum := probVecSum s; logQmatrix_gene_old := logQmatrix_gene_old s;
     logQmatrix_gene_new := logQmatrix_gene_new s; Qmatrix_gene_new := Qmatrix_gene_new s;
     logQmatrix_gene_running := logQmatrix_gene_running s;
     logQmatrix_gene := logQmatrix_gene s; Qmatrix_gene := Qmatrix_gene s;
     Qmatrix_ind := Qmatrix_ind s; Qmatrix_pop := Qmatrix_pop s; costMat := costMat s;
     bestPerm := bestPerm s; bestPermOrder := bestPermOrder s; logLikeGroup := logLikeGroup s;
     logLikeGroup_sum := logLikeGroup_sum s; logLikeGroup_store := logLikeGroup_store s;
     logLikeGroup_sumSquared := logLikeGroup_sumSquared s; logLikeJoint := logLikeJoint s;
     logLikeJoint_sum := logLikeJoint_sum s;
     logLikeJoint_sumSquared := logLikeJoint_sumSquared s; harmonic := harmonic s |}.

Definition set_alleleCountsTotals (v : list (list Z)) (s : chain) : chain :=
  {| groupIndex := groupIndex s; linearGroup := linearGroup s; alleleCounts := alleleCounts s;
     alleleCountsTotals := v; alleleFreqs := alleleFreqs s; admixCounts := admixCounts s;
     admixCountsTotals := admixCountsTotals s; admixFreqs := admixFreqs s; alpha := alpha s;
     probVec := probVec s; probVecSum := probVecSum s;
     logQmatrix_gene_old := logQmatrix_gene_old s;
     logQmatrix_gene_new := logQmatrix_gene_new s; Qmatrix_gene_new := Qmatrix_gene_new s;
     logQmatrix_gene_running := logQmatrix_gene_running s;
     logQmatrix_gene := logQmatrix_gene s; Qmatrix_gene := Qmatrix_gene s;
     Qmatrix_ind := Qmatrix_ind s; Qmatrix_pop := Qmatrix_pop s; costMat := costMat s;
     bestPerm := bestPerm s; bestPermOrder := bestPermOrder s; logLikeGroup := logLikeGroup s;
     logLikeGroup_sum := logLikeGroup_sum s; logLikeGroup_store := logLikeGroup_store s;
     logLikeGroup_sumSquared := logLikeGroup_sumSquared s; logLikeJoint := logLikeJoint s;
     logLikeJoint_sum := logLikeJoint_sum s;
     logLikeJoint_sumSquared := logLikeJoint_sumSquared s; harmonic := harmonic s |}.

Definition set_alleleFreqs (v : list (list (list R))) (s : chain) : chain :=
  {| groupIndex := groupIndex s; linearGroup := linearGroup s; alleleCounts := alleleCounts s;
     alleleCountsTotals := alleleCountsTotals s; alleleFreqs := v;
     admixCounts := admixCounts s; admixCountsTotals := admixCountsTotals s;
     admixFreqs := admixFreqs s; alpha := alpha s; probVec := probVec s;
     probVecSum := probVecSum s; logQmatrix_gene_old := logQmatrix_gene_old s;
     logQmatrix_gene_new := logQmatrix_gene_new s; Qmatrix_gene_new := Qmatrix_gene_new s;
     logQmatrix_gene_running := logQmatrix_gene_running s;
     logQmatrix_gene := logQmatrix_gene s; Qmatrix_gene := Qmatrix_gene s;
     Qmatrix_ind := Qmatrix_ind s; Qmatrix_pop := Qmatrix_pop s; costMat := costMat s;
     bestPerm := bestPerm s; bestPermOrder := bestPermOrder s; logLikeGroup := logLikeGroup s;
     logLikeGroup_sum := logLikeGroup_sum s; logLikeGroup_store := logLikeGroup_store s;
     logLikeGroup_sumSquared := logLikeGroup_sumSquared s; logLikeJoint := logLikeJoint s;
     logLikeJoint_sum := logLikeJoint_sum s;
     logLikeJoint_sumSquared := logLikeJoint_sumSquared s; harmonic := harmonic s |}.

Definition set_admixCounts (v : list (list Z)) (s : chain) : chain :=
  {| groupIndex := groupIndex s; linearGroup := linearGroup s; alleleCounts := alleleCounts s;
     alleleCountsTotals := alleleCountsTotals s; alleleFreqs := alleleFreqs s;
     admixCounts := v; admixCountsTotals := admixCountsTotals s; admixFreqs := admixFreqs s;
     alpha := alpha s; probVec := probVec s; probVecSum := probVecSum s;
     logQmatrix_gene_old := logQmatrix_gene_old s;
     logQmatrix_gene_new := logQmatrix_gene_new s; Qmatrix_gene_new := Qmatrix_gene_new s;
     logQmatrix_gene_running := logQmatrix_gene_running s;
     logQmatrix_gene := logQmatrix_gene s; Qmatrix_gene := Qmatrix_gene s;
     Qmatrix_ind := Qmatrix_ind s; Qmatrix_pop := Qmatrix_pop s; costMat := costMat s;
     bestPerm := bestPerm s; bestPermOrder := bestPermOrder s; logLikeGroup := logLikeGroup s;
     logLikeGroup_sum := logLikeGroup_sum s; logLikeGroup_store := logLikeGroup_store s;
     logLikeGroup_sumSquared := logLikeGroup_sumSquared s; logLikeJoint := logLikeJoint s;
     logLikeJoint_sum := logLikeJoint_sum s;
     logLikeJoint_sumSquared := logLikeJoint_sumSquared s; harmonic := harmonic s |}.

Definition set_admixCountsTotals (v : list Z) (s : chain) : chain :=
  {| groupIndex := groupIndex s; linearGroup := linearGroup s; alleleCounts := alleleCounts s;
     alleleCountsTotals := alleleCountsTotals s; alleleFreqs := alleleFreqs s;
     admixCounts := admixCounts s; admixCountsTotals := v; admixFreqs := admixFreqs s;
     alpha := alpha s; probVec := probVec s; probVecSum := probVecSum s;
     logQmatrix_gene_old := logQmatrix_gene_old s;
     logQmatrix_gene_new := logQmatrix_gene_new s; Qmatrix_gene_new := Qmatrix_gene_new s;
     logQmatrix_gene_running := logQmatrix_gene_running s;
     logQmatrix_gene := logQmatrix_gene s; Qmatrix_gene := Qmatrix_gene s;
     Qmatrix_ind := Qmatrix_ind s; Qmatrix_pop := Qmatrix_pop s; costMat := costMat s;
     bestPerm := bestPerm s; bestPermOrder := bestPermOrder s; logLikeGroup := logLikeGroup s;
     logLikeGroup_sum := logLikeGroup_sum s; logLikeGroup_store := logLikeGroup_store s;
     logLikeGroup_sumSquared := logLikeGroup_sumSquared s; logLikeJoint := logLikeJoint s;
     logLikeJoint_sum := logLikeJoint_sum s;
     logLikeJoint_sumSquared := logLikeJoint_sumSquared s; harmonic := harmonic s |}.

Definition set_admixFreqs (v : list (list R)) (s : chain) : chain :=
  {| groupIndex := groupIndex s; linearGroup := linearGroup s; alleleCounts := alleleCounts s;
     alleleCountsTotals := alleleCountsTotals s; alleleFreqs := alleleFreqs s;
     admixCounts := admixCounts s; admixCountsTotals := admixCountsTotals s; admixFreqs := v;
     alpha := alpha s; probVec := probVec s; probVecSum := probVecSum s;
     logQmatrix_gene_old := logQmatrix_gene_old s;
     logQmatrix_gene_new := logQmatrix_gene_new s; Qmatrix_gene_new := Qmatrix_gene_new s;
     logQmatrix_gene_running := logQmatrix_gene_running s;
     logQmatrix_gene := logQmatrix_gene s; Qmatrix_gene := Qmatrix_gene s;
     Qmatrix_ind := Qmatrix_ind s; Qmatrix_pop := Qmatrix_pop s; costMat := costMat s;
     bestPerm := bestPerm s; bestPermOrder := bestPermOrder s; logLikeGroup := logLikeGroup s;
     logLikeGroup_sum := logLikeGroup_sum s; logLikeGroup_store := logLikeGroup_store s;
     logLikeGroup_sumSquared := logLikeGroup_sumSquared s; logLikeJoint := logLikeJoint s;
     logLikeJoint_sum := logLikeJoint_sum s;
     logLikeJoint_sumSquared := logLikeJoint_sumSquared s; harmonic := harmonic s |}.

Definition set_alpha (v : R) (s : chain) : chain :=
  {| groupIndex := groupIndex s; linearGroup := linearGroup s; alleleCounts := alleleCounts s;
     alleleCountsTotals := alleleCountsTotals s; alleleFreqs := alleleFreqs s;
     admixCounts := admixCounts s; admixCountsTotals := admixCountsTotals s;
     admixFreqs := admixFreqs s; alpha := v; probVec := probVec s; probVecSum := probVecSum s;
     logQmatrix_gene_old := logQmatrix_gene_old s;
     logQmatrix_gene_new := logQmatrix_gene_new s; Qmatrix_gene_new := Qmatrix_gene_new s;
     logQmatrix_gene_running := logQmatrix_gene_running s;
     logQmatrix_gene := logQmatrix_gene s; Qmatrix_gene := Qmatrix_gene s;
     Qmatrix_ind := Qmatrix_ind s; Qmatrix_pop := Qmatrix_pop s; costMat := costMat s;
     bestPerm := bestPerm s; bestPermOrder := bestPermOrder s; logLikeGroup := logLikeGroup s;
     logLikeGroup_sum := logLikeGroup_sum s; logLikeGroup_store := logLikeGroup_store s;
     logLikeGroup_sumSquared := logLikeGroup_sumSquared s; logLikeJoint := logLikeJoint s;
     logLikeJoint_sum := logLikeJoint_sum s;
     logLikeJoint_sumSquared := logLikeJoint_sumSquared s; harmonic := harmonic s |}.

Definition set_probVec (v : list R) (s : chain) : chain :=
  {| groupIndex := groupIndex s; linearGroup := linearGroup s; alleleCounts := alleleCounts s;
     alleleCountsTotals := alleleCountsTotals s; alleleFreqs := alleleFreqs s;
     admixCounts := admixCounts s; admixCountsTotals := admixCountsTotals s;
     admixFreqs := admixFreqs s; alpha := alpha s; probVec := v; probVecSum := probVecSum s;
     logQmatrix_gene_old := logQmatrix_gene_old s;
     logQmatrix_gene_new := logQmatrix_gene_new s; Qmatrix_gene_new := Qmatrix_gene_new s;
     logQmatrix_gene_running := logQmatrix_gene_running s;
     logQmatrix_gene := logQmatrix_gene s; Qmatrix_gene := Qmatrix_gene s;
     Qmatrix_ind := Qmatrix_ind s; Qmatrix_pop := Qmatrix_pop s; costMat := costMat s;
     bestPerm := bestPerm s; bestPermOrder := bestPermOrder s; logLikeGroup := logLikeGroup s;
     logLikeGroup_sum := logLikeGroup_sum s; logLikeGroup_store := logLikeGroup_store s;
     logLikeGroup_sumSquared := logLikeGroup_sumSquared s; logLikeJoint := logLikeJoint s;
     logLikeJoint_sum := logLikeJoint_sum s;
     logLikeJoint_sumSquared := logLikeJoint_sumSquared s; harmonic := harmonic s |}.

Definition set_probVecSum (v : R) (s : chain) : chain :=
  {| groupIndex := groupIndex s; linearGroup := linearGroup s; alleleCounts := alleleCounts s;
     alleleCountsTotals := alleleCountsTotals s; alleleFreqs := alleleFreqs s;
     admixCounts := admixCounts s; admixCountsTotals := admixCountsTotals s;
     admixFreqs := admixFreqs s; alpha := alpha s; probVec := probVec s; probVecSum := v;
     logQmatrix_gene_old := logQmatrix_gene_old s;
     logQmatrix_gene_new := logQmatrix_gene_new s; Qmatrix_gene_new := Qmatrix_gene_new s;
     logQmatrix_gene_running := logQmatrix_gene_running s;
     logQmatrix_gene := logQmatrix_gene s; Qmatrix_gene := Qmatrix_gene s;
     Qmatrix_ind := Qmatrix_ind s; Qmatrix_pop := Qmatrix_pop s; costMat := costMat s;
     bestPerm := bestPerm s; bestPermOrder := bestPermOrder s; logLikeGroup := logLikeGroup s;
     logLikeGroup_sum := logLikeGroup_sum s; logLikeGroup_store := logLikeGroup_store s;
     logLikeGroup_sumSquared := logLikeGroup_sumSquared s; logLikeJoint := logLikeJoint s;
     logLikeJoint_sum := logLikeJoint_sum s;
     logLikeJoint_sumSquared := logLikeJoint_sumSquared s; harmonic := harmonic s |}.

Definition set_logQmatrix_gene_old (v : list (list R)) (s : chain) : chain :=
  {| groupIndex := groupIndex s; linearGroup := linearGroup s; alleleCounts := alleleCounts s;
     alleleCountsTotals := alleleCountsTotals s; alleleFreqs := alleleFreqs s;
     admixCounts := admixCounts s; admixCountsTotals := admixCountsTotals s;
     admixFreqs := admixFreqs s; alpha := alpha s; probVec := probVec s;
     probVecSum := probVecSum s; logQmatrix_gene_old := v;
     logQmatrix_gene_new := logQmatrix_gene_new s; Qmatrix_gene_new := Qmatrix_gene_new s;
     logQmatrix_gene_running := logQmatrix_gene_running s;
     logQmatrix_gene := logQmatrix_gene s; Qmatrix_gene := Qmatrix_gene s;
     Qmatrix_ind := Qmatrix_ind s; Qmatrix_pop := Qmatrix_pop s; costMat := costMat s;
     bestPerm := bestPerm s; bestPermOrder := bestPermOrder s; logLikeGroup := logLikeGroup s;
     logLikeGroup_sum := logLikeGroup_sum s; logLikeGroup_store := logLikeGroup_store s;
     logLikeGroup_sumSquared := logLikeGroup_sumSquared s; logLikeJoint := logLikeJoint s;
     logLikeJoint_sum := logLikeJoint_sum s;
     logLikeJoint_sumSquared := logLikeJoint_sumSquared s; harmonic := harmonic s |}.

Definition set_logQmatrix_gene_new (v : list (list R)) (s : chain) : chain :=
  {| groupIndex := groupIndex s; linearGroup := linearGroup s; alleleCounts := alleleCounts s;
     alleleCountsTotals := alleleCountsTotals s; alleleFreqs := alleleFreqs s;
     admixCounts := admixCounts s; admixCountsTotals := admixCountsTotals s;
     admixFreqs := admixFreqs s; alpha := alpha s; probVec := probVec s;
     probVecSum := probVecSum s; logQmatrix_gene_old := logQmatrix_gene_old s;
     logQmatrix_gene_new := v; Qmatrix_gene_new := Qmatrix_gene_new s;
     logQmatrix_gene_running := logQmatrix_gene_running s;
     logQmatrix_gene := logQmatrix_gene s; Qmatrix_gene := Qmatrix_gene s;
     Qmatrix_ind := Qmatrix_ind s; Qmatrix_pop := Qmatrix_pop s; costMat := costMat s;
     bestPerm := bestPerm s; bestPermOrder := bestPermOrder s; logLikeGroup := logLikeGroup s;
     logLikeGroup_sum := logLikeGroup_sum s; logLikeGroup_store := logLikeGroup_store s;
     logLikeGroup_sumSquared := logLikeGroup_sumSquared s; logLikeJoint := logLikeJoint s;
     logLikeJoint_sum := logLikeJoint_sum s;
     logLikeJoint_sumSquared := logLikeJoint_sumSquared s; harmonic := harmonic s |}.

Definition set_Qmatrix_gene_new (v : list (list R)) (s : chain) : chain :=
  {| groupIndex := groupIndex s; linearGroup := linearGroup s; alleleCounts := alleleCounts s;
     alleleCountsTotals := alleleCountsTotals s; alleleFreqs := alleleFreqs s;
     admixCounts := admixCounts s; admixCountsTotals := admixCountsTotals s;
     admixFreqs := admixFreqs s; alpha := alpha s; probVec := probVec s;
     probVecSum := probVecSum s; logQmatrix_gene_old := logQmatrix_gene_old s;
     logQmatrix_gene_new := logQmatrix_gene_new s; Qmatrix_gene_new := v;
     logQmatrix_gene_running := logQmatrix_gene_running s;
     logQmatrix_gene := logQmatrix_gene s; Qmatrix_gene := Qmatrix_gene s;
     Qmatrix_ind := Qmatrix_ind s; Qmatrix_pop := Qmatrix_pop s; costMat := costMat s;
     bestPerm := bestPerm s; bestPermOrder := bestPermOrder s; logLikeGroup := logLikeGroup s;
     logLikeGroup_sum := logLikeGroup_sum s; logLikeGroup_store := logLikeGroup_store s;
     logLikeGroup_sumSquared := logLikeGroup_sumSquared s; logLikeJoint := logLikeJoint s;
     logLikeJoint_sum := logLikeJoint_sum s;
     logLikeJoint_sumSquared := logLikeJoint_sumSquared s; harmonic := harmonic s |}.

Definition set_logQmatrix_gene_running (v : list (list R)) (s : chain) : chain :=
  {| groupIndex := groupIndex s; linearGroup := linearGroup s; alleleCounts := alleleCounts s;
     alleleCountsTotals := alleleCountsTotals s; alleleFreqs := alleleFreqs s;
     admixCounts := admixCounts s; admixCountsTotals := admixCountsTotals s;
     admixFreqs := admixFreqs s; alpha := alpha s; probVec := probVec s;
     probVecSum := probVecSum s; logQmatrix_gene_old := logQmatrix_gene_old s;
     logQmatrix_gene_new := logQmatrix_gene_new s; Qmatrix_gene_new := Qmatrix_gene_new s;
     logQmatrix_gene_running := v; logQmatrix_gene := logQmatrix_gene s;
     Qmatrix_gene := Qmatrix_gene s; Qmatrix_ind := Qmatrix_ind s;
     Qmatrix_pop := Qmatrix_pop s; costMat := costMat s; bestPerm := bestPerm s;
     bestPermOrder := bestPermOrder s; logLikeGroup := logLikeGroup s;
     logLikeGroup_sum := logLikeGroup_sum s; logLikeGroup_store := logLikeGroup_store s;
     logLikeGroup_sumSquared := logLikeGroup_sumSquared s; logLikeJoint := logLikeJoint s;
     logLikeJoint_sum := logLikeJoint_sum s;
     logLikeJoint_sumSquared := logLikeJoint_sumSquared s; harmonic := harmonic s |}.

Definition set_logQmatrix_gene (v : list (list xreal)) (s : chain) : chain :=
  {| groupIndex := groupIndex s; linearGroup := linearGroup s; alleleCounts := alleleCounts s;
     alleleCountsTotals := alleleCountsTotals s; alleleFreqs := alleleFreqs s;
     admixCounts := admixCounts s; admixCountsTotals := admixCountsTotals s;
     admixFreqs := admixFreqs s; alpha := alpha s; probVec := probVec s;
     probVecSum := probVecSum s; logQmatrix_gene_old := logQmatrix_gene_old s;
     logQmatrix_gene_new := logQmatrix_gene_new s; Qmatrix_gene_new := Qmatrix_gene_new s;
     logQmatrix_gene_running := logQmatrix_gene_running s; logQmatrix_gene := v;
     Qmatrix_gene := Qmatrix_gene s; Qmatrix_ind := Qmatrix_ind s;
     Qmatrix_pop := Qmatrix_pop s; costMat := costMat s; bestPerm := bestPerm s;
     bestPermOrder := bestPermOrder s; logLikeGroup := logLikeGroup s;
     logLikeGroup_sum := logLikeGroup_sum s; logLikeGroup_store := logLikeGroup_store s;
     logLikeGroup_sumSquared := logLikeGroup_sumSquared s; logLikeJoint := logLikeJoint s;
     logLikeJoint_sum := logLikeJoint_sum s;
     logLikeJoint_sumSquared := logLikeJoint_sumSquared s; harmonic := harmonic s |}.

Definition set_Qmatrix_gene (v : list (list xreal)) (s : chain) : chain :=
  {| groupIndex := groupIndex s; linearGroup := linearGroup s; alleleCounts := alleleCounts s;
     alleleCountsTotals := alleleCountsTotals s; alleleFreqs := alleleFreqs s;
     admixCounts := admixCounts s; admixCountsTotals := admixCountsTotals s;
     admixFreqs := admixFreqs s; alpha := alpha s; probVec := probVec s;
     probVecSum := probVecSum s; logQmatrix_gene_old := logQmatrix_gene_old s;
     logQmatrix_gene_new := logQmatrix_gene_new s; Qmatrix_gene_new := Qmatrix_gene_new s;
     logQmatrix_gene_running := logQmatrix_gene_running s;
     logQmatrix_gene := logQmatrix_gene s; Qmatrix_gene := v; Qmatrix_ind := Qmatrix_ind s;
     Qmatrix_pop := Qmatrix_pop s; costMat := costMat s; bestPerm := bestPerm s;
     bestPermOrder := bestPermOrder s; logLikeGroup := logLikeGroup s;
     logLikeGroup_sum := logLikeGroup_sum s; logLikeGroup_store := logLikeGroup_store s;
     logLikeGroup_sumSquared := logLikeGroup_sumSquared s; logLikeJoint := logLikeJoint s;
     logLikeJoint_sum := logLikeJoint_sum s;
     logLikeJoint_sumSquared := logLikeJoint_sumSquared s; harmonic := harmonic s |}.

Definition set_Qmatrix_ind (v : list (list xreal)) (s : chain) : chain :=
  {| groupIndex := groupIndex s; linearGroup := linearGroup s; alleleCounts := alleleCounts s;
     alleleCountsTotals := alleleCountsTotals s; alleleFreqs := alleleFreqs s;
     admixCounts := admixCounts s; admixCountsTotals := admixCountsTotals s;
     admixFreqs := admixFreqs s; alpha := alpha s; probVec := probVec s;
     probVecSum := probVecSum s; logQmatrix_gene_old := logQmatrix_gene_old s;
     logQmatrix_gene_new := logQmatrix_gene_new s; Qmatrix_gene_new := Qmatrix_gene_new s;
     logQmatrix_gene_running := logQmatrix_gene_running s;
     logQmatrix_gene := logQmatrix_gene s; Qmatrix_gene := Qmatrix_gene s; Qmatrix_ind := v;
     Qmatrix_pop := Qmatrix_pop s; costMat := costMat s; bestPerm := bestPerm s;
     bestPermOrder := bestPermOrder s; logLikeGroup := logLikeGroup s;
     logLikeGroup_sum := logLikeGroup_sum s; logLikeGroup_store := logLikeGroup_store s;
     logLikeGroup_sumSquared := logLikeGroup_sumSquared s; logLikeJoint := logLikeJoint s;
     logLikeJoint_sum := logLikeJoint_sum s;
     logLikeJoint_sumSquared := logLikeJoint_sumSquared s; harmonic := harmonic s |}.

Definition set_Qmatrix_pop (v : list (list xreal)) (s : chain) : chain :=
  {| groupIndex := groupIndex s; linearGroup := linearGroup s; alleleCounts := alleleCounts s;
     alleleCountsTotals := alleleCountsTotals s; alleleFreqs := alleleFreqs s;
     admixCounts := admixCounts s; admixCountsTotals := admixCountsTotals s;
     admixFreqs := admixFreqs s; alpha := alpha s; probVec := probVec s;
     probVecSum := probVecSum s; logQmatrix_gene_old := logQmatrix_gene_old s;
     logQmatrix_gene_new := logQmatrix_gene_new s; Qmatrix_gene_new := Qmatrix_gene_new s;
     logQmatrix_gene_running := logQmatrix_gene_running s;
     logQmatrix_gene := logQmatrix_gene s; Qmatrix_gene := Qmatrix_gene s;
     Qmatrix_ind := Qmatrix_ind s; Qmatrix_pop := v; costMat := costMat s;
     bestPerm := bestPerm s; bestPermOrder := bestPermOrder s; logLikeGroup := logLikeGroup s;
     logLikeGroup_sum := logLikeGroup_sum s; logLikeGroup_store := logLikeGroup_store s;
     logLikeGroup_sumSquared := logLikeGroup_sumSquared s; logLikeJoint := logLikeJoint s;
     logLikeJoint_sum := logLikeJoint_sum s;
     logLikeJoint_sumSquared := logLikeJoint_sumSquared s; harmonic := harmonic s |}.

Definition set_costMat (v : list (list R)) (s : chain) : chain :=
  {| groupIndex := groupIndex s; linearGroup := linearGroup s; alleleCounts := alleleCounts s;
     alleleCountsTotals := alleleCountsTotals s; alleleFreqs := alleleFreqs s;
     admixCounts := admixCounts s; admixCountsTotals := admixCountsTotals s;
     admixFreqs := admixFreqs s; alpha := alpha s; probVec := probVec s;
     probVecSum := probVecSum s; logQmatrix_gene_old := logQmatrix_gene_old s;
     logQmatrix_gene_new := logQmatrix_gene_new s; Qmatrix_gene_new := Qmatrix_gene_new s;
     logQmatrix_gene_running := logQmatrix_gene_running s;
     logQmatrix_gene := logQmatrix_gene s; Qmatrix_gene := Qmatrix_gene s;
     Qmatrix_ind := Qmatrix_ind s; Qmatrix_pop := Qmatrix_pop s; costMat := v;
     bestPerm := bestPerm s; bestPermOrder := bestPermOrder s; logLikeGroup := logLikeGroup s;
     logLikeGroup_sum := logLikeGroup_sum s; logLikeGroup_store := logLikeGroup_store s;
     logLikeGroup_sumSquared := logLikeGroup_sumSquared s; logLikeJoint := logLikeJoint s;
     logLikeJoint_sum := logLikeJoint_sum s;
     logLikeJoint_sumSquared := logLikeJoint_sumSquared s; harmonic := harmonic s |}.

Definition set_bestPerm (v : list nat) (s : chain) : chain :=
  {| groupIndex := groupIndex s; linearGroup := linearGroup s; alleleCounts := alleleCounts s;
     alleleCountsTotals := alleleCountsTotals s; alleleFreqs := alleleFreqs s;
     admixCounts := admixCounts s; admixCountsTotals := admixCountsTotals s;
     admixFreqs := admixFreqs s; alpha := alpha s; probVec := probVec s;
     probVecSum := probVecSum s; logQmatrix_gene_old := logQmatrix_gene_old s;
     logQmatrix_gene_new := logQmatrix_gene_new s; Qmatrix_gene_new := Qmatrix_gene_new s;
     logQmatrix_gene_running := logQmatrix_gene_running s;
     logQmatrix_gene := logQmatrix_gene s; Qmatrix_gene := Qmatrix_gene s;
     Qmatrix_ind := Qmatrix_ind s; Qmatrix_pop := Qmatrix_pop s; costMat := costMat s;
     bestPerm := v; bestPermOrder := bestPermOrder s; logLikeGroup := logLikeGroup s;
     logLikeGroup_sum := logLikeGroup_sum s; logLikeGroup_store := logLikeGroup_store s;
     logLikeGroup_sumSquared := logLikeGroup_sumSquared s; logLikeJoint := logLikeJoint s;
     logLikeJoint_sum := logLikeJoint_sum s;
     logLikeJoint_sumSquared := logLikeJoint_sumSquared s; harmonic := harmonic s |}.

Definition set_bestPermOrder (v : list nat) (s : chain) : chain :=
  {| groupIndex := groupIndex s; linearGroup := linearGroup s; alleleCounts := alleleCounts s;
     alleleCountsTotals := alleleCountsTotals s; alleleFreqs := alleleFreqs s;
     admixCounts := admixCounts s; admixCountsTotals := admixCountsTotals s;
     admixFreqs := admixFreqs s; alpha := alpha s; probVec := probVec s;
     probVecSum := probVecSum s; logQmatrix_gene_old := logQmatrix_gene_old s;
     logQmatrix_gene_new := logQmatrix_gene_new s; Qmatrix_gene_new := Qmatrix_gene_new s;
     logQmatrix_gene_running := logQmatrix_gene_running s;
     logQmatrix_gene := logQmatrix_gene s; Qmatrix_gene := Qmatrix_gene s;
     Qmatrix_ind := Qmatrix_ind s; Qmatrix_pop := Qmatrix_pop s; costMat := costMat s;
     bestPerm := bestPerm s; bestPermOrder := v; logLikeGroup := logLikeGroup s;
     logLikeGroup_sum := logLikeGroup_sum s; logLikeGroup_store := logLikeGroup_store s;
     logLikeGroup_sumSquared := logLikeGroup_sumSquared s; logLikeJoint := logLikeJoint s;
     logLikeJoint_sum := logLikeJoint_sum s;
     logLikeJoint_sumSquared := logLikeJoint_sumSquared s; harmonic := harmonic s |}.

Definition set_logLikeGroup (v : R) (s : chain) : chain :=
  {| groupIndex := groupIndex s; linearGroup := linearGroup s; alleleCounts := alleleCounts s;
     alleleCountsTotals := alleleCountsTotals s; alleleFreqs := alleleFreqs s;
     admixCounts := admixCounts s; admixCountsTotals := admixCountsTotals s;
     admixFreqs := admixFreqs s; alpha := alpha s; probVec := probVec s;
     probVecSum := probVecSum s; logQmatrix_gene_old := logQmatrix_gene_old s;
     logQmatrix_gene_new := logQmatrix_gene_new s; Qmatrix_gene_new := Qmatrix_gene_new s;
     logQmatrix_gene_running := logQmatrix_gene_running s;
     logQmatrix_gene := logQmatrix_gene s; Qmatrix_gene := Qmatrix_gene s;
     Qmatrix_ind := Qmatrix_ind s; Qmatrix_pop := Qmatrix_pop s; costMat := costMat s;
     bestPerm := bestPerm s; bestPermOrder := bestPermOrder s; logLikeGroup := v;
     logLikeGroup_sum := logLikeGroup_sum s; logLikeGroup_store := logLikeGroup_store s;
     logLikeGroup_sumSquared := logLikeGroup_sumSquared s; logLikeJoint := logLikeJoint s;
     logLikeJoint_sum := logLikeJoint_sum s;
     logLikeJoint_sumSquared := logLikeJoint_sumSquared s; harmonic := harmonic s |}.

Definition set_logLikeGroup_sum (v : R) (s : chain) : chain :=
  {| groupIndex := groupIndex s; linearGroup := linearGroup s; alleleCounts := alleleCounts s;
     alleleCountsTotals := alleleCountsTotals s; alleleFreqs := alleleFreqs s;
     admixCounts := admixCounts s; admixCountsTotals := admixCountsTotals s;
     admixFreqs := admixFreqs s; alpha := alpha s; probVec := probVec s;
     probVecSum := probVecSum s; logQmatrix_gene_old := logQmatrix_gene_old s;
     logQmatrix_gene_new := logQmatrix_gene_new s; Qmatrix_gene_new := Qmatrix_gene_new s;
     logQmatrix_gene_running := logQmatrix_gene_running s;
     logQmatrix_gene := logQmatrix_gene s; Qmatrix_gene := Qmatrix_gene s;
     Qmatrix_ind := Qmatrix_ind s; Qmatrix_pop := Qmatrix_pop s; costMat := costMat s;
     bestPerm := bestPerm s; bestPermOrder := bestPermOrder s; logLikeGroup := logLikeGroup s;
     logLikeGroup_sum := v; logLikeGroup_store := logLikeGroup_store s;
     logLikeGroup_sumSquared := logLikeGroup_sumSquared s; logLikeJoint := logLikeJoint s;
     logLikeJoint_sum := logLikeJoint_sum s;
     logLikeJoint_sumSquared := logLikeJoint_sumSquared s; harmonic := harmonic s |}.

Definition set_logLikeGroup_store (v : list R) (s : chain) : chain :=
  {| groupIndex := groupIndex s; linearGroup := linearGroup s; alleleCounts := alleleCounts s;
     alleleCountsTotals := alleleCountsTotals s; alleleFreqs := alleleFreqs s;
     admixCounts := admixCounts s; admixCountsTotals := admixCountsTotals s;
     admixFreqs := admixFreqs s; alpha := alpha s; probVec := probVec s;
     probVecSum := probVecSum s; logQmatrix_gene_old := logQmatrix_gene_old s;
     logQmatrix_gene_new := logQmatrix_gene_new s; Qmatrix_gene_new := Qmatrix_gene_new s;
     logQmatrix_gene_running := logQmatrix_gene_running s;
     logQmatrix_gene := logQmatrix_gene s; Qmatrix_gene := Qmatrix_gene s;
     Qmatrix_ind := Qmatrix_ind s; Qmatrix_pop := Qmatrix_pop s; costMat := costMat s;
     bestPerm := bestPerm s; bestPermOrder := bestPermOrder s; logLikeGroup := logLikeGroup s;
     logLikeGroup_sum := logLikeGroup_sum s; logLikeGroup_store := v;
     logLikeGroup_sumSquared := logLikeGroup_sumSquared s; logLikeJoint := logLikeJoint s;
     logLikeJoint_sum := logLikeJoint_sum s;
     logLikeJoint_sumSquared := logLikeJoint_sumSquared s; harmonic := harmonic s |}.

Definition set_logLikeGroup_sumSquared (v : R) (s : chain) : chain :=
  {| groupIndex := groupIndex s; linearGroup := linearGroup s; alleleCounts := alleleCounts s;
     alleleCountsTotals := alleleCountsTotals s; alleleFreqs := alleleFreqs s;
     admixCounts := admixCounts s; admixCountsTotals := admixCountsTotals s;
     admixFreqs := admixFreqs s; alpha := alpha s; probVec := probVec s;
     probVecSum := probVecSum s; logQmatrix_gene_old := logQmatrix_gene_old s;
     logQmatrix_gene_new := logQmatrix_gene_new s; Qmatrix_gene_new := Qmatrix_gene_new s;
     logQmatrix_gene_running := logQmatrix_gene_running s;
     logQmatrix_gene := logQmatrix_gene s; Qmatrix_gene := Qmatrix_gene s;
     Qmatrix_ind := Qmatrix_ind s; Qmatrix_pop := Qmatrix_pop s; costMat := costMat s;
     bestPerm := bestPerm s; bestPermOrder := bestPermOrder s; logLikeGroup := logLikeGroup s;
     logLikeGroup_sum := logLikeGroup_sum s; logLikeGroup_store := logLikeGroup_store s;
     logLikeGroup_sumSquared := v; logLikeJoint := logLikeJoint s;
     logLikeJoint_sum := logLikeJoint_sum s;
     logLikeJoint_sumSquared := logLikeJoint_sumSquared s; harmonic := harmonic s |}.

Definition set_logLikeJoint (v : R) (s : chain) : chain :=
  {| groupIndex := groupIndex s; linearGroup := linearGroup s; alleleCounts := alleleCounts s;
     alleleCountsTotals := alleleCountsTotals s; alleleFreqs := alleleFreqs s;
     admixCounts := admixCounts s; admixCountsTotals := admixCountsTotals s;
     admixFreqs := admixFreqs s; alpha := alpha s; probVec := probVec s;
     probVecSum := probVecSum s; logQmatrix_gene_old := logQmatrix_gene_old s;
     logQmatrix_gene_new := logQmatrix_gene_new s; Qmatrix_gene_new := Qmatrix_gene_new s;
     logQmatrix_gene_running := logQmatrix_gene_running s;
     logQmatrix_gene := logQmatrix_gene s; Qmatrix_gene := Qmatrix_gene s;
     Qmatrix_ind := Qmatrix_ind s; Qmatrix_pop := Qmatrix_pop s; costMat := costMat s;
     bestPerm := bestPerm s; bestPermOrder := bestPermOrder s; logLikeGroup := logLikeGroup s;
     logLikeGroup_sum := logLikeGroup_sum s; logLikeGroup_store := logLikeGroup_store s;
     logLikeGroup_sumSquared := logLikeGroup_sumSquared s; logLikeJoint := v;
     logLikeJoint_sum := logLikeJoint_sum s;
     logLikeJoint_sumSquared := logLikeJoint_sumSquared s; harmonic := harmonic s |}.

Definition set_logLikeJoint_sum (v : R) (s : chain) : chain :=
  {| groupIndex := groupIndex s; linearGroup := linearGroup s; alleleCounts := alleleCounts s;
     alleleCountsTotals := alleleCountsTotals s; alleleFreqs := alleleFreqs s;
     admixCounts := admixCounts s; admixCountsTotals := admixCountsTotals s;
     admixFreqs := admixFreqs s; alpha := alpha s; probVec := probVec s;
     probVecSum := probVecSum s; logQmatrix_gene_old := logQmatrix_gene_old s;
     logQmatrix_gene_new := logQmatrix_gene_new s; Qmatrix_gene_new := Qmatrix_gene_new s;
     logQmatrix_gene_running := logQmatrix_gene_running s;
     logQmatrix_gene := logQmatrix_gene s; Qmatrix_gene := Qmatrix_gene s;
     Qmatrix_ind := Qmatrix_ind s; Qmatrix_pop := Qmatrix_pop s; costMat := costMat s;
     bestPerm := bestPerm s; bestPermOrder := bestPermOrder s; logLikeGroup := logLikeGroup s;
     logLikeGroup_sum := logLikeGroup_sum s; logLikeGroup_store := logLikeGroup_store s;
     logLikeGroup_sumSquared := logLikeGroup_sumSquared s; logLikeJoint := logLikeJoint s;
     logLikeJoint_sum := v; logLikeJoint_sumSquared := logLikeJoint_sumSquared s;
     harmonic := harmonic s |}.

Definition set_logLikeJoint_sumSquared (v : R) (s : chain) : chain :=
  {| groupIndex := groupIndex s; linearGroup := linearGroup s; alleleCounts := alleleCounts s;
     alleleCountsTotals := alleleCountsTotals s; alleleFreqs := alleleFreqs s;
     admixCounts := admixCounts s; admixCountsTotals := admixCountsTotals s;
     admixFreqs := admixFreqs s; alpha := alpha s; probVec := probVec s;
     probVecSum := probVecSum s; logQmatrix_gene_old := logQmatrix_gene_old s;
     logQmatrix_gene_new := logQmatrix_gene_new s; Qmatrix_gene_new := Qmatrix_gene_new s;
     logQmatrix_gene_running := logQmatrix_gene_running s;
     logQmatrix_gene := logQmatrix_gene s; Qmatrix_gene := Qmatrix_gene s;
     Qmatrix_ind := Qmatrix_ind s; Qmatrix_pop := Qmatrix_pop s; costMat := costMat s;
     bestPerm := bestPerm s; bestPermOrder := bestPermOrder s; logLikeGroup := logLikeGroup s;
     logLikeGroup_sum := logLikeGroup_sum s; logLikeGroup_store := logLikeGroup_store s;
     logLikeGroup_sumSquared := logLikeGroup_sumSquared s; logLikeJoint := logLikeJoint s;
     logLikeJoint_sum := logLikeJoint_sum s; logLikeJoint_sumSquared := v;
     harmonic := harmonic s |}.

Definition set_harmonic (v : xreal) (s : chain) : chain :=
  {| groupIndex := groupIndex s; linearGroup := linearGroup s; alleleCounts := alleleCounts s;
     alleleCountsTotals := alleleCountsTotals s; alleleFreqs := alleleFreqs s;
     admixCounts := admixCounts s; admixCountsTotals := admixCountsTotals s;
     admixFreqs := admixFreqs s; alpha := alpha s; probVec := probVec s;
     probVecSum := probVecSum s; logQmatrix_gene_old := logQmatrix_gene_old s;
     logQmatrix_gene_new := logQmatrix_gene_new s; Qmatrix_gene_new := Qmatrix_gene_new s;
     logQmatrix_gene_running := logQmatrix_gene_running s;
     logQmatrix_gene := logQmatrix_gene s; Qmatrix_gene := Qmatrix_gene s;
     Qmatrix_ind := Qmatrix_ind s; Qmatrix_pop := Qmatrix_pop s; costMat := costMat s;
     bestPerm := bestPerm s; bestPermOrder := bestPermOrder s; logLikeGroup := logLikeGroup s;
     logLikeGroup_sum := logLikeGroup_sum s; logLikeGroup_store := logLikeGroup_store s;
     logLikeGroup_sumSquared := logLikeGroup_sumSquared s; logLikeJoint := logLikeJoint s;
     logLikeJoint_sum := logLikeJoint_sum s;
     logLikeJoint_sumSquared := logLikeJoint_sumSquared s; harmonic := v |}.
(** ** Loops and subscripts *)

(** [m[i][j] = v], and the read-modify-write forms of two and three levels. *)
Definition set2 {A} (i j : nat) (v : A) (m : list (list A)) : list (list A) :=
  alter (<[j:=v]>) i m.
Definition alter2 {A} (f : A → A) (i j : nat) (m : list (list A)) : list (list A) :=
  alter (alter f j) i m.
Definition alter3 {A} (f : A → A) (i j k : nat) (m : list (list (list A))) :
  list (list (list A)) :=
  alter (alter (alter f k) j) i m.

(** The reads [m[i][j]] and [m[i][j][k]]. *)
Definition at2 {A} `{Inhabited A} (m : list (list A)) (i j : nat) : A :=
  (m !!! i) !!! j.
Definition at3 {A} `{Inhabited A} (m : list (list (list A))) (i j k : nat) : A :=
  ((m !!! i) !!! j) !!! k.

(** [for (int i=0; i<m; i++) body], threading the object through the loop. *)
Definition for_range {A} (m : nat) (body : nat → A → A) (a : A) : A :=
  fold_left (λ a i, body i a) (seq 0 m) a.

(** The sum of [f 0 .. f (m-1)]. *)
Definition sum_upto (m : nat) (f : nat → R) : R := sumR (map f (seq 0 m)).
Definition sumZ_upto (m : nat) (f : nat → Z) : Z := sumZ (map f (seq 0 m)).

(** A read of the 1-based label vector used as a 0-based subscript. *)
Definition deme_of (grp : list nat) (g : nat) : nat := (grp !!! g - 1)%nat.

(** ** The reflection loops of [alpha_update] *)

(** [while (alpha_new < -10) alpha_new += 20;] on the reals, where the loop
    ends for every [x]; [Binary64.wrap_up64] is the loop on binary64. *)
Equations? wrap_up (x : R) : R by wf (Z.to_nat (up ((-10 - x) / 20))) lt :=
  wrap_up x with Rlt_dec x (-10) => {
    | left _ := wrap_up (x + 20);
    | right _ := x }.
Proof.
  replace ((-10 - (x + 20)) / 20) with ((-10 - x) / 20 - 1) by field.
  set (q := (-10 - x) / 20). assert (Hq : 0 < q) by (unfold q; lra).
  destruct (archimed q).
  assert (H1 : up (q - 1) = (up q - 1)%Z)
    by (symmetry; apply tech_up; rewrite minus_IZR; lra).
  assert (0 < up q)%Z by (apply lt_IZR; lra).
  lia.
Qed.

(** [while (alpha_new > 20) alpha_new -= 20;] on the reals, where the loop
    ends for every [x]; [Binary64.wrap_down64] is the loop on binary64. *)
Equations? wrap_down (x : R) : R by wf (Z.to_nat (up ((x - 20) / 20))) lt :=
  wrap_down x with Rlt_dec 20 x => {
    | left _ := wrap_down (x - 20);
    | right _ := x }.
Proof.
  replace ((x - 20 - 20) / 20) with ((x - 20) / 20 - 1) by field.
  set (q := (x - 20) / 20). assert (Hq : 0 < q) by (unfold q; lra).
  destruct (archimed q).
  assert (H1 : up (q - 1) = (up q - 1)%Z)
    by (symmetry; apply tech_up; rewrite minus_IZR; lra).
  assert (0 < up q)%Z by (apply lt_IZR; lra).
  lia.
Qed.

(** The proposal after reflection off the boundaries 0 and 10 and after the
    guard against an exact zero. *)
Definition reflect_alpha (alpha_new : R) : R :=
  let alpha_new :=
    if decide (alpha_new < 0 ∨ alpha_new > 10) then
      let alpha_new := wrap_up alpha_new in
      let alpha_new := wrap_down alpha_new in
      let alpha_new := if decide (alpha_new < 0) then - alpha_new else alpha_new in
      let alpha_new := if decide (alpha_new > 10) then 20 - alpha_new else alpha_new in
      alpha_new
    else alpha_new in
  if decide (alpha_new = 0) then pow 10 (-300) else alpha_new.

(** Values returned by the random number generator during one run of
    [perform_MCMC], indexed by the position of the call. *)
Record draws : Type := Build_draws {
  u_group : nat → nat → nat → R;
  z_alpha : nat → nat → R;
  u_alpha : nat → nat → R;
  g_allele : nat → nat → nat → nat → R;
  g_admix : nat → nat → nat → R
}.

(** ** The binary64 reading of the reflection and of the marginal likelihood

    The same statements of the source on the primitive binary64 numbers,
    with the rounding of every operation.  A loop that has not ended after
    [fuel] passes returns [None]. *)

Module Binary64.
Import PrimFloat.
Local Open Scope float_scope.

(** [while (alpha_new < -10) alpha_new += 20;] *)
Fixpoint wrap_up64 (fuel : nat) (x : float) : option float :=
  match fuel with
  | O => None
  | S fuel => if x <? -10 then wrap_up64 fuel (x + 20) else Some x
  end.

(** [while (alpha_new > 20) alpha_new -= 20;] *)
Fixpoint wrap_down64 (fuel : nat) (x : float) : option float :=
  match fuel with
  | O => None
  | S fuel => if 20 <? x then wrap_down64 fuel (x - 20) else Some x
  end.

(** The value of [pow(10.0,-300.0)]: the binary64 number nearest to
    [10^-300]. *)
Definition pow10_m300 : float := 0x1.56e1fc2f8f359p-997.

(** The proposal after reflection and after the guard against an exact
    zero, lines 409 to 427. *)
Definition reflect_alpha64 (fuel : nat) (alpha_new : float) : option float :=
  alpha_new ←
    (if (alpha_new <? 0) || (10 <? alpha_new) then
       alpha_new ← wrap_up64 fuel alpha_new;
       alpha_new ← wrap_down64 fuel alpha_new;
       let alpha_new := if alpha_new <? 0 then - alpha_new else alpha_new in
       let alpha_new := if 10 <? alpha_new then 20 - alpha_new else alpha_new in
       Some alpha_new
     else Some alpha_new);
  Some (if alpha_new =? 0 then pow10_m300 else alpha_new).

(** The conversion of an [int] to [double]. *)
Definition of_int (z : Z) : float :=
  if (z <? 0)%Z then - of_uint63 (Uint63.of_Z (- z)) else of_uint63 (Uint63.of_Z z).

(** [d_logLikeGroup], lines 581 to 589, on count tensors: the value left
    in [logLikeGroup].  [lgamma] is the function of the C library. *)
Definition d_logLikeGroup64 (lgamma : float → float) (lambda : float)
    (K loci : nat) (J : list nat)
    (alleleCounts : list (list (list Z))) (alleleCountsTotals : list (list Z)) : float :=
  for_range K (λ k,
    for_range loci (λ l logLikeGroup,
      let logLikeGroup :=
        for_range (J !!! l) (λ j logLikeGroup,
          logLikeGroup
          + (lgamma (lambda + of_int (at3 alleleCounts k l j)) - lgamma lambda))
          logLikeGroup in
      logLikeGroup
      + (lgamma (of_int (Z.of_nat (J !!! l)) * lambda)
         - lgamma (of_int (Z.of_nat (J !!! l)) * lambda
                   + of_int (at2 alleleCountsTotals k l)))))
    0.

(** The values of [lgamma] at 1, 2, 3, 4, 6 and 7, the logarithms of 0!,
    1!, 2!, 3!, 5! and 6! rounded to the nearest binary64 number; no other
    argument is looked up in the example below. *)
Definition lgamma_table (x : float) : float :=
  if (x =? 1) || (x =? 2) then 0
  else if x =? 3 then 0x1.62e42fefa39efp-1
  else if x =? 4 then 0x1.cab0bfa2a2002p+0
  else if x =? 6 then 0x1.326643c4479c9p+2
  else if x =? 7 then 0x1.a51273acf01cap+2
  else nan.

End Binary64.

Section Chain.

Variable lgamma : R → R.
Variable hungarian : list (list R) → list nat.
Variable cfg : config.

(** ** Construction *)

Definition MCMCobject_admixture (alpha0 : R) : chain :=
  {| groupIndex := 0;
     linearGroup := replicate (geneCopies cfg) 0%nat;
     alleleCounts :=
       for_range (K cfg) (λ k ac,
         for_range (loci cfg) (λ l ac, set2 k l (replicate (J cfg !!! l) 0%Z) ac)
           (<[k := replicate (loci cfg) []]> ac))
         (replicate (K cfg) []);
     alleleCountsTotals :=
       for_range (K cfg) (λ k t, <[k := replicate (loci cfg) 0%Z]> t) (replicate (K cfg) []);
     alleleFreqs :=
       for_range (K cfg) (λ k af,
         for_range (loci cfg) (λ l af, set2 k l (replicate (J cfg !!! l) 0) af)
           (<[k := replicate (loci cfg) []]> af))
         (replicate (K cfg) []);
     admixCounts := replicate (n cfg) (replicate (K cfg) 0%Z);
     admixCountsTotals := replicate (n cfg) 0%Z;
     admixFreqs := replicate (n cfg) (replicate (K cfg) 0);
     alpha := alpha0;
     probVec := replicate (K cfg) 0;
     probVecSum := 0;
     logQmatrix_gene_old := replicate (geneCopies cfg) (replicate (K cfg) 0);
     logQmatrix_gene_new := replicate (geneCopies cfg) (replicate (K cfg) 0);
     Qmatrix_gene_new := replicate (geneCopies cfg) (replicate (K cfg) 0);
     logQmatrix_gene_running := replicate (geneCopies cfg) (replicate (K cfg) 0);
     logQmatrix_gene := replicate (geneCopies cfg) (replicate (K cfg) (Fin 0));
     Qmatrix_gene := replicate (geneCopies cfg) (replicate (K cfg) (Fin 0));
     Qmatrix_ind := replicate (n cfg) (replicate (K cfg) (Fin 0));
     Qmatrix_pop := replicate (uniquePops cfg) (replicate (K cfg) (Fin 0));
     costMat := replicate (K cfg) (replicate (K cfg) 0);
     bestPerm := [];
     bestPermOrder := replicate (K cfg) 0%nat;
     logLikeGroup := 0;
     logLikeGroup_sum := 0;
     logLikeGroup_store := [];
     logLikeGroup_sumSquared := 0;
     logLikeJoint := 0;
     logLikeJoint_sum := 0;
     logLikeJoint_sumSquared := 0;
     harmonic := Fin 0 |}.

(** ** The canonical order of gene copies *)

Definition datum (ind l p : nat) : nat := at3 (data cfg) ind l p.

(** The triple loop over individuals, loci and ploidy slots.  [groupIndex]
    is set to [-1] before the loop and incremented at the top of the body. *)
Definition for_copies {A} (body : nat → nat → nat → A → A) (a : A) : A :=
  for_range (n cfg) (λ ind,
    for_range (loci cfg) (λ l,
      for_range (ploidy_vec cfg !!! ind) (λ p, body ind l p))) a.

Definition next_copy (s : chain) : chain := set_groupIndex (groupIndex s + 1)%Z s.
Definition gidx (s : chain) : nat := Z.to_nat (groupIndex s).

(** The gene copies in the order of the triple loop. *)
Definition copies : list (nat * nat * nat) :=
  ind ← seq 0 (n cfg);
  l ← seq 0 (loci cfg);
  p ← seq 0 (ploidy_vec cfg !!! ind);
  [(ind, l, p)].

(** ** Counts *)

(** Subtract the current gene copy from allele counts and admix counts. *)
Definition remove_copy (ind l p : nat) (s : chain) : chain :=
  if decide (datum ind l p ≠ 0%nat) then
    let k := deme_of (linearGroup s) (gidx s) in
    let s := set_alleleCounts
               (alter3 Z.pred k l (datum ind l p - 1) (alleleCounts s)) s in
    let s := set_alleleCountsTotals (alter2 Z.pred k l (alleleCountsTotals s)) s in
    let s := set_admixCounts (alter2 Z.pred ind k (admixCounts s)) s in
    set_admixCountsTotals (alter Z.pred ind (admixCountsTotals s)) s
  else s.

(** Add the current gene copy to allele counts and admix counts. *)
Definition add_copy (ind l p : nat) (s : chain) : chain :=
  if decide (datum ind l p ≠ 0%nat) then
    let k := deme_of (linearGroup s) (gidx s) in
    let s := set_alleleCounts
               (alter3 Z.succ k l (datum ind l p - 1) (alleleCounts s)) s in
    let s := set_alleleCountsTotals (alter2 Z.succ k l (alleleCountsTotals s)) s in
    let s := set_admixCounts (alter2 Z.succ ind k (admixCounts s)) s in
    set_admixCountsTotals (alter Z.succ ind (admixCountsTotals s)) s
  else s.

(** ** reset *)

Definition reset_group (us : nat → R) (s : chain) : option chain :=
  let equalK := replicate (K cfg) (1 / INR (K cfg)) in
  for_copies (λ ind l p acc,
      s ← acc;
      let s := next_copy s in
      k ← sample1 equalK 1 (us (gidx s));
      Some (set_linearGroup (<[gidx s := k]> (linearGroup s)) s))
    (Some (set_groupIndex (-1) s)).

Definition reset_zero (s : chain) : chain :=
  let s :=
    for_range (K cfg) (λ k s,
      let s := set_alleleCountsTotals
                 (<[k := replicate (loci cfg) 0%Z]> (alleleCountsTotals s)) s in
      for_range (loci cfg) (λ l s,
        set_alleleCounts (set2 k l (replicate (J cfg !!! l) 0%Z) (alleleCounts s)) s) s) s in
  let s := set_admixCounts (replicate (n cfg) (replicate (K cfg) 0%Z)) s in
  set_admixCountsTotals (replicate (n cfg) 0%Z) s.

Definition reset_populate (s : chain) : chain :=
  for_copies (λ ind l p s, add_copy ind l p (next_copy s)) (set_groupIndex (-1) s).

Definition reset (reset_Qmatrix_running : bool) (us : nat → R) (s : chain) : option chain :=
  let G := geneCopies cfg in
  let s := set_logLikeGroup 0 s in
  let s := set_logLikeGroup_sum 0 s in
  let s := set_logLikeGroup_store (replicate (samples cfg) 0) s in
  let s := set_logLikeGroup_sumSquared 0 s in
  let s := set_logLikeJoint 0 s in
  let s := set_logLikeJoint_sum 0 s in
  let s := set_logLikeJoint_sumSquared 0 s in
  let s := set_harmonic (xlog 0) s in
  let s := set_logQmatrix_gene_old (replicate G (replicate (K cfg) 0)) s in
  let s := set_logQmatrix_gene_new (replicate G (replicate (K cfg) 0)) s in
  let s := set_Qmatrix_gene_new (replicate G (replicate (K cfg) 0)) s in
  let s :=
    if reset_Qmatrix_running
    then set_logQmatrix_gene_running
           (replicate G (replicate (K cfg) (- ln (INR (K cfg))))) s
    else s in
  let s := set_logQmatrix_gene (replicate G (replicate (K cfg) (xlog 0))) s in
  let s := set_Qmatrix_gene (replicate G (replicate (K cfg) (Fin 0))) s in
  let s := set_Qmatrix_ind (replicate (n cfg) (replicate (K cfg) (Fin 0))) s in
  let s := set_Qmatrix_pop (replicate (uniquePops cfg) (replicate (K cfg) (Fin 0))) s in
  s ← reset_group us s;
  Some (reset_populate (reset_zero s)).

(** ** group_update *)

(** The factor of deme [k] that comes from the allele counts. *)
Definition allele_ratio (ind l p k : nat) (s : chain) : R :=
  (IZR (at3 (alleleCounts s) k l (datum ind l p - 1)) + lambda cfg)
  / (IZR (at2 (alleleCountsTotals s) k l) + INR (J cfg !!! l) * lambda cfg).

(** Probability of this gene copy from all demes, left in [probVec] and
    [probVecSum]. *)
Definition group_probs (ind l p : nat) (s : chain) : chain :=
  for_range (K cfg) (λ k s,
      let v :=
        if decide (datum ind l p = 0%nat) then 1
        else
          let v := allele_ratio ind l p k s in
          if decide (beta cfg ≠ 1) then pow v (beta cfg) else v in
      let v := v * (IZR (at2 (admixCounts s) ind k) + alpha s) in
      let s := set_probVec (<[k := v]> (probVec s)) s in
      set_probVecSum (probVecSum s + v) s)
    (set_probVecSum 0 s).

Definition group_step (us : nat → R) (ind l p : nat) (s : chain) : option chain :=
  let s := next_copy s in
  let s := remove_copy ind l p s in
  let s := group_probs ind l p s in
  k ← sample1 (probVec s) (probVecSum s) (us (gidx s));
  let s := set_linearGroup (<[gidx s := k]> (linearGroup s)) s in
  Some (add_copy ind l p s).

Definition group_update (us : nat → R) (s : chain) : option chain :=
  for_copies (λ ind l p acc, acc ≫= group_step us ind l p) (Some (set_groupIndex (-1) s)).

(** ** drawFreqs *)

(** Draw allele frequencies and admixture proportions; [ga k l j] and
    [gm i k] are the values returned by the calls to [rgamma1]. *)
Definition drawFreqs (ga : nat → nat → nat → R) (gm : nat → nat → R) (s : chain) : chain :=
  let s :=
    for_range (K cfg) (λ k,
      for_range (loci cfg) (λ l s,
        let '(s, randSum) :=
          for_range (J cfg !!! l) (λ j '(s, randSum),
              let s := set_alleleFreqs
                         (alter3 (λ _, ga k l j) k l j (alleleFreqs s)) s in
              (s, randSum + at3 (alleleFreqs s) k l j))
            (s, 0) in
        for_range (J cfg !!! l) (λ j s,
          set_alleleFreqs (alter3 (λ x, x / randSum) k l j (alleleFreqs s)) s) s)) s in
  for_range (n cfg) (λ i s,
    let '(s, randSum) :=
      for_range (K cfg) (λ k '(s, randSum),
          let s := set_admixFreqs (alter2 (λ _, gm i k) i k (admixFreqs s)) s in
          (s, randSum + at2 (admixFreqs s) i k))
        (s, 0) in
    for_range (K cfg) (λ k s,
      set_admixFreqs (alter2 (λ x, x / randSum) i k (admixFreqs s)) s) s) s.

(** ** alpha_update *)

(** The two running sums [logProb_old] and [logProb_new]. *)
Definition alpha_logProbs (alpha_new : R) (s : chain) : R * R :=
  for_range (n cfg) (λ i '(logProb_old, logProb_new),
      let logProb_old :=
        logProb_old + (lgamma (INR (K cfg) * alpha s)
                       - lgamma (IZR (admixCountsTotals s !!! i) + INR (K cfg) * alpha s)) in
      let logProb_new :=
        logProb_new + (lgamma (INR (K cfg) * alpha_new)
                       - lgamma (IZR (admixCountsTotals s !!! i) + INR (K cfg) * alpha_new)) in
      for_range (K cfg) (λ k '(logProb_old, logProb_new),
          (logProb_old
             + (lgamma (IZR (at2 (admixCounts s) i k) + alpha s) - lgamma (alpha s)),
           logProb_new
             + (lgamma (IZR (at2 (admixCounts s) i k) + alpha_new) - lgamma alpha_new)))
        (logProb_old, logProb_new))
    (0, 0).

(** Resample alpha by the Metropolis algorithm; [proposal] is the value
    returned by [rnorm1(alpha, alphaPropSD)] and [u] the one returned by
    [runif1(0.0, 1.0)]. *)
Definition alpha_update (proposal u : R) (s : chain) : chain :=
  let alpha_new := reflect_alpha proposal in
  let '(logProb_old, logProb_new) := alpha_logProbs alpha_new s in
  if decide (u < exp (logProb_new - logProb_old)) then set_alpha alpha_new s else s.

(** ** chooseBestLabelPermutation *)

(** The cost matrix from the old and new Q matrices. *)
Definition fill_costMat (s : chain) : chain :=
  for_range (K cfg) (λ k1,
    for_range (K cfg) (λ k2 s,
      let s := set_costMat (set2 k1 k2 0 (costMat s)) s in
      for_range (geneCopies cfg) (λ i s,
        set_costMat
          (alter2 (λ c, c + at2 (Qmatrix_gene_new s) i k1
                            * (at2 (logQmatrix_gene_new s) i k1
                               - at2 (logQmatrix_gene_running s) i k2))
             k1 k2 (costMat s)) s) s)) s.

(** [bestPermOrder] and the flag [performSwap]. *)
Definition order_loop (s : chain) : chain * bool :=
  for_range (K cfg) (λ k '(s, performSwap),
      let s := set_bestPermOrder (<[bestPerm s !!! k := k]> (bestPermOrder s)) s in
      (s, if decide (bestPerm s !!! k ≠ k) then true else performSwap))
    (s, false).

(** The body of [if (performSwap)]. *)
Definition swap_labels (s : chain) : chain :=
  let s :=
    for_range (geneCopies cfg) (λ i s,
      set_linearGroup
        (<[i := (bestPerm s !!! (linearGroup s !!! i - 1) + 1)%nat]> (linearGroup s)) s) s in
  let old_alleleCounts := alleleCounts s in
  let old_alleleCountsTotals := alleleCountsTotals s in
  let s :=
    for_range (K cfg) (λ k s,
      let s := set_alleleCounts
                 (<[k := old_alleleCounts !!! (bestPermOrder s !!! k)]> (alleleCounts s)) s in
      set_alleleCountsTotals
        (<[k := old_alleleCountsTotals !!! (bestPermOrder s !!! k)]>
           (alleleCountsTotals s)) s) s in
  let old_admixCounts := admixCounts s in
  let s :=
    for_range (n cfg) (λ i,
      for_range (K cfg) (λ k s,
        set_admixCounts
          (set2 i k (at2 old_admixCounts i (bestPermOrder s !!! k)) (admixCounts s)) s)) s in
  let s := set_logQmatrix_gene_old (logQmatrix_gene_new s) s in
  for_range (geneCopies cfg) (λ i,
    for_range (K cfg) (λ k s,
      set_logQmatrix_gene_new
        (set2 i k (at2 (logQmatrix_gene_old s) i (bestPermOrder s !!! k))
           (logQmatrix_gene_new s)) s)) s.

(** The relabelling that follows the call of the solver. *)
Definition relabel (s : chain) : chain :=
  let '(s, performSwap) := order_loop s in
  if performSwap then swap_labels s else s.

Definition chooseBestLabelPermutation (s : chain) : chain :=
  let s := fill_costMat s in
  let s := set_bestPerm (hungarian (costMat s)) s in
  relabel s.

(** ** produceQmatrix *)

Definition Q_probs (ind l p : nat) (s : chain) : chain :=
  for_range (K cfg) (λ k s,
      let v :=
        if decide (datum ind l p = 0%nat) then 1 else allele_ratio ind l p k s in
      let v := v * (IZR (at2 (admixCounts s) ind k) + alpha s) in
      let s := set_probVec (<[k := v]> (probVec s)) s in
      set_probVecSum (probVecSum s + v) s)
    (set_probVecSum 0 s).

Definition produceQmatrix (s : chain) : chain :=
  for_copies (λ ind l p s,
      let s := next_copy s in
      let s := Q_probs ind l p s in
      for_range (K cfg) (λ k s,
          let s := set_Qmatrix_gene_new
                     (set2 (gidx s) k (probVec s !!! k / probVecSum s)
                        (Qmatrix_gene_new s)) s in
          set_logQmatrix_gene_new
            (set2 (gidx s) k (ln (at2 (Qmatrix_gene_new s) (gidx s) k))
               (logQmatrix_gene_new s)) s) s)
    (set_groupIndex (-1) s).

(** ** updateQmatrix and storeQmatrix *)

Definition updateQmatrix (s : chain) : chain :=
  for_range (geneCopies cfg) (λ i,
    for_range (K cfg) (λ k s,
      set_logQmatrix_gene_running
        (set2 i k (logSum_fin (at2 (logQmatrix_gene_running s) i k)
                     (at2 (logQmatrix_gene_new s) i k))
           (logQmatrix_gene_running s)) s)) s.

Definition storeQmatrix (s : chain) : chain :=
  for_copies (λ ind l p s,
      let s := next_copy s in
      for_range (K cfg) (λ k s,
        set_logQmatrix_gene
          (set2 (gidx s) k
             (logSum (at2 (logQmatrix_gene s) (gidx s) k)
                (Fin (at2 (logQmatrix_gene_new s) (gidx s) k)))
             (logQmatrix_gene s)) s) s)
    (set_groupIndex (-1) s).

(** ** d_logLikeGroup and d_logLikeJoint *)

(** Probability of data given grouping only, integrated over unknown allele
    frequencies.  The sum is taken on the reals;
    [Binary64.d_logLikeGroup64] is the same loop on binary64. *)
Definition d_logLikeGroup (s : chain) : chain :=
  for_range (K cfg) (λ k,
    for_range (loci cfg) (λ l s,
      let s :=
        for_range (J cfg !!! l) (λ j s,
          set_logLikeGroup
            (logLikeGroup s
             + (lgamma (lambda cfg + IZR (at3 (alleleCounts s) k l j))
                - lgamma (lambda cfg))) s) s in
      set_logLikeGroup
        (logLikeGroup s
         + (lgamma (INR (J cfg !!! l) * lambda cfg)
            - lgamma (INR (J cfg !!! l) * lambda cfg
                      + IZR (at2 (alleleCountsTotals s) k l)))) s))
    (set_logLikeGroup 0 s).

Definition d_logLikeJoint (s : chain) : chain :=
  for_copies (λ i l p s,
      if decide (datum i l p ≠ 0%nat) then
        let temp1 :=
          for_range (K cfg) (λ k temp1,
            temp1 + at2 (admixFreqs s) i k
                    * at3 (alleleFreqs s) k l (datum i l p - 1)) 0 in
        set_logLikeJoint (logLikeJoint s + ln temp1) s
      else s)
    (set_logLikeJoint 0 s).

(** ** perform_MCMC *)

(** The Q matrices at the end of the run. *)
Definition finish_Qmatrices (s : chain) : chain :=
  let s :=
    for_copies (λ ind l p s,
        let s := next_copy s in
        for_range (K cfg) (λ k s,
          set_Qmatrix_gene
            (set2 (gidx s) k
               (xexp (xsub (at2 (logQmatrix_gene s) (gidx s) k)
                        (xlog (INR (samples cfg)))))
               (Qmatrix_gene s)) s) s)
      (set_groupIndex (-1) s) in
  let s := set_groupIndex (-1) s in
  let s :=
    for_range (n cfg) (λ ind s,
      let s :=
        for_range (loci cfg) (λ l,
          for_range (ploidy_vec cfg !!! ind) (λ p s,
            let s := next_copy s in
            for_range (K cfg) (λ k s,
              set_Qmatrix_ind
                (alter2 (λ q, xadd q (at2 (Qmatrix_gene s) (gidx s) k)) ind k
                   (Qmatrix_ind s)) s) s)) s in
      for_range (K cfg) (λ k s,
        set_Qmatrix_ind
          (alter2 (λ q, xdiv q (INR (ploidy_vec cfg !!! ind * loci cfg))) ind k
             (Qmatrix_ind s)) s) s) s in
  if outputQmatrix_pop_on cfg then
    let s :=
      for_range (n cfg) (λ i,
        for_range (K cfg) (λ k s,
          set_Qmatrix_pop
            (alter2 (λ q, xadd q (at2 (Qmatrix_ind s) i k)) (pop_index cfg !!! i) k
               (Qmatrix_pop s)) s)) s in
    for_range (uniquePops cfg) (λ i,
      for_range (K cfg) (λ k s,
        set_Qmatrix_pop
          (alter2 (λ q, xdiv q (INR (uniquePop_counts cfg !!! i))) i k
             (Qmatrix_pop s)) s)) s
  else s.

(** One pass of the thinning loop. *)
Definition thin_step (d : draws) (rep thin : nat) (acc : option chain) : option chain :=
  s ← acc;
  s ← group_update (u_group d rep thin) s;
  Some (if fixAlpha_on cfg then s else alpha_update (z_alpha d rep thin) (u_alpha d rep thin) s).

(** The likelihood sums of an iteration that is no longer in burn-in. *)
Definition record_likelihood (drawAlleleFreqs storeLoglike : bool) (rep : nat)
    (s : chain) : chain :=
  let s := set_logLikeGroup_sum (logLikeGroup_sum s + logLikeGroup s) s in
  let s := set_logLikeGroup_sumSquared
             (logLikeGroup_sumSquared s + logLikeGroup s * logLikeGroup s) s in
  let s :=
    if storeLoglike
    then set_logLikeGroup_store
           (<[(rep - burnin cfg)%nat := logLikeGroup s]> (logLikeGroup_store s)) s
    else s in
  let s := set_harmonic (logSum (harmonic s) (Fin (- logLikeGroup s))) s in
  if drawAlleleFreqs then
    let s := set_logLikeJoint_sum (logLikeJoint_sum s + logLikeJoint s) s in
    set_logLikeJoint_sumSquared
      (logLikeJoint_sumSquared s + logLikeJoint s * logLikeJoint s) s
  else s.

(** One iteration of the MCMC loop; [thinSwitch] is carried with the object. *)
Definition mcmc_step (d : draws) (drawAlleleFreqs storeLoglike fixLabels : bool)
    (rep : nat) (acc : option (nat * chain)) : option (nat * chain) :=
  '(thinSwitch, s) ← acc;
  s ← for_range thinSwitch (thin_step d rep) (Some s);
  let thinSwitch := if decide (rep = burnin cfg) then thinning cfg else thinSwitch in
  let s :=
    if fixLabels then
      let s := produceQmatrix s in
      let s := chooseBestLabelPermutation s in
      let s := updateQmatrix s in
      if decide (burnin cfg ≤ rep)%nat then storeQmatrix s else s
    else s in
  let s := d_logLikeGroup s in
  let s :=
    if drawAlleleFreqs
    then d_logLikeJoint (drawFreqs (g_allele d rep) (g_admix d rep) s)
    else s in
  let s :=
    if decide (burnin cfg ≤ rep)%nat
    then record_likelihood drawAlleleFreqs storeLoglike rep s
    else s in
  Some (thinSwitch, s).

Definition perform_MCMC (d : draws) (drawAlleleFreqs storeLoglike fixLabels : bool)
    (s : chain) : option chain :=
  '(_, s) ← for_range (burnin cfg + samples cfg)
              (mcmc_step d drawAlleleFreqs storeLoglike fixLabels) (Some (1%nat, s));
  let s := if fixLabels then finish_Qmatrices s else s in
  Some (set_harmonic (xsub (xlog (INR (samples cfg))) (harmonic s)) s).


(** * Statements

    The quantities in which the properties of the sampler are stated. *)

(** The logarithm of the Dirichlet-multinomial marginal of the admixture
    counts at the concentration [a]. *)
Definition log_p (a : R) (s : chain) : R :=
  sum_upto (n cfg) (λ i,
    lgamma (INR (K cfg) * a)
    - lgamma (IZR (admixCountsTotals s !!! i) + INR (K cfg) * a)
    + sum_upto (K cfg) (λ k, lgamma (IZR (at2 (admixCounts s) i k) + a) - lgamma a)).

(** A matrix of [a] rows of length [b]. *)
Definition rows {A} (a b : nat) (m : list (list A)) : Prop :=
  length m = a ∧ Forall (λ r, length r = b) m.

(** A tensor indexed by deme, locus and allele. *)
Definition cells {A} (m : list (list (list A))) : Prop :=
  length m = K cfg
  ∧ Forall (λ r, length r = loci cfg
                 ∧ ∀ l, (l < loci cfg)%nat → length (r !!! l) = J cfg !!! l) m.

(** The value left in [probVec[k]] by [group_update]. *)
Definition group_weight (ind l p : nat) (s : chain) (k : nat) : R :=
  (if decide (datum ind l p = 0%nat) then 1
   else if decide (beta cfg ≠ 1) then pow (allele_ratio ind l p k s) (beta cfg)
        else allele_ratio ind l p k s)
  * (IZR (at2 (admixCounts s) ind k) + alpha s).

(** The value left in [probVec[k]] by [produceQmatrix]. *)
Definition Q_weight (ind l p : nat) (s : chain) (k : nat) : R :=
  (if decide (datum ind l p = 0%nat) then 1 else allele_ratio ind l p k s)
  * (IZR (at2 (admixCounts s) ind k) + alpha s).


(** *** Shapes established by the constructor *)

Record shaped (s : chain) : Prop := Build_shaped {
  sh_group : length (linearGroup s) = geneCopies cfg;
  sh_alleleCounts : cells (alleleCounts s);
  sh_alleleCountsTotals : rows (K cfg) (loci cfg) (alleleCountsTotals s);
  sh_admixCounts : rows (n cfg) (K cfg) (admixCounts s);
  sh_admixCountsTotals : length (admixCountsTotals s) = n cfg;
  sh_probVec : length (probVec s) = K cfg;
  sh_costMat : rows (K cfg) (K cfg) (costMat s);
  sh_bestPermOrder : length (bestPermOrder s) = K cfg
}.

(** The shapes of the per-iteration Q matrices. *)
Record Q_shaped (s : chain) : Prop := Build_Q_shaped {
  sh_Qnew : rows (geneCopies cfg) (K cfg) (Qmatrix_gene_new s);
  sh_logQnew : rows (geneCopies cfg) (K cfg) (logQmatrix_gene_new s)
}.

(** *** Well-formed data *)

(** The allele observed at a gene copy. *)
Definition allele (c : nat * nat * nat) : nat := datum c.1.1 c.1.2 c.2.
Definition present (c : nat * nat * nat) : bool := negb (Nat.eqb (allele c) 0).

(** [geneCopies] counts the gene copies and every allele code lies in
    [0..J[l]]. *)
Definition data_ok : Prop :=
  geneCopies cfg = length copies
  ∧ Forall (λ c, (allele c ≤ J cfg !!! c.1.2)%nat) copies.

(** *** What the count tensors count *)

Fixpoint count_if {A} (P : A → bool) (l : list A) : Z :=
  match l with
  | [] => 0
  | x :: l' => (if P x then 1 else 0) + count_if P l'
  end.

(** The gene copies in canonical order, each with its current label. *)
Definition labelled (grp : list nat) : list (nat * nat * nat * nat) := zip copies grp.

(** Membership of a labelled gene copy in the cells of the four tensors. *)
Definition in_cell (k l j : nat) (x : nat * nat * nat * nat) : bool :=
  Nat.eqb x.1.1.2 l && Nat.eqb (allele x.1) (S j) && Nat.eqb x.2 (S k).
Definition in_row (k l : nat) (x : nat * nat * nat * nat) : bool :=
  Nat.eqb x.1.1.2 l && present x.1 && Nat.eqb x.2 (S k).
Definition in_admix (i k : nat) (x : nat * nat * nat * nat) : bool :=
  Nat.eqb x.1.1.1 i && present x.1 && Nat.eqb x.2 (S k).
Definition of_ind (i : nat) (x : nat * nat * nat * nat) : bool :=
  Nat.eqb x.1.1.1 i && present x.1.

(** Every entry of the tensors is the number given by [cnt]. *)
Record tallies (cnt : (nat * nat * nat * nat → bool) → Z) (s : chain) : Prop :=
  Build_tallies {
  tl_alleleCounts : ∀ k l j,
    (k < K cfg)%nat → (l < loci cfg)%nat → (j < J cfg !!! l)%nat →
    at3 (alleleCounts s) k l j = cnt (in_cell k l j);
  tl_alleleCountsTotals : ∀ k l,
    (k < K cfg)%nat → (l < loci cfg)%nat →
    at2 (alleleCountsTotals s) k l = cnt (in_row k l);
  tl_admixCounts : ∀ i k,
    (i < n cfg)%nat → (k < K cfg)%nat →
    at2 (admixCounts s) i k = cnt (in_admix i k);
  tl_admixCountsTotals : ∀ i,
    (i < n cfg)%nat → admixCountsTotals s !!! i = cnt (of_ind i)
}.

(** The state of a chain between two operations: every label is a deme and
    every tensor entry is the number of gene copies it stands for. *)
Record consistent (s : chain) : Prop := Build_consistent {
  cs_shaped : shaped s;
  cs_labels : Forall (λ g, (1 ≤ g ≤ K cfg)%nat) (linearGroup s);
  cs_tallies : tallies (λ P, count_if P (labelled (linearGroup s))) s
}.

(** *** The invariants of the sufficient statistics *)

(** Non-missing gene copies of individual [i]; observations of allele [j]
    (coded [j+1]) at locus [l]. *)
Definition nonmissing_of (i : nat) : Z :=
  count_if (λ c, Nat.eqb c.1.1 i && present c) copies.
Definition observed (l j : nat) : Z :=
  count_if (λ c, Nat.eqb c.1.2 l && Nat.eqb (allele c) (S j)) copies.

Definition stats_consistent (s : chain) : Prop :=
  (∀ k l, (k < K cfg)%nat → (l < loci cfg)%nat →
     at2 (alleleCountsTotals s) k l
     = sumZ_upto (J cfg !!! l) (λ j, at3 (alleleCounts s) k l j))
  ∧ (∀ i, (i < n cfg)%nat →
       admixCountsTotals s !!! i = sumZ_upto (K cfg) (λ k, at2 (admixCounts s) i k)
       ∧ admixCountsTotals s !!! i = nonmissing_of i)
  ∧ (∀ l j, (l < loci cfg)%nat → (j < J cfg !!! l)%nat →
       sumZ_upto (K cfg) (λ k, at3 (alleleCounts s) k l j) = observed l j).

(** The two blocks that move a gene copy out of and into the counts differ
    only in the operation applied to the four entries. *)
Definition shift_copy (f : Z → Z) (ind l p : nat) (s : chain) : chain :=
  if decide (datum ind l p ≠ 0%nat) then
    let k := deme_of (linearGroup s) (gidx s) in
    let s := set_alleleCounts
               (alter3 f k l (datum ind l p - 1) (alleleCounts s)) s in
    let s := set_alleleCountsTotals (alter2 f k l (alleleCountsTotals s)) s in
    let s := set_admixCounts (alter2 f ind k (admixCounts s)) s in
    set_admixCountsTotals (alter f ind (admixCountsTotals s)) s
  else s.

(** *** The contract of the Hungarian solver *)

(** The entry [(k1, k2)] of the cost matrix of Stephens' method. *)
Definition stephens_cost (s : chain) (k1 k2 : nat) : R :=
  sum_upto (geneCopies cfg) (λ g,
    at2 (Qmatrix_gene_new s) g k1
    * (at2 (logQmatrix_gene_new s) g k1 - at2 (logQmatrix_gene_running s) g k2)).

(** The cost of assigning label [sigma[k]] to label [k]. *)
Definition assignment_cost (C : list (list R)) (sigma : list nat) : R :=
  sum_upto (K cfg) (λ k, at2 C k (sigma !!! k)).

(** [p] is a permutation of the labels that minimises the assignment cost. *)
Definition solves (C : list (list R)) (p : list nat) : Prop :=
  p ≡ₚ seq 0 (K cfg)
  ∧ ∀ sigma, sigma ≡ₚ seq 0 (K cfg) → assignment_cost C p <= assignment_cost C sigma.

(** The solver returns such a permutation on every square cost matrix. *)
Definition hungarian_ok : Prop :=
  ∀ C, rows (K cfg) (K cfg) C → solves C (hungarian C).

(** The relabelling of a 1-based label by a permutation of [0..K-1]. *)
Definition relabelled (p : list nat) (g : nat) : nat := (p !!! (g - 1) + 1)%nat.

(** The solver returns a permutation of the labels. *)
Definition hungarian_permutes : Prop :=
  ∀ C, rows (K cfg) (K cfg) C → hungarian C ≡ₚ seq 0 (K cfg).

(** The members on which the consistency of a chain depends. *)
Definition core (s : chain) :=
  (linearGroup s, alleleCounts s, alleleCountsTotals s, admixCounts s,
   admixCountsTotals s, length (probVec s), costMat s, length (bestPermOrder s)).

(** *** The states of a chain

    A chain is reset after construction and then only changed by its member
    functions, in any order. *)
Inductive reachable : chain → Prop :=
| reach_reset (b : bool) (us : nat → R) (s0 s : chain) :
    shaped s0 → reset b us s0 = Some s → reachable s
| reach_group_update (us : nat → R) (s s' : chain) :
    reachable s → group_update us s = Some s' → reachable s'
| reach_alpha_update (proposal u : R) (s : chain) :
    reachable s → reachable (alpha_update proposal u s)
| reach_produceQmatrix (s : chain) :
    reachable s → reachable (produceQmatrix s)
| reach_chooseBestLabelPermutation (s : chain) :
    reachable s → reachable (chooseBestLabelPermutation s)
| reach_updateQmatrix (s : chain) :
    reachable s → reachable (updateQmatrix s)
| reach_storeQmatrix (s : chain) :
    reachable s → reachable (storeQmatrix s)
| reach_d_logLikeGroup (s : chain) :
    reachable s → reachable (d_logLikeGroup s)
| reach_drawFreqs (ga : nat → nat → nat → R) (gm : nat → nat → R) (s : chain) :
    reachable s → reachable (drawFreqs ga gm s)
| reach_d_logLikeJoint (s : chain) :
    reachable s → reachable (d_logLikeJoint s)
| reach_record_likelihood (drawAlleleFreqs storeLoglike : bool) (rep : nat) (s : chain) :
    reachable s → reachable (record_likelihood drawAlleleFreqs storeLoglike rep s)
| reach_finish_Qmatrices (s : chain) :
    reachable s → reachable (finish_Qmatrices s).

(** *** The collapsed marginal likelihood *)

(** The contribution of one deme, from its rows of the two allele tensors. *)
Definition deme_logLike (row : list (list Z)) (trow : list Z) : R :=
  sum_upto (loci cfg) (λ l,
    sum_upto (J cfg !!! l) (λ j,
      lgamma (lambda cfg + IZR ((row !!! l) !!! j)) - lgamma (lambda cfg))
    + (lgamma (INR (J cfg !!! l) * lambda cfg)
       - lgamma (INR (J cfg !!! l) * lambda cfg + IZR (trow !!! l)))).

(** The marginal likelihood formula on a pair of count tensors. *)
Definition logLike_of (ac : list (list (list Z))) (tot : list (list Z)) : R :=
  sum_upto (K cfg) (λ k, deme_logLike (ac !!! k) (tot !!! k)).

(** *** Weights *)

(** No entry of the count tensors is negative. *)
Definition counts_nonneg (s : chain) : Prop :=
  (∀ k l j, (k < K cfg)%nat → (l < loci cfg)%nat → (j < J cfg !!! l)%nat →
     (0 ≤ at3 (alleleCounts s) k l j)%Z)
  ∧ (∀ k l, (k < K cfg)%nat → (l < loci cfg)%nat → (0 ≤ at2 (alleleCountsTotals s) k l)%Z)
  ∧ (∀ i k, (i < n cfg)%nat → (k < K cfg)%nat → (0 ≤ at2 (admixCounts s) i k)%Z).

(** The weight of deme [k] as the sampler's conditional posterior has it:
    the admixture factor, times the allele factor raised to the power [beta]
    unless the observation is missing. *)
Definition posterior_weight (ind l p : nat) (s : chain) (k : nat) : R :=
  if decide (datum ind l p = 0%nat)
  then IZR (at2 (admixCounts s) ind k) + alpha s
  else (IZR (at2 (admixCounts s) ind k) + alpha s)
       * Rpower
           ((IZR (at3 (alleleCounts s) k l (datum ind l p - 1)) + lambda cfg)
            / (IZR (at2 (alleleCountsTotals s) k l) + INR (J cfg !!! l) * lambda cfg))
           (beta cfg).

(** The same weight at [beta = 1], as [produceQmatrix] has it. *)
Definition Q_posterior_weight (ind l p : nat) (s : chain) (k : nat) : R :=
  if decide (datum ind l p = 0%nat)
  then IZR (at2 (admixCounts s) ind k) + alpha s
  else (IZR (at2 (admixCounts s) ind k) + alpha s)
       * ((IZR (at3 (alleleCounts s) k l (datum ind l p - 1)) + lambda cfg)
          / (IZR (at2 (alleleCountsTotals s) k l) + INR (J cfg !!! l) * lambda cfg)).

(** *** The run of a chain *)

(** The members that carry the harmonic mean. *)
Definition liks (s : chain) := (harmonic s, logLikeGroup_store s, logLikeGroup s).

(** The value of [logLikeGroup] at the end of iteration [rep] of
    [perform_MCMC] started from [s]. *)
Definition logLike_trace (d : draws) (drawAlleleFreqs storeLoglike fixLabels : bool)
    (s : chain) (rep : nat) : R :=
  match for_range (S rep) (mcmc_step d drawAlleleFreqs storeLoglike fixLabels)
          (Some (1%nat, s)) with
  | Some (_, x) => logLikeGroup x
  | None => 0
  end.

(** The accumulator [H <- logSum(H, -v)] after [j] values, from [log 0]. *)
Definition harmonic_acc (v : nat → R) (j : nat) : xreal :=
  for_range j (λ i h, logSum h (Fin (- v i))) (xlog 0).

(** The invariant of the run: a consistent chain with [alpha] in (0, 10]. *)
Definition sound (s : chain) : Prop := consistent s ∧ 0 < alpha s <= 10.

(** *** A small chain

    One diploid individual typed at one locus with two alleles, two demes:
    the first gene copy carries allele 1 and sits in deme 1, the second
    carries allele 2 and sits in deme 2. *)

Definition cfg_ex : config :=
  {| K := 2; n := 1; loci := 1; J := [2%nat]; ploidy_vec := [2%nat];
     data := [[[1%nat; 2%nat]]]; geneCopies := 2; uniquePops := 1;
     pop_index := [0%nat]; uniquePop_counts := [1%nat];
     lambda := 1; alphaPropSD := 1; beta := 1;
     burnin := 0; samples := 1; thinning := 1;
     fixAlpha_on := true; outputQmatrix_pop_on := false |}.

Definition chain_ex : chain :=
  {| groupIndex := -1;
     linearGroup := [1%nat; 2%nat];
     alleleCounts := [[[1%Z; 0%Z]]; [[0%Z; 1%Z]]];
     alleleCountsTotals := [[1%Z]; [1%Z]];
     alleleFreqs := [[[0; 0]]; [[0; 0]]];
     admixCounts := [[1%Z; 1%Z]];
     admixCountsTotals := [2%Z];
     admixFreqs := [[0; 0]];
     alpha := 1;
     probVec := [0; 0];
     probVecSum := 0;
     logQmatrix_gene_old := [[0; 0]; [0; 0]];
     logQmatrix_gene_new := [[0; 0]; [0; 0]];
     Qmatrix_gene_new := [[0; 0]; [0; 0]];
     logQmatrix_gene_running := [[0; 0]; [0; 0]];
     logQmatrix_gene := [[NegInf; NegInf]; [NegInf; NegInf]];
     Qmatrix_gene := [[Fin 0; Fin 0]; [Fin 0; Fin 0]];
     Qmatrix_ind := [[Fin 0; Fin 0]];
     Qmatrix_pop := [[Fin 0; Fin 0]];
     costMat := [[0; 0]; [0; 0]];
     bestPerm := [];
     bestPermOrder := [0%nat; 0%nat];
     logLikeGroup := 0;
     logLikeGroup_sum := 0;
     logLikeGroup_store := [0];
     logLikeGroup_sumSquared := 0;
     logLikeJoint := 0;
     logLikeJoint_sum := 0;
     logLikeJoint_sumSquared := 0;
     harmonic := NegInf |}.

(** A solver for two labels, a stand-in for [lgamma], and deviates. *)
Definition hungarian_ex (C : list (list R)) : list nat :=
  if decide (at2 C 0 0 + at2 C 1 1 <= at2 C 0 1 + at2 C 1 0)
  then [0%nat; 1%nat] else [1%nat; 0%nat].

Definition lgamma_ex (x : R) : R := 0.

Definition draws_ex : draws :=
  {| u_group := λ _ _ _, 0; z_alpha := λ _ _, 0; u_alpha := λ _ _, 0;
     g_allele := λ _ _ _ _, 1; g_admix := λ _ _ _, 1 |}.

(** *** Members a function does not write *)

(** The observation [q] of the object does not see the member written by
    [set]. *)
Definition ignores {A B} (set : A → chain → chain) (q : chain → B) : Prop :=
  ∀ v s, q (set v s) = q s.

(** The members outside the sufficient statistics and the work vector of the
    sweep: the concentration, the drawn frequencies, the Q matrices, the
    members of the solver and the likelihood summaries. *)
Definition Q_members (s : chain) :=
  (logQmatrix_gene_old s, logQmatrix_gene_new s, Qmatrix_gene_new s,
   logQmatrix_gene_running s, logQmatrix_gene s, Qmatrix_gene s, Qmatrix_ind s,
   Qmatrix_pop s).
Definition solver_members (s : chain) := (costMat s, bestPerm s, bestPermOrder s).
Definition likelihood_members (s : chain) :=
  (logLikeGroup s, logLikeGroup_sum s, logLikeGroup_store s, logLikeGroup_sumSquared s,
   logLikeJoint s, logLikeJoint_sum s, logLikeJoint_sumSquared s, harmonic s).
Definition outside_sweep (s : chain) :=
  (alpha s, alleleFreqs s, admixFreqs s, Q_members s, solver_members s,
   likelihood_members s).

(** The members the label alignment leaves alone. *)
Definition outside_alignment (s : chain) :=
  (groupIndex s, alpha s, admixCountsTotals s, alleleFreqs s, admixFreqs s,
   probVec s, probVecSum s, Qmatrix_gene_new s, logQmatrix_gene_running s,
   logQmatrix_gene s, Qmatrix_gene s, Qmatrix_ind s, Qmatrix_pop s,
   likelihood_members s).

(** The running sums of the two likelihoods. *)
Definition sums (s : chain) :=
  (logLikeGroup_sum s, logLikeGroup_sumSquared s, logLikeJoint_sum s,
   logLikeJoint_sumSquared s).

(** The value of [logLikeJoint] at the end of iteration [rep] of
    [perform_MCMC] started from [s]. *)
Definition logLikeJoint_trace (d : draws) (drawAlleleFreqs storeLoglike fixLabels : bool)
    (s : chain) (rep : nat) : R :=
  match for_range (S rep) (mcmc_step d drawAlleleFreqs storeLoglike fixLabels)
          (Some (1%nat, s)) with
  | Some (_, x) => logLikeJoint x
  | None => 0
  end.

(** [q] sees none of the members written by an iteration of [perform_MCMC]
    before the likelihoods are added to the running sums. *)
Definition ignores_iteration {B} (q : chain → B) : Prop :=
  (ignores set_groupIndex q ∧ ignores set_linearGroup q
   ∧ ignores set_alleleCounts q ∧ ignores set_alleleCountsTotals q
   ∧ ignores set_admixCounts q ∧ ignores set_admixCountsTotals q
   ∧ ignores set_probVec q ∧ ignores set_probVecSum q ∧ ignores set_alpha q)
  ∧ (ignores set_Qmatrix_gene_new q ∧ ignores set_logQmatrix_gene_new q
     ∧ ignores set_logQmatrix_gene_old q ∧ ignores set_logQmatrix_gene_running q
     ∧ ignores set_logQmatrix_gene q
     ∧ ignores set_costMat q ∧ ignores set_bestPerm q ∧ ignores set_bestPermOrder q)
  ∧ (ignores set_logLikeGroup q ∧ ignores set_alleleFreqs q
     ∧ ignores set_admixFreqs q ∧ ignores set_logLikeJoint q).

(** The chain of the example with no recorded iteration. *)
Definition cfg_ex0 : config :=
  {| K := 2; n := 1; loci := 1; J := [2%nat]; ploidy_vec := [2%nat];
     data := [[[1%nat; 2%nat]]]; geneCopies := 2; uniquePops := 1;
     pop_index := [0%nat]; uniquePop_counts := [1%nat];
     lambda := 1; alphaPropSD := 1; beta := 1;
     burnin := 0; samples := 0; thinning := 1;
     fixAlpha_on := true; outputQmatrix_pop_on := false |}.

(** The shapes of the two frequency members. *)
Definition freqs_shaped (s : chain) : Prop :=
  cells (alleleFreqs s) ∧ rows (n cfg) (K cfg) (admixFreqs s).

(** The probability of the allele of gene copy [c] given the frequencies
    held by the object: the mixture over the demes of the allele
    frequencies, weighted by the admixture proportions of the individual. *)
Definition copy_prob (s : chain) (c : nat * nat * nat) : R :=
  sum_upto (K cfg) (λ k,
    at2 (admixFreqs s) c.1.1 k * at3 (alleleFreqs s) k c.1.2 (allele c - 1)).

(** The members [reset] leaves alone. *)
Definition outside_reset (s : chain) :=
  (alpha s, alleleFreqs s, admixFreqs s, probVec s, probVecSum s, solver_members s).

(** The Q matrices that [reset] reinitialises in every case. *)
Definition reset_Q_members (s : chain) :=
  (logQmatrix_gene_old s, logQmatrix_gene_new s, Qmatrix_gene_new s,
   logQmatrix_gene s, Qmatrix_gene s, Qmatrix_ind s, Qmatrix_pop s).

(** The sufficient statistics with the labels they are computed from. *)
Definition statistics (s : chain) :=
  (linearGroup s, alleleCounts s, alleleCountsTotals s, admixCounts s,
   admixCountsTotals s).

(** *** The Q matrices at the end of the run *)

(** The position in the canonical order of the first gene copy of
    individual [i]: the individuals before it have [loci * ploidy] gene
    copies each. *)
Definition first_copy (i : nat) : nat :=
  for_range i (λ i' a, a + loci cfg * (ploidy_vec cfg !!! i'))%nat 0%nat.

(** [init + f 0 + ... + f (m-1)] in the arithmetic of [double], added from
    the left. *)
Definition xsum_upto (m : nat) (f : nat → xreal) (init : xreal) : xreal :=
  for_range m (λ j q, xadd q (f j)) init.

(** The same sum restricted to the individuals of population [u]. *)
Definition xsum_pop (u : nat) (f : nat → xreal) (init : xreal) : xreal :=
  for_range (n cfg) (λ i q, if decide (pop_index cfg !!! i = u) then xadd q (f i) else q)
    init.

(** The entry [(g, k)] of [logQmatrix_gene_new] at the end of iteration
    [rep] of [perform_MCMC] with the label alignment, started from [s]. *)
Definition logQ_trace (d : draws) (drawAlleleFreqs storeLoglike : bool) (s : chain)
    (rep g k : nat) : R :=
  match for_range (S rep) (mcmc_step d drawAlleleFreqs storeLoglike true)
          (Some (1%nat, s)) with
  | Some (_, x) => at2 (logQmatrix_gene_new x) g k
  | None => 0
  end.

(** [q] sees none of the members that a run of [perform_MCMC] with the given
    options may write. *)
Definition ignores_run {B} (drawAlleleFreqs storeLoglike fixLabels : bool)
    (q : chain → B) : Prop :=
  (ignores set_groupIndex q ∧ ignores set_linearGroup q
   ∧ ignores set_alleleCounts q ∧ ignores set_alleleCountsTotals q
   ∧ ignores set_admixCounts q ∧ ignores set_admixCountsTotals q
   ∧ ignores set_probVec q ∧ ignores set_probVecSum q)
  ∧ (fixAlpha_on cfg = false → ignores set_alpha q)
  ∧ (fixLabels = true →
     (ignores set_Qmatrix_gene_new q ∧ ignores set_logQmatrix_gene_new q
      ∧ ignores set_logQmatrix_gene_old q ∧ ignores set_logQmatrix_gene_running q
      ∧ ignores set_logQmatrix_gene q)
     ∧ (ignores set_costMat q ∧ ignores set_bestPerm q ∧ ignores set_bestPermOrder q)
     ∧ (ignores set_Qmatrix_gene q ∧ ignores set_Qmatrix_ind q
        ∧ ignores set_Qmatrix_pop q))
  ∧ (drawAlleleFreqs = true →
     ignores set_alleleFreqs q ∧ ignores set_admixFreqs q
     ∧ ignores set_logLikeJoint q ∧ ignores set_logLikeJoint_sum q
     ∧ ignores set_logLikeJoint_sumSquared q)
  ∧ (storeLoglike = true → ignores set_logLikeGroup_store q)
  ∧ (ignores set_logLikeGroup q ∧ ignores set_logLikeGroup_sum q
     ∧ ignores set_logLikeGroup_sumSquared q ∧ ignores set_harmonic q).

(** The members of the drawn frequencies and of the joint likelihood. *)
Definition joint_members (s : chain) :=
  (alleleFreqs s, admixFreqs s, logLikeJoint s, logLikeJoint_sum s,
   logLikeJoint_sumSquared s).

(** The small chain with a single deme, and the small chain with every
    observation missing. *)
Definition cfg_one : config :=
  {| K := 1; n := 1; loci := 1; J := [2%nat]; ploidy_vec := [2%nat];
     data := [[[1%nat; 2%nat]]]; geneCopies := 2; uniquePops := 1;
     pop_index := [0%nat]; uniquePop_counts := [1%nat];
     lambda := 1; alphaPropSD := 1; beta := 1;
     burnin := 0; samples := 1; thinning := 1;
     fixAlpha_on := true; outputQmatrix_pop_on := false |}.

Definition cfg_miss : config :=
  {| K := 2; n := 1; loci := 1; J := [2%nat]; ploidy_vec := [2%nat];
     data := [[[0%nat; 0%nat]]]; geneCopies := 2; uniquePops := 1;
     pop_index := [0%nat]; uniquePop_counts := [1%nat];
     lambda := 1; alphaPropSD := 1; beta := 1;
     burnin := 0; samples := 1; thinning := 1;
     fixAlpha_on := true; outputQmatrix_pop_on := false |}.

(** * Properties *)

(** ** Loops *)

Lemma for_range_S {A} (m : nat) (body : nat → A → A) (a : A) :
  for_range (S m) body a = body m (for_range m body a).
Proof.
  unfold for_range. rewrite seq_S, fold_left_app. reflexivity.
Qed.

Lemma for_range_0 {A} (body : nat → A → A) (a : A) : for_range 0 body a = a.
Proof. reflexivity. Qed.

(** Loop invariants: [P i] holds before the pass with index [i]. *)
Lemma for_range_ind {A} (P : nat → A → Prop) (m : nat) (body : nat → A → A) (a : A) :
  P 0%nat a →
  (∀ i x, (i < m)%nat → P i x → P (S i) (body i x)) →
  P m (for_range m body a).
Proof.
  intros H0 Hstep. induction m as [|m IH].
  - exact H0.
  - rewrite for_range_S. apply Hstep; [lia|]. apply IH.
    intros i x Hi. apply Hstep. lia.
Qed.

(** A loop whose passes all keep a quantity keeps it. *)
Lemma for_range_keeps {A B} (q : A → B) (m : nat) (body : nat → A → A) (a : A) :
  (∀ i x, (i < m)%nat → q (body i x) = q x) → q (for_range m body a) = q a.
Proof.
  intros H. apply (for_range_ind (λ _ x, q x = q a)); [reflexivity|].
  intros i x Hi IH. rewrite H; assumption.
Qed.

Lemma for_range_ext {A} (m : nat) (f g : nat → A → A) (a : A) :
  (∀ i x, (i < m)%nat → f i x = g i x) → for_range m f a = for_range m g a.
Proof.
  intros H. induction m as [|m IH]; [reflexivity|].
  rewrite !for_range_S, IH, H by (intros; auto with lia). reflexivity.
Qed.

(** ** The reflection of the proposal (C5) *)

Lemma wrap_up_ge (x : R) : -10 <= wrap_up x.
Proof. funelim (wrap_up x); [assumption | lra]. Qed.

Lemma wrap_up_le (x : R) (b : R) : x <= b → 10 <= b → wrap_up x <= b.
Proof.
  funelim (wrap_up x); intros Hx Hb.
  - apply H; lra.
  - lra.
Qed.

Lemma wrap_up_id (x : R) : -10 <= x → wrap_up x = x.
Proof.
  intros Hx. rewrite wrap_up_equation_1.
  destruct (Rlt_dec x (-10)); [lra | reflexivity].
Qed.

Lemma wrap_down_le (x : R) : wrap_down x <= 20.
Proof. funelim (wrap_down x); [assumption | lra]. Qed.

Lemma wrap_down_ge (x : R) : -10 <= x → -10 <= wrap_down x.
Proof.
  funelim (wrap_down x); intros Hx.
  - apply H; lra.
  - lra.
Qed.

Lemma pow_pos (x y : R) : 0 < pow x y.
Proof. unfold pow, Rpower. apply exp_pos. Qed.

Lemma tiny_le_1 : pow 10 (-300) <= 1.
Proof.
  unfold pow, Rpower. rewrite <- exp_0.
  destruct (Req_dec (-300 * ln 10) 0) as [->|Hne]; [lra|].
  left. apply exp_increasing.
  assert (0 < ln 10) by (rewrite <- ln_1; apply ln_increasing; lra).
  lra.
Qed.

Lemma reflect_alpha_range (proposal : R) :
  0 < reflect_alpha proposal <= 10.
Proof.
  unfold reflect_alpha.
  pose proof (pow_pos 10 (-300)) as Hp. pose proof tiny_le_1 as Hq.
  pose proof (wrap_down_le (wrap_up proposal)) as H1.
  pose proof (wrap_down_ge (wrap_up proposal) (wrap_up_ge proposal)) as H2.
  repeat (case_decide || destruct (decide _)); lra.
Qed.

(** ** Sums *)

Lemma fold_left_Rplus (l : list R) (a : R) : fold_left Rplus l a = a + sumR l.
Proof.
  unfold sumR. revert a. induction l as [|x l IH]; intros a; simpl.
  - lra.
  - rewrite IH, (IH (0 + x)). lra.
Qed.

Lemma sumR_cons (x : R) (l : list R) : sumR (x :: l) = x + sumR l.
Proof. unfold sumR at 1. simpl. rewrite fold_left_Rplus. lra. Qed.

Lemma sumR_app (l1 l2 : list R) : sumR (l1 ++ l2) = sumR l1 + sumR l2.
Proof.
  unfold sumR at 1. rewrite fold_left_app, fold_left_Rplus. reflexivity.
Qed.

Lemma sum_upto_S (m : nat) (f : nat → R) : sum_upto (S m) f = sum_upto m f + f m.
Proof.
  unfold sum_upto. rewrite seq_S, map_app, sumR_app. simpl.
  rewrite sumR_cons. unfold sumR at 2. simpl. lra.
Qed.

Lemma sum_upto_0 (f : nat → R) : sum_upto 0 f = 0.
Proof. reflexivity. Qed.

Lemma sum_upto_ext (m : nat) (f g : nat → R) :
  (∀ i, (i < m)%nat → f i = g i) → sum_upto m f = sum_upto m g.
Proof.
  intros H. induction m as [|m IH]; [reflexivity|].
  rewrite !sum_upto_S, IH, H by (intros; auto with lia). reflexivity.
Qed.

Lemma sum_upto_pos (m : nat) (f : nat → R) :
  (0 < m)%nat → (∀ i, (i < m)%nat → 0 < f i) → 0 < sum_upto m f.
Proof.
  intros Hm H. induction m as [|m IH]; [lia|].
  rewrite sum_upto_S. destruct m as [|m].
  - rewrite sum_upto_0. pose proof (H 0%nat ltac:(lia)). lra.
  - assert (0 < sum_upto (S m) f) by (apply IH; [lia | intros; apply H; lia]).
    pose proof (H (S m) ltac:(lia)). lra.
Qed.

(** ** alpha_update *)

Lemma for_range_pair_sum (m : nat) (f g : nat → R) (o w : R) :
  for_range m (λ k '(o, w), (o + f k, w + g k)) (o, w)
  = (o + sum_upto m f, w + sum_upto m g).
Proof.
  induction m as [|m IH].
  - rewrite for_range_0, !sum_upto_0. f_equal; lra.
  - rewrite for_range_S, IH, !sum_upto_S. f_equal; lra.
Qed.

Lemma alpha_logProbs_eq (alpha_new : R) (s : chain) :
  alpha_logProbs alpha_new s = (log_p (alpha s) s, log_p alpha_new s).
Proof.
  unfold alpha_logProbs, log_p.
  generalize (n cfg). intros m. induction m as [|m IH].
  - reflexivity.
  - rewrite for_range_S, IH, !sum_upto_S.
    rewrite (for_range_pair_sum (K cfg)
               (λ k, lgamma (IZR (at2 (admixCounts s) m k) + alpha s) - lgamma (alpha s))
               (λ k, lgamma (IZR (at2 (admixCounts s) m k) + alpha_new)
                     - lgamma alpha_new)).
    f_equal; lra.
Qed.

Lemma alpha_update_eq (proposal u : R) (s : chain) :
  alpha_update proposal u s =
  if decide (u < exp (log_p (reflect_alpha proposal) s - log_p (alpha s) s))
  then set_alpha (reflect_alpha proposal) s else s.
Proof. unfold alpha_update. rewrite alpha_logProbs_eq. reflexivity. Qed.

(** C10: [alpha_update] writes no member other than [alpha]: the grouping,
    the four count tensors and every Q matrix are the same after the call,
    the result is the old object with a new value of [alpha], and a rejected
    proposal returns the object unchanged. *)
Theorem alpha_update_frame (proposal u : R) (s : chain) :
  let s' := alpha_update proposal u s in
  (linearGroup s' = linearGroup s
   ∧ alleleCounts s' = alleleCounts s
   ∧ alleleCountsTotals s' = alleleCountsTotals s
   ∧ admixCounts s' = admixCounts s
   ∧ admixCountsTotals s' = admixCountsTotals s)
  ∧ (Qmatrix_gene_new s' = Qmatrix_gene_new s
     ∧ logQmatrix_gene_new s' = logQmatrix_gene_new s
     ∧ logQmatrix_gene_old s' = logQmatrix_gene_old s
     ∧ logQmatrix_gene_running s' = logQmatrix_gene_running s
     ∧ logQmatrix_gene s' = logQmatrix_gene s
     ∧ Qmatrix_gene s' = Qmatrix_gene s
     ∧ Qmatrix_ind s' = Qmatrix_ind s
     ∧ Qmatrix_pop s' = Qmatrix_pop s)
  ∧ s' = set_alpha (alpha s') s
  ∧ (¬ u < exp (log_p (reflect_alpha proposal) s - log_p (alpha s) s) → s' = s).
Proof.
  cbv zeta. rewrite alpha_update_eq.
  destruct (decide (u < _)) as [Hacc|Hrej].
  - repeat split; try reflexivity. intros Hn. contradiction.
  - repeat split; try reflexivity. destruct s; reflexivity.
Qed.

(** Whether the proposal is accepted or not, [alpha] stays in (0, 10]. *)
Lemma alpha_update_keeps_range (proposal u : R) (s : chain) :
  0 < alpha s <= 10 → 0 < alpha (alpha_update proposal u s) <= 10.
Proof.
  intros Ha. rewrite alpha_update_eq. pose proof (reflect_alpha_range proposal).
  destruct (decide (u < _)); simpl; lra.
Qed.

(** On the reals, where the two loops always end, they leave the proposal
    in [-10, 20], the reflected proposal lies in (0, 10], and an [alpha] in
    (0, 10] before the call is in (0, 10] after it, accepted or rejected.
    On binary64 the loops need not end: see the binary64 reading at the end. *)
Theorem alpha_update_range (proposal u : R) (s : chain) :
  0 < alpha s <= 10 →
  -10 <= wrap_down (wrap_up proposal) <= 20
  ∧ 0 < reflect_alpha proposal <= 10
  ∧ 0 < alpha (alpha_update proposal u s) <= 10.
Proof.
  intros Ha. split; [|split].
  - split; [apply wrap_down_ge, wrap_up_ge | apply wrap_down_le].
  - apply reflect_alpha_range.
  - apply alpha_update_keeps_range. exact Ha.
Qed.

(** ** Subscripts *)

Lemma at2_alter2 {A} `{Inhabited A} (f : A → A) (i0 j0 : nat) (m : list (list A))
    (i j : nat) :
  at2 (alter2 f i0 j0 m) i j =
  if decide ((i0 = i ∧ (i0 < length m)%nat) ∧ (j0 = j ∧ (j0 < length (m !!! i0))%nat))
  then f (at2 m i j) else at2 m i j.
Proof.
  unfold at2, alter2. rewrite list_lookup_total_alter.
  destruct (decide (i0 = i ∧ (i0 < length m)%nat)) as [[-> Hi]|Hn].
  - rewrite list_lookup_total_alter.
    destruct (decide (j0 = j ∧ _)) as [[-> Hj]|Hn].
    + rewrite decide_True by auto. reflexivity.
    + rewrite decide_False by tauto. reflexivity.
  - rewrite decide_False by tauto. reflexivity.
Qed.

Lemma at3_alter3 {A} `{Inhabited A} (f : A → A) (i0 j0 k0 : nat)
    (m : list (list (list A))) (i j k : nat) :
  at3 (alter3 f i0 j0 k0 m) i j k =
  if decide ((i0 = i ∧ (i0 < length m)%nat)
             ∧ (j0 = j ∧ (j0 < length (m !!! i0))%nat)
             ∧ (k0 = k ∧ (k0 < length (at2 m i0 j0))%nat))
  then f (at3 m i j k) else at3 m i j k.
Proof.
  unfold at3, alter3, at2. rewrite list_lookup_total_alter.
  destruct (decide (i0 = i ∧ (i0 < length m)%nat)) as [[-> Hi]|Hn].
  - rewrite list_lookup_total_alter.
    destruct (decide (j0 = j ∧ _)) as [[-> Hj]|Hn].
    + rewrite list_lookup_total_alter.
      destruct (decide (k0 = k ∧ _)) as [[-> Hk]|Hn].
      * rewrite decide_True by auto. reflexivity.
      * rewrite decide_False by tauto. reflexivity.
    + rewrite decide_False by tauto. reflexivity.
  - rewrite decide_False by tauto. reflexivity.
Qed.

Lemma at2_set2 {A} `{Inhabited A} (v : A) (i0 j0 : nat) (m : list (list A)) (i j : nat) :
  at2 (set2 i0 j0 v m) i j =
  if decide ((i0 = i ∧ (i0 < length m)%nat) ∧ (j0 = j ∧ (j0 < length (m !!! i0))%nat))
  then v else at2 m i j.
Proof.
  unfold at2, set2. rewrite list_lookup_total_alter.
  destruct (decide (i0 = i ∧ (i0 < length m)%nat)) as [[-> Hi]|Hn].
  - rewrite list_lookup_total_insert.
    destruct (decide (j0 = j ∧ _)) as [[-> Hj]|Hn].
    + rewrite decide_True by auto. reflexivity.
    + rewrite decide_False by tauto. reflexivity.
  - rewrite decide_False by tauto. reflexivity.
Qed.

(** ** Shapes *)

Lemma rows_row {A} (a b : nat) (m : list (list A)) (i : nat) :
  rows a b m → (i < a)%nat → length (m !!! i) = b.
Proof.
  intros [Hl Hf] Hi. apply (Forall_lookup_total_1 _ _ i) in Hf; [exact Hf | lia].
Qed.

Lemma rows_alter2 {A} (a b : nat) (f : A → A) (i j : nat) (m : list (list A)) :
  rows a b m → rows a b (alter2 f i j m).
Proof.
  intros [Hl Hf]. split.
  - unfold alter2. rewrite length_alter. exact Hl.
  - apply Forall_alter; [exact Hf|]. intros r _ Hr. rewrite length_alter. exact Hr.
Qed.

Lemma rows_set2 {A} (a b : nat) (v : A) (i j : nat) (m : list (list A)) :
  rows a b m → rows a b (set2 i j v m).
Proof.
  intros [Hl Hf]. split.
  - unfold set2. rewrite length_alter. exact Hl.
  - apply Forall_alter; [exact Hf|]. intros r _ Hr. rewrite length_insert. exact Hr.
Qed.

Lemma rows_replicate {A} (a b : nat) (x : A) : rows a b (replicate a (replicate b x)).
Proof.
  split; [apply length_replicate|]. apply Forall_replicate, length_replicate.
Qed.

Lemma cells_row {A} (m : list (list (list A))) (k : nat) :
  cells m → (k < K cfg)%nat → length (m !!! k) = loci cfg.
Proof.
  intros [Hl Hf] Hk. apply (Forall_lookup_total_1 _ _ k) in Hf; [apply Hf | lia].
Qed.

Lemma cells_cell {A} (m : list (list (list A))) (k l : nat) :
  cells m → (k < K cfg)%nat → (l < loci cfg)%nat → length (at2 m k l) = J cfg !!! l.
Proof.
  intros [Hl Hf] Hk Hl'. apply (Forall_lookup_total_1 _ _ k) in Hf; [|lia].
  apply Hf, Hl'.
Qed.

Lemma cells_alter3 {A} (f : A → A) (i j k : nat) (m : list (list (list A))) :
  cells m → cells (alter3 f i j k m).
Proof.
  intros [Hl Hf]. split.
  - unfold alter3. rewrite length_alter. exact Hl.
  - apply Forall_alter; [exact Hf|]. intros r _ [Hr Hc]. split.
    + rewrite length_alter. exact Hr.
    + intros l Hlt. rewrite list_lookup_total_alter.
      case_decide as Hd; [destruct Hd as [-> _]; rewrite length_alter|]; apply Hc; lia.
Qed.

(** ** The categorical draw *)

Lemma sumR_take_S (p : list R) (j : nat) (x : R) :
  p !! j = Some x → sumR (take (S j) p) = sumR (take j p) + x.
Proof.
  intros Hx. rewrite (take_S_r _ _ _ Hx), sumR_app, sumR_cons.
  change (sumR []) with 0. lra.
Qed.

Lemma sample1_scan_Some (p : list R) (rand z : R) (i k : nat) :
  sample1_scan p rand z i = Some k ↔
  ∃ j, k = S (i + j) ∧ (j < length p)%nat
       ∧ rand < z + sumR (take (S j) p)
       ∧ ∀ j', (j' < j)%nat → ¬ rand < z + sumR (take (S j') p).
Proof.
  revert z i. induction p as [|x p IH]; intros z i; simpl.
  - split; [discriminate|]. intros (j & _ & Hj & _). lia.
  - destruct (decide (rand < z + x)) as [Hlt|Hge].
    + split.
      * intros [= <-]. exists 0%nat. rewrite Nat.add_0_r. simpl.
        rewrite sumR_cons. unfold sumR. simpl.
        repeat split; try lia. lra.
      * intros (j & -> & Hj & Hr & Hfirst). destruct j as [|j].
        -- rewrite Nat.add_0_r. reflexivity.
        -- exfalso. apply (Hfirst 0%nat); [lia|]. simpl.
           rewrite sumR_cons. unfold sumR. simpl. lra.
    + rewrite IH. split.
      * intros (j & -> & Hj & Hr & Hfirst). exists (S j).
        repeat split; try lia.
        -- change (take (S (S j)) (x :: p)) with (x :: take (S j) p).
           rewrite sumR_cons. lra.
        -- intros [|j'] Hj'.
           ++ simpl. rewrite sumR_cons. unfold sumR. simpl. lra.
           ++ change (take (S (S j')) (x :: p)) with (x :: take (S j') p).
              rewrite sumR_cons. intros Hc. apply (Hfirst j'); [lia | lra].
      * intros (j & -> & Hj & Hr & Hfirst). destruct j as [|j].
        -- exfalso. apply Hge. revert Hr. simpl. rewrite sumR_cons.
           unfold sumR. simpl. lra.
        -- exists j. repeat split; try lia.
           ++ revert Hr. change (take (S (S j)) (x :: p)) with (x :: take (S j) p).
              rewrite sumR_cons. lra.
           ++ intros j' Hj' Hc. apply (Hfirst (S j')); [lia|].
              change (take (S (S j')) (x :: p)) with (x :: take (S j') p).
              rewrite sumR_cons. lra.
Qed.

(** The draw returns the first label whose cumulative weight exceeds the
    threshold. *)
Lemma sample1_Some (p : list R) (pSum u : R) (k : nat) :
  sample1 p pSum u = Some k ↔
  (1 ≤ k ≤ length p)%nat
  ∧ pSum * u < sumR (take k p)
  ∧ ∀ j, (1 ≤ j < k)%nat → ¬ pSum * u < sumR (take j p).
Proof.
  unfold sample1. rewrite sample1_scan_Some. split.
  - intros (j & -> & Hj & Hr & Hfirst). simpl. repeat split; try lia.
    + rewrite Rplus_0_l in Hr. exact Hr.
    + intros [|j'] Hj'; [lia|]. intros Hc. apply (Hfirst j'); [lia|].
      rewrite Rplus_0_l. exact Hc.
  - intros (Hk & Hr & Hfirst). destruct k as [|j]; [lia|]. exists j.
    repeat split; try lia.
    + rewrite Rplus_0_l. exact Hr.
    + intros j' Hj'. rewrite Rplus_0_l. apply Hfirst. lia.
Qed.

Lemma sample1_range (p : list R) (pSum u : R) (k : nat) :
  sample1 p pSum u = Some k → (1 ≤ k ≤ length p)%nat.
Proof. intros H. apply sample1_Some in H. exact (proj1 H). Qed.

Lemma sumR_take_mono (p : list R) (i j : nat) :
  Forall (λ x, 0 <= x) p → (i ≤ j)%nat → sumR (take i p) <= sumR (take j p).
Proof.
  intros Hp Hij. induction Hij as [|j Hij IH]; [lra|].
  destruct (p !! j) as [x|] eqn:Hx.
  - rewrite (sumR_take_S _ _ _ Hx).
    pose proof (Forall_lookup_1 _ _ _ _ Hp Hx). simpl in *. lra.
  - apply lookup_ge_None in Hx. rewrite (take_ge p (S j)) by lia.
    rewrite (take_ge p j) in IH by lia. exact IH.
Qed.

(** With non-negative weights, label [k] is drawn exactly when the threshold
    falls in the [k]-th cumulative interval, whose length is the [k]-th
    weight. *)
Lemma sample1_interval (p : list R) (pSum u : R) (k : nat) :
  Forall (λ x, 0 <= x) p →
  0 <= pSum * u →
  sample1 p pSum u = Some k ↔
  (1 ≤ k ≤ length p)%nat
  ∧ sumR (take (k - 1) p) <= pSum * u < sumR (take k p).
Proof.
  intros Hp Hu. rewrite sample1_Some. split.
  - intros (Hk & Hr & Hfirst). repeat split; try lia; [|exact Hr].
    destruct (decide (k = 1%nat)) as [->|Hk1].
    + simpl. change (sumR []) with 0. exact Hu.
    + apply Rnot_lt_le. intros Hc. apply (Hfirst (k - 1)%nat); [lia | exact Hc].
  - intros (Hk & Hlo & Hhi). repeat split; try lia; [exact Hhi|].
    intros j Hj Hc.
    pose proof (sumR_take_mono p j (k - 1) Hp ltac:(lia)). lra.
Qed.

(** A deviate in [0,1) and a positive total always select a label. *)
Lemma sample1_total (p : list R) (u : R) :
  0 < sumR p → 0 <= u < 1 → ∃ k, sample1 p (sumR p) u = Some k.
Proof.
  intros Hs Hu. unfold sample1.
  assert (Hgen : ∀ (q : list R) (rand z : R) (i : nat),
            z <= rand → rand < z + sumR q → ∃ k, sample1_scan q rand z i = Some k).
  { induction q as [|x q IH]; intros rand z i Hz Hr; simpl.
    - change (sumR []) with 0 in Hr. lra.
    - destruct (decide (rand < z + x)); [eauto|].
      apply IH; [lra|]. rewrite sumR_cons in Hr. lra. }
  apply Hgen; nra.
Qed.

(** ** The weights of a gene copy *)

Lemma set_probVec_same (s : chain) : set_probVec (probVec s) s = s.
Proof. destruct s; reflexivity. Qed.

Lemma prefix_insert {A} (w : nat → A) (m : nat) (pv : list A) :
  (m < length pv)%nat →
  <[m := w m]> (map w (seq 0 m) ++ drop m pv) = map w (seq 0 (S m)) ++ drop (S m) pv.
Proof.
  intros Hm.
  rewrite seq_S, map_app, <- app_assoc.
  rewrite insert_app_r_alt by (rewrite length_map, length_seq; lia).
  rewrite length_map, length_seq, Nat.sub_diag.
  destruct (lookup_lt_is_Some_2 pv m Hm) as [x Hx].
  rewrite (drop_S _ _ _ Hx). reflexivity.
Qed.

Lemma group_probs_loop (ind l p : nat) (s : chain) (m : nat) :
  (m ≤ length (probVec s))%nat →
  for_range m (λ k s,
      let v :=
        if decide (datum ind l p = 0%nat) then 1
        else
          let v := allele_ratio ind l p k s in
          if decide (beta cfg ≠ 1) then pow v (beta cfg) else v in
      let v := v * (IZR (at2 (admixCounts s) ind k) + alpha s) in
      let s := set_probVec (<[k := v]> (probVec s)) s in
      set_probVecSum (probVecSum s + v) s)
    (set_probVecSum 0 s)
  = set_probVecSum (sum_upto m (group_weight ind l p s))
      (set_probVec (map (group_weight ind l p s) (seq 0 m) ++ drop m (probVec s)) s).
Proof.
  induction m as [|m IH]; intros Hm.
  - rewrite for_range_0. simpl. rewrite drop_0, set_probVec_same. reflexivity.
  - rewrite for_range_S, IH by lia. rewrite sum_upto_S.
    rewrite <- prefix_insert by lia.
    reflexivity.
Qed.

(** ** Integer sums and counts *)

Lemma fold_left_Zadd (l : list Z) (a : Z) : fold_left Z.add l a = (a + sumZ l)%Z.
Proof.
  unfold sumZ. revert a. induction l as [|x l IH]; intros a; simpl.
  - lia.
  - rewrite IH, (IH (0 + x)%Z). lia.
Qed.

Lemma sumZ_app (l1 l2 : list Z) : sumZ (l1 ++ l2) = (sumZ l1 + sumZ l2)%Z.
Proof. unfold sumZ at 1. rewrite fold_left_app, fold_left_Zadd. reflexivity. Qed.

Lemma sumZ_upto_S (m : nat) (f : nat → Z) :
  sumZ_upto (S m) f = (sumZ_upto m f + f m)%Z.
Proof.
  unfold sumZ_upto. rewrite seq_S, map_app, sumZ_app.
  change (sumZ (map f [(0 + m)%nat])) with (0 + f m)%Z. lia.
Qed.

Lemma sumZ_upto_ext (m : nat) (f g : nat → Z) :
  (∀ i, (i < m)%nat → f i = g i) → sumZ_upto m f = sumZ_upto m g.
Proof.
  intros H. induction m as [|m IH]; [reflexivity|].
  rewrite !sumZ_upto_S, IH, H by (intros; auto with lia). reflexivity.
Qed.

Lemma sumZ_upto_add (m : nat) (f g : nat → Z) :
  sumZ_upto m (λ i, (f i + g i)%Z) = (sumZ_upto m f + sumZ_upto m g)%Z.
Proof.
  induction m as [|m IH]; [reflexivity|]. rewrite !sumZ_upto_S, IH. lia.
Qed.

Lemma sumZ_upto_zero (m : nat) : sumZ_upto m (λ _, 0%Z) = 0%Z.
Proof. induction m as [|m IH]; [reflexivity|]. rewrite sumZ_upto_S, IH. lia. Qed.

(** The sum of an indicator of one index. *)
Lemma sumZ_upto_indicator (m j0 : nat) :
  sumZ_upto m (λ j, if Nat.eqb j0 j then 1%Z else 0%Z)
  = if decide (j0 < m)%nat then 1%Z else 0%Z.
Proof.
  induction m as [|m IH]; [reflexivity|].
  rewrite sumZ_upto_S, IH.
  destruct (Nat.eqb_spec j0 m) as [->|Hne].
  - rewrite decide_False, decide_True by lia. reflexivity.
  - destruct (decide (j0 < m)%nat).
    + rewrite decide_True by lia. reflexivity.
    + rewrite decide_False by lia. reflexivity.
Qed.

(** The sum of a list by subscripts. *)
Lemma sumZ_by_index (l : list Z) : sumZ l = sumZ_upto (length l) (λ j, l !!! j).
Proof.
  induction l as [|x l IH] using rev_ind; [reflexivity|].
  rewrite sumZ_app, length_app. simpl. rewrite Nat.add_1_r, sumZ_upto_S.
  rewrite lookup_total_app_r, Nat.sub_diag by lia.
  change (sumZ [x]) with (0 + x)%Z. change ([x] !!! 0%nat) with x.
  rewrite IH, Z.add_0_l. f_equal.
  apply sumZ_upto_ext. intros j Hj. rewrite lookup_total_app_l by lia. reflexivity.
Qed.

Lemma count_if_app {A} (P : A → bool) (l1 l2 : list A) :
  count_if P (l1 ++ l2) = (count_if P l1 + count_if P l2)%Z.
Proof. induction l1 as [|x l1 IH]; simpl; [reflexivity | rewrite IH; lia]. Qed.

Lemma count_if_nonneg {A} (P : A → bool) (l : list A) : (0 ≤ count_if P l)%Z.
Proof. induction l as [|x l IH]; simpl; [lia | destruct (P x); lia]. Qed.

Lemma count_if_ext {A} (P Q : A → bool) (l : list A) :
  (∀ x, x ∈ l → P x = Q x) → count_if P l = count_if Q l.
Proof.
  induction l as [|x l IH]; intros H; simpl; [reflexivity|].
  rewrite H by apply list_elem_of_here.
  rewrite IH; [reflexivity|]. intros y Hy. apply H, list_elem_of_further, Hy.
Qed.

Lemma count_if_false {A} (P : A → bool) (l : list A) :
  (∀ x, x ∈ l → P x = false) → count_if P l = 0%Z.
Proof.
  induction l as [|x l IH]; intros H; simpl; [reflexivity|].
  rewrite H by apply list_elem_of_here.
  rewrite IH; [reflexivity|]. intros y Hy. apply H, list_elem_of_further, Hy.
Qed.

(** A count split by the value of a key. *)
Lemma count_if_split {A} (P : A → bool) (f : A → nat) (m : nat) (l : list A) :
  (∀ x, x ∈ l → P x = true → (f x < m)%nat) →
  sumZ_upto m (λ j, count_if (λ x, P x && Nat.eqb (f x) j) l) = count_if P l.
Proof.
  induction l as [|x l IH]; intros H; simpl.
  - apply sumZ_upto_zero.
  - rewrite sumZ_upto_add, IH
      by (intros y Hy; apply H, list_elem_of_further, Hy).
    f_equal. destruct (P x) eqn:HP; simpl.
    + rewrite sumZ_upto_indicator, decide_True; [reflexivity|].
      apply H; [apply list_elem_of_here | exact HP].
    + apply sumZ_upto_zero.
Qed.

(** Replacing one element moves the count by the two indicators. *)
Lemma count_if_insert {A} (P : A → bool) (l : list A) (t : nat) (x y : A) :
  l !! t = Some x →
  count_if P (<[t := y]> l)
  = (count_if P (take t l ++ drop (S t) l) + (if P y then 1 else 0))%Z.
Proof.
  intros Hx. rewrite insert_take_drop by (eapply lookup_lt_Some, Hx).
  rewrite !count_if_app. simpl. lia.
Qed.

Lemma count_if_remove {A} (P : A → bool) (l : list A) (t : nat) (x : A) :
  l !! t = Some x →
  count_if P l = (count_if P (take t l ++ drop (S t) l) + (if P x then 1 else 0))%Z.
Proof.
  intros Hx. rewrite <- (take_drop_middle l t x Hx) at 1.
  rewrite !count_if_app. simpl. lia.
Qed.

(** ** The canonical order *)

Lemma fold_left_bind {A B C} (f : C → B → C) (g : A → list B) (l : list A) (c : C) :
  fold_left f (l ≫= g) c = fold_left (λ c x, fold_left f (g x) c) l c.
Proof.
  revert c. induction l as [|x l IH]; intros c; [reflexivity|].
  rewrite bind_cons, fold_left_app, IH. reflexivity.
Qed.

Lemma fold_left_pointwise {A B} (f g : B → A → B) (l : list A) (b : B) :
  (∀ y x, f y x = g y x) → fold_left f l b = fold_left g l b.
Proof.
  intros H. revert b. induction l as [|x l IH]; intros b; simpl; [reflexivity|].
  rewrite H. apply IH.
Qed.

(** The triple loop visits the gene copies in the order of [copies]. *)
Lemma for_copies_flat {A} (body : nat → nat → nat → A → A) (a : A) :
  for_copies body a = fold_left (λ a c, body c.1.1 c.1.2 c.2 a) copies a.
Proof.
  unfold for_copies, for_range, copies.
  rewrite fold_left_bind. apply fold_left_pointwise. intros b ind.
  rewrite fold_left_bind. apply fold_left_pointwise. intros c l.
  rewrite fold_left_bind. apply fold_left_pointwise. intros d p.
  reflexivity.
Qed.

Lemma fold_left_lookup_ind {A B} (P : nat → B → Prop) (f : B → A → B) (l : list A)
    (b : B) :
  P 0%nat b →
  (∀ t x y, l !! t = Some x → P t y → P (S t) (f y x)) →
  P (length l) (fold_left f l b).
Proof.
  intros H0 Hstep. induction l as [|x l IH] using rev_ind; [exact H0|].
  rewrite fold_left_app, length_app. simpl. rewrite Nat.add_1_r.
  apply Hstep.
  - rewrite lookup_app_r, Nat.sub_diag by lia. reflexivity.
  - apply IH. intros t z y Hz. apply Hstep.
    rewrite lookup_app_l by (eapply lookup_lt_Some, Hz). exact Hz.
Qed.

(** Loop invariants of the triple loop: [P t] holds before the pass over the
    [t]-th gene copy. *)
Lemma for_copies_ind {A} (P : nat → A → Prop) (body : nat → nat → nat → A → A) (a : A) :
  P 0%nat a →
  (∀ t ind l p x, copies !! t = Some (ind, l, p) → P t x → P (S t) (body ind l p x)) →
  P (length copies) (for_copies body a).
Proof.
  intros H0 Hstep. rewrite for_copies_flat.
  apply (fold_left_lookup_ind P); [exact H0|].
  intros t [[ind l] p] y Hc HP. simpl. apply (Hstep t); assumption.
Qed.

Lemma copies_bounds (t ind l p : nat) :
  copies !! t = Some (ind, l, p) →
  (ind < n cfg)%nat ∧ (l < loci cfg)%nat ∧ (p < ploidy_vec cfg !!! ind)%nat.
Proof.
  intros Hc. apply list_elem_of_lookup_2 in Hc. unfold copies in Hc.
  apply list_elem_of_bind in Hc as (i & Hc & Hi).
  apply list_elem_of_bind in Hc as (l' & Hc & Hl).
  apply list_elem_of_bind in Hc as (p' & Hc & Hp).
  apply list_elem_of_singleton in Hc. injection Hc as -> -> ->.
  apply elem_of_seq in Hi, Hl, Hp. lia.
Qed.

(** ** Moving one gene copy *)

Lemma remove_copy_shift (ind l p : nat) (s : chain) :
  remove_copy ind l p s = shift_copy Z.pred ind l p s.
Proof. reflexivity. Qed.

Lemma add_copy_shift (ind l p : nat) (s : chain) :
  add_copy ind l p s = shift_copy Z.succ ind l p s.
Proof. reflexivity. Qed.

Lemma shift_copy_shaped (f : Z → Z) (ind l p : nat) (s : chain) :
  shaped s → shaped (shift_copy f ind l p s).
Proof.
  intros [H1 H2 H3 H4 H5 H6 H7 H8]. unfold shift_copy.
  case_decide; [|constructor; assumption].
  constructor; simpl; try assumption.
  - apply cells_alter3, H2.
  - apply rows_alter2, H3.
  - apply rows_alter2, H4.
  - rewrite length_alter. exact H5.
Qed.

Lemma shift_copy_frame (f : Z → Z) (ind l p : nat) (s : chain) :
  linearGroup (shift_copy f ind l p s) = linearGroup s
  ∧ groupIndex (shift_copy f ind l p s) = groupIndex s
  ∧ alpha (shift_copy f ind l p s) = alpha s
  ∧ probVec (shift_copy f ind l p s) = probVec s.
Proof. unfold shift_copy. case_decide; repeat split; reflexivity. Qed.

(** Moving the copy [(ind,l,p)] labelled [g] changes every tensor entry by
    [d] times the indicator of the copy's membership. *)
Lemma shift_copy_tallies (f : Z → Z) (d : Z) (ind l p g : nat)
    (cnt cnt' : (nat * nat * nat * nat → bool) → Z) (s : chain) :
  (∀ z, f z = (z + d)%Z) →
  (ind < n cfg)%nat → (l < loci cfg)%nat → (datum ind l p ≤ J cfg !!! l)%nat →
  linearGroup s !!! gidx s = g → (1 ≤ g ≤ K cfg)%nat →
  shaped s →
  (∀ P, cnt' P = (cnt P + d * (if P (ind, l, p, g) then 1 else 0))%Z) →
  tallies cnt s →
  tallies cnt' (shift_copy f ind l p s).
Proof.
  intros Hf Hind Hl Ha Hg Hgr Hsh Hcnt [T1 T2 T3 T4].
  destruct Hsh as [_ Hac Htot Hadm HadmT _ _ _].
  unfold shift_copy. destruct (decide (datum ind l p ≠ 0%nat)) as [Hd|Hd].
  - unfold deme_of. rewrite Hg. constructor; simpl.
    + intros k l' j Hk Hl' Hj. rewrite at3_alter3, Hcnt, <- T1 by assumption.
      unfold in_cell, allele. simpl.
      rewrite (proj1 Hac), (cells_row _ _ Hac), (cells_cell _ _ _ Hac) by lia.
      destruct (Nat.eqb_spec l l'), (Nat.eqb_spec (datum ind l p) (S j)),
        (Nat.eqb_spec g (S k)); simpl;
        try (rewrite decide_False by lia; lia).
      rewrite decide_True by (subst; lia). rewrite Hf. lia.
    + intros k l' Hk Hl'. rewrite at2_alter2, Hcnt, <- T2 by assumption.
      unfold in_row, present, allele. simpl.
      rewrite (proj1 Htot), (rows_row _ _ _ _ Htot) by lia.
      destruct (Nat.eqb_spec l l'), (Nat.eqb_spec (datum ind l p) 0),
        (Nat.eqb_spec g (S k)); simpl;
        try (rewrite decide_False by lia; lia); try lia.
      rewrite decide_True by (subst; lia). rewrite Hf. lia.
    + intros i k Hi Hk. rewrite at2_alter2, Hcnt, <- T3 by assumption.
      unfold in_admix, present, allele. simpl.
      rewrite (proj1 Hadm), (rows_row _ _ _ _ Hadm) by lia.
      destruct (Nat.eqb_spec ind i), (Nat.eqb_spec (datum ind l p) 0),
        (Nat.eqb_spec g (S k)); simpl;
        try (rewrite decide_False by lia; lia); try lia.
      rewrite decide_True by (subst; lia). rewrite Hf. lia.
    + intros i Hi. rewrite list_lookup_total_alter, Hcnt, <- T4 by assumption.
      unfold of_ind, present, allele. simpl.
      destruct (Nat.eqb_spec ind i), (Nat.eqb_spec (datum ind l p) 0); simpl;
        try (rewrite decide_False by lia; lia); try lia.
      rewrite decide_True by (subst; lia). subst. rewrite Hf. lia.
  - assert (Hz : datum ind l p = 0%nat) by lia.
    constructor.
    + intros k l' j Hk Hl' Hj. rewrite Hcnt, T1 by assumption.
      unfold in_cell, allele. simpl. rewrite Hz, andb_false_r. simpl. lia.
    + intros k l' Hk Hl'. rewrite Hcnt, T2 by assumption.
      unfold in_row, present, allele. simpl. rewrite Hz, andb_false_r. simpl. lia.
    + intros i k Hi Hk. rewrite Hcnt, T3 by assumption.
      unfold in_admix, present, allele. simpl. rewrite Hz, andb_false_r. simpl. lia.
    + intros i Hi. rewrite Hcnt, T4 by assumption.
      unfold of_ind, present, allele. simpl. rewrite Hz, andb_false_r. lia.
Qed.

(** ** One pass of [group_update] *)

Lemma group_probs_eq (ind l p : nat) (s : chain) :
  length (probVec s) = K cfg →
  group_probs ind l p s
  = set_probVecSum (sum_upto (K cfg) (group_weight ind l p s))
      (set_probVec (map (group_weight ind l p s) (seq 0 (K cfg))) s).
Proof.
  intros Hlen. unfold group_probs. rewrite group_probs_loop by lia.
  rewrite drop_ge, app_nil_r by lia. reflexivity.
Qed.

Lemma tallies_ext (cnt cnt' : (nat * nat * nat * nat → bool) → Z) (s s' : chain) :
  alleleCounts s' = alleleCounts s →
  alleleCountsTotals s' = alleleCountsTotals s →
  admixCounts s' = admixCounts s →
  admixCountsTotals s' = admixCountsTotals s →
  (∀ P, cnt' P = cnt P) →
  tallies cnt s → tallies cnt' s'.
Proof.
  intros E1 E2 E3 E4 Hc [T1 T2 T3 T4].
  constructor; intros; rewrite ?E1, ?E2, ?E3, ?E4, Hc; auto.
Qed.

Lemma labelled_lookup (grp : list nat) (t : nat) (c : nat * nat * nat) :
  copies !! t = Some c → (t < length grp)%nat →
  labelled grp !! t = Some (c, grp !!! t).
Proof.
  intros Hc Ht. unfold labelled. apply lookup_zip_Some. split; [exact Hc|].
  apply list_lookup_lookup_total_lt, Ht.
Qed.

Lemma labelled_insert (grp : list nat) (t k : nat) (c : nat * nat * nat) :
  copies !! t = Some c →
  labelled (<[t := k]> grp) = <[t := (c, k)]> (labelled grp).
Proof.
  intros Hc. unfold labelled.
  pose proof (insert_zip_with pair copies grp t c k) as E.
  rewrite (list_insert_id copies t c Hc) in E. symmetry. exact E.
Qed.

Lemma data_ok_lookup (t ind l p : nat) :
  data_ok → copies !! t = Some (ind, l, p) → (datum ind l p ≤ J cfg !!! l)%nat.
Proof.
  intros [_ Hd] Hc. apply (Forall_lookup_1 _ _ _ _ Hd Hc).
Qed.

Lemma group_step_consistent (us : nat → R) (t ind l p : nat) (s s' : chain) :
  data_ok →
  copies !! t = Some (ind, l, p) →
  groupIndex s = (Z.of_nat t - 1)%Z →
  consistent s →
  group_step us ind l p s = Some s' →
  consistent s' ∧ groupIndex s' = Z.of_nat t.
Proof.
  intros Hdata Hc Hgi [Hsh Hlab Htal] Hstep.
  pose proof (copies_bounds _ _ _ _ Hc) as (Hind & Hl & Hp).
  pose proof (data_ok_lookup _ _ _ _ Hdata Hc) as Ha.
  pose proof (lookup_lt_Some _ _ _ Hc) as Ht.
  assert (HG : length (linearGroup s) = length copies)
    by (rewrite (sh_group _ Hsh); apply Hdata).
  unfold group_step in Hstep.
  set (s0 := next_copy s) in *.
  assert (Hg0 : gidx s0 = t) by (unfold gidx, s0; simpl; lia).
  assert (Hsh0 : shaped s0) by (destruct Hsh; constructor; assumption).
  rewrite remove_copy_shift in Hstep.
  set (s1 := shift_copy Z.pred ind l p s0) in *.
  pose proof (shift_copy_frame Z.pred ind l p s0) as (F1 & F2 & F3 & F4).
  fold s1 in F1, F2, F3, F4.
  pose proof (shift_copy_shaped Z.pred ind l p s0 Hsh0) as Hsh1. fold s1 in Hsh1.
  set (L := labelled (linearGroup s)) in *.
  assert (HL : L !! t = Some (ind, l, p, linearGroup s !!! t))
    by (apply labelled_lookup; [exact Hc | lia]).
  assert (Hold : (1 ≤ linearGroup s !!! t ≤ K cfg)%nat)
    by (apply (Forall_lookup_total_1 _ _ t Hlab); lia).
  assert (Htal1 : tallies (λ P, count_if P (take t L ++ drop (S t) L)) s1).
  { apply (shift_copy_tallies Z.pred (-1) ind l p (linearGroup s !!! t)
             (λ P, count_if P L)); try assumption.
    - intros z. lia.
    - rewrite Hg0. reflexivity.
    - intros P. rewrite (count_if_remove P L t _ HL). lia.
    - eapply tallies_ext; [..|exact Htal]; reflexivity. }
  rewrite group_probs_eq in Hstep by apply Hsh1.
  set (s2 := set_probVecSum _ _) in *.
  destruct (sample1 (probVec s2) (probVecSum s2) (us (gidx s2))) as [k|] eqn:Hk;
    [|discriminate].
  apply sample1_range in Hk. simpl in Hk. rewrite length_map, length_seq in Hk.
  simpl in Hstep. injection Hstep as <-.
  rewrite add_copy_shift.
  set (s3 := set_linearGroup _ s2).
  assert (Hg3 : gidx s3 = t)
    by (change (gidx s3) with (Z.to_nat (groupIndex s1)); rewrite F2; apply Hg0).
  assert (Hsh3 : shaped s3).
  { destruct Hsh1 as [H1 H2 H3 H4 H5 H6 H7 H8].
    constructor; simpl; try assumption.
    - rewrite length_insert. exact H1.
    - rewrite length_map, length_seq. reflexivity. }
  split; [|rewrite (proj1 (proj2 (shift_copy_frame _ _ _ _ _)));
           change (groupIndex s3) with (groupIndex s1);
           rewrite F2; unfold s0; simpl; lia].
  assert (Elg : linearGroup (shift_copy Z.succ ind l p s3) = <[t := k]> (linearGroup s)).
  { rewrite (proj1 (shift_copy_frame _ _ _ _ _)).
    change (linearGroup s3)
      with (<[Z.to_nat (groupIndex s1) := k]> (linearGroup s1)).
    rewrite F1, F2. fold (gidx s0). rewrite Hg0. reflexivity. }
  constructor.
  - apply shift_copy_shaped, Hsh3.
  - rewrite Elg. apply Forall_insert; [exact Hlab | lia].
  - rewrite Elg.
    apply (shift_copy_tallies Z.succ 1 ind l p k
             (λ P, count_if P (take t L ++ drop (S t) L))); try assumption.
    + intros z. lia.
    + rewrite Hg3.
      change (linearGroup s3)
        with (<[Z.to_nat (groupIndex s1) := k]> (linearGroup s1)).
      rewrite F1, F2. fold (gidx s0). rewrite Hg0.
      change (linearGroup s0) with (linearGroup s).
      apply list_lookup_total_insert_eq. lia.
    + intros P. rewrite (labelled_insert _ _ _ _ Hc).
      rewrite (count_if_insert P L t _ _ HL). lia.
    + eapply tallies_ext; [..|exact Htal1]; reflexivity.
Qed.

(** ** A whole sweep *)

Lemma consistent_frame (s s' : chain) :
  linearGroup s' = linearGroup s →
  alleleCounts s' = alleleCounts s →
  alleleCountsTotals s' = alleleCountsTotals s →
  admixCounts s' = admixCounts s →
  admixCountsTotals s' = admixCountsTotals s →
  length (probVec s') = length (probVec s) →
  costMat s' = costMat s →
  length (bestPermOrder s') = length (bestPermOrder s) →
  consistent s → consistent s'.
Proof.
  intros E0 E1 E2 E3 E4 E5 E6 E7 [[H1 H2 H3 H4 H5 H6 H7 H8] Hlab Htal].
  constructor.
  - constructor; rewrite ?E0, ?E1, ?E2, ?E3, ?E4, ?E5, ?E6, ?E7; assumption.
  - rewrite E0. exact Hlab.
  - rewrite E0. eapply tallies_ext; [..|exact Htal]; auto.
Qed.

Lemma group_update_consistent (us : nat → R) (s s' : chain) :
  data_ok → consistent s → group_update us s = Some s' → consistent s'.
Proof.
  intros Hdata Hs. unfold group_update.
  assert (Hinv : ∀ x,
            for_copies (λ ind l p acc, acc ≫= group_step us ind l p)
              (Some (set_groupIndex (-1) s)) = Some x →
            consistent x ∧ groupIndex x = (Z.of_nat (length copies) - 1)%Z).
  { apply (for_copies_ind (λ t acc, ∀ x, acc = Some x →
             consistent x ∧ groupIndex x = (Z.of_nat t - 1)%Z)).
    - intros x [= <-]. split; [|reflexivity].
      eapply consistent_frame; [..|exact Hs]; reflexivity.
    - intros t ind l p acc Hc IH x Hx.
      destruct acc as [y|]; [|discriminate]. simpl in Hx.
      destruct (IH y eq_refl) as [Hy Hgi].
      destruct (group_step_consistent us t ind l p y x Hdata Hc Hgi Hy Hx) as [Hx1 Hx2].
      split; [exact Hx1 | lia]. }
  intros H. apply (Hinv s' H).
Qed.

(** ** From the tallies to the invariants *)

Lemma count_if_zip_fst {A B} (P : A → bool) (l : list A) (k : list B) :
  (length l ≤ length k)%nat → count_if (λ x, P x.1) (zip l k) = count_if P l.
Proof.
  revert k. induction l as [|x l IH]; intros k Hlen; [reflexivity|].
  destruct k as [|y k]; [simpl in Hlen; lia|]. simpl.
  rewrite IH by (simpl in Hlen; lia). reflexivity.
Qed.

Lemma labelled_elem (grp : list nat) (x : nat * nat * nat * nat) :
  x ∈ labelled grp → x.1 ∈ copies ∧ x.2 ∈ grp.
Proof.
  intros Hx. apply list_elem_of_lookup_1 in Hx as [t Ht].
  destruct x as [c g]. apply lookup_zip_Some in Ht as [H1 H2].
  split; eapply list_elem_of_lookup_2; eassumption.
Qed.

Lemma consistent_stats (s : chain) : data_ok → consistent s → stats_consistent s.
Proof.
  intros [HG Hdata] [Hsh Hlab [T1 T2 T3 T4]].
  assert (Hlen : (length copies ≤ length (linearGroup s))%nat)
    by (rewrite (sh_group _ Hsh), HG; lia).
  set (L := labelled (linearGroup s)) in *.
  assert (Hcode : ∀ x, x ∈ L → (allele x.1 ≤ J cfg !!! x.1.1.2)%nat).
  { intros x Hx. apply labelled_elem in Hx as [Hx _].
    apply (proj1 (list.Forall_forall _ _) Hdata _ Hx). }
  assert (Hdeme : ∀ x, x ∈ L → (1 ≤ x.2 ≤ K cfg)%nat).
  { intros x Hx. apply labelled_elem in Hx as [_ Hx].
    apply (proj1 (list.Forall_forall _ _) Hlab _ Hx). }
  split; [|split].
  - intros k l Hk Hl. rewrite T2 by assumption.
    rewrite <- (count_if_split (in_row k l) (λ x, (allele x.1 - 1)%nat) (J cfg !!! l)).
    + apply sumZ_upto_ext. intros j Hj. rewrite T1 by assumption.
      apply count_if_ext. intros x Hx. unfold in_cell, in_row, present.
      destruct (Nat.eqb_spec x.1.1.2 l), (Nat.eqb_spec (allele x.1) (S j)),
        (Nat.eqb_spec (allele x.1) 0), (Nat.eqb_spec x.2 (S k)),
        (Nat.eqb_spec (allele x.1 - 1) j); simpl; try reflexivity; lia.
    + intros x Hx. unfold in_row, present. specialize (Hcode x Hx).
      destruct (Nat.eqb_spec x.1.1.2 l) as [<-|], (Nat.eqb_spec (allele x.1) 0);
        simpl; try discriminate. intros _. lia.
  - intros i Hi. rewrite T4 by assumption. split.
    + rewrite <- (count_if_split (of_ind i) (λ x, (x.2 - 1)%nat) (K cfg)).
      * apply sumZ_upto_ext. intros k Hk. rewrite T3 by assumption.
        apply count_if_ext. intros x Hx. unfold in_admix, of_ind.
        specialize (Hdeme x Hx).
        destruct (Nat.eqb_spec x.1.1.1 i), (present x.1), (Nat.eqb_spec x.2 (S k)),
          (Nat.eqb_spec (x.2 - 1) k); simpl; try reflexivity; lia.
      * intros x Hx _. specialize (Hdeme x Hx). lia.
    + unfold nonmissing_of. rewrite <- (count_if_zip_fst _ copies (linearGroup s) Hlen).
      reflexivity.
  - intros l j Hl Hj. unfold observed.
    rewrite <- (count_if_zip_fst _ copies (linearGroup s) Hlen). fold (labelled (linearGroup s)).
    fold L.
    rewrite <- (count_if_split _ (λ x, (x.2 - 1)%nat) (K cfg)).
    + apply sumZ_upto_ext. intros k Hk. rewrite T1 by assumption.
      apply count_if_ext. intros x Hx. unfold in_cell. specialize (Hdeme x Hx).
      destruct (Nat.eqb_spec x.1.1.2 l), (Nat.eqb_spec (allele x.1) (S j)),
        (Nat.eqb_spec x.2 (S k)), (Nat.eqb_spec (x.2 - 1) k);
        simpl; try reflexivity; lia.
    + intros x Hx _. specialize (Hdeme x Hx). lia.
Qed.

(** ** reset *)

Lemma at3_set2 {A} `{Inhabited A} (row : list A) (i0 j0 : nat) (m : list (list (list A)))
    (i j k : nat) :
  at3 (set2 i0 j0 row m) i j k =
  if decide ((i0 = i ∧ (i0 < length m)%nat) ∧ (j0 = j ∧ (j0 < length (m !!! i0))%nat))
  then row !!! k else at3 m i j k.
Proof.
  change (at3 (set2 i0 j0 row m) i j k) with (at2 (set2 i0 j0 row m) i j !!! k).
  rewrite at2_set2. case_decide; reflexivity.
Qed.

Lemma cells_set2 {A} (row : list A) (k l : nat) (m : list (list (list A))) :
  cells m → ((l < loci cfg)%nat → length row = J cfg !!! l) → cells (set2 k l row m).
Proof.
  intros [Hl Hf] Hrow. split.
  - unfold set2. rewrite length_alter. exact Hl.
  - apply Forall_alter; [exact Hf|]. intros r _ [Hr Hc]. split.
    + rewrite length_insert. exact Hr.
    + intros l' Hlt. rewrite list_lookup_total_insert.
      case_decide as Hd; [destruct Hd as [-> _]; apply Hrow, Hlt | apply Hc, Hlt].
Qed.

Lemma rows_insert {A} (a b : nat) (row : list A) (i : nat) (m : list (list A)) :
  rows a b m → length row = b → rows a b (<[i := row]> m).
Proof.
  intros [Hl Hf] Hrow. split.
  - rewrite length_insert. exact Hl.
  - apply Forall_insert; assumption.
Qed.

(** The labels drawn by [reset]. *)
Lemma reset_group_spec (us : nat → R) (s s' : chain) :
  length (linearGroup s) = length copies →
  reset_group us s = Some s' →
  length (linearGroup s') = length copies
  ∧ Forall (λ g, (1 ≤ g ≤ K cfg)%nat) (linearGroup s')
  ∧ set_groupIndex 0 (set_linearGroup [] s') = set_groupIndex 0 (set_linearGroup [] s).
Proof.
  intros Hlen. unfold reset_group.
  assert (Hinv : ∀ x,
    for_copies (λ ind l p acc,
        s ← acc;
        let s := next_copy s in
        k ← sample1 (replicate (K cfg) (1 / INR (K cfg))) 1 (us (gidx s));
        Some (set_linearGroup (<[gidx s := k]> (linearGroup s)) s))
      (Some (set_groupIndex (-1) s)) = Some x →
    groupIndex x = (Z.of_nat (length copies) - 1)%Z
    ∧ length (linearGroup x) = length copies
    ∧ (∀ j, (j < length copies)%nat → (1 ≤ linearGroup x !!! j ≤ K cfg)%nat)
    ∧ set_groupIndex 0 (set_linearGroup [] x) = set_groupIndex 0 (set_linearGroup [] s)).
  { apply (for_copies_ind (λ t acc, ∀ x, acc = Some x →
      groupIndex x = (Z.of_nat t - 1)%Z
      ∧ length (linearGroup x) = length copies
      ∧ (∀ j, (j < t)%nat → (1 ≤ linearGroup x !!! j ≤ K cfg)%nat)
      ∧ set_groupIndex 0 (set_linearGroup [] x)
        = set_groupIndex 0 (set_linearGroup [] s))).
    - intros x [= <-]. repeat split; try lia. exact Hlen.
    - intros t ind l p acc Hc IH x Hx.
      destruct acc as [y|]; [|discriminate]. simpl in Hx.
      destruct (IH y eq_refl) as (Hgi & Hl & Hr & Hfr).
      destruct (sample1 _ _ _) as [k|] eqn:Hk; [|discriminate].
      simpl in Hx. injection Hx as <-.
      apply sample1_range in Hk. rewrite length_replicate in Hk.
      pose proof (lookup_lt_Some _ _ _ Hc) as Ht.
      assert (Hg : gidx (next_copy y) = t) by (unfold gidx; simpl; lia).
      rewrite Hg. simpl. repeat split.
      + lia.
      + rewrite length_insert. exact Hl.
      + destruct (decide (j = t)) as [->|Hne].
        * rewrite list_lookup_total_insert_eq by lia. lia.
        * rewrite list_lookup_total_insert_ne by lia. apply Hr. lia.
      + destruct (decide (j = t)) as [->|Hne].
        * rewrite list_lookup_total_insert_eq by lia. lia.
        * rewrite list_lookup_total_insert_ne by lia. apply Hr. lia.
      + exact Hfr. }
  intros H. destruct (Hinv s' H) as (_ & Hl & Hr & Hfr).
  repeat split; [exact Hl | | exact Hfr].
  apply (Forall_lookup_total_2 (λ g, (1 ≤ g ≤ K cfg)%nat)). intros j Hj. apply Hr. lia.
Qed.

(** The zeroed tensors. *)
Lemma reset_zero_spec (s : chain) :
  shaped s →
  let s' := reset_zero s in
  shaped s'
  ∧ linearGroup s' = linearGroup s
  ∧ tallies (λ _, 0%Z) s'.
Proof.
  intros [H1 H2 H3 H4 H5 H6 H7 H8]. unfold reset_zero. cbv zeta.
  set (z := for_range (K cfg) _ s).
  assert (Hz : cells (alleleCounts z)
               ∧ rows (K cfg) (loci cfg) (alleleCountsTotals z)
               ∧ (∀ k l j, (k < K cfg)%nat → (l < loci cfg)%nat → (j < J cfg !!! l)%nat →
                    at3 (alleleCounts z) k l j = 0%Z)
               ∧ (∀ k l, (k < K cfg)%nat → (l < loci cfg)%nat →
                    at2 (alleleCountsTotals z) k l = 0%Z)
               ∧ linearGroup z = linearGroup s
               ∧ probVec z = probVec s ∧ costMat z = costMat s
               ∧ bestPermOrder z = bestPermOrder s).
  { unfold z.
    apply (for_range_ind (λ m x,
      cells (alleleCounts x)
      ∧ rows (K cfg) (loci cfg) (alleleCountsTotals x)
      ∧ (∀ k l j, (k < m)%nat → (l < loci cfg)%nat → (j < J cfg !!! l)%nat →
           at3 (alleleCounts x) k l j = 0%Z)
      ∧ (∀ k l, (k < m)%nat → (l < loci cfg)%nat → at2 (alleleCountsTotals x) k l = 0%Z)
      ∧ linearGroup x = linearGroup s
      ∧ probVec x = probVec s ∧ costMat x = costMat s
      ∧ bestPermOrder x = bestPermOrder s)).
    - split; [exact H2|]. split; [exact H3|].
      split; [intros; lia|]. split; [intros; lia|]. auto.
    - intros k x Hk (C1 & C2 & Z1 & Z2 & F1 & F2 & F3 & F4).
      set (x1 := set_alleleCountsTotals _ x).
      assert (Htot1 : rows (K cfg) (loci cfg) (alleleCountsTotals x1))
        by (apply rows_insert; [exact C2 | apply length_replicate]).
      assert (Ztot1 : ∀ k' l, (k' < S k)%nat → (l < loci cfg)%nat →
                at2 (alleleCountsTotals x1) k' l = 0%Z).
      { intros k' l Hk' Hl. unfold at2, x1. simpl.
        rewrite list_lookup_total_insert. case_decide.
        - apply lookup_total_replicate_2, Hl.
        - apply Z2; [|exact Hl]. destruct (decide (k' = k)) as [->|]; [|lia].
          exfalso. destruct C2 as [C2 _]. lia. }
      set (y := for_range (loci cfg) _ x1).
      assert (Hin :
        cells (alleleCounts y)
        ∧ alleleCountsTotals y = alleleCountsTotals x1
        ∧ (∀ k' l j, (k' < k ∨ (k' = k ∧ l < loci cfg))%nat → (l < loci cfg)%nat →
             (j < J cfg !!! l)%nat → at3 (alleleCounts y) k' l j = 0%Z)
        ∧ linearGroup y = linearGroup s
        ∧ probVec y = probVec s ∧ costMat y = costMat s
        ∧ bestPermOrder y = bestPermOrder s).
      { unfold y.
        apply (for_range_ind (λ m y,
          cells (alleleCounts y)
          ∧ alleleCountsTotals y = alleleCountsTotals x1
          ∧ (∀ k' l j, (k' < k ∨ (k' = k ∧ l < m))%nat → (l < loci cfg)%nat →
               (j < J cfg !!! l)%nat → at3 (alleleCounts y) k' l j = 0%Z)
          ∧ linearGroup y = linearGroup s
          ∧ probVec y = probVec s ∧ costMat y = costMat s
          ∧ bestPermOrder y = bestPermOrder s)).
        - split; [exact C1|]. split; [reflexivity|]. split; [|auto].
          intros k' l j [Hk'|[_ Hl0]] Hl Hj; [apply Z1; assumption | lia].
        - intros l y0 Hl (D1 & D2 & D3 & G1 & G2 & G3 & G4). simpl.
          split; [|split; [exact D2|split; [|auto]]].
          + apply (cells_set2 _ _ _ _ D1). intros _. apply length_replicate.
          + intros k' l' j Hkl Hl' Hj. rewrite at3_set2.
            case_decide as Hd.
            * apply lookup_total_replicate_2.
              destruct Hd as [_ [<- _]]. exact Hj.
            * apply D3; try assumption.
              destruct Hkl as [Hkl|[-> Hkl]]; [left; exact Hkl|].
              destruct (decide (l' = l)) as [->|]; [|right; lia].
              exfalso. apply Hd. rewrite (proj1 D1), (cells_row _ _ D1) by lia.
              repeat split; lia. }
      destruct Hin as (D1 & D2 & D3 & G1 & G2 & G3 & G4).
      split; [exact D1|]. split; [rewrite D2; exact Htot1|].
      split; [|split; [|auto]].
      + intros k' l j Hk' Hl Hj. apply D3; try assumption.
        destruct (decide (k' = k)) as [->|]; [right|left]; lia.
      + intros k' l Hk' Hl. rewrite D2. apply Ztot1; assumption. }
  destruct Hz as (C1 & C2 & Z1 & Z2 & F1 & F2 & F3 & F4).
  split; [|split].
  - constructor; simpl; rewrite ?F1, ?F2, ?F3, ?F4; try assumption.
    + apply rows_replicate.
    + apply length_replicate.
  - exact F1.
  - constructor; simpl.
    + exact Z1.
    + exact Z2.
    + intros i k Hi Hk. unfold at2. rewrite !lookup_total_replicate_2 by lia. reflexivity.
    + intros i Hi. apply lookup_total_replicate_2, Hi.
Qed.

(** The counts rebuilt from the labels. *)
Lemma reset_populate_spec (s : chain) :
  data_ok → shaped s →
  Forall (λ g, (1 ≤ g ≤ K cfg)%nat) (linearGroup s) →
  tallies (λ _, 0%Z) s →
  consistent (reset_populate s).
Proof.
  intros Hdata Hsh Hlab Hzero. unfold reset_populate.
  assert (HG : length (linearGroup s) = length copies)
    by (rewrite (sh_group _ Hsh); apply Hdata).
  set (L := labelled (linearGroup s)).
  assert (HLlen : length L = length copies)
    by (unfold L, labelled; rewrite length_zip; lia).
  set (r := for_copies _ _).
  assert (Hinv : groupIndex r = (Z.of_nat (length copies) - 1)%Z
                 ∧ shaped r ∧ linearGroup r = linearGroup s
                 ∧ tallies (λ P, count_if P (take (length copies) L)) r).
  { unfold r.
    apply (for_copies_ind (λ t x,
      groupIndex x = (Z.of_nat t - 1)%Z
      ∧ shaped x ∧ linearGroup x = linearGroup s
      ∧ tallies (λ P, count_if P (take t L)) x)).
    - split; [reflexivity|]. split; [|split; [reflexivity|]].
      + destruct Hsh; constructor; assumption.
      + eapply tallies_ext; [..|exact Hzero]; reflexivity.
    - intros t ind l p x Hc (Hgi & Hx & Hlg & Htal).
      pose proof (copies_bounds _ _ _ _ Hc) as (Hind & Hl & Hp).
      pose proof (data_ok_lookup _ _ _ _ Hdata Hc) as Ha.
      pose proof (lookup_lt_Some _ _ _ Hc) as Ht.
      rewrite add_copy_shift.
      assert (Hx0 : shaped (next_copy x)) by (destruct Hx; constructor; assumption).
      assert (Hg0 : gidx (next_copy x) = t) by (unfold gidx; simpl; lia).
      pose proof (shift_copy_frame Z.succ ind l p (next_copy x)) as (F1 & F2 & _).
      split; [rewrite F2; simpl; lia|].
      split; [apply shift_copy_shaped, Hx0|].
      split; [rewrite F1; exact Hlg|].
      assert (HL : L !! t = Some (ind, l, p, linearGroup s !!! t))
        by (apply labelled_lookup; [exact Hc | lia]).
      apply (shift_copy_tallies Z.succ 1 ind l p (linearGroup s !!! t)
               (λ P, count_if P (take t L))); try assumption.
      + intros z. lia.
      + rewrite Hg0. simpl. rewrite Hlg. reflexivity.
      + apply (Forall_lookup_total_1 _ _ t Hlab). lia.
      + intros P. rewrite (take_S_r _ _ _ HL), count_if_app. simpl. lia.
      + eapply tallies_ext; [..|exact Htal]; reflexivity. }
  destruct Hinv as (_ & Hr & Hlg & Htal).
  constructor.
  - exact Hr.
  - rewrite Hlg. exact Hlab.
  - rewrite Hlg. rewrite take_ge in Htal by lia. exact Htal.
Qed.

Lemma shaped_frame (s s' : chain) :
  set_groupIndex 0 s' = set_groupIndex 0 s → shaped s → shaped s'.
Proof.
  intros E [H1 H2 H3 H4 H5 H6 H7 H8].
  pose proof (f_equal linearGroup E) as E1.
  pose proof (f_equal alleleCounts E) as E2.
  pose proof (f_equal alleleCountsTotals E) as E3.
  pose proof (f_equal admixCounts E) as E4.
  pose proof (f_equal admixCountsTotals E) as E5.
  pose proof (f_equal probVec E) as E6.
  pose proof (f_equal costMat E) as E7.
  pose proof (f_equal bestPermOrder E) as E8.
  simpl in *. constructor; congruence.
Qed.

(** [reset] leaves a consistent chain. *)
Lemma reset_consistent (b : bool) (us : nat → R) (s0 s : chain) :
  data_ok → shaped s0 → reset b us s0 = Some s → consistent s.
Proof.
  intros Hdata Hsh H. unfold reset in H. cbv zeta in H.
  match type of H with (mbind _ (reset_group us ?x) = _) => set (pre := x) in * end.
  assert (Hpre : shaped pre).
  { unfold pre. destruct Hsh. destruct b; constructor; assumption. }
  destruct (reset_group us pre) as [s1|] eqn:Hg; [|discriminate].
  simpl in H. injection H as <-.
  assert (HG : length (linearGroup pre) = length copies)
    by (rewrite (sh_group _ Hpre); apply Hdata).
  destruct (reset_group_spec us pre s1 HG Hg) as (Hl1 & Hlab1 & Hfr).
  assert (Hsh1 : shaped s1).
  { destruct Hpre as [H1 H2 H3 H4 H5 H6 H7 H8].
    pose proof (f_equal alleleCounts Hfr) as E2.
    pose proof (f_equal alleleCountsTotals Hfr) as E3.
    pose proof (f_equal admixCounts Hfr) as E4.
    pose proof (f_equal admixCountsTotals Hfr) as E5.
    pose proof (f_equal probVec Hfr) as E6.
    pose proof (f_equal costMat Hfr) as E7.
    pose proof (f_equal bestPermOrder Hfr) as E8.
    simpl in *. constructor; congruence. }
  destruct (reset_zero_spec s1 Hsh1) as (Hsh2 & Hlg2 & Hz2).
  apply reset_populate_spec; try assumption.
  rewrite Hlg2. exact Hlab1.
Qed.

(** ** Loops that fill one member *)

(** A loop whose passes rewrite one member of the object is a loop over
    the value of that member. *)
Lemma for_range_lens {A} (set : A → chain → chain) (get : chain → A) (s0 : chain)
    (step : nat → A → A) (body : nat → chain → chain) (m : nat) :
  set (get s0) s0 = s0 →
  (∀ i a, (i < m)%nat → body i (set a s0) = set (step i a) s0) →
  for_range m body s0 = set (for_range m step (get s0)) s0.
Proof.
  intros Hget Hbody. induction m as [|m IH].
  - rewrite !for_range_0, Hget. reflexivity.
  - rewrite !for_range_S, IH by (intros; apply Hbody; lia).
    apply Hbody. lia.
Qed.

(** A loop that rewrites the entries of a vector one after the other. *)
Lemma fill_lookup {A} `{Inhabited A} (f : nat → A → A) (m : nat) (l : list A) (j : nat) :
  for_range m (λ i l, <[i := f i (l !!! i)]> l) l !!! j
  = if decide (j < m ∧ j < length l)%nat then f j (l !!! j) else l !!! j.
Proof.
  induction m as [|m IH].
  - rewrite for_range_0, decide_False by lia. reflexivity.
  - rewrite for_range_S. set (r := for_range m _ l) in *.
    assert (Hlen : length r = length l).
    { unfold r. apply (for_range_ind (λ _ x, length x = length l)); [reflexivity|].
      intros i x _ Hx. rewrite length_insert. exact Hx. }
    rewrite list_lookup_total_insert, Hlen.
    destruct (decide (m = j ∧ (m < length l)%nat)) as [[-> Hj]|Hn].
    + rewrite decide_True by lia. rewrite IH, decide_False by lia. reflexivity.
    + rewrite IH. destruct (decide (j < m ∧ j < length l)%nat).
      * rewrite decide_True by lia. reflexivity.
      * rewrite decide_False by lia. reflexivity.
Qed.

Lemma fill_length {A} `{Inhabited A} (f : nat → A → A) (m : nat) (l : list A) :
  length (for_range m (λ i l, <[i := f i (l !!! i)]> l) l) = length l.
Proof.
  apply (for_range_ind (λ _ x, length x = length l)); [reflexivity|].
  intros i x _ Hx. rewrite length_insert. exact Hx.
Qed.

(** A double loop that rewrites the entries of a matrix row by row. *)
Lemma fill2_spec {A} `{Inhabited A} (f : nat → nat → A → A) (a b : nat)
    (m : list (list A)) :
  rows a b m →
  let r := for_range a (λ i, for_range b (λ k m, set2 i k (f i k (at2 m i k)) m)) m in
  rows a b r ∧ ∀ i k, (i < a)%nat → (k < b)%nat → at2 r i k = f i k (at2 m i k).
Proof.
  intros Hm. cbv zeta.
  enough (Hgen : ∀ a', (a' ≤ a)%nat →
    let r := for_range a' (λ i, for_range b (λ k m, set2 i k (f i k (at2 m i k)) m)) m in
    rows a b r
    ∧ ∀ i k, (i < a)%nat → (k < b)%nat →
        at2 r i k = if decide (i < a')%nat then f i k (at2 m i k) else at2 m i k).
  { destruct (Hgen a (le_n a)) as [Hr Hv]. split; [exact Hr|].
    intros i k Hi Hk. rewrite Hv, decide_True by assumption. reflexivity. }
  intros a' Ha'. cbv zeta. induction a' as [|a' IH].
  - rewrite for_range_0. split; [exact Hm|]. intros i k Hi Hk.
    rewrite decide_False by lia. reflexivity.
  - rewrite for_range_S. destruct (IH ltac:(lia)) as [Hr Hv].
    set (r := for_range a' _ m) in *.
    enough (Hin : ∀ b', (b' ≤ b)%nat →
      let q := for_range b' (λ k m, set2 a' k (f a' k (at2 m a' k)) m) r in
      rows a b q
      ∧ ∀ i k, (i < a)%nat → (k < b)%nat →
          at2 q i k = if decide (i = a' ∧ k < b')%nat then f i k (at2 m i k)
                      else at2 r i k).
    { destruct (Hin b (le_n b)) as [Hq Hw]. split; [exact Hq|].
      intros i k Hi Hk. rewrite Hw by assumption.
      destruct (decide (i = a' ∧ (k < b)%nat)) as [[-> _]|Hn].
      - rewrite decide_True by lia. reflexivity.
      - rewrite Hv by assumption.
        destruct (decide (i < a')%nat).
        + rewrite decide_True by lia. reflexivity.
        + rewrite !decide_False by lia. reflexivity. }
    intros b' Hb'. cbv zeta. induction b' as [|b' IHb].
    + rewrite for_range_0. split; [exact Hr|]. intros i k Hi Hk.
      rewrite decide_False by lia. reflexivity.
    + rewrite for_range_S. destruct (IHb ltac:(lia)) as [Hq Hw].
      set (q := for_range b' _ r) in *.
      split; [apply rows_set2, Hq|].
      intros i k Hi Hk. rewrite at2_set2.
      rewrite (proj1 Hq), (rows_row _ _ _ _ Hq) by lia.
      destruct (decide ((a' = i ∧ (a' < a)%nat) ∧ b' = k ∧ (b' < b)%nat))
        as [[[<- _] [<- _]]|Hn].
      * rewrite decide_True by lia. rewrite Hw, decide_False by lia.
        rewrite Hv, decide_False by lia. reflexivity.
      * rewrite Hw by assumption.
        destruct (decide (i = a' ∧ (k < b')%nat)).
        -- rewrite decide_True by lia. reflexivity.
        -- rewrite decide_False by lia. reflexivity.
Qed.

(** ** Permutations of the labels *)

Lemma perm_length (p : list nat) (m : nat) : p ≡ₚ seq 0 m → length p = m.
Proof. intros Hp. rewrite (Permutation_length Hp). apply length_seq. Qed.

Lemma perm_bound (p : list nat) (m k : nat) :
  p ≡ₚ seq 0 m → (k < m)%nat → (p !!! k < m)%nat.
Proof.
  intros Hp Hk.
  assert (Hin : p !!! k ∈ p).
  { apply list_elem_of_lookup_2 with k, list_lookup_lookup_total_lt.
    rewrite (perm_length _ _ Hp). exact Hk. }
  revert Hin. generalize (p !!! k). intros x Hin.
  rewrite Hp in Hin. apply elem_of_seq in Hin. lia.
Qed.

Lemma perm_inj (p : list nat) (m a b : nat) :
  p ≡ₚ seq 0 m → (a < m)%nat → (b < m)%nat → p !!! a = p !!! b → a = b.
Proof.
  intros Hp Ha Hb Hab.
  assert (Hnd : NoDup p) by (rewrite Hp; apply NoDup_seq).
  pose proof (perm_length _ _ Hp) as Hlen.
  apply (NoDup_lookup p a b (p !!! a) Hnd).
  - apply list_lookup_lookup_total_lt. lia.
  - rewrite Hab. apply list_lookup_lookup_total_lt. lia.
Qed.

Lemma perm_surj (p : list nat) (m j : nat) :
  p ≡ₚ seq 0 m → (j < m)%nat → ∃ k, (k < m)%nat ∧ p !!! k = j.
Proof.
  intros Hp Hj.
  assert (Hin : j ∈ p) by (rewrite Hp; apply elem_of_seq; lia).
  apply list_elem_of_lookup_1 in Hin as [k Hk]. exists k. split.
  - rewrite <- (perm_length _ _ Hp). eapply lookup_lt_Some, Hk.
  - apply list_lookup_total_correct, Hk.
Qed.

(** The loop [bestPermOrder[bestPerm[k]] = k] builds the inverse. *)
Lemma inverse_loop (p o : list nat) (m : nat) :
  p ≡ₚ seq 0 m → length o = m →
  let o' := for_range m (λ k o, <[p !!! k := k]> o) o in
  length o' = m
  ∧ (∀ k, (k < m)%nat → o' !!! (p !!! k) = k)
  ∧ (∀ j, (j < m)%nat → (o' !!! j < m)%nat ∧ p !!! (o' !!! j) = j)
  ∧ o' ≡ₚ seq 0 m.
Proof.
  intros Hp Ho. cbv zeta.
  set (o' := for_range m _ o).
  assert (Hinv : length o' = m ∧ ∀ k, (k < m)%nat → o' !!! (p !!! k) = k).
  { enough (Hgen : ∀ m', (m' ≤ m)%nat →
      let r := for_range m' (λ k o, <[p !!! k := k]> o) o in
      length r = m ∧ ∀ k, (k < m')%nat → r !!! (p !!! k) = k)
      by (apply (Hgen m); lia).
    intros m' Hm'. cbv zeta. induction m' as [|m' IH].
    - rewrite for_range_0. split; [exact Ho | intros; lia].
    - rewrite for_range_S. destruct (IH ltac:(lia)) as [Hl Hv].
      split; [rewrite length_insert; exact Hl|].
      intros k Hk. rewrite list_lookup_total_insert.
      destruct (decide (p !!! m' = p !!! k ∧ _)) as [[He _]|Hn].
      + apply (perm_inj p m) in He; [auto | exact Hp | lia | lia].
      + apply Hv. destruct (decide (k = m')) as [->|]; [|lia].
        exfalso. apply Hn. split; [reflexivity|].
        rewrite Hl. apply perm_bound; [exact Hp | lia]. }
  destruct Hinv as [Hl Hv].
  assert (Hback : ∀ j, (j < m)%nat → (o' !!! j < m)%nat ∧ p !!! (o' !!! j) = j).
  { intros j Hj. destruct (perm_surj p m j Hp Hj) as (k & Hk & <-).
    rewrite Hv by exact Hk. split; [exact Hk | reflexivity]. }
  repeat split; try assumption; try (apply Hback; assumption).
  apply NoDup_Permutation.
  - apply NoDup_alt. intros a b x Ha Hb.
    pose proof (lookup_lt_Some _ _ _ Ha) as Hla.
    pose proof (lookup_lt_Some _ _ _ Hb) as Hlb.
    apply list_lookup_total_correct in Ha, Hb.
    destruct (Hback a ltac:(lia)) as [_ Ea], (Hback b ltac:(lia)) as [_ Eb].
    rewrite Ha in Ea. rewrite Hb in Eb. congruence.
  - apply NoDup_seq.
  - intros x. rewrite elem_of_seq. split.
    + intros Hx. apply list_elem_of_lookup_1 in Hx as [a Ha].
      pose proof (lookup_lt_Some _ _ _ Ha) as Hla.
      apply list_lookup_total_correct in Ha. subst x.
      destruct (Hback a ltac:(lia)). lia.
    + intros Hx. apply list_elem_of_lookup_2 with (p !!! x).
      rewrite <- (Hv x ltac:(lia)) at 2.
      apply list_lookup_lookup_total_lt. rewrite Hl.
      apply perm_bound; [exact Hp | lia].
Qed.

(** The flag [performSwap] is raised exactly when some label moves. *)
Lemma swap_flag (p : list nat) (m : nat) :
  for_range m (λ k (b : bool), if decide (p !!! k ≠ k) then true else b) false = false
  ↔ ∀ k, (k < m)%nat → p !!! k = k.
Proof.
  induction m as [|m IH].
  - rewrite for_range_0. split; [intros; lia | reflexivity].
  - rewrite for_range_S. destruct (decide (p !!! m ≠ m)) as [Hne|He].
    + split; [discriminate|]. intros H. exfalso. apply Hne, H. lia.
    + rewrite IH. split.
      * intros H k Hk. destruct (decide (k = m)) as [->|]; [|apply H; lia].
        destruct (decide (p !!! m = m)); [assumption | contradiction].
      * intros H k Hk. apply H. lia.
Qed.

Lemma order_loop_eq (s : chain) :
  order_loop s
  = (set_bestPermOrder
       (for_range (K cfg) (λ k o, <[bestPerm s !!! k := k]> o) (bestPermOrder s)) s,
     for_range (K cfg)
       (λ k (b : bool), if decide (bestPerm s !!! k ≠ k) then true else b) false).
Proof.
  unfold order_loop. induction (K cfg) as [|m IH].
  - rewrite !for_range_0. destruct s; reflexivity.
  - rewrite !for_range_S, IH. reflexivity.
Qed.

(** ** The cost matrix *)

Lemma alter_insert_eq {A} (f : A → A) (j : nat) (v : A) (r : list A) :
  alter f j (<[j := v]> r) = <[j := f v]> r.
Proof.
  apply list_eq. intros i. rewrite list_lookup_alter.
  destruct (decide (j = i)) as [->|Hne].
  - destruct (decide (i < length r)%nat).
    + rewrite !list_lookup_insert_eq by lia. reflexivity.
    + rewrite !list_insert_ge by lia.
      rewrite (lookup_ge_None_2 r i) by lia. reflexivity.
  - rewrite !list_lookup_insert_ne by assumption. reflexivity.
Qed.

Lemma alter2_set2 {A} (f : A → A) (i j : nat) (v : A) (m : list (list A)) :
  alter2 f i j (set2 i j v m) = set2 i j (f v) m.
Proof.
  unfold alter2, set2. rewrite list_alter_alter_eq.
  apply list_alter_ext; [|reflexivity]. intros r _. simpl. apply alter_insert_eq.
Qed.

Lemma cost_accumulate (t : nat → R) (k1 k2 m : nat) (z : R) (C : list (list R)) :
  for_range m (λ i C, alter2 (λ c, c + t i) k1 k2 C) (set2 k1 k2 z C)
  = set2 k1 k2 (z + sum_upto m t) C.
Proof.
  induction m as [|m IH].
  - rewrite for_range_0, sum_upto_0, Rplus_0_r. reflexivity.
  - rewrite for_range_S, IH, alter2_set2, sum_upto_S, Rplus_assoc. reflexivity.
Qed.

Lemma set_costMat_same (s : chain) : set_costMat (costMat s) s = s.
Proof. destruct s; reflexivity. Qed.

Lemma fill_costMat_eq (s : chain) :
  fill_costMat s
  = set_costMat
      (for_range (K cfg) (λ k1,
         for_range (K cfg) (λ k2 C, set2 k1 k2 (0 + stephens_cost s k1 k2) C))
         (costMat s)) s.
Proof.
  unfold fill_costMat.
  apply (for_range_lens set_costMat costMat s
           (λ k1, for_range (K cfg)
                    (λ k2 C, set2 k1 k2 (0 + stephens_cost s k1 k2) C))).
  - apply set_costMat_same.
  - intros k1 C _.
    rewrite (for_range_lens set_costMat costMat (set_costMat C s)
               (λ k2 C, set2 k1 k2 (0 + stephens_cost s k1 k2) C)).
    + reflexivity.
    + reflexivity.
    + intros k2 C' _.
      rewrite (for_range_lens set_costMat costMat
                 (set_costMat (set2 k1 k2 0 C') (set_costMat C s))
                 (λ i C, alter2
                           (λ c, c + at2 (Qmatrix_gene_new s) i k1
                                     * (at2 (logQmatrix_gene_new s) i k1
                                        - at2 (logQmatrix_gene_running s) i k2))
                           k1 k2 C)).
      * simpl. rewrite cost_accumulate. reflexivity.
      * reflexivity.
      * intros i C'' _. reflexivity.
Qed.

Lemma fill_costMat_spec (s : chain) :
  rows (K cfg) (K cfg) (costMat s) →
  rows (K cfg) (K cfg) (costMat (fill_costMat s))
  ∧ ∀ k1 k2, (k1 < K cfg)%nat → (k2 < K cfg)%nat →
      at2 (costMat (fill_costMat s)) k1 k2 = stephens_cost s k1 k2.
Proof.
  intros Hr. rewrite fill_costMat_eq. simpl.
  destruct (fill2_spec (λ k1 k2 _, 0 + stephens_cost s k1 k2) _ _ _ Hr) as [H1 H2].
  split; [exact H1|]. intros k1 k2 Hk1 Hk2. rewrite H2 by assumption. lra.
Qed.

(** ** The relabelling *)

Lemma for_range_pair {A B} (f : nat → A → A) (g : nat → B → B) (m : nat) (a : A) (b : B) :
  for_range m (λ k '(a, b), (f k a, g k b)) (a, b) = (for_range m f a, for_range m g b).
Proof.
  induction m as [|m IH]; [reflexivity|]. rewrite !for_range_S, IH. reflexivity.
Qed.

Lemma set_linearGroup_same (s : chain) : set_linearGroup (linearGroup s) s = s.
Proof. destruct s; reflexivity. Qed.
Lemma set_admixCounts_same (s : chain) : set_admixCounts (admixCounts s) s = s.
Proof. destruct s; reflexivity. Qed.
Lemma set_logQmatrix_gene_new_same (s : chain) :
  set_logQmatrix_gene_new (logQmatrix_gene_new s) s = s.
Proof. destruct s; reflexivity. Qed.

(** The state after the body of [if (performSwap)]. *)
Lemma swap_labels_eq (s : chain) :
  let p := bestPerm s in
  let o := bestPermOrder s in
  swap_labels s
  = set_logQmatrix_gene_new
      (for_range (geneCopies cfg) (λ i,
         for_range (K cfg) (λ k m,
           set2 i k (at2 (logQmatrix_gene_new s) i (o !!! k)) m))
         (logQmatrix_gene_new s))
      (set_logQmatrix_gene_old (logQmatrix_gene_new s)
         (set_admixCounts
            (for_range (n cfg) (λ i,
               for_range (K cfg) (λ k m, set2 i k (at2 (admixCounts s) i (o !!! k)) m))
               (admixCounts s))
            (set_alleleCountsTotals
               (for_range (K cfg) (λ k t, <[k := alleleCountsTotals s !!! (o !!! k)]> t)
                  (alleleCountsTotals s))
               (set_alleleCounts
                  (for_range (K cfg) (λ k a, <[k := alleleCounts s !!! (o !!! k)]> a)
                     (alleleCounts s))
                  (set_linearGroup
                     (for_range (geneCopies cfg)
                        (λ i l, <[i := relabelled p (l !!! i)]> l) (linearGroup s))
                     s))))).
Proof.
  cbv zeta. unfold swap_labels.
  rewrite (for_range_lens set_linearGroup linearGroup s
             (λ i l, <[i := relabelled (bestPerm s) (l !!! i)]> l));
    [|apply set_linearGroup_same|reflexivity].
  set (s1 := set_linearGroup _ s).
  cbv zeta.
  rewrite (for_range_lens
             (λ '(a, t) x, set_alleleCountsTotals t (set_alleleCounts a x))
             (λ x, (alleleCounts x, alleleCountsTotals x)) s1
             (λ k '(a, t),
                (<[k := alleleCounts s !!! (bestPermOrder s !!! k)]> a,
                 <[k := alleleCountsTotals s !!! (bestPermOrder s !!! k)]> t)));
    [|destruct s; reflexivity|intros k [a t] _; reflexivity].
  rewrite for_range_pair.
  set (s2 := set_alleleCountsTotals _ _).
  rewrite (for_range_lens set_admixCounts admixCounts s2
             (λ i, for_range (K cfg)
                     (λ k m, set2 i k (at2 (admixCounts s) i (bestPermOrder s !!! k)) m)));
    [|apply set_admixCounts_same|].
  2:{ intros i m _.
      rewrite (for_range_lens set_admixCounts admixCounts (set_admixCounts m s2)
                 (λ k m, set2 i k (at2 (admixCounts s) i (bestPermOrder s !!! k)) m));
        reflexivity. }
  set (s3 := set_admixCounts _ s2).
  set (s4 := set_logQmatrix_gene_old _ s3).
  rewrite (for_range_lens set_logQmatrix_gene_new logQmatrix_gene_new s4
             (λ i, for_range (K cfg)
                     (λ k m, set2 i k
                               (at2 (logQmatrix_gene_new s) i (bestPermOrder s !!! k)) m)));
    [|apply set_logQmatrix_gene_new_same|].
  2:{ intros i m _.
      rewrite (for_range_lens set_logQmatrix_gene_new logQmatrix_gene_new
                 (set_logQmatrix_gene_new m s4)
                 (λ k m, set2 i k
                           (at2 (logQmatrix_gene_new s) i (bestPermOrder s !!! k)) m));
        reflexivity. }
  reflexivity.
Qed.

Lemma fill_map {A} `{Inhabited A} (f : A → A) (l : list A) :
  for_range (length l) (λ i l, <[i := f (l !!! i)]> l) l = map f l.
Proof.
  apply (list_eq_same_length _ _ (length l)).
  - apply length_map.
  - apply (fill_length (λ _, f)).
  - intros i x y Hi Hx Hy.
    apply list_lookup_total_correct in Hx.
    rewrite (fill_lookup (λ _, f)), decide_True in Hx by lia.
    rewrite list_lookup_fmap in Hy.
    rewrite (list_lookup_lookup_total_lt l i Hi) in Hy. simpl in Hy. congruence.
Qed.

Lemma zip_map_r {A B} (h : B → B) (l : list A) (k : list B) :
  zip l (map h k) = map (λ x, (x.1, h x.2)) (zip l k).
Proof.
  revert k. induction l as [|a l IH]; intros [|b k]; simpl; try reflexivity.
  rewrite IH. reflexivity.
Qed.

Lemma count_if_map {A} (P : A → bool) (g : A → A) (l : list A) :
  count_if P (map g l) = count_if (λ x, P (g x)) l.
Proof. induction l as [|x l IH]; simpl; [reflexivity | rewrite IH; reflexivity]. Qed.

(** A label is sent to [k+1] exactly when it was [order[k]+1]. *)
Lemma relabelled_inverse (p o : list nat) (m g k : nat) :
  p ≡ₚ seq 0 m →
  (∀ j, (j < m)%nat → (o !!! j < m)%nat ∧ p !!! (o !!! j) = j) →
  (1 ≤ g ≤ m)%nat → (k < m)%nat →
  Nat.eqb (relabelled p g) (S k) = Nat.eqb g (S (o !!! k)).
Proof.
  intros Hp Ho Hg Hk. unfold relabelled. destruct (Ho k Hk) as [Hok Hpo].
  destruct (Nat.eqb_spec (p !!! (g - 1)%nat + 1)%nat (S k)) as [He|Hne],
    (Nat.eqb_spec g (S (o !!! k))) as [Hg'|Hg']; try reflexivity; exfalso.
  - apply Hg'. assert (E : (g - 1)%nat = o !!! k).
    { apply (perm_inj p m); [exact Hp | lia | lia |]. rewrite Hpo. lia. }
    lia.
  - apply Hne. subst g. replace (S (o !!! k) - 1)%nat with (o !!! k) by lia.
    rewrite Hpo. lia.
Qed.

Lemma relabel_eq (s : chain) :
  let o := for_range (K cfg) (λ k o, <[bestPerm s !!! k := k]> o) (bestPermOrder s) in
  ((∀ k, (k < K cfg)%nat → bestPerm s !!! k = k) → relabel s = set_bestPermOrder o s)
  ∧ (¬ (∀ k, (k < K cfg)%nat → bestPerm s !!! k = k) →
     relabel s = swap_labels (set_bestPermOrder o s)).
Proof.
  cbv zeta. unfold relabel. rewrite order_loop_eq.
  pose proof (swap_flag (bestPerm s) (K cfg)) as Hflag.
  destruct (for_range (K cfg) _ false).
  - split; [|reflexivity]. intros H. apply Hflag in H. discriminate.
  - split; [reflexivity|]. intros H. exfalso. apply H, Hflag. reflexivity.
Qed.

Lemma relabel_cases (s : chain) :
  (∀ k, (k < K cfg)%nat → bestPerm s !!! k = k)
  ∨ ¬ (∀ k, (k < K cfg)%nat → bestPerm s !!! k = k).
Proof.
  pose proof (swap_flag (bestPerm s) (K cfg)) as Hflag.
  destruct (for_range (K cfg) _ false).
  - right. intros H. apply Hflag in H. discriminate.
  - left. apply Hflag. reflexivity.
Qed.

Lemma cells_permute {A} (o : list nat) (m : list (list (list A))) (r : list (list (list A))) :
  cells m → length r = K cfg →
  (∀ k, (k < K cfg)%nat → (o !!! k < K cfg)%nat) →
  (∀ k, (k < K cfg)%nat → r !!! k = m !!! (o !!! k)) →
  cells r.
Proof.
  intros [Hl Hf] Hr Ho Hv. split; [exact Hr|].
  apply (Forall_lookup_total_2 _ r). intros k Hk. rewrite Hv by lia.
  apply (Forall_lookup_total_1 _ _ _ Hf). rewrite Hl. apply Ho. lia.
Qed.

Lemma rows_permute {A} (b : nat) (o : list nat) (m r : list (list A)) :
  rows (K cfg) b m → length r = K cfg →
  (∀ k, (k < K cfg)%nat → (o !!! k < K cfg)%nat) →
  (∀ k, (k < K cfg)%nat → r !!! k = m !!! (o !!! k)) →
  rows (K cfg) b r.
Proof.
  intros [Hl Hf] Hr Ho Hv. split; [exact Hr|].
  apply (Forall_lookup_total_2 _ r). intros k Hk. rewrite Hv by lia.
  apply (Forall_lookup_total_1 _ _ _ Hf). rewrite Hl. apply Ho. lia.
Qed.

(** The relabelling keeps the chain consistent. *)
Lemma relabel_consistent (s : chain) :
  data_ok → consistent s → bestPerm s ≡ₚ seq 0 (K cfg) → consistent (relabel s).
Proof.
  intros Hdata Hs Hp. destruct (relabel_eq s) as [Eid Emove].
  pose proof Hs as [Hsh Hlab Htal].
  destruct (inverse_loop (bestPerm s) (bestPermOrder s) (K cfg) Hp
              (sh_bestPermOrder _ Hsh)) as (Hol & Hov & Hback & Hoperm).
  set (o := for_range (K cfg) _ (bestPermOrder s)) in *.
  assert (Hs1 : consistent (set_bestPermOrder o s)).
  { eapply consistent_frame; [..|exact Hs]; try reflexivity.
    simpl. rewrite Hol. symmetry. apply Hsh. }
  destruct (relabel_cases s) as [Hid|Hmove]; [rewrite Eid by exact Hid; exact Hs1|].
  rewrite Emove by exact Hmove. fold o.
  rewrite swap_labels_eq. cbv zeta. simpl.
  set (p := bestPerm s) in *.
  assert (HG : geneCopies cfg = length (linearGroup s)) by (symmetry; apply Hsh).
  rewrite HG, (fill_map (relabelled p)).
  destruct Hsh as [H1 H2 H3 H4 H5 H6 H7 H8].
  set (ac' := for_range (K cfg) (λ k a, <[k := alleleCounts s !!! (o !!! k)]> a)
                (alleleCounts s)).
  set (tot' := for_range (K cfg) (λ k t, <[k := alleleCountsTotals s !!! (o !!! k)]> t)
                 (alleleCountsTotals s)).
  assert (Hac'l : length ac' = K cfg)
    by (unfold ac'; rewrite (fill_length (λ k _, alleleCounts s !!! (o !!! k)));
        apply H2).
  assert (Htot'l : length tot' = K cfg)
    by (unfold tot'; rewrite (fill_length (λ k _, alleleCountsTotals s !!! (o !!! k)));
        apply H3).
  assert (Hac'v : ∀ k, (k < K cfg)%nat → ac' !!! k = alleleCounts s !!! (o !!! k)).
  { intros k Hk. unfold ac'.
    rewrite (fill_lookup (λ k _, alleleCounts s !!! (o !!! k))), decide_True;
      [reflexivity|]. rewrite (proj1 H2). lia. }
  assert (Htot'v : ∀ k, (k < K cfg)%nat → tot' !!! k = alleleCountsTotals s !!! (o !!! k)).
  { intros k Hk. unfold tot'.
    rewrite (fill_lookup (λ k _, alleleCountsTotals s !!! (o !!! k))), decide_True;
      [reflexivity|]. rewrite (proj1 H3). lia. }
  destruct (fill2_spec (λ i k _, at2 (admixCounts s) i (o !!! k)) _ _ _ H4)
    as [Hadm'r Hadm'v].
  set (adm' := for_range (n cfg) _ (admixCounts s)) in *.
  assert (Hob : ∀ k, (k < K cfg)%nat → (o !!! k < K cfg)%nat)
    by (intros k Hk; apply Hback, Hk).
  set (L := labelled (linearGroup s)) in *.
  assert (Hdeme : ∀ x, x ∈ L → (1 ≤ x.2 ≤ K cfg)%nat).
  { intros x Hx. apply labelled_elem in Hx as [_ Hx].
    apply (proj1 (list.Forall_forall _ _) Hlab _ Hx). }
  assert (HL' : labelled (map (relabelled p) (linearGroup s))
                = map (λ x, (x.1, relabelled p x.2)) L)
    by apply zip_map_r.
  destruct Htal as [T1 T2 T3 T4].
  constructor.
  - constructor; simpl; try assumption.
    + rewrite length_map. exact H1.
    + apply (cells_permute o (alleleCounts s)); assumption.
    + apply (rows_permute _ o (alleleCountsTotals s)); assumption.
  - simpl. apply Forall_fmap. eapply list.Forall_impl; [exact Hlab|].
    intros g Hg. simpl in *. unfold relabelled.
    pose proof (perm_bound p (K cfg) (g - 1) Hp ltac:(lia)). lia.
  - simpl. rewrite HL'. constructor; simpl.
    + intros k l j Hk Hl Hj. unfold at3. rewrite Hac'v by exact Hk.
      fold (at3 (alleleCounts s) (o !!! k) l j). rewrite T1 by auto.
      rewrite count_if_map. apply count_if_ext. intros x Hx. unfold in_cell. simpl.
      rewrite (relabelled_inverse p o (K cfg)); auto.
    + intros k l Hk Hl. unfold at2. rewrite Htot'v by exact Hk.
      fold (at2 (alleleCountsTotals s) (o !!! k) l). rewrite T2 by auto.
      rewrite count_if_map. apply count_if_ext. intros x Hx. unfold in_row. simpl.
      rewrite (relabelled_inverse p o (K cfg)); auto.
    + intros i k Hi Hk. rewrite Hadm'v, T3 by auto.
      rewrite count_if_map. apply count_if_ext. intros x Hx. unfold in_admix. simpl.
      rewrite (relabelled_inverse p o (K cfg)); auto.
    + intros i Hi. rewrite T4 by auto.
      rewrite count_if_map. apply count_if_ext. intros x Hx. reflexivity.
Qed.

(** ** Member functions that leave the counts alone *)

Lemma consistent_core (s s' : chain) : core s' = core s → consistent s → consistent s'.
Proof.
  intros E Hs. unfold core in E. injection E as E0 E1 E2 E3 E4 E5 E6 E7.
  eapply consistent_frame; [..|exact Hs]; assumption.
Qed.

Lemma for_copies_keeps {A B} (q : A → B) (body : nat → nat → nat → A → A) (a : A) :
  (∀ ind l p x, q (body ind l p x) = q x) → q (for_copies body a) = q a.
Proof.
  intros H. unfold for_copies.
  repeat (apply for_range_keeps; intros). apply H.
Qed.

(** [keeps_for q] proves that a nest of loops keeps the quantity [q]. *)
Ltac keeps_for q :=
  repeat first
    [ reflexivity
    | apply (for_range_keeps q); intros
    | apply (for_copies_keeps q); intros
    | etrans; [apply (for_range_keeps q); intros|]
    | etrans; [apply (for_copies_keeps q); intros|] ].
Ltac keeps := keeps_for core.

Lemma Q_probs_core (ind l p : nat) (s : chain) : core (Q_probs ind l p s) = core s.
Proof.
  unfold Q_probs. etrans; [apply (for_range_keeps core)|reflexivity].
  intros k x _. unfold core. simpl. rewrite length_insert. reflexivity.
Qed.

Lemma produceQmatrix_core (s : chain) : core (produceQmatrix s) = core s.
Proof.
  unfold produceQmatrix. etrans; [apply (for_copies_keeps core)|reflexivity].
  intros ind l p x. etrans; [apply (for_range_keeps core); reflexivity|].
  rewrite Q_probs_core. reflexivity.
Qed.

Lemma updateQmatrix_core (s : chain) : core (updateQmatrix s) = core s.
Proof. unfold updateQmatrix. keeps. Qed.

Lemma storeQmatrix_core (s : chain) : core (storeQmatrix s) = core s.
Proof. unfold storeQmatrix. keeps. Qed.

Lemma d_logLikeGroup_core (s : chain) : core (d_logLikeGroup s) = core s.
Proof. unfold d_logLikeGroup. keeps. Qed.

Lemma d_logLikeJoint_core (s : chain) : core (d_logLikeJoint s) = core s.
Proof.
  unfold d_logLikeJoint. etrans; [apply (for_copies_keeps core)|reflexivity].
  intros ind l p x. case_decide; reflexivity.
Qed.

Lemma pair_loop_core {A} (m : nat) (body : nat → chain * A → chain * A) (x : chain)
    (a : A) :
  (∀ i y, core (body i y).1 = core y.1) →
  core (for_range m body (x, a)).1 = core x.
Proof. intros H. apply (for_range_keeps (λ y, core y.1)). intros. apply H. Qed.

Lemma drawFreqs_core (ga : nat → nat → nat → R) (gm : nat → nat → R) (s : chain) :
  core (drawFreqs ga gm s) = core s.
Proof.
  unfold drawFreqs.
  etrans; [apply (for_range_keeps core)|].
  - intros i x _.
    match goal with
    | |- context [for_range ?m ?b (x, 0)] =>
        assert (E : core (for_range m b (x, 0)).1 = core x)
          by (apply pair_loop_core; intros ? [? ?]; reflexivity);
        destruct (for_range m b (x, 0)) as [y r]
    end.
    simpl in E. rewrite <- E. keeps.
  - apply (for_range_keeps core). intros k x _.
    apply (for_range_keeps core). intros l y _.
    match goal with
    | |- context [for_range ?m ?b (y, 0)] =>
        assert (E : core (for_range m b (y, 0)).1 = core y)
          by (apply pair_loop_core; intros ? [? ?]; reflexivity);
        destruct (for_range m b (y, 0)) as [z r]
    end.
    simpl in E. rewrite <- E. keeps.
Qed.

Lemma alpha_update_core (proposal u : R) (s : chain) :
  core (alpha_update proposal u s) = core s.
Proof. rewrite alpha_update_eq. case_decide; reflexivity. Qed.

Lemma record_likelihood_core (b1 b2 : bool) (rep : nat) (s : chain) :
  core (record_likelihood b1 b2 rep s) = core s.
Proof. unfold record_likelihood. destruct b1, b2; reflexivity. Qed.

Lemma finish_Qmatrices_core (s : chain) : core (finish_Qmatrices s) = core s.
Proof.
  unfold finish_Qmatrices. cbv zeta.
  set (s1 := for_copies _ _).
  assert (E1 : core s1 = core s) by (unfold s1; keeps).
  set (s2 := for_range (n cfg) _ (set_groupIndex (-1) s1)).
  assert (E2 : core s2 = core s) by (rewrite <- E1; unfold s2; keeps).
  destruct (outputQmatrix_pop_on cfg); [|exact E2].
  rewrite <- E2. keeps.
Qed.

(** ** Every reachable state is consistent (C2) *)

Lemma fill_costMat_consistent (s : chain) : consistent s → consistent (fill_costMat s).
Proof.
  intros [[H1 H2 H3 H4 H5 H6 H7 H8] Hlab Htal].
  destruct (fill_costMat_spec s H7) as [Hr _].
  rewrite fill_costMat_eq in *. simpl in Hr.
  constructor; [constructor; simpl; assumption | exact Hlab |].
  eapply tallies_ext; [..|exact Htal]; reflexivity.
Qed.

Lemma chooseBestLabelPermutation_consistent (s : chain) :
  data_ok → hungarian_permutes → consistent s →
  consistent (chooseBestLabelPermutation s).
Proof.
  intros Hdata Hh Hs. unfold chooseBestLabelPermutation. cbv zeta.
  pose proof (fill_costMat_consistent s Hs) as Hs1.
  apply relabel_consistent; [exact Hdata | | ].
  - eapply consistent_core; [|exact Hs1]. reflexivity.
  - simpl. apply Hh, Hs1.
Qed.

Lemma reachable_consistent (s : chain) :
  data_ok → hungarian_permutes → reachable s → consistent s.
Proof.
  intros Hdata Hh Hr. induction Hr.
  - eapply reset_consistent; eassumption.
  - eapply group_update_consistent; eassumption.
  - eapply consistent_core; [apply alpha_update_core | assumption].
  - eapply consistent_core; [apply produceQmatrix_core | assumption].
  - apply chooseBestLabelPermutation_consistent; assumption.
  - eapply consistent_core; [apply updateQmatrix_core | assumption].
  - eapply consistent_core; [apply storeQmatrix_core | assumption].
  - eapply consistent_core; [apply d_logLikeGroup_core | assumption].
  - eapply consistent_core; [apply drawFreqs_core | assumption].
  - eapply consistent_core; [apply d_logLikeJoint_core | assumption].
  - eapply consistent_core; [apply record_likelihood_core | assumption].
  - eapply consistent_core; [apply finish_Qmatrices_core | assumption].
Qed.

(** C2: after [reset] and after every completed operation of the chain, in
    particular a full sweep of [group_update] and an application of the label
    alignment, the totals are the sums of the counts, the admixture totals
    are the numbers of non-missing gene copies of the individuals, and the
    allele counts summed over the demes are the numbers of observations of
    each allele at each locus. *)
Theorem sufficient_statistics_consistent (s : chain) :
  data_ok → hungarian_permutes → reachable s → stats_consistent s.
Proof.
  intros Hdata Hh Hr. apply consistent_stats; [exact Hdata|].
  apply reachable_consistent; assumption.
Qed.

(** ** The label alignment (C3) *)

(** C3: [chooseBestLabelPermutation] fills the cost matrix with
    [sum_g Qnew[g][k1] * (logQnew[g][k1] - logQrunning[g][k2])], takes from the
    solver the permutation [p] of least assignment cost, builds its inverse
    [order]; when [p] is the identity only the solver's scratch members
    change; otherwise every label [g] becomes [p[g-1]+1], the deme axis of
    [alleleCounts], [alleleCountsTotals] and [admixCounts] and of
    [logQmatrix_gene_new] is permuted by [order]; [logQmatrix_gene_running]
    is the same in both cases. *)
Theorem chooseBestLabelPermutation_spec (s : chain) :
  hungarian_ok → shaped s → Q_shaped s →
  let s' := chooseBestLabelPermutation s in
  let p := bestPerm s' in
  let order := bestPermOrder s' in
  (∀ k1 k2, (k1 < K cfg)%nat → (k2 < K cfg)%nat →
     at2 (costMat s') k1 k2 = stephens_cost s k1 k2)
  ∧ p = hungarian (costMat s')
  ∧ solves (costMat s') p
  ∧ (∀ k, (k < K cfg)%nat → order !!! (p !!! k) = k)
  ∧ ((∀ k, (k < K cfg)%nat → p !!! k = k) →
     s' = set_bestPermOrder order (set_bestPerm p (set_costMat (costMat s') s)))
  ∧ (¬ (∀ k, (k < K cfg)%nat → p !!! k = k) →
     linearGroup s' = map (relabelled p) (linearGroup s)
     ∧ (∀ k, (k < K cfg)%nat →
          alleleCounts s' !!! k = alleleCounts s !!! (order !!! k)
          ∧ alleleCountsTotals s' !!! k = alleleCountsTotals s !!! (order !!! k))
     ∧ (∀ i k, (i < n cfg)%nat → (k < K cfg)%nat →
          at2 (admixCounts s') i k = at2 (admixCounts s) i (order !!! k))
     ∧ admixCountsTotals s' = admixCountsTotals s
     ∧ (∀ g k, (g < geneCopies cfg)%nat → (k < K cfg)%nat →
          at2 (logQmatrix_gene_new s') g k
          = at2 (logQmatrix_gene_new s) g (order !!! k)))
  ∧ logQmatrix_gene_running s' = logQmatrix_gene_running s.
Proof.
  intros Hh [H1 H2 H3 H4 H5 H6 H7 H8] [_ HQ]. cbv zeta.
  unfold chooseBestLabelPermutation. cbv zeta.
  destruct (fill_costMat_spec s H7) as [Hrows Hcost].
  rewrite fill_costMat_eq in *. simpl in Hrows, Hcost.
  set (C := for_range (K cfg) _ (costMat s)) in *.
  set (s1 := set_costMat C s).
  set (p := hungarian (costMat s1)).
  set (s2 := set_bestPerm p s1).
  destruct (Hh C Hrows) as [Hp Hmin].
  change (hungarian C) with p in Hp, Hmin.
  destruct (inverse_loop p (bestPermOrder s) (K cfg) Hp H8) as (Hol & Hov & Hback & _).
  destruct (relabel_eq s2) as [Eid Emove].
  change (bestPerm s2) with p in Eid, Emove.
  change (bestPermOrder s2) with (bestPermOrder s) in Eid, Emove.
  set (o := for_range (K cfg) (λ k o, <[p !!! k := k]> o) (bestPermOrder s)) in *.
  destruct (relabel_cases s2) as [Hid|Hmove];
    change (bestPerm s2) with p in *.
  - rewrite Eid by exact Hid. simpl.
    split; [exact Hcost|]. split; [reflexivity|]. split; [split; assumption|].
    split; [exact Hov|]. split; [reflexivity|]. split; [|reflexivity].
    intros Hn. contradiction.
  - rewrite Emove by exact Hmove. rewrite swap_labels_eq. cbv zeta. simpl.
    split; [exact Hcost|]. split; [reflexivity|]. split; [split; assumption|].
    split; [exact Hov|]. split; [intros Hn; contradiction|]. split; [|reflexivity].
    intros _. split; [|split; [|split; [|split]]].
    + rewrite <- H1. apply (fill_map (relabelled p)).
    + intros k Hk. split.
      * rewrite (fill_lookup (λ k _, alleleCounts s !!! (o !!! k))), decide_True;
          [reflexivity|]. rewrite (proj1 H2). lia.
      * rewrite (fill_lookup (λ k _, alleleCountsTotals s !!! (o !!! k))), decide_True;
          [reflexivity|]. rewrite (proj1 H3). lia.
    + intros i k Hi Hk.
      apply (fill2_spec (λ i k _, at2 (admixCounts s) i (o !!! k)) _ _ _ H4);
        assumption.
    + reflexivity.
    + intros g k Hg Hk.
      apply (fill2_spec (λ i k _, at2 (logQmatrix_gene_new s) i (o !!! k)) _ _ _ HQ);
        assumption.
Qed.

(** ** The marginal likelihood (C7) *)

Lemma acc_sum (step : nat → R → R) (t : nat → R) (m : nat) (a : R) :
  (∀ i x, (i < m)%nat → step i x = x + t i) →
  for_range m step a = a + sum_upto m t.
Proof.
  intros H. induction m as [|m IH].
  - rewrite for_range_0, sum_upto_0. lra.
  - rewrite for_range_S, IH, H, sum_upto_S by (intros; auto with lia). lra.
Qed.

Lemma set_logLikeGroup_same (s : chain) : set_logLikeGroup (logLikeGroup s) s = s.
Proof. destruct s; reflexivity. Qed.

Lemma d_logLikeGroup_eq (s : chain) :
  d_logLikeGroup s
  = set_logLikeGroup (logLike_of (alleleCounts s) (alleleCountsTotals s)) s.
Proof.
  unfold d_logLikeGroup.
  rewrite (for_range_lens set_logLikeGroup logLikeGroup (set_logLikeGroup 0 s)
             (λ k a, a + deme_logLike (alleleCounts s !!! k) (alleleCountsTotals s !!! k))).
  - simpl. rewrite (acc_sum _ (λ k, deme_logLike (alleleCounts s !!! k)
                                       (alleleCountsTotals s !!! k)))
      by reflexivity.
    unfold logLike_of. rewrite Rplus_0_l. reflexivity.
  - reflexivity.
  - intros k a _.
    rewrite (for_range_lens set_logLikeGroup logLikeGroup
               (set_logLikeGroup a (set_logLikeGroup 0 s))
               (λ l a,
                  a + (sum_upto (J cfg !!! l) (λ j,
                         lgamma (lambda cfg + IZR (at3 (alleleCounts s) k l j))
                         - lgamma (lambda cfg))
                       + (lgamma (INR (J cfg !!! l) * lambda cfg)
                          - lgamma (INR (J cfg !!! l) * lambda cfg
                                    + IZR (at2 (alleleCountsTotals s) k l)))))).
    + simpl. rewrite (acc_sum _ _ _ _ (λ i x _, eq_refl)). reflexivity.
    + reflexivity.
    + intros l b _. cbv zeta.
      rewrite (for_range_lens set_logLikeGroup logLikeGroup
                 (set_logLikeGroup b (set_logLikeGroup a (set_logLikeGroup 0 s)))
                 (λ j a, a + (lgamma (lambda cfg + IZR (at3 (alleleCounts s) k l j))
                              - lgamma (lambda cfg)))).
      * simpl. rewrite (acc_sum _ _ _ _ (λ i x _, eq_refl)).
        rewrite Rplus_assoc. reflexivity.
      * reflexivity.
      * reflexivity.
Qed.

Lemma sumR_Permutation (l1 l2 : list R) : l1 ≡ₚ l2 → sumR l1 = sumR l2.
Proof.
  induction 1 as [|x l1 l2 _ IH|x y l|l1 l2 l3 _ IH1 _ IH2].
  - reflexivity.
  - rewrite !sumR_cons, IH. reflexivity.
  - rewrite !sumR_cons. lra.
  - congruence.
Qed.

(** A sum over the labels may be taken in the order of a permutation. *)
Lemma sum_upto_permute (o : list nat) (m : nat) (F : nat → R) :
  o ≡ₚ seq 0 m → sum_upto m (λ k, F (o !!! k)) = sum_upto m F.
Proof.
  intros Ho. unfold sum_upto.
  assert (E : map (λ k, F (o !!! k)) (seq 0 m) = map F o).
  { rewrite <- (map_map (λ k, o !!! k) F). f_equal.
    apply (list_eq_same_length _ _ m).
    - apply perm_length, Ho.
    - rewrite length_map. apply length_seq.
    - intros i x y Hi Hx Hy. rewrite list_lookup_fmap, lookup_seq_lt in Hx by lia.
      simpl in Hx. injection Hx as <-.
      apply list_lookup_total_correct in Hy. exact Hy. }
  rewrite E. apply sumR_Permutation. apply fmap_Permutation, Ho.
Qed.

Lemma logLike_of_permute (o : list nat) (ac ac' : list (list (list Z)))
    (tot tot' : list (list Z)) :
  o ≡ₚ seq 0 (K cfg) →
  (∀ k, (k < K cfg)%nat → ac' !!! k = ac !!! (o !!! k) ∧ tot' !!! k = tot !!! (o !!! k)) →
  logLike_of ac' tot' = logLike_of ac tot.
Proof.
  intros Ho Hv. unfold logLike_of.
  rewrite <- (sum_upto_permute o (K cfg)
                (λ k, deme_logLike (ac !!! k) (tot !!! k)) Ho).
  apply sum_upto_ext. intros k Hk. destruct (Hv k Hk) as [-> ->]. reflexivity.
Qed.

(** The tensors after the relabelling by a permutation. *)
Lemma relabel_counts (s : chain) :
  shaped s → bestPerm s ≡ₚ seq 0 (K cfg) →
  ∃ o, o ≡ₚ seq 0 (K cfg)
       ∧ ∀ k, (k < K cfg)%nat →
           alleleCounts (relabel s) !!! k = alleleCounts s !!! (o !!! k)
           ∧ alleleCountsTotals (relabel s) !!! k = alleleCountsTotals s !!! (o !!! k).
Proof.
  intros [H1 H2 H3 H4 H5 H6 H7 H8] Hp.
  destruct (inverse_loop (bestPerm s) (bestPermOrder s) (K cfg) Hp H8)
    as (Hol & Hov & Hback & Hoperm).
  destruct (relabel_eq s) as [Eid Emove].
  set (o := for_range (K cfg) _ (bestPermOrder s)) in *.
  destruct (relabel_cases s) as [Hid|Hmove].
  - rewrite Eid by exact Hid. exists (seq 0 (K cfg)). split; [reflexivity|].
    intros k Hk. rewrite lookup_total_seq_lt by lia. simpl. split; reflexivity.
  - rewrite Emove by exact Hmove. rewrite swap_labels_eq. cbv zeta. simpl.
    exists o. split; [exact Hoperm|]. intros k Hk. split.
    + rewrite (fill_lookup (λ k _, alleleCounts s !!! (o !!! k))), decide_True;
        [reflexivity|]. rewrite (proj1 H2). lia.
    + rewrite (fill_lookup (λ k _, alleleCountsTotals s !!! (o !!! k))), decide_True;
        [reflexivity|]. rewrite (proj1 H3). lia.
Qed.

(** C7, as amended: in exact arithmetic the value computed by
    [d_logLikeGroup] is the same before and after the relabelling of the
    chain by any permutation of the labels, hence before and after the
    alignment step; and the likelihood formula takes the same value on count
    tensors whose deme rows are permuted.  The binary64 value of the loop
    depends on the order of the demes: see the binary64 reading at the
    end. *)
Theorem logLikeGroup_label_invariant (s : chain) (p : list nat) :
  shaped s → p ≡ₚ seq 0 (K cfg) →
  logLikeGroup (d_logLikeGroup (relabel (set_bestPerm p s)))
  = logLikeGroup (d_logLikeGroup s)
  ∧ (hungarian_permutes →
     logLikeGroup (d_logLikeGroup (chooseBestLabelPermutation s))
     = logLikeGroup (d_logLikeGroup s))
  ∧ logLike_of (map (λ k, alleleCounts s !!! (p !!! k)) (seq 0 (K cfg)))
      (map (λ k, alleleCountsTotals s !!! (p !!! k)) (seq 0 (K cfg)))
    = logLike_of (alleleCounts s) (alleleCountsTotals s).
Proof.
  intros Hsh Hp. split; [|split].
  - rewrite !d_logLikeGroup_eq. simpl.
    assert (Hsh' : shaped (set_bestPerm p s)) by (destruct Hsh; constructor; assumption).
    destruct (relabel_counts (set_bestPerm p s) Hsh' Hp) as (o & Ho & Hv).
    apply (logLike_of_permute o); assumption.
  - intros Hh. rewrite !d_logLikeGroup_eq. simpl.
    unfold chooseBestLabelPermutation. cbv zeta.
    destruct (fill_costMat_spec s (sh_costMat _ Hsh)) as [Hrows _].
    rewrite fill_costMat_eq in *. simpl in Hrows.
    set (s1 := set_costMat _ s) in *.
    assert (Hsh2 : shaped (set_bestPerm (hungarian (costMat s1)) s1))
      by (destruct Hsh; constructor; assumption).
    destruct (relabel_counts _ Hsh2 (Hh _ Hrows)) as (o & Ho & Hv).
    apply (logLike_of_permute o); assumption.
  - apply (logLike_of_permute p); [exact Hp|]. intros k Hk.
    rewrite !(list_lookup_total_fmap _ (seq 0 (K cfg)))
      by (rewrite length_seq; exact Hk).
    rewrite lookup_total_seq_lt by exact Hk. split; reflexivity.
Qed.

(** ** Positive weights (C9) *)

Lemma tallies_nonneg (cs : list (nat * nat * nat * nat)) (s : chain) :
  tallies (λ P, count_if P cs) s → counts_nonneg s.
Proof.
  intros [T1 T2 T3 _]. repeat split; intros.
  - rewrite T1 by assumption. apply count_if_nonneg.
  - rewrite T2 by assumption. apply count_if_nonneg.
  - rewrite T3 by assumption. apply count_if_nonneg.
Qed.

Lemma consistent_nonneg (s : chain) : consistent s → counts_nonneg s.
Proof. intros [_ _ Htal]. eapply tallies_nonneg, Htal. Qed.

Lemma allele_ratio_pos (ind l p k : nat) (s : chain) :
  0 < lambda cfg → counts_nonneg s →
  (k < K cfg)%nat → (l < loci cfg)%nat → (1 ≤ datum ind l p ≤ J cfg !!! l)%nat →
  0 < allele_ratio ind l p k s.
Proof.
  intros Hlam (N1 & N2 & _) Hk Hl Ha. unfold allele_ratio.
  assert (0 <= IZR (at3 (alleleCounts s) k l (datum ind l p - 1)))
    by (apply IZR_le, N1; lia).
  assert (0 <= IZR (at2 (alleleCountsTotals s) k l)) by (apply IZR_le, N2; lia).
  assert (1 <= INR (J cfg !!! l)) by (apply (le_INR 1); lia).
  apply Rdiv_lt_0_compat; nra.
Qed.

Lemma admix_factor_pos (ind k : nat) (s : chain) :
  0 < alpha s → counts_nonneg s → (ind < n cfg)%nat → (k < K cfg)%nat →
  0 < IZR (at2 (admixCounts s) ind k) + alpha s.
Proof.
  intros Ha (_ & _ & N3) Hi Hk.
  assert (0 <= IZR (at2 (admixCounts s) ind k)) by (apply IZR_le, N3; lia).
  lra.
Qed.

Lemma group_weight_pos (ind l p k : nat) (s : chain) :
  0 < alpha s → 0 < lambda cfg → counts_nonneg s →
  (ind < n cfg)%nat → (l < loci cfg)%nat → (datum ind l p ≤ J cfg !!! l)%nat →
  (k < K cfg)%nat →
  0 < group_weight ind l p s k.
Proof.
  intros Ha Hlam Hn Hi Hl Hd Hk. unfold group_weight.
  pose proof (admix_factor_pos ind k s Ha Hn Hi Hk).
  apply Rmult_lt_0_compat; [|assumption].
  destruct (decide (datum ind l p = 0%nat)); [lra|].
  destruct (decide (beta cfg ≠ 1)); [apply pow_pos|].
  apply allele_ratio_pos; try assumption. lia.
Qed.

Lemma Q_weight_pos (ind l p k : nat) (s : chain) :
  0 < alpha s → 0 < lambda cfg → counts_nonneg s →
  (ind < n cfg)%nat → (l < loci cfg)%nat → (datum ind l p ≤ J cfg !!! l)%nat →
  (k < K cfg)%nat →
  0 < Q_weight ind l p s k.
Proof.
  intros Ha Hlam Hn Hi Hl Hd Hk. unfold Q_weight.
  pose proof (admix_factor_pos ind k s Ha Hn Hi Hk).
  apply Rmult_lt_0_compat; [|assumption].
  destruct (decide (datum ind l p = 0%nat)); [lra|].
  apply allele_ratio_pos; try assumption. lia.
Qed.

(** The loop of [produceQmatrix] over the demes. *)
Lemma Q_probs_loop (ind l p : nat) (s : chain) (m : nat) :
  (m ≤ length (probVec s))%nat →
  for_range m (λ k s,
      let v :=
        if decide (datum ind l p = 0%nat) then 1 else allele_ratio ind l p k s in
      let v := v * (IZR (at2 (admixCounts s) ind k) + alpha s) in
      let s := set_probVec (<[k := v]> (probVec s)) s in
      set_probVecSum (probVecSum s + v) s)
    (set_probVecSum 0 s)
  = set_probVecSum (sum_upto m (Q_weight ind l p s))
      (set_probVec (map (Q_weight ind l p s) (seq 0 m) ++ drop m (probVec s)) s).
Proof.
  induction m as [|m IH]; intros Hm.
  - rewrite for_range_0. simpl. rewrite drop_0, set_probVec_same. reflexivity.
  - rewrite for_range_S, IH by lia. rewrite sum_upto_S.
    rewrite <- prefix_insert by lia.
    reflexivity.
Qed.

Lemma Q_probs_eq (ind l p : nat) (s : chain) :
  length (probVec s) = K cfg →
  Q_probs ind l p s
  = set_probVecSum (sum_upto (K cfg) (Q_weight ind l p s))
      (set_probVec (map (Q_weight ind l p s) (seq 0 (K cfg))) s).
Proof.
  intros Hlen. unfold Q_probs. rewrite Q_probs_loop by lia.
  rewrite drop_ge, app_nil_r by lia. reflexivity.
Qed.

(** The tensors between the removal of a gene copy and its return. *)
Lemma remove_copy_nonneg (t ind l p : nat) (s : chain) :
  data_ok →
  copies !! t = Some (ind, l, p) →
  groupIndex s = (Z.of_nat t - 1)%Z →
  consistent s →
  shaped (remove_copy ind l p (next_copy s))
  ∧ counts_nonneg (remove_copy ind l p (next_copy s)).
Proof.
  intros Hdata Hc Hgi [Hsh Hlab Htal].
  pose proof (copies_bounds _ _ _ _ Hc) as (Hind & Hl & Hp).
  pose proof (data_ok_lookup _ _ _ _ Hdata Hc) as Ha.
  pose proof (lookup_lt_Some _ _ _ Hc) as Ht.
  assert (HG : length (linearGroup s) = length copies)
    by (rewrite (sh_group _ Hsh); apply Hdata).
  assert (Hg0 : gidx (next_copy s) = t) by (unfold gidx; simpl; lia).
  assert (Hsh0 : shaped (next_copy s)) by (destruct Hsh; constructor; assumption).
  rewrite remove_copy_shift. split; [apply shift_copy_shaped, Hsh0|].
  set (L := labelled (linearGroup s)) in *.
  assert (HL : L !! t = Some (ind, l, p, linearGroup s !!! t))
    by (apply labelled_lookup; [exact Hc | lia]).
  apply (tallies_nonneg (take t L ++ drop (S t) L)).
  apply (shift_copy_tallies Z.pred (-1) ind l p (linearGroup s !!! t)
           (λ P, count_if P L)); try assumption.
  - intros z. lia.
  - rewrite Hg0. reflexivity.
  - apply (Forall_lookup_total_1 _ _ t Hlab). lia.
  - intros P. rewrite (count_if_remove P L t _ HL). lia.
  - eapply tallies_ext; [..|exact Htal]; reflexivity.
Qed.

Lemma Forall_map_seq {A} (P : A → Prop) (f : nat → A) (m : nat) :
  (∀ k, (k < m)%nat → P (f k)) → Forall P (map f (seq 0 m)).
Proof.
  intros H. apply Forall_fmap, list.Forall_forall. intros k Hk.
  apply elem_of_seq in Hk. apply H. lia.
Qed.

(** The weights [group_update] computes for the gene copy it has just
    removed are positive, and so is their sum. *)
Lemma group_probs_positive (t ind l p : nat) (s : chain) :
  data_ok → 0 < lambda cfg → 0 < alpha s →
  consistent s →
  copies !! t = Some (ind, l, p) →
  groupIndex s = (Z.of_nat t - 1)%Z →
  Forall (λ w, 0 < w)
    (probVec (group_probs ind l p (remove_copy ind l p (next_copy s))))
  ∧ 0 < probVecSum (group_probs ind l p (remove_copy ind l p (next_copy s))).
Proof.
  intros Hdata Hlam Ha Hs Hc Hgi.
  pose proof (copies_bounds _ _ _ _ Hc) as (Hind & Hl & Hp).
  pose proof (data_ok_lookup _ _ _ _ Hdata Hc) as Hd.
  destruct (remove_copy_nonneg t ind l p s Hdata Hc Hgi Hs) as [Hsh1 Hn1].
  assert (HK : (0 < K cfg)%nat).
  { pose proof (lookup_lt_Some _ _ _ Hc) as Ht.
    destruct Hs as [Hsh Hlab _].
    assert (HG : length (linearGroup s) = length copies)
      by (rewrite (sh_group _ Hsh); apply Hdata).
    pose proof (Forall_lookup_total_1 _ _ t Hlab ltac:(lia)) as Hg. simpl in Hg. lia. }
  rewrite group_probs_eq by apply Hsh1. simpl.
  assert (Ha1 : 0 < alpha (remove_copy ind l p (next_copy s))).
  { rewrite remove_copy_shift.
    rewrite (proj1 (proj2 (proj2 (shift_copy_frame _ _ _ _ _)))). exact Ha. }
  split.
  - apply Forall_map_seq. intros k Hk. apply group_weight_pos; assumption.
  - apply sum_upto_pos; [exact HK|]. intros k Hk.
    apply group_weight_pos; assumption.
Qed.

(** C9: with [alpha > 0], [lambda > 0] and non-negative count tensors every
    weight of [group_update] and of [produceQmatrix] is positive and so is
    their sum when there is a deme; in a consistent chain the tensors are
    non-negative when [group_update] computes the weights of the gene copy it
    has just removed, so [probVec] is positive and [probVecSum] is not zero,
    in [group_update] and in [produceQmatrix]. *)
Theorem weights_positive (t ind l p : nat) (s : chain) :
  data_ok → 0 < lambda cfg → 0 < alpha s →
  consistent s →
  copies !! t = Some (ind, l, p) →
  groupIndex s = (Z.of_nat t - 1)%Z →
  let s1 := remove_copy ind l p (next_copy s) in
  (∀ x k, 0 < alpha x → counts_nonneg x → (k < K cfg)%nat →
     0 < group_weight ind l p x k ∧ 0 < Q_weight ind l p x k)
  ∧ counts_nonneg s1
  ∧ (Forall (λ w, 0 < w) (probVec (group_probs ind l p s1))
     ∧ 0 < probVecSum (group_probs ind l p s1)
     ∧ probVecSum (group_probs ind l p s1) ≠ 0)
  ∧ (Forall (λ w, 0 < w) (probVec (Q_probs ind l p s))
     ∧ 0 < probVecSum (Q_probs ind l p s)
     ∧ probVecSum (Q_probs ind l p s) ≠ 0).
Proof.
  intros Hdata Hlam Ha Hs Hc Hgi. cbv zeta.
  pose proof (copies_bounds _ _ _ _ Hc) as (Hind & Hl & Hp).
  pose proof (data_ok_lookup _ _ _ _ Hdata Hc) as Hd.
  destruct (remove_copy_nonneg t ind l p s Hdata Hc Hgi Hs) as [Hsh1 Hn1].
  assert (HK : (0 < K cfg)%nat).
  { pose proof (lookup_lt_Some _ _ _ Hc) as Ht.
    destruct Hs as [Hsh Hlab _].
    assert (HG : length (linearGroup s) = length copies)
      by (rewrite (sh_group _ Hsh); apply Hdata).
    pose proof (Forall_lookup_total_1 _ _ t Hlab ltac:(lia)) as Hg. simpl in Hg. lia. }
  split; [|split; [exact Hn1|split]].
  - intros x k Hax Hnx Hk. split.
    + apply group_weight_pos; assumption.
    + apply Q_weight_pos; assumption.
  - destruct (group_probs_positive t ind l p s Hdata Hlam Ha Hs Hc Hgi)
      as [HF Hpos].
    split; [exact HF | split; [exact Hpos | lra]].
  - rewrite Q_probs_eq by apply Hs. simpl.
    pose proof (consistent_nonneg s Hs) as Hn.
    assert (Hpos : 0 < sum_upto (K cfg) (Q_weight ind l p s)).
    { apply sum_upto_pos; [exact HK|]. intros k Hk.
      apply Q_weight_pos; assumption. }
    split; [|split; [exact Hpos | lra]].
    apply Forall_map_seq. intros k Hk. apply Q_weight_pos; assumption.
Qed.

(** ** The resampling of one gene copy (C1) *)

Lemma group_weight_posterior (ind l p k : nat) (s : chain) :
  (datum ind l p ≠ 0%nat → 0 < allele_ratio ind l p k s) →
  group_weight ind l p s k = posterior_weight ind l p s k.
Proof.
  intros Hpos. unfold group_weight, posterior_weight.
  destruct (decide (datum ind l p = 0%nat)) as [Hz|Hnz]; [lra|].
  fold (allele_ratio ind l p k s).
  destruct (decide (beta cfg ≠ 1)) as [Hb|Hb].
  - unfold pow. lra.
  - assert (Eb : beta cfg = 1) by (destruct (Req_dec (beta cfg) 1); tauto).
    rewrite Eb, Rpower_1 by (apply Hpos, Hnz). lra.
Qed.

Lemma Q_weight_posterior (ind l p k : nat) (s : chain) :
  Q_weight ind l p s k = Q_posterior_weight ind l p s k.
Proof.
  unfold Q_weight, Q_posterior_weight.
  destruct (decide (datum ind l p = 0%nat)); [lra|].
  fold (allele_ratio ind l p k s). lra.
Qed.

Lemma sumR_take_map (w : nat → R) (m k : nat) :
  (k ≤ m)%nat → sumR (take k (map w (seq 0 m))) = sum_upto k w.
Proof.
  intros Hk. unfold sum_upto. rewrite <- fmap_take, take_seq.
  rewrite Nat.min_l by lia. reflexivity.
Qed.

Lemma map_seq_ext {A} (f g : nat → A) (m : nat) :
  (∀ k, (k < m)%nat → f k = g k) → map f (seq 0 m) = map g (seq 0 m).
Proof.
  intros H. apply map_ext_in. intros k Hk. apply in_seq in Hk. apply H. lia.
Qed.

Lemma shift_copy_missing (f : Z → Z) (ind l p : nat) (s : chain) :
  datum ind l p = 0%nat → shift_copy f ind l p s = s.
Proof. intros Hz. unfold shift_copy. rewrite decide_False by lia. reflexivity. Qed.

Lemma shift_copy_present (f : Z → Z) (ind l p : nat) (s : chain) :
  datum ind l p ≠ 0%nat →
  let d := deme_of (linearGroup s) (gidx s) in
  let s' := shift_copy f ind l p s in
  alleleCounts s' = alter3 f d l (datum ind l p - 1) (alleleCounts s)
  ∧ alleleCountsTotals s' = alter2 f d l (alleleCountsTotals s)
  ∧ admixCounts s' = alter2 f ind d (admixCounts s)
  ∧ admixCountsTotals s' = alter f ind (admixCountsTotals s).
Proof.
  intros Hnz. cbv zeta. unfold shift_copy. rewrite decide_True by assumption.
  repeat split; reflexivity.
Qed.

(** C1: [group_update] visits the gene copies in canonical order; at the copy
    [(ind,l,p)] of index [t] it first removes the copy from the four count
    tensors at its current deme (nothing is removed when the observation is
    missing), computes for every deme [k] the weight
    [admixCounts[ind][k] + alpha], multiplied unless the observation is
    missing by the allele factor raised to the power [beta], draws the new
    label by [sample1] from these weights and their sum, so that label [k] is
    drawn exactly when the uniform deviate times the sum falls in the [k]-th
    cumulative interval, of length the [k]-th weight, and adds the copy back
    at the new deme (nothing is added when missing). *)
Theorem group_update_step (us : nat → R) (t ind l p : nat) (s : chain) :
  data_ok → 0 < lambda cfg → 0 < alpha s →
  consistent s →
  copies !! t = Some (ind, l, p) →
  groupIndex s = (Z.of_nat t - 1)%Z →
  let s1 := remove_copy ind l p (next_copy s) in
  let w := posterior_weight ind l p s1 in
  let s2 := set_probVecSum (sum_upto (K cfg) w)
              (set_probVec (map w (seq 0 (K cfg))) s1) in
  (∀ x, group_update us x
        = fold_left (λ acc c, acc ≫= group_step us c.1.1 c.1.2 c.2) copies
            (Some (set_groupIndex (-1) x)))
  ∧ group_step us ind l p s
    = (k ← sample1 (map w (seq 0 (K cfg))) (sum_upto (K cfg) w) (us t);
       Some (add_copy ind l p (set_linearGroup (<[t := k]> (linearGroup s)) s2)))
  ∧ (∀ k, 0 <= us t →
       sample1 (map w (seq 0 (K cfg))) (sum_upto (K cfg) w) (us t) = Some (S k) ↔
       (k < K cfg)%nat
       ∧ sum_upto k w <= sum_upto (K cfg) w * us t < sum_upto k w + w k)
  ∧ (∀ x, datum ind l p = 0%nat →
       remove_copy ind l p x = x ∧ add_copy ind l p x = x)
  ∧ (∀ x, datum ind l p ≠ 0%nat →
       let d := deme_of (linearGroup x) (gidx x) in
       let a := (datum ind l p - 1)%nat in
       (alleleCounts (remove_copy ind l p x) = alter3 Z.pred d l a (alleleCounts x)
        ∧ alleleCountsTotals (remove_copy ind l p x)
          = alter2 Z.pred d l (alleleCountsTotals x)
        ∧ admixCounts (remove_copy ind l p x) = alter2 Z.pred ind d (admixCounts x)
        ∧ admixCountsTotals (remove_copy ind l p x)
          = alter Z.pred ind (admixCountsTotals x))
       ∧ (alleleCounts (add_copy ind l p x) = alter3 Z.succ d l a (alleleCounts x)
          ∧ alleleCountsTotals (add_copy ind l p x)
            = alter2 Z.succ d l (alleleCountsTotals x)
          ∧ admixCounts (add_copy ind l p x) = alter2 Z.succ ind d (admixCounts x)
          ∧ admixCountsTotals (add_copy ind l p x)
            = alter Z.succ ind (admixCountsTotals x))).
Proof.
  intros Hdata Hlam Ha Hs Hc Hgi. cbv zeta.
  pose proof (copies_bounds _ _ _ _ Hc) as (Hind & Hl & Hp).
  pose proof (data_ok_lookup _ _ _ _ Hdata Hc) as Hd.
  destruct (remove_copy_nonneg t ind l p s Hdata Hc Hgi Hs) as [Hsh1 Hn1].
  set (s1 := remove_copy ind l p (next_copy s)) in *.
  assert (F : linearGroup s1 = linearGroup s ∧ groupIndex s1 = (groupIndex s + 1)%Z
              ∧ alpha s1 = alpha s).
  { unfold s1. rewrite remove_copy_shift.
    destruct (shift_copy_frame Z.pred ind l p (next_copy s)) as (F1 & F2 & F3 & _).
    rewrite F1, F2, F3. repeat split. }
  destruct F as (F1 & F2 & F3).
  assert (Hg1 : gidx s1 = t) by (unfold gidx; rewrite F2; lia).
  assert (Hw : ∀ k, (k < K cfg)%nat →
            group_weight ind l p s1 k = posterior_weight ind l p s1 k).
  { intros k Hk. apply group_weight_posterior. intros Hnz.
    apply allele_ratio_pos; try assumption. lia. }
  assert (Hwpos : ∀ k, (k < K cfg)%nat → 0 < posterior_weight ind l p s1 k).
  { intros k Hk. rewrite <- Hw by exact Hk.
    apply group_weight_pos; try assumption. rewrite F3. exact Ha. }
  split; [|split; [|split; [|split]]].
  - intros x. unfold group_update. apply for_copies_flat.
  - unfold group_step. fold s1. rewrite group_probs_eq by apply Hsh1.
    rewrite (map_seq_ext _ _ _ Hw), (sum_upto_ext _ _ _ Hw).
    simpl. change (gidx (set_probVecSum _ _)) with (gidx s1).
    rewrite Hg1, F1. reflexivity.
  - intros k Hu.
    assert (Hnn : Forall (λ x, 0 <= x) (map (posterior_weight ind l p s1) (seq 0 (K cfg)))).
    { apply Forall_map_seq. intros j Hj. left. apply Hwpos, Hj. }
    assert (Hsum : 0 <= sum_upto (K cfg) (posterior_weight ind l p s1)).
    { destruct (decide (0 < K cfg)%nat) as [HK|HK].
      - left. apply sum_upto_pos; assumption.
      - replace (K cfg) with 0%nat by lia. rewrite sum_upto_0. lra. }
    rewrite (sample1_interval _ _ _ _ Hnn) by (apply Rmult_le_pos; assumption).
    rewrite length_map, length_seq. simpl. rewrite Nat.sub_0_r. split.
    + intros (Hk & Hlo & Hhi).
      rewrite sumR_take_map in Hlo by lia. rewrite sumR_take_map in Hhi by lia.
      rewrite sum_upto_S in Hhi. repeat split; [lia | exact Hlo | exact Hhi].
    + intros (Hk & Hlo & Hhi).
      rewrite !sumR_take_map by lia. rewrite sum_upto_S.
      repeat split; [lia | lia | exact Hlo | exact Hhi].
  - intros x Hz. rewrite remove_copy_shift, add_copy_shift.
    split; apply shift_copy_missing, Hz.
  - intros x Hnz. cbv zeta. rewrite remove_copy_shift, add_copy_shift.
    split; apply (shift_copy_present _ _ _ _ _ Hnz).
Qed.

(** ** produceQmatrix (C6) *)

(** The loop that writes one row of [Qmatrix_gene_new] and of
    [logQmatrix_gene_new]. *)
Lemma Q_row_loop (G t : nat) (v : nat → R) (Q LQ : list (list R)) (m : nat) :
  rows G (K cfg) Q → rows G (K cfg) LQ → (t < G)%nat → (m ≤ K cfg)%nat →
  let r := for_range m (λ k '(Q, LQ),
               let Q' := set2 t k (v k) Q in
               (Q', set2 t k (ln (at2 Q' t k)) LQ)) (Q, LQ) in
  rows G (K cfg) r.1 ∧ rows G (K cfg) r.2
  ∧ ∀ g k, (g < G)%nat → (k < K cfg)%nat →
      at2 r.1 g k = (if decide (g = t ∧ k < m)%nat then v k else at2 Q g k)
      ∧ at2 r.2 g k = (if decide (g = t ∧ k < m)%nat then ln (v k) else at2 LQ g k).
Proof.
  intros HQ HLQ Ht Hm. cbv zeta. induction m as [|m IH].
  - rewrite for_range_0. simpl. split; [exact HQ|]. split; [exact HLQ|].
    intros g k Hg Hk. rewrite !decide_False by lia. split; reflexivity.
  - rewrite for_range_S. destruct (IH ltac:(lia)) as (R1 & R2 & Hv).
    destruct (for_range m _ (Q, LQ)) as [Q1 LQ1]. simpl in *.
    split; [apply rows_set2, R1|]. split; [apply rows_set2, R2|].
    intros g k Hg Hk. destruct (Hv g k Hg Hk) as [V1 V2].
    rewrite !at2_set2.
    rewrite (proj1 R1), (proj1 R2), (rows_row _ _ _ _ R1), (rows_row _ _ _ _ R2) by lia.
    destruct (decide ((t = g ∧ (t < G)%nat) ∧ m = k ∧ (m < K cfg)%nat))
      as [[[<- _] [<- _]]|Hn].
    + rewrite !decide_True by lia. split; reflexivity.
    + rewrite V1, V2. destruct (decide (g = t ∧ (k < m)%nat)).
      * rewrite !decide_True by lia. split; reflexivity.
      * rewrite !decide_False by lia. split; reflexivity.
Qed.

Lemma Q_weight_ext (ind l p k : nat) (s x : chain) :
  alleleCounts x = alleleCounts s → alleleCountsTotals x = alleleCountsTotals s →
  admixCounts x = admixCounts s → alpha x = alpha s →
  Q_weight ind l p x k = Q_weight ind l p s k.
Proof.
  intros E1 E2 E3 E4. unfold Q_weight, allele_ratio. rewrite E1, E2, E3, E4.
  reflexivity.
Qed.

(** One pass of [produceQmatrix]. *)
Lemma produceQmatrix_pass (ind l p : nat) (x : chain) :
  length (probVec x) = K cfg →
  let w := Q_weight ind l p x in
  let t := Z.to_nat (groupIndex x + 1) in
  for_range (K cfg) (λ k s,
      let s := set_Qmatrix_gene_new
                 (set2 (gidx s) k (probVec s !!! k / probVecSum s)
                    (Qmatrix_gene_new s)) s in
      set_logQmatrix_gene_new
        (set2 (gidx s) k (ln (at2 (Qmatrix_gene_new s) (gidx s) k))
           (logQmatrix_gene_new s)) s)
    (Q_probs ind l p (next_copy x))
  = let r := for_range (K cfg) (λ k '(Q, LQ),
                 let Q' := set2 t k (map w (seq 0 (K cfg)) !!! k / sum_upto (K cfg) w) Q in
                 (Q', set2 t k (ln (at2 Q' t k)) LQ))
               (Qmatrix_gene_new x, logQmatrix_gene_new x) in
    set_logQmatrix_gene_new r.2
      (set_Qmatrix_gene_new r.1
         (set_probVecSum (sum_upto (K cfg) w)
            (set_probVec (map w (seq 0 (K cfg))) (next_copy x)))).
Proof.
  intros Hlen. cbv zeta.
  rewrite Q_probs_eq by exact Hlen.
  set (x1 := set_probVecSum _ _).
  rewrite (for_range_lens
             (λ '(Q, LQ) y, set_logQmatrix_gene_new LQ (set_Qmatrix_gene_new Q y))
             (λ y, (Qmatrix_gene_new y, logQmatrix_gene_new y)) x1
             (λ k '(Q, LQ),
                let Q' := set2 (Z.to_nat (groupIndex x + 1)) k
                            (map (Q_weight ind l p x) (seq 0 (K cfg)) !!! k
                             / sum_upto (K cfg) (Q_weight ind l p x)) Q in
                (Q', set2 (Z.to_nat (groupIndex x + 1)) k
                       (ln (at2 Q' (Z.to_nat (groupIndex x + 1)) k)) LQ))).
  - simpl. destruct (for_range (K cfg) _ _) as [Q LQ]. reflexivity.
  - destruct x; reflexivity.
  - intros k [Q LQ] _. reflexivity.
Qed.

(** The rows written by the first [t] passes of [produceQmatrix]. *)
Lemma produceQmatrix_rows (s : chain) :
  data_ok → shaped s → Q_shaped s →
  let s' := produceQmatrix s in
  Q_shaped s'
  ∧ ∀ t ind l p k, copies !! t = Some (ind, l, p) → (k < K cfg)%nat →
      at2 (Qmatrix_gene_new s') t k
      = Q_weight ind l p s k / sum_upto (K cfg) (Q_weight ind l p s)
      ∧ at2 (logQmatrix_gene_new s') t k = ln (at2 (Qmatrix_gene_new s') t k).
Proof.
  intros Hdata Hsh [HQ HLQ]. cbv zeta. unfold produceQmatrix.
  assert (HG : geneCopies cfg = length copies) by apply Hdata.
  set (r := for_copies _ _).
  assert (Hinv :
    groupIndex r = (Z.of_nat (length copies) - 1)%Z
    ∧ core r = core s ∧ alpha r = alpha s ∧ length (probVec r) = K cfg
    ∧ Q_shaped r
    ∧ ∀ t ind l p k, (t < length copies)%nat → copies !! t = Some (ind, l, p) →
        (k < K cfg)%nat →
        at2 (Qmatrix_gene_new r) t k
        = Q_weight ind l p s k / sum_upto (K cfg) (Q_weight ind l p s)
        ∧ at2 (logQmatrix_gene_new r) t k = ln (at2 (Qmatrix_gene_new r) t k)).
  { unfold r.
    apply (for_copies_ind (λ m x,
      groupIndex x = (Z.of_nat m - 1)%Z
      ∧ core x = core s ∧ alpha x = alpha s ∧ length (probVec x) = K cfg
      ∧ Q_shaped x
      ∧ ∀ t ind l p k, (t < m)%nat → copies !! t = Some (ind, l, p) →
          (k < K cfg)%nat →
          at2 (Qmatrix_gene_new x) t k
          = Q_weight ind l p s k / sum_upto (K cfg) (Q_weight ind l p s)
          ∧ at2 (logQmatrix_gene_new x) t k = ln (at2 (Qmatrix_gene_new x) t k))).
    - split; [reflexivity|]. split; [reflexivity|]. split; [reflexivity|].
      split; [apply Hsh|]. split; [split; assumption|]. intros; lia.
    - intros m ind l p x Hc (Hgi & Hcore & Hal & Hpv & [XQ XLQ] & Hprev).
      pose proof (lookup_lt_Some _ _ _ Hc) as Hm.
      pose proof (produceQmatrix_pass ind l p x Hpv) as Ep.
      cbv zeta in Ep. cbv zeta. rewrite Ep. clear Ep.
      assert (Et : Z.to_nat (groupIndex x + 1) = m) by lia. rewrite Et.
      destruct (Q_row_loop (geneCopies cfg) m
                  (λ k, map (Q_weight ind l p x) (seq 0 (K cfg)) !!! k
                        / sum_upto (K cfg) (Q_weight ind l p x))
                  (Qmatrix_gene_new x) (logQmatrix_gene_new x) (K cfg)
                  XQ XLQ ltac:(lia) (le_n _)) as (R1 & R2 & Hv).
      destruct (for_range (K cfg) _ (Qmatrix_gene_new x, logQmatrix_gene_new x))
        as [Q' LQ']. simpl in R1, R2, Hv. simpl.
      unfold core in Hcore. injection Hcore as C0 C1 C2 C3 C4 C5 C6 C7.
      assert (Ew : ∀ k, Q_weight ind l p x k = Q_weight ind l p s k)
        by (intros k; apply Q_weight_ext; assumption).
      split; [lia|]. split; [unfold core; simpl; rewrite length_map, length_seq;
                             rewrite C0, C1, C2, C3, C4, C6, C7;
                             rewrite (sh_probVec _ Hsh); reflexivity|].
      split; [exact Hal|]. split; [rewrite length_map, length_seq; reflexivity|].
      split; [split; assumption|].
      intros t ind' l' p' k Ht Hc' Hk.
      destruct (Hv t k ltac:(lia) Hk) as [V1 V2]. rewrite V1, V2.
      destruct (decide (t = m ∧ (k < K cfg)%nat)) as [[-> _]|Hn].
      + rewrite Hc in Hc'. injection Hc' as <- <- <-.
        rewrite (list_lookup_total_fmap _ (seq 0 (K cfg)))
          by (rewrite length_seq; exact Hk).
        rewrite lookup_total_seq_lt by exact Hk. simpl.
        rewrite Ew, (sum_upto_ext _ _ _ (λ k _, Ew k)). split; reflexivity.
      + apply Hprev; [lia | exact Hc' | exact Hk]. }
  destruct Hinv as (_ & _ & _ & _ & HQ' & Hv).
  split; [exact HQ'|]. intros t ind l p k Hc Hk.
  apply (Hv t ind l p k); [eapply lookup_lt_Some, Hc | exact Hc | exact Hk].
Qed.

Lemma sum_upto_div (m : nat) (f : nat → R) (c : R) :
  sum_upto m (λ k, f k / c) = sum_upto m f / c.
Proof.
  induction m as [|m IH].
  - rewrite !sum_upto_0. unfold Rdiv. lra.
  - rewrite !sum_upto_S, IH. unfold Rdiv. lra.
Qed.

(** C6: [produceQmatrix] leaves the counts as they are and stores, for every
    gene copy and deme, the weight of the resampling step at [beta = 1]
    computed on the current counts, divided by the sum of the weights over
    the demes, and its logarithm; each row of [Qmatrix_gene_new] sums to 1. *)
Theorem produceQmatrix_spec (s : chain) :
  data_ok → 0 < lambda cfg → 0 < alpha s →
  consistent s → Q_shaped s →
  let s' := produceQmatrix s in
  (linearGroup s' = linearGroup s ∧ alleleCounts s' = alleleCounts s
   ∧ alleleCountsTotals s' = alleleCountsTotals s ∧ admixCounts s' = admixCounts s
   ∧ admixCountsTotals s' = admixCountsTotals s)
  ∧ ∀ t ind l p, copies !! t = Some (ind, l, p) →
      let w := Q_posterior_weight ind l p s in
      (∀ k, (k < K cfg)%nat →
         at2 (Qmatrix_gene_new s') t k = w k / sum_upto (K cfg) w
         ∧ at2 (logQmatrix_gene_new s') t k = ln (at2 (Qmatrix_gene_new s') t k))
      ∧ sum_upto (K cfg) (λ k, at2 (Qmatrix_gene_new s') t k) = 1.
Proof.
  intros Hdata Hlam Ha Hs HQs. cbv zeta. split.
  - pose proof (produceQmatrix_core s) as E. unfold core in E.
    injection E as E0 E1 E2 E3 E4 _ _ _. auto.
  - intros t ind l p Hc.
    destruct (produceQmatrix_rows s Hdata (cs_shaped _ Hs) HQs) as [_ Hv].
    pose proof (copies_bounds _ _ _ _ Hc) as (Hind & Hl & Hp).
    pose proof (data_ok_lookup _ _ _ _ Hdata Hc) as Hd.
    assert (Ew : ∀ k, (k < K cfg)%nat →
              Q_weight ind l p s k = Q_posterior_weight ind l p s k)
      by (intros; apply Q_weight_posterior).
    assert (Hrow : ∀ k, (k < K cfg)%nat →
              at2 (Qmatrix_gene_new (produceQmatrix s)) t k
              = Q_posterior_weight ind l p s k
                / sum_upto (K cfg) (Q_posterior_weight ind l p s)).
    { intros k Hk. rewrite (proj1 (Hv t ind l p k Hc Hk)).
      rewrite Ew, (sum_upto_ext _ _ _ Ew) by exact Hk. reflexivity. }
    split.
    + intros k Hk. split; [apply Hrow, Hk | apply (Hv t ind l p k Hc Hk)].
    + rewrite (sum_upto_ext (K cfg)
                 (λ k, at2 (Qmatrix_gene_new (produceQmatrix s)) t k) _ Hrow).
      rewrite sum_upto_div.
      assert (HK : (0 < K cfg)%nat).
      { pose proof (lookup_lt_Some _ _ _ Hc) as Ht.
        destruct Hs as [Hsh Hlab _].
        assert (HG : length (linearGroup s) = length copies)
          by (rewrite (sh_group _ Hsh); apply Hdata).
        pose proof (Forall_lookup_total_1 _ _ t Hlab ltac:(lia)) as Hg.
        simpl in Hg. lia. }
      assert (0 < sum_upto (K cfg) (Q_posterior_weight ind l p s)).
      { apply sum_upto_pos; [exact HK|]. intros k Hk. rewrite <- Ew by exact Hk.
        apply Q_weight_pos; try assumption. apply consistent_nonneg, Hs. }
      field. lra.
Qed.

(** ** The sweeps complete *)

Lemma sumR_replicate (m : nat) (x : R) : sumR (replicate m x) = INR m * x.
Proof.
  induction m as [|m IH].
  - simpl. change (sumR []) with 0. lra.
  - change (replicate (S m) x) with (x :: replicate m x).
    rewrite sumR_cons, IH, S_INR. lra.
Qed.

(** With deviates in [0,1) the initial labels are drawn. *)
Lemma reset_group_total (us : nat → R) (s : chain) :
  (0 < K cfg)%nat → (∀ g, 0 <= us g < 1) → ∃ s', reset_group us s = Some s'.
Proof.
  intros HK Hus. unfold reset_group.
  apply (for_copies_ind (λ _ acc, ∃ x : chain, acc = Some x)); [eauto|].
  intros t ind l p acc _ [x ->]. simpl.
  assert (Hsum : sumR (replicate (K cfg) (1 / INR (K cfg))) = 1).
  { rewrite sumR_replicate. field. apply not_0_INR. lia. }
  destruct (sample1_total (replicate (K cfg) (1 / INR (K cfg)))
              (us (gidx (next_copy x)))) as [k Hk]; [lra | apply Hus |].
  rewrite Hsum in Hk. rewrite Hk. simpl. eauto.
Qed.

Lemma reset_total (b : bool) (us : nat → R) (s : chain) :
  (0 < K cfg)%nat → (∀ g, 0 <= us g < 1) → ∃ s', reset b us s = Some s'.
Proof.
  intros HK Hus. unfold reset. cbv zeta.
  match goal with |- ∃ s', mbind _ (reset_group us ?x) = _ =>
    destruct (reset_group_total us x HK Hus) as [s1 ->] end.
  simpl. eauto.
Qed.

Lemma group_step_alpha (us : nat → R) (ind l p : nat) (s s' : chain) :
  group_step us ind l p s = Some s' → alpha s' = alpha s.
Proof.
  unfold group_step. intros H.
  destruct (sample1 _ _ _) as [k|]; [|discriminate]. simpl in H. injection H as <-.
  rewrite add_copy_shift, remove_copy_shift.
  rewrite (proj1 (proj2 (proj2 (shift_copy_frame _ _ _ _ _)))). simpl.
  assert (E : alpha (group_probs ind l p (shift_copy Z.pred ind l p (next_copy s)))
              = alpha (shift_copy Z.pred ind l p (next_copy s))).
  { unfold group_probs. etrans; [apply (for_range_keeps alpha); reflexivity|].
    reflexivity. }
  rewrite E, (proj1 (proj2 (proj2 (shift_copy_frame _ _ _ _ _)))). reflexivity.
Qed.

Lemma group_step_total (us : nat → R) (t ind l p : nat) (s : chain) :
  data_ok → 0 < lambda cfg → 0 < alpha s → (∀ g, 0 <= us g < 1) →
  consistent s →
  copies !! t = Some (ind, l, p) →
  groupIndex s = (Z.of_nat t - 1)%Z →
  ∃ s', group_step us ind l p s = Some s'.
Proof.
  intros Hdata Hlam Ha Hus Hs Hc Hgi.
  destruct (group_probs_positive t ind l p s Hdata Hlam Ha Hs Hc Hgi)
    as [_ Hpos].
  destruct (remove_copy_nonneg t ind l p s Hdata Hc Hgi Hs) as [Hsh1 _].
  unfold group_step. rewrite group_probs_eq in * by apply Hsh1.
  simpl in Hpos. simpl.
  match goal with |- ∃ s', mbind _ (sample1 ?W ?S ?u) = _ =>
    destruct (sample1_total W u) as [k Hk]; [exact Hpos | apply Hus |];
    change (sumR W) with S in Hk; rewrite Hk end.
  simpl. eauto.
Qed.

(** With deviates in [0,1), [lambda > 0] and [alpha > 0] a sweep over a
    consistent chain completes, and it leaves [alpha] as it is. *)
Lemma group_update_total (us : nat → R) (s : chain) :
  data_ok → 0 < lambda cfg → 0 < alpha s → (∀ g, 0 <= us g < 1) →
  consistent s →
  ∃ s', group_update us s = Some s' ∧ alpha s' = alpha s.
Proof.
  intros Hdata Hlam Ha Hus Hs. unfold group_update.
  enough (Hinv : ∃ x,
            for_copies (λ ind l p acc, acc ≫= group_step us ind l p)
              (Some (set_groupIndex (-1) s)) = Some x
            ∧ consistent x ∧ groupIndex x = (Z.of_nat (length copies) - 1)%Z
            ∧ alpha x = alpha s)
    by (destruct Hinv as (x & Hx & _ & _ & Hax); eauto).
  apply (for_copies_ind (λ t acc, ∃ x, acc = Some x
           ∧ consistent x ∧ groupIndex x = (Z.of_nat t - 1)%Z ∧ alpha x = alpha s)).
  - exists (set_groupIndex (-1) s). split; [reflexivity|].
    split; [eapply consistent_frame; [..|exact Hs]; reflexivity|].
    split; reflexivity.
  - intros t ind l p acc Hc (x & -> & Hx & Hgi & Hax). simpl.
    assert (Hax' : 0 < alpha x) by (rewrite Hax; exact Ha).
    destruct (group_step_total us t ind l p x Hdata Hlam Hax' Hus Hx Hc Hgi)
      as [y Hy].
    exists y. split; [exact Hy|].
    destruct (group_step_consistent us t ind l p x y Hdata Hc Hgi Hx Hy) as [Hy1 Hy2].
    split; [exact Hy1|]. split; [lia|].
    rewrite (group_step_alpha _ _ _ _ _ _ Hy). exact Hax.
Qed.

(** ** The harmonic mean (C8) *)

Lemma xlog_0 : xlog 0 = NegInf.
Proof.
  unfold xlog. rewrite decide_False by lra. rewrite decide_True by reflexivity.
  reflexivity.
Qed.

Lemma xlog_pos (x : R) : 0 < x → xlog x = Fin (ln x).
Proof. intros Hx. unfold xlog. rewrite decide_True by exact Hx. reflexivity. Qed.

Lemma harmonic_acc_S (v : nat → R) (j : nat) :
  harmonic_acc v (S j) = logSum (harmonic_acc v j) (Fin (- v j)).
Proof. unfold harmonic_acc. rewrite for_range_S. reflexivity. Qed.

(** The accumulator holds the logarithm of the sum of the exponentials. *)
Lemma harmonic_acc_closed (v : nat → R) (j : nat) :
  (0 < j)%nat → harmonic_acc v j = Fin (ln (sum_upto j (λ i, exp (- v i)))).
Proof.
  intros Hj. induction j as [|j IH]; [lia|].
  rewrite harmonic_acc_S, sum_upto_S. destruct j as [|j].
  - unfold harmonic_acc. rewrite for_range_0, xlog_0, sum_upto_0. simpl.
    rewrite Rplus_0_l, ln_exp. reflexivity.
  - rewrite IH by lia. simpl. rewrite exp_ln; [reflexivity|].
    apply sum_upto_pos; [lia|]. intros i _. apply exp_pos.
Qed.

Ltac keeps_liks := keeps_for liks.

Lemma shift_copy_liks (f : Z → Z) (ind l p : nat) (s : chain) :
  liks (shift_copy f ind l p s) = liks s.
Proof. unfold shift_copy. case_decide; reflexivity. Qed.

Lemma group_step_liks (us : nat → R) (ind l p : nat) (s s' : chain) :
  group_step us ind l p s = Some s' → liks s' = liks s.
Proof.
  unfold group_step. intros H.
  destruct (sample1 _ _ _) as [k|]; [|discriminate]. simpl in H. injection H as <-.
  rewrite add_copy_shift, remove_copy_shift, shift_copy_liks.
  change (liks (set_linearGroup _ ?x)) with (liks x).
  unfold group_probs. etrans; [apply (for_range_keeps liks); reflexivity|].
  change (liks (set_probVecSum 0 ?x)) with (liks x).
  rewrite shift_copy_liks. reflexivity.
Qed.

Lemma group_update_liks (us : nat → R) (s s' : chain) :
  group_update us s = Some s' → liks s' = liks s.
Proof.
  unfold group_update. intros H. revert s' H.
  apply (for_copies_ind (λ _ acc, ∀ x, acc = Some x → liks x = liks s)).
  - intros x [= <-]. reflexivity.
  - intros t ind l p acc _ IH x H. destruct acc as [y|]; [|discriminate].
    simpl in H. apply group_step_liks in H. rewrite H. apply IH. reflexivity.
Qed.

Lemma alpha_update_liks (proposal u : R) (s : chain) :
  liks (alpha_update proposal u s) = liks s.
Proof. rewrite alpha_update_eq. case_decide; reflexivity. Qed.

Lemma produceQmatrix_liks (s : chain) : liks (produceQmatrix s) = liks s.
Proof.
  unfold produceQmatrix. etrans; [apply (for_copies_keeps liks)|reflexivity].
  intros ind l p x. etrans; [apply (for_range_keeps liks); reflexivity|].
  unfold Q_probs. etrans; [apply (for_range_keeps liks); reflexivity|]. reflexivity.
Qed.

Lemma chooseBestLabelPermutation_liks (s : chain) :
  liks (chooseBestLabelPermutation s) = liks s.
Proof.
  unfold chooseBestLabelPermutation, relabel. cbv zeta.
  rewrite order_loop_eq, fill_costMat_eq.
  destruct (for_range (K cfg) _ false); [|reflexivity].
  rewrite swap_labels_eq. reflexivity.
Qed.

Lemma updateQmatrix_liks (s : chain) : liks (updateQmatrix s) = liks s.
Proof. unfold updateQmatrix. keeps_liks. Qed.

Lemma storeQmatrix_liks (s : chain) : liks (storeQmatrix s) = liks s.
Proof. unfold storeQmatrix. keeps_liks. Qed.

Lemma d_logLikeJoint_liks (s : chain) : liks (d_logLikeJoint s) = liks s.
Proof.
  unfold d_logLikeJoint. etrans; [apply (for_copies_keeps liks)|reflexivity].
  intros ind l p x. case_decide; reflexivity.
Qed.

Lemma pair_loop_liks {A} (m : nat) (body : nat → chain * A → chain * A) (x : chain)
    (a : A) :
  (∀ i y, liks (body i y).1 = liks y.1) →
  liks (for_range m body (x, a)).1 = liks x.
Proof. intros H. apply (for_range_keeps (λ y, liks y.1)). intros. apply H. Qed.

Lemma drawFreqs_liks (ga : nat → nat → nat → R) (gm : nat → nat → R) (s : chain) :
  liks (drawFreqs ga gm s) = liks s.
Proof.
  unfold drawFreqs.
  etrans; [apply (for_range_keeps liks)|].
  - intros i x _.
    match goal with
    | |- context [for_range ?m ?b (x, 0)] =>
        assert (E : liks (for_range m b (x, 0)).1 = liks x)
          by (apply pair_loop_liks; intros ? [? ?]; reflexivity);
        destruct (for_range m b (x, 0)) as [y r]
    end.
    simpl in E. rewrite <- E. keeps_liks.
  - apply (for_range_keeps liks). intros k x _.
    apply (for_range_keeps liks). intros l y _.
    match goal with
    | |- context [for_range ?m ?b (y, 0)] =>
        assert (E : liks (for_range m b (y, 0)).1 = liks y)
          by (apply pair_loop_liks; intros ? [? ?]; reflexivity);
        destruct (for_range m b (y, 0)) as [z r]
    end.
    simpl in E. rewrite <- E. keeps_liks.
Qed.

Lemma finish_Qmatrices_liks (s : chain) : liks (finish_Qmatrices s) = liks s.
Proof.
  unfold finish_Qmatrices. cbv zeta.
  set (s1 := for_copies _ _).
  assert (E1 : liks s1 = liks s) by (unfold s1; keeps_liks).
  set (s2 := for_range (n cfg) _ (set_groupIndex (-1) s1)).
  assert (E2 : liks s2 = liks s) by (rewrite <- E1; unfold s2; keeps_liks).
  destruct (outputQmatrix_pop_on cfg); [|exact E2].
  rewrite <- E2. keeps_liks.
Qed.

Lemma thin_loop_liks (d : draws) (rep m : nat) (s s' : chain) :
  for_range m (thin_step d rep) (Some s) = Some s' → liks s' = liks s.
Proof.
  revert s'. induction m as [|m IH]; intros s' H.
  - rewrite for_range_0 in H. injection H as <-. reflexivity.
  - rewrite for_range_S in H. unfold thin_step at 1 in H.
    destruct (for_range m _ (Some s)) as [x|]; [|discriminate]. simpl in H.
    destruct (group_update _ x) as [y|] eqn:Hy; [|discriminate]. simpl in H.
    injection H as <-. apply group_update_liks in Hy.
    rewrite <- (IH x eq_refl), <- Hy.
    destruct (fixAlpha_on cfg); [reflexivity | apply alpha_update_liks].
Qed.

(** What one iteration does to the likelihood members. *)
Lemma mcmc_step_liks (d : draws) (b1 b2 b3 : bool) (rep ts ts' : nat) (s s' : chain) :
  mcmc_step d b1 b2 b3 rep (Some (ts, s)) = Some (ts', s') →
  if decide (burnin cfg ≤ rep)%nat then
    harmonic s' = logSum (harmonic s) (Fin (- logLikeGroup s'))
    ∧ logLikeGroup_store s'
      = (if b2 then <[(rep - burnin cfg)%nat := logLikeGroup s']> (logLikeGroup_store s)
         else logLikeGroup_store s)
  else harmonic s' = harmonic s ∧ logLikeGroup_store s' = logLikeGroup_store s.
Proof.
  unfold mcmc_step. simpl. intros H.
  destruct (for_range ts _ (Some s)) as [x|] eqn:Hx; [|discriminate].
  simpl in H. injection H as _ <-.
  apply thin_loop_liks in Hx.
  set (x1 := if b3 then _ else x).
  assert (E1 : liks x1 = liks s).
  { unfold x1. destruct b3; [|exact Hx]. rewrite <- Hx.
    destruct (decide _);
      rewrite ?storeQmatrix_liks, updateQmatrix_liks,
        chooseBestLabelPermutation_liks, produceQmatrix_liks; reflexivity. }
  set (x2 := d_logLikeGroup x1).
  assert (E2 : harmonic x2 = harmonic s ∧ logLikeGroup_store x2 = logLikeGroup_store s).
  { unfold x2. rewrite d_logLikeGroup_eq. simpl.
    unfold liks in E1. injection E1 as -> -> _. split; reflexivity. }
  set (x3 := if b1 then _ else x2).
  assert (E3 : liks x3 = liks x2).
  { unfold x3. destruct b1; [|reflexivity].
    rewrite d_logLikeJoint_liks, drawFreqs_liks. reflexivity. }
  unfold liks in E3. injection E3 as E3a E3b E3c. destruct E2 as [E2a E2b].
  destruct (decide (burnin cfg ≤ rep)%nat).
  - unfold record_likelihood. destruct b1, b2; simpl; rewrite E3a, E3b, E3c, E2a, E2b;
      split; reflexivity.
  - rewrite E3a, E3b, E2a, E2b. split; reflexivity.
Qed.

Lemma mcmc_step_None (d : draws) (b1 b2 b3 : bool) (rep : nat) :
  mcmc_step d b1 b2 b3 rep None = None.
Proof. reflexivity. Qed.

(** The accumulator after [m] iterations. *)
Lemma mcmc_loop_harmonic (d : draws) (b1 b2 b3 : bool) (s : chain) (m ts : nat)
    (x : chain) :
  harmonic s = xlog 0 →
  for_range m (mcmc_step d b1 b2 b3) (Some (1%nat, s)) = Some (ts, x) →
  let v i := logLike_trace d b1 b2 b3 s (burnin cfg + i) in
  harmonic x = harmonic_acc v (m - burnin cfg)
  ∧ length (logLikeGroup_store x) = length (logLikeGroup_store s)
  ∧ (b2 = true → ∀ i, (i < m - burnin cfg)%nat →
       (i < length (logLikeGroup_store s))%nat → logLikeGroup_store x !!! i = v i).
Proof.
  intros Hs. cbv zeta. revert ts x. induction m as [|m IH]; intros ts x H.
  - rewrite for_range_0 in H. injection H as _ <-. simpl.
    split; [exact Hs|]. split; [reflexivity|]. intros; lia.
  - pose proof H as Hrun. rewrite for_range_S in H.
    destruct (for_range m _ (Some (1%nat, s))) as [[ts0 y]|] eqn:Hy;
      [|rewrite mcmc_step_None in H; discriminate].
    destruct (IH ts0 y eq_refl) as (Hh & Hl & Hst).
    apply mcmc_step_liks in H.
    assert (Htr : logLike_trace d b1 b2 b3 s m = logLikeGroup x)
      by (unfold logLike_trace; rewrite Hrun; reflexivity).
    destruct (decide (burnin cfg ≤ m)%nat) as [Hb|Hb].
    + destruct H as [H1 H2].
      replace (S m - burnin cfg)%nat with (S (m - burnin cfg)) by lia.
      rewrite harmonic_acc_S.
      replace (burnin cfg + (m - burnin cfg))%nat with m by lia.
      rewrite Htr, <- Hh. split; [exact H1|]. split.
      * rewrite H2. destruct b2; [rewrite length_insert|]; exact Hl.
      * intros -> i Hi Hlen. rewrite H2.
        destruct (decide (i = m - burnin cfg)%nat) as [->|Hne].
        -- rewrite list_lookup_total_insert_eq by lia.
           replace (burnin cfg + (m - burnin cfg))%nat with m by lia.
           symmetry. exact Htr.
        -- rewrite list_lookup_total_insert_ne by lia.
           apply Hst; [reflexivity | lia | exact Hlen].
    + destruct H as [H1 H2].
      replace (S m - burnin cfg)%nat with (m - burnin cfg)%nat by lia.
      split; [rewrite H1; exact Hh|]. split; [rewrite H2; exact Hl|].
      intros -> i Hi Hlen. lia.
Qed.

Lemma reset_liks (b : bool) (us : nat → R) (s0 s : chain) :
  reset b us s0 = Some s →
  harmonic s = xlog 0 ∧ logLikeGroup_store s = replicate (samples cfg) 0.
Proof.
  unfold reset. cbv zeta. intros H.
  match type of H with (mbind _ (reset_group us ?x) = _) => set (pre := x) in * end.
  destruct (reset_group us pre) as [s1|] eqn:Hg; [|discriminate].
  simpl in H. injection H as <-.
  assert (E1 : liks s1 = liks pre).
  { revert Hg. unfold reset_group. generalize s1.
    apply (for_copies_ind (λ _ acc, ∀ x, acc = Some x → liks x = liks pre)).
    - intros x [= <-]. reflexivity.
    - intros t ind l p acc _ IH x H. destruct acc as [y|]; [|discriminate].
      simpl in H. destruct (sample1 _ _ _); [|discriminate].
      simpl in H. injection H as <-. apply (IH y eq_refl). }
  assert (E2 : liks (reset_zero s1) = liks s1).
  { unfold reset_zero. cbv zeta.
    change (liks (set_admixCountsTotals _ (set_admixCounts _ ?x))) with (liks x).
    keeps_liks. }
  assert (E3 : liks (reset_populate (reset_zero s1)) = liks (reset_zero s1)).
  { unfold reset_populate. etrans; [apply (for_copies_keeps liks)|reflexivity].
    intros ind l p x. rewrite add_copy_shift, shift_copy_liks. reflexivity. }
  rewrite E2, E1 in E3. unfold liks in E3. injection E3 as -> -> _.
  unfold pre. destruct b; split; reflexivity.
Qed.

(** C8: [reset] sets the accumulator to [log 0], minus infinity; every
    iteration from [burnin] on replaces it by [logSum] of itself and minus the
    iteration's [logLikeGroup]; [perform_MCMC] returns [log(samples)] minus the
    accumulator, so that with [v i] the value of [logLikeGroup] at the [i]-th
    recorded iteration (the values kept in [logLikeGroup_store] when they are
    stored) the result is [log S - log (sum_i exp (- v i))]. *)
Theorem harmonic_mean_evidence (d : draws) (b1 b2 b3 : bool) (s s' : chain) :
  (0 < samples cfg)%nat →
  harmonic s = xlog 0 →
  perform_MCMC d b1 b2 b3 s = Some s' →
  let v i := logLike_trace d b1 b2 b3 s (burnin cfg + i) in
  harmonic s'
  = Fin (ln (INR (samples cfg)) - ln (sum_upto (samples cfg) (λ i, exp (- v i))))
  ∧ (b2 = true → length (logLikeGroup_store s) = samples cfg →
     ∀ i, (i < samples cfg)%nat → logLikeGroup_store s' !!! i = v i)
  ∧ xlog 0 = NegInf
  ∧ (∀ b us s0 s1, reset b us s0 = Some s1 →
       harmonic s1 = xlog 0 ∧ length (logLikeGroup_store s1) = samples cfg)
  ∧ (∀ rep x,
       harmonic (record_likelihood b1 b2 rep x)
       = logSum (harmonic x) (Fin (- logLikeGroup x))).
Proof.
  intros HS Hs H. cbv zeta. unfold perform_MCMC in H.
  destruct (for_range (burnin cfg + samples cfg) _ (Some (1%nat, s)))
    as [[ts x]|] eqn:Hrun; [|discriminate].
  simpl in H. injection H as <-.
  destruct (mcmc_loop_harmonic d b1 b2 b3 s _ ts x Hs Hrun) as (Hh & Hl & Hst).
  replace (burnin cfg + samples cfg - burnin cfg)%nat with (samples cfg) in * by lia.
  set (y := if b3 then finish_Qmatrices x else x).
  assert (Ey : liks y = liks x)
    by (unfold y; destruct b3; [apply finish_Qmatrices_liks | reflexivity]).
  unfold liks in Ey. injection Ey as Ey1 Ey2 _.
  split; [|split; [|split; [|split]]].
  - simpl. rewrite Ey1, Hh, harmonic_acc_closed by exact HS.
    rewrite xlog_pos by (apply lt_0_INR; lia). reflexivity.
  - intros Hb2 Hlen i Hi. simpl. rewrite Ey2. apply Hst; [exact Hb2 | exact Hi | lia].
  - apply xlog_0.
  - intros b us s0 s1 Hr. destruct (reset_liks b us s0 s1 Hr) as [-> ->].
    split; [reflexivity | apply length_replicate].
  - intros rep x0. unfold record_likelihood. destruct b1, b2; reflexivity.
Qed.

(** ** The run completes *)

Lemma produceQmatrix_alpha (s : chain) : alpha (produceQmatrix s) = alpha s.
Proof.
  unfold produceQmatrix. etrans; [apply (for_copies_keeps alpha)|reflexivity].
  intros ind l p x. etrans; [apply (for_range_keeps alpha); reflexivity|].
  unfold Q_probs. etrans; [apply (for_range_keeps alpha); reflexivity|]. reflexivity.
Qed.

Lemma chooseBestLabelPermutation_alpha (s : chain) :
  alpha (chooseBestLabelPermutation s) = alpha s.
Proof.
  unfold chooseBestLabelPermutation, relabel. cbv zeta.
  rewrite order_loop_eq, fill_costMat_eq.
  destruct (for_range (K cfg) _ false); [|reflexivity].
  rewrite swap_labels_eq. reflexivity.
Qed.

Lemma updateQmatrix_alpha (s : chain) : alpha (updateQmatrix s) = alpha s.
Proof.
  unfold updateQmatrix. keeps_for alpha.
Qed.

Lemma storeQmatrix_alpha (s : chain) : alpha (storeQmatrix s) = alpha s.
Proof.
  unfold storeQmatrix. etrans; [apply (for_copies_keeps alpha)|reflexivity].
  intros ind l p x. etrans; [apply (for_range_keeps alpha); reflexivity|]. reflexivity.
Qed.

Lemma d_logLikeJoint_alpha (s : chain) : alpha (d_logLikeJoint s) = alpha s.
Proof.
  unfold d_logLikeJoint. etrans; [apply (for_copies_keeps alpha)|reflexivity].
  intros ind l p x. case_decide; reflexivity.
Qed.

Lemma drawFreqs_alpha (ga : nat → nat → nat → R) (gm : nat → nat → R) (s : chain) :
  alpha (drawFreqs ga gm s) = alpha s.
Proof.
  unfold drawFreqs.
  etrans; [apply (for_range_keeps alpha)|].
  - intros i x _.
    match goal with
    | |- context [for_range ?m ?b (x, 0)] =>
        assert (E : alpha (for_range m b (x, 0)).1 = alpha x)
          by (apply (for_range_keeps (λ y, alpha y.1)); intros ? [? ?] ?; reflexivity);
        destruct (for_range m b (x, 0)) as [y r]
    end.
    simpl in E. rewrite <- E. apply (for_range_keeps alpha). reflexivity.
  - apply (for_range_keeps alpha). intros k x _.
    apply (for_range_keeps alpha). intros l y _.
    match goal with
    | |- context [for_range ?m ?b (y, 0)] =>
        assert (E : alpha (for_range m b (y, 0)).1 = alpha y)
          by (apply (for_range_keeps (λ y, alpha y.1)); intros ? [? ?] ?; reflexivity);
        destruct (for_range m b (y, 0)) as [z r]
    end.
    simpl in E. rewrite <- E. apply (for_range_keeps alpha). reflexivity.
Qed.

Lemma thin_loop_total (d : draws) (rep m : nat) (s : chain) :
  data_ok → 0 < lambda cfg →
  (∀ rep thin g, 0 <= u_group d rep thin g < 1) →
  sound s →
  ∃ s', for_range m (thin_step d rep) (Some s) = Some s' ∧ sound s'.
Proof.
  intros Hdata Hlam Hus Hs. induction m as [|m IH].
  - exists s. split; [reflexivity | exact Hs].
  - destruct IH as (x & Hx & Hcx & Hax). rewrite for_range_S, Hx.
    unfold thin_step. simpl.
    destruct (group_update_total (u_group d rep m) x Hdata Hlam ltac:(lra)
                (Hus rep m) Hcx) as (y & Hy & Hay).
    rewrite Hy. simpl. eexists. split; [reflexivity|].
    pose proof (group_update_consistent _ _ _ Hdata Hcx Hy) as Hcy.
    destruct (fixAlpha_on cfg).
    + split; [exact Hcy | rewrite Hay; exact Hax].
    + split.
      * eapply consistent_core; [apply alpha_update_core | exact Hcy].
      * apply alpha_update_keeps_range. rewrite Hay. exact Hax.
Qed.

Lemma mcmc_step_total (d : draws) (b1 b2 b3 : bool) (rep ts : nat) (s : chain) :
  data_ok → hungarian_permutes → 0 < lambda cfg →
  (∀ rep thin g, 0 <= u_group d rep thin g < 1) →
  sound s →
  ∃ ts' s', mcmc_step d b1 b2 b3 rep (Some (ts, s)) = Some (ts', s') ∧ sound s'.
Proof.
  intros Hdata Hh Hlam Hus Hs. unfold mcmc_step. simpl.
  destruct (thin_loop_total d rep ts s Hdata Hlam Hus Hs) as (x & Hx & Hcx & Hax).
  rewrite Hx. simpl. eexists _, _. split; [reflexivity|].
  set (x1 := if b3 then _ else x).
  assert (H1 : sound x1).
  { unfold x1. destruct b3; [|split; assumption].
    assert (Hq : sound (updateQmatrix (chooseBestLabelPermutation (produceQmatrix x)))).
    { split.
      - eapply consistent_core; [apply updateQmatrix_core|].
        apply chooseBestLabelPermutation_consistent; [assumption..|].
        eapply consistent_core; [apply produceQmatrix_core | exact Hcx].
      - rewrite updateQmatrix_alpha, chooseBestLabelPermutation_alpha,
          produceQmatrix_alpha. exact Hax. }
    destruct (decide _); [|exact Hq]. destruct Hq as [Hq1 Hq2]. split.
    - eapply consistent_core; [apply storeQmatrix_core | exact Hq1].
    - rewrite storeQmatrix_alpha. exact Hq2. }
  set (x2 := d_logLikeGroup x1).
  assert (H2 : sound x2).
  { destruct H1 as [H1a H1b]. split.
    - eapply consistent_core; [apply d_logLikeGroup_core | exact H1a].
    - unfold x2. rewrite d_logLikeGroup_eq. exact H1b. }
  set (x3 := if b1 then _ else x2).
  assert (H3 : sound x3).
  { unfold x3. destruct b1; [|exact H2]. destruct H2 as [H2a H2b]. split.
    - eapply consistent_core; [apply d_logLikeJoint_core|].
      eapply consistent_core; [apply drawFreqs_core | exact H2a].
    - rewrite d_logLikeJoint_alpha, drawFreqs_alpha. exact H2b. }
  destruct (decide _); [|exact H3]. destruct H3 as [H3a H3b]. split.
  - eapply consistent_core; [apply record_likelihood_core | exact H3a].
  - unfold record_likelihood. destruct b1, b2; exact H3b.
Qed.

Lemma finish_Qmatrices_alpha (s : chain) : alpha (finish_Qmatrices s) = alpha s.
Proof.
  unfold finish_Qmatrices. cbv zeta.
  set (s1 := for_copies _ _).
  assert (E1 : alpha s1 = alpha s) by (unfold s1; keeps_for alpha).
  set (s2 := for_range (n cfg) _ (set_groupIndex (-1) s1)).
  assert (E2 : alpha s2 = alpha s) by (rewrite <- E1; unfold s2; keeps_for alpha).
  destruct (outputQmatrix_pop_on cfg); [|exact E2].
  rewrite <- E2. keeps_for alpha.
Qed.

(** With deviates in [0,1), a solver that returns permutations and
    [lambda > 0], [perform_MCMC] on a consistent chain with [alpha] in (0,10]
    returns, and it returns such a chain. *)
Lemma perform_MCMC_total (d : draws) (b1 b2 b3 : bool) (s : chain) :
  data_ok → hungarian_permutes → 0 < lambda cfg →
  (∀ rep thin g, 0 <= u_group d rep thin g < 1) →
  sound s →
  ∃ s', perform_MCMC d b1 b2 b3 s = Some s' ∧ sound s'.
Proof.
  intros Hdata Hh Hlam Hus Hs. unfold perform_MCMC.
  assert (Hloop : ∀ m, ∃ ts x,
            for_range m (mcmc_step d b1 b2 b3) (Some (1%nat, s)) = Some (ts, x)
            ∧ sound x).
  { induction m as [|m (ts & x & Hx & Hsx)].
    - exists 1%nat, s. split; [reflexivity | exact Hs].
    - rewrite for_range_S, Hx.
      apply mcmc_step_total; assumption. }
  destruct (Hloop (burnin cfg + samples cfg)%nat) as (ts & x & Hx & Hcx & Hax).
  rewrite Hx. simpl. eexists. split; [reflexivity|].
  set (y := if b3 then finish_Qmatrices x else x).
  assert (Hy : sound y).
  { unfold y. destruct b3; [|split; assumption]. split.
    - eapply consistent_core; [apply finish_Qmatrices_core | exact Hcx].
    - rewrite finish_Qmatrices_alpha. exact Hax. }
  destruct Hy as [Hy1 Hy2]. split; [|exact Hy2].
  eapply consistent_core; [|exact Hy1]. reflexivity.
Qed.

(** ** Frames

    Each member function writes a fixed set of members: an observation that
    ignores them does not change. *)

Ltac ign :=
  cbv beta zeta;
  repeat match goal with
         | H : ignores _ _ |- _ => rewrite !(H _ _)
         end.

Ltac frame q :=
  repeat first
    [ reflexivity
    | progress ign
    | apply (for_range_keeps q); intros
    | apply (for_copies_keeps q); intros
    | etrans; [apply (for_range_keeps q); intros|]
    | etrans; [apply (for_copies_keeps q); intros|] ].

Lemma shift_copy_keeps {B} (q : chain → B) (f : Z → Z) (ind l p : nat) (s : chain) :
  ignores set_alleleCounts q → ignores set_alleleCountsTotals q →
  ignores set_admixCounts q → ignores set_admixCountsTotals q →
  q (shift_copy f ind l p s) = q s.
Proof. intros H1 H2 H3 H4. unfold shift_copy. case_decide; ign; reflexivity. Qed.

Lemma group_step_keeps {B} (q : chain → B) (us : nat → R) (ind l p : nat)
    (s s' : chain) :
  ignores set_groupIndex q → ignores set_linearGroup q →
  ignores set_alleleCounts q → ignores set_alleleCountsTotals q →
  ignores set_admixCounts q → ignores set_admixCountsTotals q →
  ignores set_probVec q → ignores set_probVecSum q →
  group_step us ind l p s = Some s' → q s' = q s.
Proof.
  intros H1 H2 H3 H4 H5 H6 H7 H8. unfold group_step. intros H.
  destruct (sample1 _ _ _) as [k|]; [|discriminate]. simpl in H. injection H as <-.
  rewrite add_copy_shift, remove_copy_shift, shift_copy_keeps by assumption.
  rewrite (H2 _ _). unfold group_probs.
  etrans; [apply (for_range_keeps q); intros; ign; reflexivity|].
  rewrite (H8 _ _), shift_copy_keeps by assumption. unfold next_copy. apply H1.
Qed.

Lemma group_update_keeps {B} (q : chain → B) (us : nat → R) (s s' : chain) :
  ignores set_groupIndex q → ignores set_linearGroup q →
  ignores set_alleleCounts q → ignores set_alleleCountsTotals q →
  ignores set_admixCounts q → ignores set_admixCountsTotals q →
  ignores set_probVec q → ignores set_probVecSum q →
  group_update us s = Some s' → q s' = q s.
Proof.
  intros H1 H2 H3 H4 H5 H6 H7 H8. unfold group_update. intros H. revert s' H.
  apply (for_copies_ind (λ _ acc, ∀ x, acc = Some x → q x = q s)).
  - intros x [= <-]. apply H1.
  - intros t ind l p acc _ IH x H. destruct acc as [y|]; [|discriminate].
    simpl in H. apply (group_step_keeps q) in H; try assumption.
    rewrite H. apply IH. reflexivity.
Qed.

Lemma Q_probs_keeps {B} (q : chain → B) (ind l p : nat) (s : chain) :
  ignores set_probVec q → ignores set_probVecSum q →
  q (Q_probs ind l p s) = q s.
Proof. intros H1 H2. unfold Q_probs. frame q. Qed.

Lemma produceQmatrix_keeps {B} (q : chain → B) (s : chain) :
  ignores set_groupIndex q → ignores set_probVec q → ignores set_probVecSum q →
  ignores set_Qmatrix_gene_new q → ignores set_logQmatrix_gene_new q →
  q (produceQmatrix s) = q s.
Proof.
  intros H1 H2 H3 H4 H5. unfold produceQmatrix.
  etrans; [apply (for_copies_keeps q)|apply H1].
  intros ind l p x. etrans; [apply (for_range_keeps q); intros; ign; reflexivity|].
  rewrite Q_probs_keeps by assumption. apply H1.
Qed.

Lemma updateQmatrix_keeps {B} (q : chain → B) (s : chain) :
  ignores set_logQmatrix_gene_running q → q (updateQmatrix s) = q s.
Proof. intros H1. unfold updateQmatrix. frame q. Qed.

Lemma storeQmatrix_keeps {B} (q : chain → B) (s : chain) :
  ignores set_groupIndex q → ignores set_logQmatrix_gene q →
  q (storeQmatrix s) = q s.
Proof.
  intros H1 H2. unfold storeQmatrix.
  etrans; [apply (for_copies_keeps q)|apply H1].
  intros ind l p x. etrans; [apply (for_range_keeps q); intros; ign; reflexivity|].
  apply H1.
Qed.

Lemma d_logLikeGroup_keeps {B} (q : chain → B) (s : chain) :
  ignores set_logLikeGroup q → q (d_logLikeGroup s) = q s.
Proof. intros H1. unfold d_logLikeGroup. frame q. Qed.

Lemma d_logLikeJoint_keeps {B} (q : chain → B) (s : chain) :
  ignores set_logLikeJoint q → q (d_logLikeJoint s) = q s.
Proof.
  intros H1. unfold d_logLikeJoint.
  etrans; [apply (for_copies_keeps q)|apply H1].
  intros ind l p x. case_decide; ign; reflexivity.
Qed.

Lemma pair_loop_keeps {A B} (q : chain → B) (m : nat)
    (body : nat → chain * A → chain * A) (x : chain) (a : A) :
  (∀ i y, q (body i y).1 = q y.1) → q (for_range m body (x, a)).1 = q x.
Proof. intros H. apply (for_range_keeps (λ y, q y.1)). intros. apply H. Qed.

Lemma drawFreqs_keeps {B} (q : chain → B) (ga : nat → nat → nat → R)
    (gm : nat → nat → R) (s : chain) :
  ignores set_alleleFreqs q → ignores set_admixFreqs q →
  q (drawFreqs ga gm s) = q s.
Proof.
  intros H1 H2. unfold drawFreqs.
  etrans; [apply (for_range_keeps q)|].
  - intros i x _.
    match goal with
    | |- context [for_range ?m ?b (x, 0)] =>
        assert (E : q (for_range m b (x, 0)).1 = q x)
          by (apply pair_loop_keeps; intros ? [? ?]; simpl; ign; reflexivity);
        destruct (for_range m b (x, 0)) as [y r]
    end.
    simpl in E. rewrite <- E. frame q.
  - apply (for_range_keeps q). intros k x _.
    apply (for_range_keeps q). intros l y _.
    match goal with
    | |- context [for_range ?m ?b (y, 0)] =>
        assert (E : q (for_range m b (y, 0)).1 = q y)
          by (apply pair_loop_keeps; intros ? [? ?]; simpl; ign; reflexivity);
        destruct (for_range m b (y, 0)) as [z r]
    end.
    simpl in E. rewrite <- E. frame q.
Qed.

Lemma alpha_update_keeps {B} (q : chain → B) (proposal u : R) (s : chain) :
  ignores set_alpha q → q (alpha_update proposal u s) = q s.
Proof. intros H1. rewrite alpha_update_eq. case_decide; ign; reflexivity. Qed.

Lemma record_likelihood_keeps {B} (q : chain → B) (b1 b2 : bool) (rep : nat)
    (s : chain) :
  ignores set_logLikeGroup_sum q → ignores set_logLikeGroup_sumSquared q →
  ignores set_logLikeGroup_store q → ignores set_harmonic q →
  ignores set_logLikeJoint_sum q → ignores set_logLikeJoint_sumSquared q →
  q (record_likelihood b1 b2 rep s) = q s.
Proof.
  intros H1 H2 H3 H4 H5 H6. unfold record_likelihood. destruct b1, b2; ign; reflexivity.
Qed.

Lemma finish_Qmatrices_keeps {B} (q : chain → B) (s : chain) :
  ignores set_groupIndex q → ignores set_Qmatrix_gene q →
  ignores set_Qmatrix_ind q → ignores set_Qmatrix_pop q →
  q (finish_Qmatrices s) = q s.
Proof.
  intros H1 H2 H3 H4. unfold finish_Qmatrices. cbv zeta.
  set (s1 := for_copies _ _).
  assert (E1 : q s1 = q s).
  { unfold s1. etrans; [apply (for_copies_keeps q)|apply H1].
    intros ind l p x. etrans; [apply (for_range_keeps q); intros; ign; reflexivity|].
    apply H1. }
  set (s2 := for_range (n cfg) _ (set_groupIndex (-1) s1)).
  assert (E2 : q s2 = q s).
  { rewrite <- E1, <- (H1 (-1)%Z s1). unfold s2.
    apply (for_range_keeps q). intros ind x _.
    etrans; [apply (for_range_keeps q); intros; ign; reflexivity|].
    apply (for_range_keeps q). intros l y _.
    apply (for_range_keeps q). intros p z _.
    etrans; [apply (for_range_keeps q); intros; ign; reflexivity|].
    apply H1. }
  destruct (outputQmatrix_pop_on cfg); [|exact E2].
  rewrite <- E2. frame q.
Qed.

Lemma chooseBestLabelPermutation_keeps {B} (q : chain → B) (s : chain) :
  ignores set_costMat q → ignores set_bestPerm q → ignores set_bestPermOrder q →
  ignores set_linearGroup q → ignores set_alleleCounts q →
  ignores set_alleleCountsTotals q → ignores set_admixCounts q →
  ignores set_logQmatrix_gene_old q → ignores set_logQmatrix_gene_new q →
  q (chooseBestLabelPermutation s) = q s.
Proof.
  intros H1 H2 H3 H4 H5 H6 H7 H8 H9.
  unfold chooseBestLabelPermutation, relabel. cbv zeta.
  rewrite order_loop_eq, fill_costMat_eq.
  destruct (for_range (K cfg) _ false); [rewrite swap_labels_eq|]; ign; reflexivity.
Qed.

Ltac ignored := intros ? ?; reflexivity.

(** X1: a sweep of [group_update] writes [groupIndex], [linearGroup], the
    four count tensors, [probVec] and [probVecSum] and nothing else: the
    concentration [alpha], the drawn frequencies, every Q matrix, the members
    of the solver and the likelihood summaries are as before the sweep. *)
Theorem group_update_frame (us : nat → R) (s s' : chain) :
  group_update us s = Some s' → outside_sweep s' = outside_sweep s.
Proof. intros H. apply (group_update_keeps outside_sweep us s s'); try ignored. exact H. Qed.

(** X2: the label alignment never writes [Qmatrix_gene_new], which therefore
    keeps the labelling of before the call, nor [alpha], the totals per
    individual, the drawn frequencies, the other Q matrices and the
    likelihood summaries; [logQmatrix_gene_old] receives the copy of
    [logQmatrix_gene_new] made before the swap, and is not written when the
    permutation is the identity. *)
Theorem chooseBestLabelPermutation_frame (s : chain) :
  let s' := chooseBestLabelPermutation s in
  outside_alignment s' = outside_alignment s
  ∧ (¬ (∀ k, (k < K cfg)%nat → bestPerm s' !!! k = k) →
     logQmatrix_gene_old s' = logQmatrix_gene_new s)
  ∧ ((∀ k, (k < K cfg)%nat → bestPerm s' !!! k = k) →
     logQmatrix_gene_old s' = logQmatrix_gene_old s
     ∧ logQmatrix_gene_new s' = logQmatrix_gene_new s).
Proof.
  cbv zeta. split.
  - apply (chooseBestLabelPermutation_keeps outside_alignment); ignored.
  - unfold chooseBestLabelPermutation. cbv zeta.
    set (s2 := set_bestPerm _ (fill_costMat s)).
    assert (E : logQmatrix_gene_old s2 = logQmatrix_gene_old s
                ∧ logQmatrix_gene_new s2 = logQmatrix_gene_new s).
    { unfold s2. rewrite fill_costMat_eq. split; reflexivity. }
    destruct E as [E1 E2].
    destruct (relabel_eq s2) as [Eid Emove].
    destruct (relabel_cases s2) as [Hid|Hmove].
    + rewrite (Eid Hid). simpl. split.
      * intros Hn. contradiction.
      * intros _. split; assumption.
    + rewrite (Emove Hmove), swap_labels_eq. cbv zeta. simpl. split.
      * intros _. exact E2.
      * intros Hn. contradiction.
Qed.

(** ** The iterations of [perform_MCMC] *)

Lemma thin_loop_keeps {B} (q : chain → B) (d : draws) (rep m : nat) (s s' : chain) :
  ignores_iteration q →
  for_range m (thin_step d rep) (Some s) = Some s' → q s' = q s.
Proof.
  intros ((H1 & H2 & H3 & H4 & H5 & H6 & H7 & H8 & H9) & _ & _).
  revert s'. induction m as [|m IH]; intros s' H.
  - rewrite for_range_0 in H. injection H as <-. reflexivity.
  - rewrite for_range_S in H. unfold thin_step at 1 in H.
    destruct (for_range m _ (Some s)) as [x|]; [|discriminate]. simpl in H.
    destruct (group_update _ x) as [y|] eqn:Hy; [|discriminate]. simpl in H.
    injection H as <-. apply (group_update_keeps q) in Hy; try assumption.
    rewrite <- (IH x eq_refl), <- Hy.
    destruct (fixAlpha_on cfg); [reflexivity | apply alpha_update_keeps, H9].
Qed.

(** An iteration is the thinning loop and the computations of the
    iteration, which write none of the running sums, followed from
    [burnin] on by [record_likelihood]. *)
Lemma mcmc_step_split (d : draws) (b1 b2 b3 : bool) (rep ts ts' : nat) (s s' : chain) :
  mcmc_step d b1 b2 b3 rep (Some (ts, s)) = Some (ts', s') →
  ts' = (if decide (rep = burnin cfg) then thinning cfg else ts)
  ∧ ∃ y, s' = (if decide (burnin cfg ≤ rep)%nat then record_likelihood b1 b2 rep y
               else y)
         ∧ ∀ B (q : chain → B), ignores_iteration q → q y = q s.
Proof.
  unfold mcmc_step. simpl. intros H.
  destruct (for_range ts _ (Some s)) as [x|] eqn:Hx; [|discriminate].
  simpl in H. injection H as <- <-. split; [reflexivity|].
  eexists. split; [reflexivity|]. intros B q Hq.
  pose proof (thin_loop_keeps q d rep ts s x Hq Hx) as E0.
  destruct Hq as ((H1 & H2 & H3 & H4 & H5 & H6 & H7 & H8 & H9)
                  & (G1 & G2 & G3 & G4 & G5 & G6 & G7 & G8) & (L1 & L2 & L3 & L4)).
  set (x1 := if b3 then _ else x).
  assert (E1 : q x1 = q s).
  { unfold x1. destruct b3; [|exact E0]. rewrite <- E0.
    destruct (decide _);
      rewrite ?storeQmatrix_keeps, updateQmatrix_keeps,
        chooseBestLabelPermutation_keeps, produceQmatrix_keeps by assumption;
      reflexivity. }
  rewrite <- E1. destruct b1.
  - rewrite d_logLikeJoint_keeps, drawFreqs_keeps, d_logLikeGroup_keeps by assumption.
    reflexivity.
  - rewrite d_logLikeGroup_keeps by assumption. reflexivity.
Qed.

Ltac tuple4 :=
  apply (f_equal2 pair); [apply (f_equal2 pair); [apply (f_equal2 pair)|]|].

Lemma sums_ignores_iteration : ignores_iteration sums.
Proof. repeat split; ignored. Qed.

(** The value of [thinSwitch] with which an iteration starts. *)
Lemma mcmc_loop_thinSwitch (d : draws) (b1 b2 b3 : bool) (s : chain) (m ts : nat)
    (x : chain) :
  for_range m (mcmc_step d b1 b2 b3) (Some (1%nat, s)) = Some (ts, x) →
  ts = if decide (m ≤ burnin cfg)%nat then 1%nat else thinning cfg.
Proof.
  revert ts x. induction m as [|m IH]; intros ts x H.
  - rewrite for_range_0 in H. injection H as <- _. reflexivity.
  - rewrite for_range_S in H.
    destruct (for_range m _ (Some (1%nat, s))) as [[ts0 y]|] eqn:Hy;
      [|rewrite mcmc_step_None in H; discriminate].
    apply mcmc_step_split in H as [-> _]. rewrite (IH ts0 y eq_refl).
    repeat case_decide; try lia; reflexivity.
Qed.

(** X3: [thinSwitch] is 1 in every iteration up to and including iteration
    [burnin], the first one that is recorded, and [thinning] in the
    iterations after it: iteration [rep] makes one sweep of [group_update]
    when [rep <= burnin] and [thinning] sweeps otherwise. *)
Theorem thinning_schedule (d : draws) (b1 b2 b3 : bool) (s : chain) (rep ts : nat)
    (x : chain) :
  for_range rep (mcmc_step d b1 b2 b3) (Some (1%nat, s)) = Some (ts, x) →
  ts = (if decide (rep ≤ burnin cfg)%nat then 1%nat else thinning cfg).
Proof. apply mcmc_loop_thinSwitch. Qed.

(** What one iteration adds to the running sums. *)
Lemma mcmc_step_sums (d : draws) (b1 b2 b3 : bool) (rep ts ts' : nat) (s s' : chain) :
  mcmc_step d b1 b2 b3 rep (Some (ts, s)) = Some (ts', s') →
  sums s'
  = if decide (burnin cfg ≤ rep)%nat then
      (logLikeGroup_sum s + logLikeGroup s',
       logLikeGroup_sumSquared s + logLikeGroup s' * logLikeGroup s',
       if b1 then logLikeJoint_sum s + logLikeJoint s' else logLikeJoint_sum s,
       if b1 then logLikeJoint_sumSquared s + logLikeJoint s' * logLikeJoint s'
       else logLikeJoint_sumSquared s)
    else sums s.
Proof.
  intros H. apply mcmc_step_split in H as (_ & y & -> & Hy).
  pose proof (Hy _ sums sums_ignores_iteration) as E.
  unfold sums in E. injection E as E1 E2 E3 E4.
  destruct (decide _); [|unfold sums; congruence].
  unfold record_likelihood, sums. destruct b1, b2; simpl; congruence.
Qed.

Lemma mcmc_loop_sums (d : draws) (b1 b2 b3 : bool) (s : chain) (m ts : nat)
    (x : chain) :
  for_range m (mcmc_step d b1 b2 b3) (Some (1%nat, s)) = Some (ts, x) →
  let v i := logLike_trace d b1 b2 b3 s (burnin cfg + i) in
  let w i := logLikeJoint_trace d b1 b2 b3 s (burnin cfg + i) in
  sums x
  = (logLikeGroup_sum s + sum_upto (m - burnin cfg) v,
     logLikeGroup_sumSquared s + sum_upto (m - burnin cfg) (λ i, v i * v i),
     if b1 then logLikeJoint_sum s + sum_upto (m - burnin cfg) w
     else logLikeJoint_sum s,
     if b1 then logLikeJoint_sumSquared s + sum_upto (m - burnin cfg) (λ i, w i * w i)
     else logLikeJoint_sumSquared s).
Proof.
  cbv zeta. revert ts x. induction m as [|m IH]; intros ts x H.
  - rewrite for_range_0 in H. injection H as _ <-. simpl. rewrite !sum_upto_0.
    unfold sums. destruct b1; tuple4; lra.
  - pose proof H as Hrun. rewrite for_range_S in H.
    destruct (for_range m _ (Some (1%nat, s))) as [[ts0 y]|] eqn:Hy;
      [|rewrite mcmc_step_None in H; discriminate].
    pose proof (IH ts0 y eq_refl) as Ey.
    apply mcmc_step_sums in H.
    assert (Hv : logLike_trace d b1 b2 b3 s m = logLikeGroup x)
      by (unfold logLike_trace; rewrite Hrun; reflexivity).
    assert (Hw : logLikeJoint_trace d b1 b2 b3 s m = logLikeJoint x)
      by (unfold logLikeJoint_trace; rewrite Hrun; reflexivity).
    unfold sums in Ey. injection Ey as E1 E2 E3 E4.
    destruct (decide (burnin cfg ≤ m)%nat) as [Hb|Hb].
    + replace (S m - burnin cfg)%nat with (S (m - burnin cfg)) by lia.
      rewrite !sum_upto_S.
      replace (burnin cfg + (m - burnin cfg))%nat with m by lia.
      rewrite Hv, Hw, H, E1, E2, E3, E4.
      destruct b1; tuple4; lra.
    + replace (S m - burnin cfg)%nat with (m - burnin cfg)%nat by lia.
      rewrite H. unfold sums. rewrite E1, E2, E3, E4. reflexivity.
Qed.

(** The members [reset] writes after the scalars and the Q matrices. *)
Lemma reset_tail_keeps {B} (q : chain → B) (us : nat → R) (x s' : chain) :
  ignores set_groupIndex q → ignores set_linearGroup q →
  ignores set_alleleCounts q → ignores set_alleleCountsTotals q →
  ignores set_admixCounts q → ignores set_admixCountsTotals q →
  (reset_group us x ≫= λ y, Some (reset_populate (reset_zero y))) = Some s' →
  q s' = q x.
Proof.
  intros H1 H2 H3 H4 H5 H6 H.
  destruct (reset_group us x) as [s1|] eqn:Hg; [|discriminate].
  simpl in H. injection H as <-.
  assert (E1 : q s1 = q x).
  { revert Hg. unfold reset_group. generalize s1.
    apply (for_copies_ind (λ _ acc, ∀ y, acc = Some y → q y = q x)).
    - intros y [= <-]. apply H1.
    - intros t ind l p acc _ IH y H. destruct acc as [z|]; [|discriminate].
      simpl in H. destruct (sample1 _ _ _); [|discriminate].
      simpl in H. injection H as <-. rewrite (H2 _ _). unfold next_copy.
      rewrite (H1 _ _). apply (IH z eq_refl). }
  assert (E2 : q (reset_zero s1) = q s1).
  { unfold reset_zero. cbv zeta. rewrite (H6 _ _), (H5 _ _). frame q. }
  rewrite <- E1, <- E2. unfold reset_populate.
  etrans; [apply (for_copies_keeps q)|apply H1].
  intros ind l p y. rewrite add_copy_shift, shift_copy_keeps by assumption.
  apply H1.
Qed.

(** X4: the running sums of the two likelihoods: [reset] sets them to zero,
    the iterations before [burnin] leave them alone, and [perform_MCMC] adds
    to [logLikeGroup_sum] and [logLikeGroup_sumSquared] the values and the
    squares of [logLikeGroup] at the [samples] recorded iterations; the sums
    of [logLikeJoint] are updated in the same way when the frequencies are
    drawn, and not written otherwise. *)
Theorem likelihood_sums (d : draws) (b1 b2 b3 : bool) (s s' : chain) :
  perform_MCMC d b1 b2 b3 s = Some s' →
  let v i := logLike_trace d b1 b2 b3 s (burnin cfg + i) in
  let w i := logLikeJoint_trace d b1 b2 b3 s (burnin cfg + i) in
  (logLikeGroup_sum s' = logLikeGroup_sum s + sum_upto (samples cfg) v
   ∧ logLikeGroup_sumSquared s'
     = logLikeGroup_sumSquared s + sum_upto (samples cfg) (λ i, v i * v i))
  ∧ (if b1
     then logLikeJoint_sum s' = logLikeJoint_sum s + sum_upto (samples cfg) w
          ∧ logLikeJoint_sumSquared s'
            = logLikeJoint_sumSquared s + sum_upto (samples cfg) (λ i, w i * w i)
     else logLikeJoint_sum s' = logLikeJoint_sum s
          ∧ logLikeJoint_sumSquared s' = logLikeJoint_sumSquared s)
  ∧ (∀ b us s0 s1, reset b us s0 = Some s1 → sums s1 = (0, 0, 0, 0)).
Proof.
  intros H. cbv zeta. unfold perform_MCMC in H.
  destruct (for_range (burnin cfg + samples cfg) _ (Some (1%nat, s)))
    as [[ts x]|] eqn:Hrun; [|discriminate].
  simpl in H. injection H as <-.
  pose proof (mcmc_loop_sums d b1 b2 b3 s _ ts x Hrun) as E. cbv zeta in E.
  replace (burnin cfg + samples cfg - burnin cfg)%nat with (samples cfg) in E by lia.
  set (y := if b3 then finish_Qmatrices x else x).
  assert (Ey : sums y = sums x).
  { unfold y. destruct b3; [|reflexivity]. apply finish_Qmatrices_keeps; ignored. }
  rewrite <- Ey in E. unfold sums in E. injection E as E1 E2 E3 E4.
  split; [split; simpl; assumption|]. split.
  - destruct b1; split; simpl; assumption.
  - intros b us s0 s1 Hr. unfold reset in Hr. cbv zeta in Hr.
    apply (reset_tail_keeps sums) in Hr; try ignored. rewrite Hr.
    destruct b; reflexivity.
Qed.

(** X5: with [samples = 0] no iteration is recorded, the accumulator is
    still [log 0] at the end of the run and the harmonic mean estimate,
    [log(0) - log(0)], is not a number. *)
Theorem harmonic_no_samples (d : draws) (b1 b2 b3 : bool) (s s' : chain) :
  samples cfg = 0%nat →
  harmonic s = xlog 0 →
  perform_MCMC d b1 b2 b3 s = Some s' →
  harmonic s' = NaN.
Proof.
  intros HS Hs H. unfold perform_MCMC in H.
  destruct (for_range (burnin cfg + samples cfg) _ (Some (1%nat, s)))
    as [[ts x]|] eqn:Hrun; [|discriminate].
  simpl in H. injection H as <-.
  destruct (mcmc_loop_harmonic d b1 b2 b3 s _ ts x Hs Hrun) as (Hh & _ & _).
  replace (burnin cfg + samples cfg - burnin cfg)%nat with 0%nat in Hh by lia.
  unfold harmonic_acc in Hh. rewrite for_range_0 in Hh.
  set (y := if b3 then finish_Qmatrices x else x).
  assert (Ey : harmonic y = harmonic x).
  { unfold y. destruct b3; [|reflexivity].
    apply (finish_Qmatrices_keeps harmonic); ignored. }
  simpl. rewrite Ey, Hh, HS. simpl. rewrite xlog_0. reflexivity.
Qed.


(** ** The Q matrices in log space *)

(** A loop that rewrites the row [t] of a matrix entry by entry. *)
Lemma row_loop {A} `{Inhabited A} (f : nat → A → A) (G b t m : nat) (M : list (list A)) :
  rows G b M → (t < G)%nat → (m ≤ b)%nat →
  let r := for_range m (λ k M, set2 t k (f k (at2 M t k)) M) M in
  rows G b r
  ∧ ∀ g k, (g < G)%nat → (k < b)%nat →
      at2 r g k = if decide (g = t ∧ k < m)%nat then f k (at2 M g k) else at2 M g k.
Proof.
  intros HM Ht Hm. cbv zeta. induction m as [|m IH].
  - rewrite for_range_0. split; [exact HM|]. intros g k _ _.
    rewrite decide_False by lia. reflexivity.
  - rewrite for_range_S. destruct (IH ltac:(lia)) as [R1 Hv].
    set (r := for_range m _ M) in *.
    split; [apply rows_set2, R1|]. intros g k Hg Hk.
    rewrite at2_set2, (proj1 R1), (rows_row _ _ _ _ R1) by lia.
    destruct (decide ((t = g ∧ (t < G)%nat) ∧ m = k ∧ (m < b)%nat)) as [[[<- _] [<- _]]|Hn].
    + rewrite decide_True by lia. rewrite (Hv t m) by lia.
      rewrite decide_False by lia. reflexivity.
    + rewrite (Hv g k) by lia. destruct (decide (g = t ∧ (k < m)%nat)).
      * rewrite decide_True by lia. reflexivity.
      * rewrite decide_False by lia. reflexivity.
Qed.

Lemma set_logQmatrix_gene_running_same (s : chain) :
  set_logQmatrix_gene_running (logQmatrix_gene_running s) s = s.
Proof. destruct s; reflexivity. Qed.

Lemma updateQmatrix_eq (s : chain) :
  updateQmatrix s
  = set_logQmatrix_gene_running
      (for_range (geneCopies cfg) (λ i,
         for_range (K cfg) (λ k m,
           set2 i k (logSum_fin (at2 m i k) (at2 (logQmatrix_gene_new s) i k)) m))
         (logQmatrix_gene_running s)) s.
Proof.
  unfold updateQmatrix.
  apply (for_range_lens set_logQmatrix_gene_running logQmatrix_gene_running s
           (λ i, for_range (K cfg) (λ k m,
              set2 i k (logSum_fin (at2 m i k) (at2 (logQmatrix_gene_new s) i k)) m))).
  - apply set_logQmatrix_gene_running_same.
  - intros i m _.
    rewrite (for_range_lens set_logQmatrix_gene_running logQmatrix_gene_running
               (set_logQmatrix_gene_running m s)
               (λ k m, set2 i k
                         (logSum_fin (at2 m i k) (at2 (logQmatrix_gene_new s) i k)) m));
      reflexivity.
Qed.

(** X7: [updateQmatrix] writes [logQmatrix_gene_running] and nothing else;
    every entry becomes the [logSum] of itself and of the entry of
    [logQmatrix_gene_new], so that on the linear scale the running reference
    is increased by the exponential of the new entry. *)
Theorem updateQmatrix_spec (s : chain) :
  rows (geneCopies cfg) (K cfg) (logQmatrix_gene_running s) →
  let s' := updateQmatrix s in
  s' = set_logQmatrix_gene_running (logQmatrix_gene_running s') s
  ∧ rows (geneCopies cfg) (K cfg) (logQmatrix_gene_running s')
  ∧ ∀ g k, (g < geneCopies cfg)%nat → (k < K cfg)%nat →
      at2 (logQmatrix_gene_running s') g k
      = logSum_fin (at2 (logQmatrix_gene_running s) g k)
          (at2 (logQmatrix_gene_new s) g k)
      ∧ exp (at2 (logQmatrix_gene_running s') g k)
        = exp (at2 (logQmatrix_gene_running s) g k)
          + exp (at2 (logQmatrix_gene_new s) g k).
Proof.
  intros Hr. cbv zeta. rewrite updateQmatrix_eq.
  split; [reflexivity|]. simpl.
  destruct (fill2_spec
              (λ i k x, logSum_fin x (at2 (logQmatrix_gene_new s) i k))
              _ _ _ Hr) as [R Hv].
  split; [exact R|]. intros g k Hg Hk. rewrite (Hv g k Hg Hk).
  split; [reflexivity|]. unfold logSum_fin. apply exp_ln.
  pose proof (exp_pos (at2 (logQmatrix_gene_running s) g k)).
  pose proof (exp_pos (at2 (logQmatrix_gene_new s) g k)). lra.
Qed.

Lemma set_logQmatrix_gene_same (s : chain) :
  set_logQmatrix_gene (logQmatrix_gene s) s = s.
Proof. destruct s; reflexivity. Qed.

Lemma storeQmatrix_rows (s : chain) :
  data_ok →
  rows (geneCopies cfg) (K cfg) (logQmatrix_gene s) →
  let s' := storeQmatrix s in
  s' = set_logQmatrix_gene (logQmatrix_gene s')
         (set_groupIndex (Z.of_nat (geneCopies cfg) - 1) s)
  ∧ rows (geneCopies cfg) (K cfg) (logQmatrix_gene s')
  ∧ ∀ g k, (g < geneCopies cfg)%nat → (k < K cfg)%nat →
      at2 (logQmatrix_gene s') g k
      = logSum (at2 (logQmatrix_gene s) g k) (Fin (at2 (logQmatrix_gene_new s) g k))
      ∧ (at2 (logQmatrix_gene s) g k = xlog 0 →
         at2 (logQmatrix_gene s') g k = Fin (at2 (logQmatrix_gene_new s) g k)).
Proof.
  intros Hdata Hr. cbv zeta.
  assert (HG : geneCopies cfg = length copies) by apply Hdata.
  unfold storeQmatrix. set (r := for_copies _ _).
  assert (Hinv :
    r = set_logQmatrix_gene (logQmatrix_gene r)
          (set_groupIndex (Z.of_nat (length copies) - 1) s)
    ∧ rows (geneCopies cfg) (K cfg) (logQmatrix_gene r)
    ∧ ∀ g k, (g < geneCopies cfg)%nat → (k < K cfg)%nat →
        at2 (logQmatrix_gene r) g k
        = if decide (g < length copies)%nat
          then logSum (at2 (logQmatrix_gene s) g k)
                 (Fin (at2 (logQmatrix_gene_new s) g k))
          else at2 (logQmatrix_gene s) g k).
  { unfold r.
    pose (P := λ (t : nat) (x : chain),
      x = set_logQmatrix_gene (logQmatrix_gene x)
            (set_groupIndex (Z.of_nat t - 1) s)
      ∧ rows (geneCopies cfg) (K cfg) (logQmatrix_gene x)
      ∧ ∀ g k, (g < geneCopies cfg)%nat → (k < K cfg)%nat →
          at2 (logQmatrix_gene x) g k
          = if decide (g < t)%nat
            then logSum (at2 (logQmatrix_gene s) g k)
                   (Fin (at2 (logQmatrix_gene_new s) g k))
            else at2 (logQmatrix_gene s) g k).
    apply (for_copies_ind P); unfold P; clear P.
    - split; [destruct s; reflexivity|]. split; [exact Hr|].
      intros g k _ _. rewrite decide_False by lia. reflexivity.
    - intros t ind l p x Hc (Ex & Rx & Hv).
      pose proof (lookup_lt_Some _ _ _ Hc) as Ht.
      cbv zeta.
      assert (Egi : gidx (next_copy x) = t).
      { rewrite Ex. unfold gidx, next_copy. simpl. lia. }
      assert (Enew : logQmatrix_gene_new x = logQmatrix_gene_new s)
        by (rewrite Ex; reflexivity).
      rewrite (for_range_lens set_logQmatrix_gene logQmatrix_gene (next_copy x)
                 (λ k M, set2 t k
                           (logSum (at2 M t k) (Fin (at2 (logQmatrix_gene_new s) t k)))
                           M)).
      + destruct (row_loop
                    (λ k v, logSum v (Fin (at2 (logQmatrix_gene_new s) t k)))
                    (geneCopies cfg) (K cfg) t (K cfg) (logQmatrix_gene x) Rx
                    ltac:(lia) (le_n _)) as [R1 Hw].
        change (logQmatrix_gene (next_copy x)) with (logQmatrix_gene x).
        set (M := for_range (K cfg) _ (logQmatrix_gene x)) in *.
        split; [|split; [exact R1|]].
        * change (logQmatrix_gene (set_logQmatrix_gene M (next_copy x))) with M.
          assert (Eg : groupIndex x = (Z.of_nat t - 1)%Z) by (rewrite Ex; reflexivity).
          unfold next_copy. rewrite Eg, Ex.
          replace (Z.of_nat t - 1 + 1)%Z with (Z.of_nat (S t) - 1)%Z by lia.
          reflexivity.
        * intros g k Hg Hk. simpl. rewrite (Hw g k Hg Hk), (Hv g k Hg Hk).
          destruct (decide (g = t ∧ (k < K cfg)%nat)) as [[-> _]|Hn].
          -- rewrite decide_False by lia. rewrite decide_True by lia. reflexivity.
          -- destruct (decide (g < t)%nat).
             ++ rewrite decide_True by lia. reflexivity.
             ++ rewrite decide_False by lia. reflexivity.
      + apply set_logQmatrix_gene_same.
      + intros k M _. unfold gidx. simpl.
        change (Z.to_nat (groupIndex x + 1)) with (gidx (next_copy x)).
        rewrite Egi, Enew. reflexivity. }
  destruct Hinv as (Er & Rr & Hv). rewrite HG at 1.
  split; [exact Er|]. split; [exact Rr|].
  intros g k Hg Hk. rewrite (Hv g k Hg Hk), decide_True by lia.
  split; [reflexivity|]. intros ->. rewrite xlog_0. reflexivity.
Qed.

(** X8: [storeQmatrix] visits every gene copy once, leaves [groupIndex] at
    the last one and writes no other member than [logQmatrix_gene], every
    entry of which becomes the [logSum] of itself and of the entry of
    [logQmatrix_gene_new]; an entry that is still [log 0], as [reset] leaves
    it, becomes the new entry itself. *)
Theorem storeQmatrix_spec (s : chain) :
  data_ok →
  rows (geneCopies cfg) (K cfg) (logQmatrix_gene s) →
  let s' := storeQmatrix s in
  s' = set_logQmatrix_gene (logQmatrix_gene s')
         (set_groupIndex (Z.of_nat (geneCopies cfg) - 1) s)
  ∧ rows (geneCopies cfg) (K cfg) (logQmatrix_gene s')
  ∧ ∀ g k, (g < geneCopies cfg)%nat → (k < K cfg)%nat →
      at2 (logQmatrix_gene s') g k
      = logSum (at2 (logQmatrix_gene s) g k) (Fin (at2 (logQmatrix_gene_new s) g k))
      ∧ (at2 (logQmatrix_gene s) g k = xlog 0 →
         at2 (logQmatrix_gene s') g k = Fin (at2 (logQmatrix_gene_new s) g k)).
Proof. exact (storeQmatrix_rows s). Qed.

(** ** drawFreqs and d_logLikeJoint *)

(** A loop that rewrites the cell [(k, l)] of a tensor entry by entry. *)
Lemma cell_loop {A} `{Inhabited A} (f : nat → A → A) (k l m : nat)
    (T : list (list (list A))) :
  cells T → (k < K cfg)%nat → (l < loci cfg)%nat → (m ≤ J cfg !!! l)%nat →
  let r := for_range m (λ j T, alter3 (f j) k l j T) T in
  cells r
  ∧ ∀ k' l' j, (k' < K cfg)%nat → (l' < loci cfg)%nat → (j < J cfg !!! l')%nat →
      at3 r k' l' j
      = if decide (k' = k ∧ l' = l ∧ j < m)%nat then f j (at3 T k' l' j)
        else at3 T k' l' j.
Proof.
  intros HT Hk Hl Hm. cbv zeta. induction m as [|m IH].
  - rewrite for_range_0. split; [exact HT|]. intros k' l' j _ _ _.
    rewrite decide_False by lia. reflexivity.
  - rewrite for_range_S. destruct (IH ltac:(lia)) as [R1 Hv].
    set (r := for_range m _ T) in *.
    split; [apply cells_alter3, R1|]. intros k' l' j Hk' Hl' Hj.
    rewrite at3_alter3, (proj1 R1), (cells_row _ _ R1), (cells_cell _ _ _ R1) by lia.
    rewrite (Hv k' l' j) by assumption.
    destruct (decide ((k = k' ∧ (k < K cfg)%nat) ∧ (l = l' ∧ (l < loci cfg)%nat)
                      ∧ m = j ∧ (m < J cfg !!! l)%nat)) as [[[<- _] [[<- _] [<- _]]]|Hn].
    + rewrite decide_False by lia. rewrite decide_True by lia. reflexivity.
    + destruct (decide (k' = k ∧ l' = l ∧ (j < m)%nat)).
      * rewrite decide_True by lia. reflexivity.
      * rewrite decide_False by lia. reflexivity.
Qed.

(** The same for the row [i] of a matrix, with [alter2]. *)
Lemma alter2_loop {A} `{Inhabited A} (f : nat → A → A) (a b i m : nat) (M : list (list A)) :
  rows a b M → (i < a)%nat → (m ≤ b)%nat →
  let r := for_range m (λ k M, alter2 (f k) i k M) M in
  rows a b r
  ∧ ∀ i' k, (i' < a)%nat → (k < b)%nat →
      at2 r i' k = if decide (i' = i ∧ k < m)%nat then f k (at2 M i' k) else at2 M i' k.
Proof.
  intros HM Hi Hm. cbv zeta. induction m as [|m IH].
  - rewrite for_range_0. split; [exact HM|]. intros i' k _ _.
    rewrite decide_False by lia. reflexivity.
  - rewrite for_range_S. destruct (IH ltac:(lia)) as [R1 Hv].
    set (r := for_range m _ M) in *.
    split; [apply rows_alter2, R1|]. intros i' k Hi' Hk.
    rewrite at2_alter2, (proj1 R1), (rows_row _ _ _ _ R1) by lia.
    rewrite (Hv i' k) by assumption.
    destruct (decide ((i = i' ∧ (i < a)%nat) ∧ m = k ∧ (m < b)%nat)) as [[[<- _] [<- _]]|Hn].
    + rewrite decide_False by lia. rewrite decide_True by lia. reflexivity.
    + destruct (decide (i' = i ∧ (k < m)%nat)).
      * rewrite decide_True by lia. reflexivity.
      * rewrite decide_False by lia. reflexivity.
Qed.

(** The loop that stores the draws of one cell and sums them. *)
Lemma cell_draw_loop (g : nat → R) (k l m : nat) (T : list (list (list R))) :
  cells T → (k < K cfg)%nat → (l < loci cfg)%nat → (m ≤ J cfg !!! l)%nat →
  for_range m (λ j '(T, z),
      let T' := alter3 (λ _, g j) k l j T in (T', z + at3 T' k l j)) (T, 0)
  = (for_range m (λ j T, alter3 (λ _, g j) k l j T) T, sum_upto m g).
Proof.
  intros HT Hk Hl Hm. induction m as [|m IH].
  - reflexivity.
  - rewrite !for_range_S, IH by lia. cbv zeta.
    destruct (cell_loop (λ j _, g j) k l (S m) T HT Hk Hl Hm) as [_ Hv].
    rewrite for_range_S in Hv. rewrite (Hv k l m) by lia.
    rewrite decide_True by lia. rewrite sum_upto_S. reflexivity.
Qed.

Lemma row_draw_loop (g : nat → R) (a b i m : nat) (M : list (list R)) :
  rows a b M → (i < a)%nat → (m ≤ b)%nat →
  for_range m (λ k '(M, z),
      let M' := alter2 (λ _, g k) i k M in (M', z + at2 M' i k)) (M, 0)
  = (for_range m (λ k M, alter2 (λ _, g k) i k M) M, sum_upto m g).
Proof.
  intros HM Hi Hm. induction m as [|m IH].
  - reflexivity.
  - rewrite !for_range_S, IH by lia. cbv zeta.
    destruct (alter2_loop (λ k _, g k) a b i (S m) M HM Hi Hm) as [_ Hv].
    rewrite for_range_S in Hv. rewrite (Hv i m) by lia.
    rewrite decide_True by lia. rewrite sum_upto_S. reflexivity.
Qed.

Lemma set_alleleFreqs_same (s : chain) : set_alleleFreqs (alleleFreqs s) s = s.
Proof. destruct s; reflexivity. Qed.
Lemma set_admixFreqs_same (s : chain) : set_admixFreqs (admixFreqs s) s = s.
Proof. destruct s; reflexivity. Qed.

(** The two loops of [drawFreqs] on one cell of [alleleFreqs]. *)
Lemma draw_cell (ga : nat → nat → nat → R) (k l : nat) (x : chain) :
  cells (alleleFreqs x) → (k < K cfg)%nat → (l < loci cfg)%nat →
  let y :=
    let '(s, randSum) :=
      for_range (J cfg !!! l) (λ j '(s, randSum),
          let s := set_alleleFreqs (alter3 (λ _, ga k l j) k l j (alleleFreqs s)) s in
          (s, randSum + at3 (alleleFreqs s) k l j))
        (x, 0) in
    for_range (J cfg !!! l) (λ j s,
      set_alleleFreqs (alter3 (λ x, x / randSum) k l j (alleleFreqs s)) s) s in
  y = set_alleleFreqs (alleleFreqs y) x
  ∧ cells (alleleFreqs y)
  ∧ ∀ k' l' j, (k' < K cfg)%nat → (l' < loci cfg)%nat → (j < J cfg !!! l')%nat →
      at3 (alleleFreqs y) k' l' j
      = if decide (k' = k ∧ l' = l)
        then ga k l j / sum_upto (J cfg !!! l) (ga k l)
        else at3 (alleleFreqs x) k' l' j.
Proof.
  intros HT Hk Hl. cbv zeta.
  assert (E1 : for_range (J cfg !!! l) (λ j '(s, randSum),
                   let s := set_alleleFreqs
                              (alter3 (λ _, ga k l j) k l j (alleleFreqs s)) s in
                   (s, randSum + at3 (alleleFreqs s) k l j)) (x, 0)
               = (set_alleleFreqs
                    (for_range (J cfg !!! l)
                       (λ j T, alter3 (λ _, ga k l j) k l j T) (alleleFreqs x)) x,
                  sum_upto (J cfg !!! l) (ga k l))).
  { assert (E0 : ∀ m,
      for_range m (λ j '(s, randSum),
          let s := set_alleleFreqs
                     (alter3 (λ _, ga k l j) k l j (alleleFreqs s)) s in
          (s, randSum + at3 (alleleFreqs s) k l j)) (x, 0)
      = let r := for_range m (λ j '(T, z),
                   let T' := alter3 (λ _, ga k l j) k l j T in
                   (T', z + at3 T' k l j)) (alleleFreqs x, 0) in
        (set_alleleFreqs r.1 x, r.2)).
    { intros m. cbv zeta. induction m as [|m IH].
      - rewrite !for_range_0. simpl. rewrite set_alleleFreqs_same. reflexivity.
      - rewrite !for_range_S, IH.
        destruct (for_range m _ (alleleFreqs x, 0)) as [T z]. reflexivity. }
    rewrite E0.
    rewrite (cell_draw_loop (ga k l) k l (J cfg !!! l) (alleleFreqs x) HT Hk Hl
               (le_n _)). reflexivity. }
  cbv zeta in E1. rewrite E1.
  destruct (cell_loop (λ j _, ga k l j) k l (J cfg !!! l) (alleleFreqs x) HT Hk Hl
              (le_n _)) as [R1 V1].
  set (T1 := for_range (J cfg !!! l) _ (alleleFreqs x)) in *.
  set (S := sum_upto (J cfg !!! l) (ga k l)).
  rewrite (for_range_lens set_alleleFreqs alleleFreqs (set_alleleFreqs T1 x)
             (λ j T, alter3 (λ v, v / S) k l j T));
    [|reflexivity|reflexivity].
  destruct (cell_loop (λ j v, v / S) k l (J cfg !!! l) T1 R1 Hk Hl (le_n _))
    as [R2 V2].
  change (alleleFreqs (set_alleleFreqs T1 x)) with T1.
  set (T2 := for_range (J cfg !!! l) _ T1) in *.
  split; [reflexivity|]. split; [exact R2|].
  intros k' l' j Hk' Hl' Hj. simpl.
  rewrite (V2 k' l' j), (V1 k' l' j) by assumption.
  destruct (decide (k' = k ∧ l' = l)) as [[-> ->]|Hn].
  - rewrite !decide_True by lia. reflexivity.
  - rewrite !decide_False by lia. reflexivity.
Qed.

(** The two loops of [drawFreqs] on one row of [admixFreqs]. *)
Lemma draw_row (gm : nat → nat → R) (i : nat) (x : chain) :
  rows (n cfg) (K cfg) (admixFreqs x) → (i < n cfg)%nat →
  let y :=
    let '(s, randSum) :=
      for_range (K cfg) (λ k '(s, randSum),
          let s := set_admixFreqs (alter2 (λ _, gm i k) i k (admixFreqs s)) s in
          (s, randSum + at2 (admixFreqs s) i k))
        (x, 0) in
    for_range (K cfg) (λ k s,
      set_admixFreqs (alter2 (λ x, x / randSum) i k (admixFreqs s)) s) s in
  y = set_admixFreqs (admixFreqs y) x
  ∧ rows (n cfg) (K cfg) (admixFreqs y)
  ∧ ∀ i' k, (i' < n cfg)%nat → (k < K cfg)%nat →
      at2 (admixFreqs y) i' k
      = if decide (i' = i) then gm i k / sum_upto (K cfg) (gm i)
        else at2 (admixFreqs x) i' k.
Proof.
  intros HM Hi. cbv zeta.
  assert (E1 : for_range (K cfg) (λ k '(s, randSum),
                   let s := set_admixFreqs
                              (alter2 (λ _, gm i k) i k (admixFreqs s)) s in
                   (s, randSum + at2 (admixFreqs s) i k)) (x, 0)
               = (set_admixFreqs
                    (for_range (K cfg)
                       (λ k M, alter2 (λ _, gm i k) i k M) (admixFreqs x)) x,
                  sum_upto (K cfg) (gm i))).
  { assert (E0 : ∀ m,
      for_range m (λ k '(s, randSum),
          let s := set_admixFreqs (alter2 (λ _, gm i k) i k (admixFreqs s)) s in
          (s, randSum + at2 (admixFreqs s) i k)) (x, 0)
      = let r := for_range m (λ k '(M, z),
                   let M' := alter2 (λ _, gm i k) i k M in
                   (M', z + at2 M' i k)) (admixFreqs x, 0) in
        (set_admixFreqs r.1 x, r.2)).
    { intros m. cbv zeta. induction m as [|m IH].
      - rewrite !for_range_0. simpl. rewrite set_admixFreqs_same. reflexivity.
      - rewrite !for_range_S, IH.
        destruct (for_range m _ (admixFreqs x, 0)) as [T z]. reflexivity. }
    rewrite E0.
    rewrite (row_draw_loop (gm i) (n cfg) (K cfg) i (K cfg) (admixFreqs x) HM Hi
               (le_n _)). reflexivity. }
  cbv zeta in E1. rewrite E1.
  destruct (alter2_loop (λ k _, gm i k) (n cfg) (K cfg) i (K cfg) (admixFreqs x) HM Hi
              (le_n _)) as [R1 V1].
  set (T1 := for_range (K cfg) _ (admixFreqs x)) in *.
  set (S := sum_upto (K cfg) (gm i)).
  rewrite (for_range_lens set_admixFreqs admixFreqs (set_admixFreqs T1 x)
             (λ k M, alter2 (λ v, v / S) i k M));
    [|reflexivity|reflexivity].
  destruct (alter2_loop (λ k v, v / S) (n cfg) (K cfg) i (K cfg) T1 R1 Hi (le_n _))
    as [R2 V2].
  change (admixFreqs (set_admixFreqs T1 x)) with T1.
  set (T2 := for_range (K cfg) _ T1) in *.
  split; [reflexivity|]. split; [exact R2|].
  intros i' k Hi' Hk. simpl.
  rewrite (V2 i' k), (V1 i' k) by assumption.
  destruct (decide (i' = i)) as [->|Hn].
  - rewrite !decide_True by lia. reflexivity.
  - rewrite !decide_False by lia. reflexivity.
Qed.

Lemma drawFreqs_values (ga : nat → nat → nat → R) (gm : nat → nat → R) (s : chain) :
  freqs_shaped s →
  let s' := drawFreqs ga gm s in
  s' = set_admixFreqs (admixFreqs s') (set_alleleFreqs (alleleFreqs s') s)
  ∧ freqs_shaped s'
  ∧ (∀ k l j, (k < K cfg)%nat → (l < loci cfg)%nat → (j < J cfg !!! l)%nat →
       at3 (alleleFreqs s') k l j = ga k l j / sum_upto (J cfg !!! l) (ga k l))
  ∧ (∀ i k, (i < n cfg)%nat → (k < K cfg)%nat →
       at2 (admixFreqs s') i k = gm i k / sum_upto (K cfg) (gm i)).
Proof.
  intros [HT HM]. cbv zeta. unfold drawFreqs. cbv zeta.
  set (s1 := for_range (K cfg) _ s).
  assert (H1 : s1 = set_alleleFreqs (alleleFreqs s1) s
               ∧ cells (alleleFreqs s1)
               ∧ ∀ k l j, (k < K cfg)%nat → (l < loci cfg)%nat → (j < J cfg !!! l)%nat →
                   at3 (alleleFreqs s1) k l j
                   = ga k l j / sum_upto (J cfg !!! l) (ga k l)).
  { pose (P := λ (k : nat) (x : chain),
      x = set_alleleFreqs (alleleFreqs x) s
      ∧ cells (alleleFreqs x)
      ∧ ∀ k' l' j, (k' < K cfg)%nat → (l' < loci cfg)%nat → (j < J cfg !!! l')%nat →
          at3 (alleleFreqs x) k' l' j
          = if decide (k' < k)%nat
            then ga k' l' j / sum_upto (J cfg !!! l') (ga k' l')
            else at3 (alleleFreqs s) k' l' j).
    assert (HP : P (K cfg) s1).
    { unfold s1. apply (for_range_ind P); unfold P; clear P.
      - split; [symmetry; apply set_alleleFreqs_same|]. split; [exact HT|].
        intros k' l' j _ _ _. rewrite decide_False by lia. reflexivity.
      - intros k x Hk (Ex & Cx & Vx).
        pose (Q := λ (l : nat) (y : chain),
          y = set_alleleFreqs (alleleFreqs y) s
          ∧ cells (alleleFreqs y)
          ∧ ∀ k' l' j, (k' < K cfg)%nat → (l' < loci cfg)%nat →
              (j < J cfg !!! l')%nat →
              at3 (alleleFreqs y) k' l' j
              = if decide (k' < k ∨ (k' = k ∧ l' < l))%nat
                then ga k' l' j / sum_upto (J cfg !!! l') (ga k' l')
                else at3 (alleleFreqs s) k' l' j).
        assert (HQ : Q (loci cfg)
                       (for_range (loci cfg) (λ l s,
                          let '(s, randSum) :=
                            for_range (J cfg !!! l) (λ j '(s, randSum),
                                let s := set_alleleFreqs
                                           (alter3 (λ _, ga k l j) k l j
                                              (alleleFreqs s)) s in
                                (s, randSum + at3 (alleleFreqs s) k l j))
                              (s, 0) in
                          for_range (J cfg !!! l) (λ j s,
                            set_alleleFreqs
                              (alter3 (λ x, x / randSum) k l j (alleleFreqs s)) s) s)
                          x)).
        { apply (for_range_ind Q); unfold Q; clear Q.
          - split; [exact Ex|]. split; [exact Cx|].
            intros k' l' j Hk' Hl' Hj. rewrite (Vx k' l' j) by assumption.
            destruct (decide (k' < k)%nat).
            + rewrite decide_True by lia. reflexivity.
            + rewrite decide_False by lia. reflexivity.
          - intros l y Hl (Ey & Cy & Vy).
            pose proof (draw_cell ga k l y Cy Hk Hl) as Hz.
            cbv beta zeta in Hz. cbv beta zeta.
            match goal with |- ?z = _ ∧ _ => set (zz := z) in * end.
            destruct Hz as (Ez & Cz & Vz).
            split; [rewrite Ez, Ey; reflexivity|]. split; [exact Cz|].
            intros k' l' j Hk' Hl' Hj.
            rewrite (Vz k' l' j), (Vy k' l' j) by assumption.
            destruct (decide (k' = k ∧ l' = l)) as [[-> ->]|Hn].
            + rewrite decide_True by lia. reflexivity.
            + destruct (decide ((k' < k)%nat ∨ k' = k ∧ (l' < l)%nat)).
              * rewrite decide_True by lia. reflexivity.
              * rewrite decide_False by lia. reflexivity. }
        unfold Q in HQ. clear Q. cbv beta zeta in HQ.
        destruct HQ as (Ey & Cy & Vy). split; [exact Ey|]. split; [exact Cy|].
        intros k' l' j Hk' Hl' Hj. rewrite (Vy k' l' j) by assumption.
        destruct (decide (k' < S k)%nat).
        + rewrite decide_True by lia. reflexivity.
        + rewrite decide_False by lia. reflexivity. }
    destruct HP as (E & C & V). split; [exact E|]. split; [exact C|].
    intros k l j Hk Hl Hj. rewrite (V k l j), decide_True by assumption. reflexivity. }
  destruct H1 as (E1 & C1 & V1).
  assert (HM1 : rows (n cfg) (K cfg) (admixFreqs s1)) by (rewrite E1; exact HM).
  set (s2 := for_range (n cfg) _ s1).
  assert (H2 : s2 = set_admixFreqs (admixFreqs s2) s1
               ∧ rows (n cfg) (K cfg) (admixFreqs s2)
               ∧ ∀ i k, (i < n cfg)%nat → (k < K cfg)%nat →
                   at2 (admixFreqs s2) i k = gm i k / sum_upto (K cfg) (gm i)).
  { pose (P := λ (i : nat) (x : chain),
      x = set_admixFreqs (admixFreqs x) s1
      ∧ rows (n cfg) (K cfg) (admixFreqs x)
      ∧ ∀ i' k, (i' < n cfg)%nat → (k < K cfg)%nat →
          at2 (admixFreqs x) i' k
          = if decide (i' < i)%nat then gm i' k / sum_upto (K cfg) (gm i')
            else at2 (admixFreqs s1) i' k).
    assert (HP : P (n cfg) s2).
    { unfold s2. apply (for_range_ind P); unfold P; clear P.
      - split; [symmetry; apply set_admixFreqs_same|]. split; [exact HM1|].
        intros i' k _ _. rewrite decide_False by lia. reflexivity.
      - intros i x Hi (Ex & Rx & Vx).
        pose proof (draw_row gm i x Rx Hi) as Hz.
        cbv beta zeta in Hz. cbv beta zeta.
        match goal with |- ?z = _ ∧ _ => set (zz := z) in * end.
        destruct Hz as (Ez & Rz & Vz).
        split; [rewrite Ez, Ex; reflexivity|]. split; [exact Rz|].
        intros i' k Hi' Hk. rewrite (Vz i' k), (Vx i' k) by assumption.
        destruct (decide (i' = i)) as [->|Hn].
        + rewrite decide_True by lia. reflexivity.
        + destruct (decide (i' < i)%nat).
          * rewrite decide_True by lia. reflexivity.
          * rewrite decide_False by lia. reflexivity. }
    destruct HP as (E & C & V). split; [exact E|]. split; [exact C|].
    intros i k Hi Hk. rewrite (V i k), decide_True by assumption. reflexivity. }
  destruct H2 as (E2 & R2 & V2).
  assert (EA : alleleFreqs s2 = alleleFreqs s1) by (rewrite E2; reflexivity).
  split; [rewrite EA, <- E1; exact E2|].
  split; [split; [rewrite EA; exact C1 | exact R2]|].
  split; [|exact V2].
  intros k l j Hk Hl Hj. rewrite EA. apply V1; assumption.
Qed.

(** X9: [drawFreqs] writes [alleleFreqs] and [admixFreqs] and nothing else;
    every cell of [alleleFreqs] and every row of [admixFreqs] holds the gamma
    deviates drawn for it, each divided by their sum. *)
Theorem drawFreqs_spec (ga : nat → nat → nat → R) (gm : nat → nat → R) (s : chain) :
  freqs_shaped s →
  let s' := drawFreqs ga gm s in
  s' = set_admixFreqs (admixFreqs s') (set_alleleFreqs (alleleFreqs s') s)
  ∧ freqs_shaped s'
  ∧ (∀ k l j, (k < K cfg)%nat → (l < loci cfg)%nat → (j < J cfg !!! l)%nat →
       at3 (alleleFreqs s') k l j = ga k l j / sum_upto (J cfg !!! l) (ga k l))
  ∧ (∀ i k, (i < n cfg)%nat → (k < K cfg)%nat →
       at2 (admixFreqs s') i k = gm i k / sum_upto (K cfg) (gm i)).
Proof. exact (drawFreqs_values ga gm s). Qed.

Lemma sum_upto_le (m : nat) (f g : nat → R) :
  (∀ i, (i < m)%nat → f i <= g i) → sum_upto m f <= sum_upto m g.
Proof.
  intros H. induction m as [|m IH]; [rewrite !sum_upto_0; lra|].
  rewrite !sum_upto_S.
  assert (sum_upto m f <= sum_upto m g) by (apply IH; intros; apply H; lia).
  pose proof (H m ltac:(lia)). lra.
Qed.

Lemma sum_upto_nonneg (m : nat) (f : nat → R) :
  (∀ i, (i < m)%nat → 0 <= f i) → 0 <= sum_upto m f.
Proof.
  intros H. induction m as [|m IH]; [rewrite sum_upto_0; lra|].
  rewrite sum_upto_S.
  assert (0 <= sum_upto m f) by (apply IH; intros; apply H; lia).
  pose proof (H m ltac:(lia)). lra.
Qed.

Lemma sum_upto_member_le (m j : nat) (f : nat → R) :
  (∀ i, (i < m)%nat → 0 <= f i) → (j < m)%nat → f j <= sum_upto m f.
Proof.
  intros H Hj. induction m as [|m IH]; [lia|].
  rewrite sum_upto_S.
  assert (H0 : 0 <= sum_upto m f) by (apply sum_upto_nonneg; intros; apply H; lia).
  pose proof (H m ltac:(lia)) as Hm.
  destruct (decide (j = m)) as [->|Hne]; [lra|].
  assert (f j <= sum_upto m f) by (apply IH; [intros; apply H; lia | lia]). lra.
Qed.

(** A positive deviate divided by the sum of positive deviates. *)
Lemma share_range (m j : nat) (g : nat → R) :
  (∀ i, 0 < g i) → (j < m)%nat → 0 < g j / sum_upto m g <= 1.
Proof.
  intros Hg Hj.
  assert (Hs : 0 < sum_upto m g) by (apply sum_upto_pos; [lia | intros; apply Hg]).
  assert (Hle : g j <= sum_upto m g)
    by (apply sum_upto_member_le; [intros; left; apply Hg | exact Hj]).
  split.
  - apply Rdiv_lt_0_compat; [apply Hg | exact Hs].
  - apply (Rmult_le_reg_r (sum_upto m g)); [exact Hs|].
    unfold Rdiv. rewrite Rmult_assoc, Rinv_l by lra. lra.
Qed.

Lemma share_sum (m : nat) (g : nat → R) :
  (∀ i, 0 < g i) → (0 < m)%nat → sum_upto m (λ j, g j / sum_upto m g) = 1.
Proof.
  intros Hg Hm.
  assert (Hs : 0 < sum_upto m g) by (apply sum_upto_pos; [lia | intros; apply Hg]).
  rewrite sum_upto_div. field. lra.
Qed.

Lemma drawFreqs_ranges (ga : nat → nat → nat → R) (gm : nat → nat → R) (s : chain) :
  freqs_shaped s →
  (∀ k l j, 0 < ga k l j) → (∀ i k, 0 < gm i k) →
  let s' := drawFreqs ga gm s in
  (∀ k l, (k < K cfg)%nat → (l < loci cfg)%nat →
     (∀ j, (j < J cfg !!! l)%nat → 0 < at3 (alleleFreqs s') k l j <= 1)
     ∧ ((0 < J cfg !!! l)%nat →
        sum_upto (J cfg !!! l) (λ j, at3 (alleleFreqs s') k l j) = 1))
  ∧ (∀ i, (i < n cfg)%nat →
       (∀ k, (k < K cfg)%nat → 0 < at2 (admixFreqs s') i k <= 1)
       ∧ ((0 < K cfg)%nat → sum_upto (K cfg) (λ k, at2 (admixFreqs s') i k) = 1)).
Proof.
  intros Hsh Hga Hgm. cbv zeta.
  destruct (drawFreqs_values ga gm s Hsh) as (_ & _ & VA & VM). cbv zeta in VA, VM.
  split.
  - intros k l Hk Hl. split.
    + intros j Hj. rewrite (VA k l j) by assumption.
      apply share_range; [apply Hga | exact Hj].
    + intros HJ.
      rewrite (sum_upto_ext _ _ (λ j, ga k l j / sum_upto (J cfg !!! l) (ga k l)))
        by (intros j Hj; apply VA; assumption).
      apply share_sum; [apply Hga | exact HJ].
  - intros i Hi. split.
    + intros k Hk. rewrite (VM i k) by assumption.
      apply share_range; [apply Hgm | exact Hk].
    + intros HK.
      rewrite (sum_upto_ext _ _ (λ k, gm i k / sum_upto (K cfg) (gm i)))
        by (intros k Hk; apply VM; assumption).
      apply share_sum; [apply Hgm | exact HK].
Qed.

(** X10: when every gamma deviate is positive, [drawFreqs] leaves a
    probability vector in every cell of [alleleFreqs] with at least one
    allele and, for [K > 0], in every row of [admixFreqs]: the entries lie
    in (0, 1] and sum to 1. *)
Theorem drawFreqs_simplex (ga : nat → nat → nat → R) (gm : nat → nat → R) (s : chain) :
  freqs_shaped s →
  (∀ k l j, 0 < ga k l j) → (∀ i k, 0 < gm i k) →
  let s' := drawFreqs ga gm s in
  (∀ k l, (k < K cfg)%nat → (l < loci cfg)%nat →
     (∀ j, (j < J cfg !!! l)%nat → 0 < at3 (alleleFreqs s') k l j <= 1)
     ∧ ((0 < J cfg !!! l)%nat →
        sum_upto (J cfg !!! l) (λ j, at3 (alleleFreqs s') k l j) = 1))
  ∧ (∀ i, (i < n cfg)%nat →
       (∀ k, (k < K cfg)%nat → 0 < at2 (admixFreqs s') i k <= 1)
       ∧ ((0 < K cfg)%nat → sum_upto (K cfg) (λ k, at2 (admixFreqs s') i k) = 1)).
Proof. exact (drawFreqs_ranges ga gm s). Qed.

Lemma sumR_nonpos (l : list R) : Forall (λ x, x <= 0) l → sumR l <= 0.
Proof.
  induction 1 as [|x l Hx _ IH]; [change (sumR []) with 0; lra|].
  rewrite sumR_cons. lra.
Qed.

(** The term a gene copy adds to [logLikeJoint]. *)
Lemma d_logLikeJoint_eq (s : chain) :
  d_logLikeJoint s
  = set_logLikeJoint
      (sumR (map (λ c, if present c then ln (copy_prob s c) else 0) copies)) s.
Proof.
  unfold d_logLikeJoint. rewrite for_copies_flat.
  assert (E : ∀ l acc,
    fold_left (λ a c,
        if decide (datum c.1.1 c.1.2 c.2 ≠ 0%nat) then
          set_logLikeJoint
            (logLikeJoint a
             + ln (for_range (K cfg) (λ k temp1,
                     temp1 + at2 (admixFreqs a) c.1.1 k
                             * at3 (alleleFreqs a) k c.1.2 (datum c.1.1 c.1.2 c.2 - 1))
                     0)) a
        else a) l (set_logLikeJoint acc s)
    = set_logLikeJoint
        (acc + sumR (map (λ c, if present c then ln (copy_prob s c) else 0) l)) s).
  { induction l as [|c l IH]; intros acc.
    - simpl. change (sumR []) with 0. rewrite Rplus_0_r. reflexivity.
    - simpl. rewrite sumR_cons. unfold present at 1, allele at 1.
      destruct (decide (datum c.1.1 c.1.2 c.2 ≠ 0%nat)) as [Hd|Hd].
      + apply Nat.eqb_neq in Hd as Hd'. rewrite Hd'. simpl.
        rewrite (acc_sum _ (λ k, at2 (admixFreqs s) c.1.1 k
                                 * at3 (alleleFreqs s) k c.1.2
                                     (datum c.1.1 c.1.2 c.2 - 1)))
          by reflexivity.
        rewrite Rplus_0_l.
        change (set_logLikeJoint ?a (set_logLikeJoint acc s))
          with (set_logLikeJoint a s).
        rewrite IH. unfold copy_prob, allele. rewrite Rplus_assoc. reflexivity.
      + assert (Hz : datum c.1.1 c.1.2 c.2 = 0%nat) by lia.
        rewrite Hz. simpl. rewrite IH, Rplus_0_l. reflexivity. }
  rewrite (E copies 0), Rplus_0_l. reflexivity.
Qed.

(** X11: [d_logLikeJoint] overwrites [logLikeJoint], whatever it held, with
    the sum over the gene copies with an observed allele of the logarithm of
    the probability of the allele under the drawn frequencies; missing
    observations contribute nothing and no other member is written, so that
    a second call changes nothing. *)
Theorem d_logLikeJoint_spec (s : chain) :
  let s' := d_logLikeJoint s in
  s' = set_logLikeJoint (logLikeJoint s') s
  ∧ logLikeJoint s'
    = sumR (map (λ c, if present c then ln (copy_prob s c) else 0) copies)
  ∧ (∀ v, d_logLikeJoint (set_logLikeJoint v s) = s')
  ∧ d_logLikeJoint s' = s'.
Proof.
  cbv zeta. rewrite !d_logLikeJoint_eq. split; [reflexivity|]. split; [reflexivity|].
  split.
  - intros v. rewrite d_logLikeJoint_eq. reflexivity.
  - reflexivity.
Qed.

(** X12: after [drawFreqs] with positive gamma deviates every observed
    allele has a probability in (0, 1] under the drawn frequencies, and the
    joint log-likelihood computed by [d_logLikeJoint] is not positive. *)
Theorem logLikeJoint_nonpos (ga : nat → nat → nat → R) (gm : nat → nat → R)
    (s : chain) :
  data_ok → freqs_shaped s → (0 < K cfg)%nat →
  (∀ k l j, 0 < ga k l j) → (∀ i k, 0 < gm i k) →
  let s' := drawFreqs ga gm s in
  (∀ c, c ∈ copies → present c = true → 0 < copy_prob s' c <= 1)
  ∧ logLikeJoint (d_logLikeJoint s') <= 0.
Proof.
  intros Hdata Hsh HK Hga Hgm. cbv zeta.
  destruct (drawFreqs_ranges ga gm s Hsh Hga Hgm) as [HA HM]. cbv zeta in HA, HM.
  set (s' := drawFreqs ga gm s) in *.
  assert (Hc : ∀ c, c ∈ copies → present c = true → 0 < copy_prob s' c <= 1).
  { intros [[ind l] p] Hin Hpr.
    apply list_elem_of_lookup_1 in Hin as [t Ht].
    destruct (copies_bounds _ _ _ _ Ht) as (Hind & Hl & Hp).
    pose proof (data_ok_lookup _ _ _ _ Hdata Ht) as Hd.
    unfold present, allele in Hpr. simpl in Hpr.
    apply negb_true_iff, Nat.eqb_neq in Hpr.
    destruct (HM ind Hind) as [Hm1 Hm2]. specialize (Hm2 HK).
    unfold copy_prob, allele. simpl.
    assert (Hf : ∀ k, (k < K cfg)%nat →
              0 < at3 (alleleFreqs s') k l (datum ind l p - 1) <= 1)
      by (intros k Hk; apply (HA k l Hk Hl); lia).
    split.
    - apply sum_upto_pos; [exact HK|]. intros k Hk.
      apply Rmult_lt_0_compat; [apply Hm1, Hk | apply Hf, Hk].
    - rewrite <- Hm2. apply sum_upto_le. intros k Hk.
      pose proof (Hm1 k Hk). pose proof (Hf k Hk). nra. }
  split; [exact Hc|].
  rewrite d_logLikeJoint_eq. simpl. apply sumR_nonpos, Forall_fmap, list.Forall_forall.
  intros c Hin. simpl. destruct (present c) eqn:Hpr; [|lra].
  destruct (Hc c Hin Hpr) as [H0 H1].
  rewrite <- ln_1. destruct H1 as [H1|H1]; [left; apply ln_increasing; assumption|].
  rewrite H1. lra.
Qed.

(** ** The reflection of the proposal *)

Lemma wrap_up_step (x : R) : x < -10 → wrap_up x = wrap_up (x + 20).
Proof.
  intros Hx. rewrite (wrap_up_equation_1 x).
  destruct (Rlt_dec x (-10)); [reflexivity | lra].
Qed.

Lemma wrap_down_step (x : R) : 20 < x → wrap_down x = wrap_down (x - 20).
Proof.
  intros Hx. rewrite (wrap_down_equation_1 x).
  destruct (Rlt_dec 20 x); [reflexivity | lra].
Qed.

Lemma wrap_down_id (x : R) : x <= 20 → wrap_down x = x.
Proof.
  intros Hx. rewrite wrap_down_equation_1.
  destruct (Rlt_dec 20 x); [lra | reflexivity].
Qed.

(** X13: for a proposal within one period of the target interval, in
    [-30, 40], where each of the two loops makes at most one pass, the
    reflected value is the triangle wave that is the identity on (0, 10]: a
    proposal in [-10, 0) is mirrored at 0 and one in (10, 20) at 10, one in
    (-20, -10) or (20, 30] is first moved by 20, one in [-30, -20) or
    (30, 40) is moved by 20 and then mirrored, and the four proposals that
    reflect to an exact zero, -20, 0, 20 and 40, give [1e-300]. *)
Theorem reflect_alpha_triangle :
  (∀ x, 0 < x <= 10 → reflect_alpha x = x)
  ∧ (∀ x, -10 <= x < 0 → reflect_alpha x = - x)
  ∧ (∀ x, 10 < x < 20 → reflect_alpha x = 20 - x)
  ∧ (∀ x, -20 < x < -10 → reflect_alpha x = x + 20)
  ∧ (∀ x, -30 <= x < -20 → reflect_alpha x = - (x + 20))
  ∧ (∀ x, 20 < x <= 30 → reflect_alpha x = x - 20)
  ∧ (∀ x, 30 < x < 40 → reflect_alpha x = 20 - (x - 20))
  ∧ (∀ x, x = -20 ∨ x = 0 ∨ x = 20 ∨ x = 40 → reflect_alpha x = pow 10 (-300)).
Proof.
  repeat split.
  - intros x Hx. unfold reflect_alpha. repeat case_decide; lra.
  - intros x Hx. unfold reflect_alpha.
    rewrite (wrap_up_id x), (wrap_down_id x) by lra. repeat case_decide; lra.
  - intros x Hx. unfold reflect_alpha.
    rewrite (wrap_up_id x), (wrap_down_id x) by lra. repeat case_decide; lra.
  - intros x Hx. unfold reflect_alpha.
    rewrite (wrap_up_step x), (wrap_up_id (x + 20)), (wrap_down_id (x + 20)) by lra.
    repeat case_decide; lra.
  - intros x Hx. unfold reflect_alpha.
    rewrite (wrap_up_step x), (wrap_up_id (x + 20)), (wrap_down_id (x + 20)) by lra.
    repeat case_decide; lra.
  - intros x Hx. unfold reflect_alpha.
    rewrite (wrap_up_id x), (wrap_down_step x), (wrap_down_id (x - 20)) by lra.
    repeat case_decide; lra.
  - intros x Hx. unfold reflect_alpha.
    rewrite (wrap_up_id x), (wrap_down_step x), (wrap_down_id (x - 20)) by lra.
    repeat case_decide; lra.
  - intros x [-> | [-> | [-> | ->]]]; unfold reflect_alpha.
    + rewrite (wrap_up_step (-20)), (wrap_up_id (-20 + 20)), (wrap_down_id (-20 + 20))
        by lra.
      repeat case_decide; lra.
    + repeat case_decide; lra.
    + rewrite (wrap_up_id 20), (wrap_down_id 20) by lra. repeat case_decide; lra.
    + rewrite (wrap_up_id 40), (wrap_down_step 40), (wrap_down_id (40 - 20)) by lra.
      repeat case_decide; lra.
Qed.

(** ** Construction and reset *)

(** The nested allocation loop of the constructor. *)
Lemma build_cells {A} `{Inhabited A} (z : A) :
  let T := for_range (K cfg) (λ k ac,
             for_range (loci cfg) (λ l ac, set2 k l (replicate (J cfg !!! l) z) ac)
               (<[k := replicate (loci cfg) []]> ac))
             (replicate (K cfg) []) in
  cells T
  ∧ ∀ k l j, (k < K cfg)%nat → (l < loci cfg)%nat → (j < J cfg !!! l)%nat →
      at3 T k l j = z.
Proof.
  cbv zeta.
  set (T := for_range (K cfg) _ (replicate (K cfg) [])).
  assert (HT : length T = K cfg
               ∧ ∀ k, (k < K cfg)%nat →
                   length (T !!! k) = loci cfg
                   ∧ ∀ l, (l < loci cfg)%nat → at2 T k l = replicate (J cfg !!! l) z).
  { unfold T.
    apply (for_range_ind (λ m (T : list (list (list A))),
      length T = K cfg
      ∧ ∀ k, (k < m)%nat →
          length (T !!! k) = loci cfg
          ∧ ∀ l, (l < loci cfg)%nat → at2 T k l = replicate (J cfg !!! l) z)).
    - split; [apply length_replicate | intros; lia].
    - intros k T0 Hk [L0 V0].
      set (T1 := <[k := replicate (loci cfg) []]> T0).
      assert (L1 : length T1 = K cfg) by (unfold T1; rewrite length_insert; exact L0).
      assert (R1 : length (T1 !!! k) = loci cfg).
      { unfold T1. rewrite list_lookup_total_insert_eq by lia. apply length_replicate. }
      assert (Hin :
        let T2 := for_range (loci cfg)
                    (λ l ac, set2 k l (replicate (J cfg !!! l) z) ac) T1 in
        length T2 = K cfg
        ∧ (∀ k', k' ≠ k → T2 !!! k' = T1 !!! k')
        ∧ length (T2 !!! k) = loci cfg
        ∧ ∀ l, (l < loci cfg)%nat → at2 T2 k l = replicate (J cfg !!! l) z).
      { cbv zeta.
        apply (for_range_ind (λ m (T2 : list (list (list A))),
          length T2 = K cfg
          ∧ (∀ k', k' ≠ k → T2 !!! k' = T1 !!! k')
          ∧ length (T2 !!! k) = loci cfg
          ∧ ∀ l, (l < m)%nat → at2 T2 k l = replicate (J cfg !!! l) z)).
        - split; [exact L1|]. split; [reflexivity|]. split; [exact R1 | intros; lia].
        - intros l T2 Hl (L2 & F2 & R2 & V2). unfold set2.
          split; [rewrite length_alter; exact L2|].
          split; [intros k' Hk'; rewrite list_lookup_total_alter_ne by lia;
                  apply F2, Hk'|].
          rewrite list_lookup_total_alter, decide_True by lia.
          split; [rewrite length_insert; exact R2|].
          intros l' Hl'. unfold at2.
          rewrite list_lookup_total_alter, decide_True by lia.
          rewrite list_lookup_total_insert.
          destruct (decide (l = l' ∧ (l < length (T2 !!! k))%nat)) as [[<- _]|Hn].
          + reflexivity.
          + apply V2. lia. }
      cbv zeta in Hin. destruct Hin as (L2 & F2 & R2 & V2).
      split; [exact L2|]. intros k' Hk'.
      destruct (decide (k' = k)) as [->|Hne].
      + split; [exact R2 | exact V2].
      + unfold at2. rewrite (F2 k' Hne). unfold T1.
        rewrite list_lookup_total_insert_ne by lia. apply V0. lia. }
  destruct HT as [L V]. split.
  - split; [exact L|]. apply (Forall_lookup_total_2 _ T). intros k Hk. rewrite L in Hk.
    destruct (V k Hk) as [V1 V2]. split; [exact V1|].
    intros l Hl. change ((T !!! k) !!! l) with (at2 T k l).
    rewrite (V2 l Hl). apply length_replicate.
  - intros k l j Hk Hl Hj. change (at3 T k l j) with (at2 T k l !!! j).
    rewrite (proj2 (V k Hk) l Hl). apply lookup_total_replicate_2, Hj.
Qed.

Lemma build_rows {A} `{Inhabited A} (z : A) :
  let T := for_range (K cfg) (λ k t, <[k := replicate (loci cfg) z]> t)
             (replicate (K cfg) []) in
  rows (K cfg) (loci cfg) T
  ∧ ∀ k l, (k < K cfg)%nat → (l < loci cfg)%nat → at2 T k l = z.
Proof.
  cbv zeta.
  pose proof (fill_lookup (λ _ (_ : list A), replicate (loci cfg) z) (K cfg)
                (replicate (K cfg) [])) as V.
  pose proof (fill_length (λ _ (_ : list A), replicate (loci cfg) z) (K cfg)
                (replicate (K cfg) [])) as L.
  cbv beta in V, L. rewrite length_replicate in L.
  set (T := for_range (K cfg) _ (replicate (K cfg) [])) in *.
  assert (E : ∀ k, (k < K cfg)%nat → T !!! k = replicate (loci cfg) z).
  { intros k Hk. rewrite V, decide_True; [reflexivity|].
    rewrite length_replicate. lia. }
  split.
  - split; [exact L|]. apply (Forall_lookup_total_2 _ T). intros k Hk. rewrite L in Hk.
    rewrite (E k Hk). apply length_replicate.
  - intros k l Hk Hl. unfold at2. rewrite (E k Hk).
    apply lookup_total_replicate_2, Hl.
Qed.

Lemma at2_replicate {A} `{Inhabited A} (a b i j : nat) (z : A) :
  (i < a)%nat → (j < b)%nat → at2 (replicate a (replicate b z)) i j = z.
Proof. intros Hi Hj. unfold at2. rewrite !lookup_total_replicate_2 by lia. reflexivity. Qed.

(** X14: the constructor allocates every container that the member
    functions subscript with the dimensions they use: the label vector has
    [geneCopies] entries, the count and frequency tensors are indexed by
    deme, locus and allele, the count and frequency matrices by individual
    and deme, the work vector and the members of the solver by deme, and
    each of the eight Q matrices by gene copy, individual or population and
    deme; every count is zero, the two vectors it does not allocate,
    [bestPerm] and [logLikeGroup_store], are empty, and [alpha] is the value
    it is given. *)
Theorem constructor_shapes (alpha0 : R) :
  let s := MCMCobject_admixture alpha0 in
  (shaped s ∧ Q_shaped s ∧ freqs_shaped s
   ∧ rows (geneCopies cfg) (K cfg) (logQmatrix_gene_old s)
   ∧ rows (geneCopies cfg) (K cfg) (logQmatrix_gene_running s)
   ∧ rows (geneCopies cfg) (K cfg) (logQmatrix_gene s)
   ∧ rows (geneCopies cfg) (K cfg) (Qmatrix_gene s)
   ∧ rows (n cfg) (K cfg) (Qmatrix_ind s)
   ∧ rows (uniquePops cfg) (K cfg) (Qmatrix_pop s))
  ∧ tallies (λ _, 0%Z) s
  ∧ (bestPerm s = [] ∧ logLikeGroup_store s = [])
  ∧ alpha s = alpha0.
Proof.
  cbv zeta.
  destruct (build_cells 0%Z) as [CZ VZ]. destruct (build_cells 0) as [CR VR].
  destruct (build_rows 0%Z) as [RZ WZ]. cbv zeta in CZ, VZ, CR, VR, RZ, WZ.
  split; [|split; [|split]].
  - split; [|split; [|split]].
    + constructor; simpl.
      * apply length_replicate.
      * exact CZ.
      * exact RZ.
      * apply rows_replicate.
      * apply length_replicate.
      * apply length_replicate.
      * apply rows_replicate.
      * apply length_replicate.
    + constructor; simpl; apply rows_replicate.
    + split; simpl; [exact CR | apply rows_replicate].
    + simpl. repeat split; apply rows_replicate.
  - constructor; simpl.
    + exact VZ.
    + exact WZ.
    + intros i k Hi Hk. apply at2_replicate; assumption.
    + intros i Hi. apply lookup_total_replicate_2, Hi.
  - split; reflexivity.
  - reflexivity.
Qed.

Lemma constructor_shaped (alpha0 : R) : shaped (MCMCobject_admixture alpha0).
Proof.
  destruct (build_cells 0%Z) as [CZ _]. destruct (build_rows 0%Z) as [RZ _].
  cbv zeta in CZ, RZ.
  constructor; simpl;
    try apply length_replicate; try apply rows_replicate; assumption.
Qed.

Lemma sum_upto_const (m : nat) (c : R) : sum_upto m (λ _, c) = INR m * c.
Proof.
  induction m as [|m IH]; [rewrite sum_upto_0; simpl; lra|].
  rewrite sum_upto_S, IH, S_INR. lra.
Qed.

(** X15: [reset] does not write [alpha], the drawn frequencies, the work
    vector of the sweep or the members of the solver; it reinitialises the
    Q matrices of the run, and it reinitialises the running reference of the
    label alignment only when asked to: every entry is then [-log K], the
    uniform distribution over the demes, and the reference is the one of
    before the call otherwise. *)
Theorem reset_frame (b : bool) (us : nat → R) (s0 s : chain) :
  reset b us s0 = Some s →
  outside_reset s = outside_reset s0
  ∧ logQmatrix_gene_running s
    = (if b then replicate (geneCopies cfg) (replicate (K cfg) (- ln (INR (K cfg))))
       else logQmatrix_gene_running s0)
  ∧ (b = true → (0 < K cfg)%nat → ∀ g, (g < geneCopies cfg)%nat →
       sum_upto (K cfg) (λ k, exp (at2 (logQmatrix_gene_running s) g k)) = 1)
  ∧ reset_Q_members s
    = (replicate (geneCopies cfg) (replicate (K cfg) 0),
       replicate (geneCopies cfg) (replicate (K cfg) 0),
       replicate (geneCopies cfg) (replicate (K cfg) 0),
       replicate (geneCopies cfg) (replicate (K cfg) (xlog 0)),
       replicate (geneCopies cfg) (replicate (K cfg) (Fin 0)),
       replicate (n cfg) (replicate (K cfg) (Fin 0)),
       replicate (uniquePops cfg) (replicate (K cfg) (Fin 0))).
Proof.
  intros Hr. unfold reset in Hr. cbv zeta in Hr.
  pose proof (reset_tail_keeps
                (λ x, (outside_reset x, logQmatrix_gene_running x, reset_Q_members x))
                us _ s ltac:(ignored) ltac:(ignored) ltac:(ignored) ltac:(ignored)
                ltac:(ignored) ltac:(ignored) Hr) as E.
  cbv beta in E. apply pair_equal_spec in E as [E E3].
  apply pair_equal_spec in E as [E1 E2].
  assert (Erun : logQmatrix_gene_running s
                 = (if b
                    then replicate (geneCopies cfg)
                           (replicate (K cfg) (- ln (INR (K cfg))))
                    else logQmatrix_gene_running s0))
    by (rewrite E2; destruct b; reflexivity).
  split; [rewrite E1; destruct b; reflexivity|]. split; [exact Erun|].
  split.
  - intros -> HK g Hg. rewrite Erun.
    rewrite (sum_upto_ext _ _ (λ _, / INR (K cfg))).
    + rewrite sum_upto_const. apply Rinv_r, not_0_INR. lia.
    + intros k Hk. rewrite at2_replicate by assumption.
      rewrite exp_Ropp, exp_ln; [reflexivity|]. apply lt_0_INR. lia.
  - rewrite E3. destruct b; reflexivity.
Qed.

(** X16: [reset] of a freshly constructed object, with deviates in [0, 1)
    and at least one deme, completes and leaves a consistent chain: every
    gene copy has a label in [1..K] and the four count tensors count the
    gene copies by label; [alpha] is the value given to the constructor. *)
Theorem constructed_reset (alpha0 : R) (b : bool) (us : nat → R) :
  data_ok → (0 < K cfg)%nat → (∀ g, 0 <= us g < 1) →
  ∃ s, reset b us (MCMCobject_admixture alpha0) = Some s
       ∧ consistent s ∧ stats_consistent s ∧ alpha s = alpha0.
Proof.
  intros Hdata HK Hus.
  destruct (reset_total b us (MCMCobject_admixture alpha0) HK Hus) as [s Hs].
  exists s. split; [exact Hs|].
  pose proof (reset_consistent b us _ s Hdata (constructor_shaped alpha0) Hs) as Hc.
  split; [exact Hc|]. split; [apply consistent_stats; assumption|].
  unfold reset in Hs. cbv zeta in Hs.
  apply (reset_tail_keeps alpha) in Hs; try ignored. rewrite Hs.
  destruct b; reflexivity.
Qed.

(** ** The counts as a function of the labels *)

Lemma list_ext {A} `{Inhabited A} (l1 l2 : list A) :
  length l1 = length l2 →
  (∀ i, (i < length l1)%nat → l1 !!! i = l2 !!! i) → l1 = l2.
Proof.
  intros Hl Hv. apply (list_eq_same_length _ _ (length l1)); [congruence | reflexivity|].
  intros i x y Hi Hx Hy.
  apply list_lookup_total_correct in Hx, Hy. rewrite <- Hx, <- Hy. apply Hv, Hi.
Qed.

Lemma rows_ext {A} `{Inhabited A} (a b : nat) (m1 m2 : list (list A)) :
  rows a b m1 → rows a b m2 →
  (∀ i j, (i < a)%nat → (j < b)%nat → at2 m1 i j = at2 m2 i j) → m1 = m2.
Proof.
  intros R1 R2 Hv. apply list_ext; [rewrite (proj1 R1), (proj1 R2); reflexivity|].
  intros i Hi. rewrite (proj1 R1) in Hi. apply list_ext.
  - rewrite (rows_row _ _ _ _ R1), (rows_row _ _ _ _ R2) by exact Hi. reflexivity.
  - intros j Hj. rewrite (rows_row _ _ _ _ R1) in Hj by exact Hi. apply Hv; assumption.
Qed.

Lemma cells_ext {A} `{Inhabited A} (m1 m2 : list (list (list A))) :
  cells m1 → cells m2 →
  (∀ k l j, (k < K cfg)%nat → (l < loci cfg)%nat → (j < J cfg !!! l)%nat →
     at3 m1 k l j = at3 m2 k l j) →
  m1 = m2.
Proof.
  intros C1 C2 Hv. apply list_ext; [rewrite (proj1 C1), (proj1 C2); reflexivity|].
  intros k Hk. rewrite (proj1 C1) in Hk. apply list_ext.
  - rewrite (cells_row _ _ C1), (cells_row _ _ C2) by exact Hk. reflexivity.
  - intros l Hl. rewrite (cells_row _ _ C1) in Hl by exact Hk. apply list_ext.
    + change (length (at2 m1 k l) = length (at2 m2 k l)).
      rewrite (cells_cell _ _ _ C1), (cells_cell _ _ _ C2) by assumption. reflexivity.
    + intros j Hj. change (j < length (at2 m1 k l))%nat in Hj.
      rewrite (cells_cell _ _ _ C1) in Hj by assumption. apply Hv; assumption.
Qed.

Lemma counts_of_labels (s s' : chain) :
  consistent s → consistent s' → linearGroup s' = linearGroup s →
  statistics s' = statistics s.
Proof.
  intros [Hsh _ [T1 T2 T3 T4]] [Hsh' _ [T1' T2' T3' T4']] E.
  rewrite E in T1', T2', T3', T4'. unfold statistics.
  assert (E1 : alleleCounts s' = alleleCounts s).
  { apply cells_ext; [apply Hsh' | apply Hsh|]. intros k l j Hk Hl Hj.
    rewrite T1, T1' by assumption. reflexivity. }
  assert (E2 : alleleCountsTotals s' = alleleCountsTotals s).
  { apply (rows_ext (K cfg) (loci cfg)); [apply Hsh' | apply Hsh|]. intros k l Hk Hl.
    rewrite T2, T2' by assumption. reflexivity. }
  assert (E3 : admixCounts s' = admixCounts s).
  { apply (rows_ext (n cfg) (K cfg)); [apply Hsh' | apply Hsh|]. intros i k Hi Hk.
    rewrite T3, T3' by assumption. reflexivity. }
  assert (E4 : admixCountsTotals s' = admixCountsTotals s).
  { apply list_ext; [rewrite (sh_admixCountsTotals _ Hsh'), (sh_admixCountsTotals _ Hsh);
                     reflexivity|].
    intros i Hi. rewrite (sh_admixCountsTotals _ Hsh') in Hi.
    rewrite T4, T4' by assumption. reflexivity. }
  rewrite E, E1, E2, E3, E4. reflexivity.
Qed.

(** X17: between two operations the four count tensors are a function of
    the label vector: two states of a chain with the same labels have the
    same counts, entry for entry. *)
Theorem counts_determined (s s' : chain) :
  reachable s → reachable s' → data_ok → hungarian_permutes →
  linearGroup s' = linearGroup s →
  alleleCounts s' = alleleCounts s ∧ alleleCountsTotals s' = alleleCountsTotals s
  ∧ admixCounts s' = admixCounts s ∧ admixCountsTotals s' = admixCountsTotals s.
Proof.
  intros Hs Hs' Hdata Hh E.
  pose proof (counts_of_labels s s' (reachable_consistent s Hdata Hh Hs)
                (reachable_consistent s' Hdata Hh Hs') E) as H.
  unfold statistics in H. injection H as _ E1 E2 E3 E4. auto.
Qed.

Lemma labels_single (s : chain) :
  K cfg = 1%nat → consistent s → linearGroup s = replicate (geneCopies cfg) 1%nat.
Proof.
  intros HK [Hsh Hlab _]. apply list_ext.
  - rewrite length_replicate. apply Hsh.
  - intros i Hi. rewrite (sh_group _ Hsh) in Hi.
    rewrite lookup_total_replicate_2 by exact Hi.
    pose proof (Forall_lookup_total_1 _ _ i Hlab) as H. simpl in H.
    rewrite (sh_group _ Hsh) in H. specialize (H Hi). lia.
Qed.

(** X18: with a single deme every label is 1, and a sweep of [group_update]
    leaves the labels and the four count tensors as they are. *)
Theorem single_deme (us : nat → R) (s s' : chain) :
  K cfg = 1%nat → data_ok → consistent s →
  group_update us s = Some s' →
  linearGroup s = replicate (geneCopies cfg) 1%nat
  ∧ statistics s' = statistics s.
Proof.
  intros HK Hdata Hs Hgu.
  pose proof (group_update_consistent us s s' Hdata Hs Hgu) as Hs'.
  split; [apply labels_single; assumption|].
  apply counts_of_labels; try assumption.
  rewrite (labels_single s HK Hs), (labels_single s' HK Hs'). reflexivity.
Qed.

Lemma map_seq_const {A} (m : nat) (c : A) : map (λ _, c) (seq 0 m) = replicate m c.
Proof.
  generalize 0%nat. induction m as [|m IH]; intros a; [reflexivity|].
  simpl. rewrite IH. reflexivity.
Qed.

(** X19: when every observation is missing, the counts of a consistent
    chain are all zero, the marginal log-likelihood computed by
    [d_logLikeGroup] is 0 whatever [lgamma] is, and the weights computed by
    [group_update] for any gene copy are all equal to [alpha]: the labels
    are redrawn uniformly. *)
Theorem all_missing (s : chain) :
  (∀ c, c ∈ copies → allele c = 0%nat) →
  consistent s →
  tallies (λ _, 0%Z) s
  ∧ logLikeGroup (d_logLikeGroup s) = 0
  ∧ ∀ t ind l p, copies !! t = Some (ind, l, p) →
      let s1 := remove_copy ind l p (next_copy s) in
      s1 = next_copy s
      ∧ probVec (group_probs ind l p s1) = replicate (K cfg) (alpha s)
      ∧ probVecSum (group_probs ind l p s1) = INR (K cfg) * alpha s.
Proof.
  intros Hmiss Hs. pose proof Hs as [Hsh Hlab [T1 T2 T3 T4]].
  set (L := labelled (linearGroup s)) in *.
  assert (Hx : ∀ x, x ∈ L → allele x.1 = 0%nat)
    by (intros x Hx; apply labelled_elem in Hx as [Hx _]; apply Hmiss, Hx).
  assert (Hzero : tallies (λ _, 0%Z) s).
  { constructor.
    - intros k l j Hk Hl Hj. rewrite T1 by assumption. apply count_if_false.
      intros x Hin. unfold in_cell. rewrite (Hx x Hin). simpl.
      rewrite andb_false_r. reflexivity.
    - intros k l Hk Hl. rewrite T2 by assumption. apply count_if_false.
      intros x Hin. unfold in_row, present. rewrite (Hx x Hin). simpl.
      rewrite andb_false_r. reflexivity.
    - intros i k Hi Hk. rewrite T3 by assumption. apply count_if_false.
      intros x Hin. unfold in_admix, present. rewrite (Hx x Hin). simpl.
      rewrite andb_false_r. reflexivity.
    - intros i Hi. rewrite T4 by assumption. apply count_if_false.
      intros x Hin. unfold of_ind, present. rewrite (Hx x Hin). simpl.
      rewrite andb_false_r. reflexivity. }
  split; [exact Hzero|]. destruct Hzero as [Z1 Z2 Z3 Z4]. split.
  - rewrite d_logLikeGroup_eq. simpl. unfold logLike_of.
    rewrite (sum_upto_ext _ _ (λ _, 0)); [rewrite sum_upto_const; lra|].
    intros k Hk. unfold deme_logLike.
    rewrite (sum_upto_ext _ _ (λ _, 0)); [rewrite sum_upto_const; lra|].
    intros l Hl.
    change ((alleleCountsTotals s !!! k) !!! l) with (at2 (alleleCountsTotals s) k l).
    rewrite (Z2 k l Hk Hl), Rplus_0_r.
    rewrite (sum_upto_ext _ _ (λ _, 0)); [rewrite sum_upto_const; lra|].
    intros j Hj.
    change (((alleleCounts s !!! k) !!! l) !!! j) with (at3 (alleleCounts s) k l j).
    rewrite (Z1 k l j Hk Hl Hj), Rplus_0_r. lra.
  - intros t ind l p Hc. cbv zeta.
    pose proof (copies_bounds _ _ _ _ Hc) as (Hind & Hl & Hp).
    assert (Hd : datum ind l p = 0%nat)
      by (apply (Hmiss (ind, l, p)); eapply list_elem_of_lookup_2, Hc).
    assert (E1 : remove_copy ind l p (next_copy s) = next_copy s).
    { unfold remove_copy. rewrite decide_False by lia. reflexivity. }
    rewrite E1. split; [reflexivity|].
    rewrite group_probs_eq by apply Hsh. simpl.
    assert (Ew : ∀ k, (k < K cfg)%nat → group_weight ind l p (next_copy s) k = alpha s).
    { intros k Hk. unfold group_weight. rewrite decide_True by exact Hd.
      change (admixCounts (next_copy s)) with (admixCounts s).
      rewrite (Z3 ind k Hind Hk). simpl. lra. }
    split.
    + rewrite <- map_seq_const. apply map_ext_in. intros k Hk.
      apply in_seq in Hk. apply Ew. lia.
    + rewrite (sum_upto_ext _ _ (λ _, alpha s)) by exact Ew. apply sum_upto_const.
Qed.

(** ** Relabelling forth and back *)

Lemma relabel_labels (s : chain) :
  consistent s → bestPerm s ≡ₚ seq 0 (K cfg) →
  linearGroup (relabel s) = map (relabelled (bestPerm s)) (linearGroup s)
  ∧ bestPermOrder (relabel s)
    = for_range (K cfg) (λ k o, <[bestPerm s !!! k := k]> o) (bestPermOrder s).
Proof.
  intros [Hsh Hlab _] Hp. destruct (relabel_eq s) as [Eid Emove].
  destruct (relabel_cases s) as [Hid|Hmove].
  - rewrite (Eid Hid). simpl. split; [|reflexivity].
    rewrite <- (map_id (linearGroup s)) at 1. apply map_ext_in. intros g Hg.
    apply list_elem_of_In in Hg.
    pose proof (proj1 (list.Forall_forall _ _) Hlab g Hg) as Hr. simpl in Hr.
    unfold relabelled. rewrite Hid by lia. lia.
  - rewrite (Emove Hmove), swap_labels_eq. cbv zeta. simpl. split; [|reflexivity].
    rewrite <- (sh_group _ Hsh). apply (fill_map (relabelled (bestPerm s))).
Qed.

(** X20: relabelling the chain by a permutation of the labels and then by
    the inverse permutation that the first step leaves in [bestPermOrder]
    restores the labels and the four count tensors. *)
Theorem relabel_round_trip (s : chain) (p : list nat) :
  data_ok → consistent s → p ≡ₚ seq 0 (K cfg) →
  let s1 := relabel (set_bestPerm p s) in
  let s2 := relabel (set_bestPerm (bestPermOrder s1) s1) in
  (∀ k, (k < K cfg)%nat → bestPermOrder s1 !!! (p !!! k) = k)
  ∧ linearGroup s1 = map (relabelled p) (linearGroup s)
  ∧ statistics s2 = statistics s.
Proof.
  intros Hdata Hs Hp. cbv zeta.
  set (s0 := set_bestPerm p s).
  assert (Hs0 : consistent s0)
    by (eapply consistent_frame; [..|exact Hs]; reflexivity).
  assert (Hp0 : bestPerm s0 ≡ₚ seq 0 (K cfg)) by exact Hp.
  pose proof (relabel_consistent s0 Hdata Hs0 Hp0) as Hs1.
  destruct (relabel_labels s0 Hs0 Hp0) as [L1 O1].
  change (bestPerm s0) with p in L1, O1.
  change (linearGroup s0) with (linearGroup s) in L1.
  change (bestPermOrder s0) with (bestPermOrder s) in O1.
  destruct (inverse_loop p (bestPermOrder s) (K cfg) Hp
              (sh_bestPermOrder _ (cs_shaped _ Hs))) as (Hol & Hov & Hback & Hoperm).
  set (o := for_range (K cfg) _ (bestPermOrder s)) in *.
  set (s1 := relabel s0) in *. rewrite O1.
  set (s1' := set_bestPerm o s1).
  assert (Hs1' : consistent s1')
    by (eapply consistent_frame; [..|exact Hs1]; reflexivity).
  assert (Hp1 : bestPerm s1' ≡ₚ seq 0 (K cfg)) by exact Hoperm.
  pose proof (relabel_consistent s1' Hdata Hs1' Hp1) as Hs2.
  destruct (relabel_labels s1' Hs1' Hp1) as [L2 _].
  change (bestPerm s1') with o in L2.
  change (linearGroup s1') with (linearGroup s1) in L2.
  split; [exact Hov|]. split; [exact L1|].
  apply counts_of_labels; try assumption.
  rewrite L2, L1, map_map. rewrite <- (map_id (linearGroup s)) at 2.
  apply map_ext_in. intros g Hg. apply list_elem_of_In in Hg.
  pose proof (proj1 (list.Forall_forall _ _) (cs_labels _ Hs) g Hg) as Hr.
  simpl in Hr. unfold relabelled.
  replace (p !!! (g - 1)%nat + 1 - 1)%nat with (p !!! (g - 1)%nat) by lia.
  rewrite Hov by lia. lia.
Qed.

(** ** The Q matrices at the end of the run *)

Lemma for_range_const_add {A} (F : A → A) (m1 m2 : nat) (x : A) :
  for_range (m1 + m2) (λ _, F) x = for_range m2 (λ _, F) (for_range m1 (λ _, F) x).
Proof.
  induction m2 as [|m2 IH].
  - rewrite Nat.add_0_r, for_range_0. reflexivity.
  - rewrite Nat.add_succ_r, !for_range_S, IH. reflexivity.
Qed.

Lemma for_range_const_nested {A} (F : A → A) (a b : nat) (x : A) :
  for_range a (λ _, for_range b (λ _, F)) x = for_range (a * b) (λ _, F) x.
Proof.
  induction a as [|a IH]; [reflexivity|].
  rewrite for_range_S, IH. simpl. rewrite Nat.add_comm. symmetry.
  apply for_range_const_add.
Qed.

Lemma set_Qmatrix_gene_same (s : chain) : set_Qmatrix_gene (Qmatrix_gene s) s = s.
Proof. destruct s; reflexivity. Qed.
Lemma set_Qmatrix_ind_same (s : chain) : set_Qmatrix_ind (Qmatrix_ind s) s = s.
Proof. destruct s; reflexivity. Qed.
Lemma set_Qmatrix_pop_same (s : chain) : set_Qmatrix_pop (Qmatrix_pop s) s = s.
Proof. destruct s; reflexivity. Qed.

(** The gene level: the first loop of the block. *)
Lemma finish_gene (s : chain) :
  data_ok → rows (geneCopies cfg) (K cfg) (Qmatrix_gene s) →
  let r :=
    for_copies (λ ind l p s,
        let s := next_copy s in
        for_range (K cfg) (λ k s,
          set_Qmatrix_gene
            (set2 (gidx s) k
               (xexp (xsub (at2 (logQmatrix_gene s) (gidx s) k)
                        (xlog (INR (samples cfg)))))
               (Qmatrix_gene s)) s) s)
      (set_groupIndex (-1) s) in
  r = set_Qmatrix_gene (Qmatrix_gene r)
        (set_groupIndex (Z.of_nat (geneCopies cfg) - 1) s)
  ∧ rows (geneCopies cfg) (K cfg) (Qmatrix_gene r)
  ∧ ∀ g k, (g < geneCopies cfg)%nat → (k < K cfg)%nat →
      at2 (Qmatrix_gene r) g k
      = xexp (xsub (at2 (logQmatrix_gene s) g k) (xlog (INR (samples cfg)))).
Proof.
  intros Hdata Hr. cbv zeta.
  assert (HG : geneCopies cfg = length copies) by apply Hdata.
  set (r := for_copies _ _).
  pose (P := λ (t : nat) (x : chain),
    x = set_Qmatrix_gene (Qmatrix_gene x) (set_groupIndex (Z.of_nat t - 1) s)
    ∧ rows (geneCopies cfg) (K cfg) (Qmatrix_gene x)
    ∧ ∀ g k, (g < geneCopies cfg)%nat → (k < K cfg)%nat →
        at2 (Qmatrix_gene x) g k
        = if decide (g < t)%nat
          then xexp (xsub (at2 (logQmatrix_gene s) g k) (xlog (INR (samples cfg))))
          else at2 (Qmatrix_gene s) g k).
  assert (HP : P (length copies) r).
  { unfold r. apply (for_copies_ind P); unfold P; clear P.
    - split; [destruct s; reflexivity|]. split; [exact Hr|].
      intros g k _ _. rewrite decide_False by lia. reflexivity.
    - intros t ind l p x Hc (Ex & Rx & Hv).
      pose proof (lookup_lt_Some _ _ _ Hc) as Ht. cbv zeta.
      assert (Eg : groupIndex x = (Z.of_nat t - 1)%Z) by (rewrite Ex; reflexivity).
      assert (Egi : gidx (next_copy x) = t) by (unfold gidx, next_copy; simpl; lia).
      assert (Elq : logQmatrix_gene x = logQmatrix_gene s) by (rewrite Ex; reflexivity).
      rewrite (for_range_lens set_Qmatrix_gene Qmatrix_gene (next_copy x)
                 (λ k M, set2 t k
                           (xexp (xsub (at2 (logQmatrix_gene s) t k)
                                    (xlog (INR (samples cfg))))) M)).
      + destruct (row_loop
                    (λ k _, xexp (xsub (at2 (logQmatrix_gene s) t k)
                                    (xlog (INR (samples cfg)))))
                    (geneCopies cfg) (K cfg) t (K cfg) (Qmatrix_gene x) Rx
                    ltac:(lia) (le_n _)) as [R1 Hw].
        change (Qmatrix_gene (next_copy x)) with (Qmatrix_gene x).
        set (M := for_range (K cfg) _ (Qmatrix_gene x)) in *.
        split; [|split; [exact R1|]].
        * change (Qmatrix_gene (set_Qmatrix_gene M (next_copy x))) with M.
          unfold next_copy. rewrite Eg, Ex.
          replace (Z.of_nat t - 1 + 1)%Z with (Z.of_nat (S t) - 1)%Z by lia.
          reflexivity.
        * intros g k Hg Hk. simpl. rewrite (Hw g k Hg Hk), (Hv g k Hg Hk).
          destruct (decide (g = t ∧ (k < K cfg)%nat)) as [[-> _]|Hn].
          -- rewrite decide_True by lia. reflexivity.
          -- destruct (decide (g < t)%nat).
             ++ rewrite decide_True by lia. reflexivity.
             ++ rewrite decide_False by lia. reflexivity.
      + apply set_Qmatrix_gene_same.
      + intros k M _. unfold gidx. simpl.
        change (Z.to_nat (groupIndex x + 1)) with (gidx (next_copy x)).
        rewrite Egi, Elq. reflexivity. }
  unfold P in HP. clear P. destruct HP as (Er & Rr & Hv). rewrite HG at 1.
  split; [exact Er|]. split; [exact Rr|].
  intros g k Hg Hk. rewrite (Hv g k Hg Hk), decide_True by lia. reflexivity.
Qed.

Lemma xsum_upto_S (m : nat) (f : nat → xreal) (init : xreal) :
  xsum_upto (S m) f init = xadd (xsum_upto m f init) (f m).
Proof. unfold xsum_upto. rewrite for_range_S. reflexivity. Qed.

(** One gene copy added to the row of its individual. *)
Lemma ind_add_step (ind : nat) (x : chain) :
  rows (n cfg) (K cfg) (Qmatrix_ind x) → (ind < n cfg)%nat →
  let y :=
    for_range (K cfg) (λ k s,
      set_Qmatrix_ind
        (alter2 (λ q, xadd q (at2 (Qmatrix_gene s) (gidx s) k)) ind k
           (Qmatrix_ind s)) s) (next_copy x) in
  y = set_Qmatrix_ind (Qmatrix_ind y) (next_copy x)
  ∧ rows (n cfg) (K cfg) (Qmatrix_ind y)
  ∧ ∀ i k, (i < n cfg)%nat → (k < K cfg)%nat →
      at2 (Qmatrix_ind y) i k
      = if decide (i = ind)
        then xadd (at2 (Qmatrix_ind x) i k)
               (at2 (Qmatrix_gene x) (gidx (next_copy x)) k)
        else at2 (Qmatrix_ind x) i k.
Proof.
  intros Hr Hi. cbv zeta.
  rewrite (for_range_lens set_Qmatrix_ind Qmatrix_ind (next_copy x)
             (λ k M, alter2 (λ q, xadd q (at2 (Qmatrix_gene x) (gidx (next_copy x)) k))
                       ind k M));
    [|apply set_Qmatrix_ind_same|reflexivity].
  destruct (alter2_loop
              (λ k q, xadd q (at2 (Qmatrix_gene x) (gidx (next_copy x)) k))
              (n cfg) (K cfg) ind (K cfg) (Qmatrix_ind x) Hr Hi (le_n _)) as [R1 V1].
  change (Qmatrix_ind (next_copy x)) with (Qmatrix_ind x).
  set (M := for_range (K cfg) _ (Qmatrix_ind x)) in *.
  split; [reflexivity|]. split; [exact R1|].
  intros i k Hi' Hk. simpl. rewrite (V1 i k Hi' Hk).
  destruct (decide (i = ind)) as [->|Hn].
  - rewrite decide_True by lia. reflexivity.
  - rewrite decide_False by lia. reflexivity.
Qed.

(** The gene copies of one individual added to its row. *)
Lemma ind_add_loop (ind c : nat) (x : chain) :
  rows (n cfg) (K cfg) (Qmatrix_ind x) → (ind < n cfg)%nat → (-1 ≤ groupIndex x)%Z →
  let t0 := Z.to_nat (groupIndex x + 1) in
  let y :=
    for_range c (λ _ s,
      let s := next_copy s in
      for_range (K cfg) (λ k s,
        set_Qmatrix_ind
          (alter2 (λ q, xadd q (at2 (Qmatrix_gene s) (gidx s) k)) ind k
             (Qmatrix_ind s)) s) s) x in
  y = set_Qmatrix_ind (Qmatrix_ind y) (set_groupIndex (groupIndex x + Z.of_nat c) x)
  ∧ rows (n cfg) (K cfg) (Qmatrix_ind y)
  ∧ ∀ i k, (i < n cfg)%nat → (k < K cfg)%nat →
      at2 (Qmatrix_ind y) i k
      = if decide (i = ind)
        then xsum_upto c (λ j, at2 (Qmatrix_gene x) (t0 + j) k)
               (at2 (Qmatrix_ind x) i k)
        else at2 (Qmatrix_ind x) i k.
Proof.
  intros Hr Hi Hg. cbv zeta. induction c as [|c IH].
  - rewrite for_range_0. split; [|split; [exact Hr|]].
    + replace (groupIndex x + Z.of_nat 0)%Z with (groupIndex x) by lia.
      destruct x; reflexivity.
    + intros i k _ _. destruct (decide (i = ind)); reflexivity.
  - rewrite for_range_S. destruct IH as (Ey & Ry & Vy).
    set (y := for_range c _ x) in *.
    pose proof (ind_add_step ind y Ry Hi) as Hz. cbv beta zeta in Hz. cbv beta zeta.
    match goal with |- ?z = _ ∧ _ => set (zz := z) in * end.
    destruct Hz as (Ez & Rz & Vz).
    assert (Egy : groupIndex y = (groupIndex x + Z.of_nat c)%Z)
      by (rewrite Ey; reflexivity).
    assert (EGy : Qmatrix_gene y = Qmatrix_gene x) by (rewrite Ey; reflexivity).
    split; [|split; [exact Rz|]].
    + rewrite Ez. unfold next_copy. rewrite Egy, Ey. simpl.
      replace (groupIndex x + Z.of_nat c + 1)%Z
        with (groupIndex x + Z.of_nat (S c))%Z by lia.
      reflexivity.
    + intros i k Hi' Hk. rewrite (Vz i k Hi' Hk), (Vy i k Hi' Hk).
      destruct (decide (i = ind)) as [->|Hn]; [|reflexivity].
      rewrite xsum_upto_S, EGy. unfold gidx, next_copy. simpl. rewrite Egy.
      replace (Z.to_nat (groupIndex x + Z.of_nat c + 1))
        with (Z.to_nat (groupIndex x + 1) + c)%nat by lia.
      reflexivity.
Qed.

Lemma first_copy_S (i : nat) :
  first_copy (S i) = (first_copy i + loci cfg * (ploidy_vec cfg !!! i))%nat.
Proof. unfold first_copy. rewrite for_range_S. reflexivity. Qed.

(** The individual level: the second loop of the block. *)
Lemma finish_ind (x0 : chain) :
  rows (n cfg) (K cfg) (Qmatrix_ind x0) → groupIndex x0 = (-1)%Z →
  let r :=
    for_range (n cfg) (λ ind s,
      let s :=
        for_range (loci cfg) (λ l,
          for_range (ploidy_vec cfg !!! ind) (λ p s,
            let s := next_copy s in
            for_range (K cfg) (λ k s,
              set_Qmatrix_ind
                (alter2 (λ q, xadd q (at2 (Qmatrix_gene s) (gidx s) k)) ind k
                   (Qmatrix_ind s)) s) s)) s in
      for_range (K cfg) (λ k s,
        set_Qmatrix_ind
          (alter2 (λ q, xdiv q (INR (ploidy_vec cfg !!! ind * loci cfg))) ind k
             (Qmatrix_ind s)) s) s) x0 in
  r = set_Qmatrix_ind (Qmatrix_ind r)
        (set_groupIndex (Z.of_nat (first_copy (n cfg)) - 1) x0)
  ∧ rows (n cfg) (K cfg) (Qmatrix_ind r)
  ∧ ∀ i k, (i < n cfg)%nat → (k < K cfg)%nat →
      at2 (Qmatrix_ind r) i k
      = xdiv (xsum_upto (loci cfg * (ploidy_vec cfg !!! i))
                (λ c, at2 (Qmatrix_gene x0) (first_copy i + c) k)
                (at2 (Qmatrix_ind x0) i k))
          (INR (ploidy_vec cfg !!! i * loci cfg)).
Proof.
  intros Hr Hg0. cbv zeta.
  set (r := for_range (n cfg) _ x0).
  pose (P := λ (m : nat) (x : chain),
    x = set_Qmatrix_ind (Qmatrix_ind x)
          (set_groupIndex (Z.of_nat (first_copy m) - 1) x0)
    ∧ rows (n cfg) (K cfg) (Qmatrix_ind x)
    ∧ ∀ i k, (i < n cfg)%nat → (k < K cfg)%nat →
        at2 (Qmatrix_ind x) i k
        = if decide (i < m)%nat
          then xdiv (xsum_upto (loci cfg * (ploidy_vec cfg !!! i))
                       (λ c, at2 (Qmatrix_gene x0) (first_copy i + c) k)
                       (at2 (Qmatrix_ind x0) i k))
                 (INR (ploidy_vec cfg !!! i * loci cfg))
          else at2 (Qmatrix_ind x0) i k).
  assert (HP : P (n cfg) r).
  { unfold r. apply (for_range_ind P); unfold P; clear P.
    - split; [|split; [exact Hr|]].
      + change (Z.of_nat (first_copy 0) - 1)%Z with (-1)%Z. rewrite <- Hg0.
        destruct x0; reflexivity.
      + intros i k _ _. rewrite decide_False by lia. reflexivity.
    - intros ind x Hind (Ex & Rx & Vx). cbv zeta.
      rewrite (for_range_const_nested
                 (λ s, let s := next_copy s in
                       for_range (K cfg) (λ k s,
                         set_Qmatrix_ind
                           (alter2 (λ q, xadd q (at2 (Qmatrix_gene s) (gidx s) k))
                              ind k (Qmatrix_ind s)) s) s)
                 (loci cfg) (ploidy_vec cfg !!! ind) x).
      assert (Egx : groupIndex x = (Z.of_nat (first_copy ind) - 1)%Z)
        by (rewrite Ex; reflexivity).
      assert (EGx : Qmatrix_gene x = Qmatrix_gene x0) by (rewrite Ex; reflexivity).
      pose proof (ind_add_loop ind (loci cfg * (ploidy_vec cfg !!! ind)) x Rx Hind
                    ltac:(lia)) as Hy.
      cbv beta zeta in Hy.
      set (y := for_range (loci cfg * (ploidy_vec cfg !!! ind)) _ x) in *.
      destruct Hy as (Ey & Ry & Vy).
      rewrite (for_range_lens set_Qmatrix_ind Qmatrix_ind y
                 (λ k M, alter2
                           (λ q, xdiv q (INR (ploidy_vec cfg !!! ind * loci cfg)))
                           ind k M));
        [|apply set_Qmatrix_ind_same|reflexivity].
      destruct (alter2_loop
                  (λ k q, xdiv q (INR (ploidy_vec cfg !!! ind * loci cfg)))
                  (n cfg) (K cfg) ind (K cfg) (Qmatrix_ind y) Ry Hind (le_n _))
        as [R1 V1].
      set (M := for_range (K cfg) _ (Qmatrix_ind y)) in *.
      split; [|split; [exact R1|]].
      + change (Qmatrix_ind (set_Qmatrix_ind M y)) with M.
        rewrite Ey, Egx, Ex. simpl. rewrite first_copy_S.
        replace (Z.of_nat (first_copy ind) - 1
                 + Z.of_nat (loci cfg * (ploidy_vec cfg !!! ind)))%Z
          with (Z.of_nat (first_copy ind + loci cfg * (ploidy_vec cfg !!! ind)) - 1)%Z
          by lia.
        reflexivity.
      + intros i k Hi Hk. simpl.
        rewrite (V1 i k Hi Hk), (Vy i k Hi Hk), (Vx i k Hi Hk).
        destruct (decide (i = ind)) as [->|Hn].
        * rewrite decide_True by lia. rewrite decide_False by lia.
          rewrite decide_True by lia. rewrite EGx, Egx.
          replace (Z.to_nat (Z.of_nat (first_copy ind) - 1 + 1)) with (first_copy ind)
            by lia.
          reflexivity.
        * rewrite decide_False by lia. destruct (decide (i < ind)%nat).
          -- rewrite decide_True by lia. reflexivity.
          -- rewrite decide_False by lia. reflexivity. }
  unfold P in HP. clear P. destruct HP as (Er & Rr & Vr).
  split; [exact Er|]. split; [exact Rr|].
  intros i k Hi Hk. rewrite (Vr i k Hi Hk), decide_True by lia. reflexivity.
Qed.

(** A double loop that rewrites every entry of a matrix with [alter2]. *)
Lemma alter2_all {A} `{Inhabited A} (f : nat → A → A) (a b : nat) (M : list (list A)) :
  rows a b M →
  let r := for_range a (λ i, for_range b (λ k M, alter2 (f i) i k M)) M in
  rows a b r ∧ ∀ i k, (i < a)%nat → (k < b)%nat → at2 r i k = f i (at2 M i k).
Proof.
  intros HM. cbv zeta.
  pose (P := λ (m : nat) (r : list (list A)),
    rows a b r
    ∧ ∀ i k, (i < a)%nat → (k < b)%nat →
        at2 r i k = if decide (i < m)%nat then f i (at2 M i k) else at2 M i k).
  assert (HP : P a (for_range a (λ i, for_range b (λ k M, alter2 (f i) i k M)) M)).
  { apply (for_range_ind P); unfold P; clear P.
    - split; [exact HM|]. intros i k _ _. rewrite decide_False by lia. reflexivity.
    - intros i r Hi [Rr Vr].
      destruct (alter2_loop (λ _, f i) a b i b r Rr Hi (le_n _)) as [R1 V1].
      split; [exact R1|]. intros i' k Hi' Hk.
      rewrite (V1 i' k Hi' Hk), (Vr i' k Hi' Hk).
      destruct (decide (i' = i)) as [->|Hn].
      + rewrite decide_True by lia. rewrite decide_False by lia.
        rewrite decide_True by lia. reflexivity.
      + rewrite decide_False by lia. destruct (decide (i' < i)%nat).
        * rewrite decide_True by lia. reflexivity.
        * rewrite decide_False by lia. reflexivity. }
  unfold P in HP. clear P. destruct HP as [R V]. split; [exact R|].
  intros i k Hi Hk. rewrite (V i k Hi Hk), decide_True by lia. reflexivity.
Qed.

(** The population level: the last two loops of the block. *)
Lemma finish_pop (x0 : chain) :
  rows (uniquePops cfg) (K cfg) (Qmatrix_pop x0) →
  (∀ i, (i < n cfg)%nat → (pop_index cfg !!! i < uniquePops cfg)%nat) →
  let r :=
    for_range (uniquePops cfg) (λ i,
      for_range (K cfg) (λ k s,
        set_Qmatrix_pop
          (alter2 (λ q, xdiv q (INR (uniquePop_counts cfg !!! i))) i k
             (Qmatrix_pop s)) s))
      (for_range (n cfg) (λ i,
         for_range (K cfg) (λ k s,
           set_Qmatrix_pop
             (alter2 (λ q, xadd q (at2 (Qmatrix_ind s) i k)) (pop_index cfg !!! i) k
                (Qmatrix_pop s)) s)) x0) in
  r = set_Qmatrix_pop (Qmatrix_pop r) x0
  ∧ rows (uniquePops cfg) (K cfg) (Qmatrix_pop r)
  ∧ ∀ u k, (u < uniquePops cfg)%nat → (k < K cfg)%nat →
      at2 (Qmatrix_pop r) u k
      = xdiv (xsum_pop u (λ i, at2 (Qmatrix_ind x0) i k) (at2 (Qmatrix_pop x0) u k))
          (INR (uniquePop_counts cfg !!! u)).
Proof.
  intros Hr Hpop. cbv zeta.
  set (x1 := for_range (n cfg) _ x0).
  pose (P := λ (m : nat) (x : chain),
    x = set_Qmatrix_pop (Qmatrix_pop x) x0
    ∧ rows (uniquePops cfg) (K cfg) (Qmatrix_pop x)
    ∧ ∀ u k, (u < uniquePops cfg)%nat → (k < K cfg)%nat →
        at2 (Qmatrix_pop x) u k
        = for_range m (λ i q,
            if decide (pop_index cfg !!! i = u)
            then xadd q (at2 (Qmatrix_ind x0) i k) else q)
            (at2 (Qmatrix_pop x0) u k)).
  assert (HP : P (n cfg) x1).
  { unfold x1. apply (for_range_ind P); unfold P; clear P.
    - split; [symmetry; apply set_Qmatrix_pop_same|]. split; [exact Hr|].
      intros u k _ _. rewrite for_range_0. reflexivity.
    - intros i x Hi (Ex & Rx & Vx).
      assert (EI : Qmatrix_ind x = Qmatrix_ind x0) by (rewrite Ex; reflexivity).
      rewrite (for_range_lens set_Qmatrix_pop Qmatrix_pop x
                 (λ k M, alter2 (λ q, xadd q (at2 (Qmatrix_ind x0) i k))
                           (pop_index cfg !!! i) k M));
        [|apply set_Qmatrix_pop_same|intros k M _; simpl; rewrite EI; reflexivity].
      destruct (alter2_loop (λ k q, xadd q (at2 (Qmatrix_ind x0) i k))
                  (uniquePops cfg) (K cfg) (pop_index cfg !!! i) (K cfg)
                  (Qmatrix_pop x) Rx (Hpop i Hi) (le_n _)) as [R1 V1].
      set (M := for_range (K cfg) _ (Qmatrix_pop x)) in *.
      split; [rewrite Ex; reflexivity|]. split; [exact R1|].
      intros u k Hu Hk. simpl. rewrite (V1 u k Hu Hk), (Vx u k Hu Hk), for_range_S.
      destruct (decide (u = pop_index cfg !!! i)) as [->|Hn].
      + rewrite decide_True by lia. rewrite decide_True by reflexivity. reflexivity.
      + rewrite decide_False by lia. rewrite decide_False by congruence. reflexivity. }
  unfold P in HP. clear P. destruct HP as (E1 & R1 & V1).
  rewrite (for_range_lens set_Qmatrix_pop Qmatrix_pop x1
             (λ i, for_range (K cfg) (λ k M,
                alter2 (λ q, xdiv q (INR (uniquePop_counts cfg !!! i))) i k M)));
    [|apply set_Qmatrix_pop_same|].
  2:{ intros i M _.
      rewrite (for_range_lens set_Qmatrix_pop Qmatrix_pop (set_Qmatrix_pop M x1)
                 (λ k M, alter2 (λ q, xdiv q (INR (uniquePop_counts cfg !!! i))) i k M));
        reflexivity. }
  destruct (alter2_all (λ i q, xdiv q (INR (uniquePop_counts cfg !!! i)))
              (uniquePops cfg) (K cfg) (Qmatrix_pop x1) R1) as [R2 V2].
  set (M := for_range (uniquePops cfg) _ (Qmatrix_pop x1)) in *.
  split; [rewrite E1; reflexivity|]. split; [exact R2|].
  intros u k Hu Hk. simpl. rewrite (V2 u k Hu Hk), (V1 u k Hu Hk). reflexivity.
Qed.

Lemma xexp_sub_log (x : R) (m : nat) :
  (0 < m)%nat → xexp (xsub (Fin x) (xlog (INR m))) = Fin (exp x / INR m).
Proof.
  intros Hm. assert (0 < INR m) by (apply lt_0_INR; lia).
  rewrite xlog_pos by assumption. simpl. f_equal.
  unfold Rdiv. rewrite exp_plus, exp_Ropp, exp_ln by assumption. reflexivity.
Qed.

Lemma finish_Qmatrices_rows (s : chain) :
  data_ok →
  rows (geneCopies cfg) (K cfg) (Qmatrix_gene s) →
  rows (n cfg) (K cfg) (Qmatrix_ind s) →
  rows (uniquePops cfg) (K cfg) (Qmatrix_pop s) →
  (∀ i, (i < n cfg)%nat → (pop_index cfg !!! i < uniquePops cfg)%nat) →
  let s' := finish_Qmatrices s in
  s' = set_Qmatrix_pop (Qmatrix_pop s')
         (set_Qmatrix_ind (Qmatrix_ind s')
            (set_Qmatrix_gene (Qmatrix_gene s')
               (set_groupIndex (Z.of_nat (first_copy (n cfg)) - 1) s)))
  ∧ (∀ g k, (g < geneCopies cfg)%nat → (k < K cfg)%nat →
       at2 (Qmatrix_gene s') g k
       = xexp (xsub (at2 (logQmatrix_gene s) g k) (xlog (INR (samples cfg))))
       ∧ ((0 < samples cfg)%nat → ∀ x, at2 (logQmatrix_gene s) g k = Fin x →
          at2 (Qmatrix_gene s') g k = Fin (exp x / INR (samples cfg))))
  ∧ (∀ i k, (i < n cfg)%nat → (k < K cfg)%nat →
       at2 (Qmatrix_ind s') i k
       = xdiv (xsum_upto (loci cfg * (ploidy_vec cfg !!! i))
                 (λ c, at2 (Qmatrix_gene s') (first_copy i + c) k)
                 (at2 (Qmatrix_ind s) i k))
           (INR (ploidy_vec cfg !!! i * loci cfg)))
  ∧ (if outputQmatrix_pop_on cfg
     then ∀ u k, (u < uniquePops cfg)%nat → (k < K cfg)%nat →
            at2 (Qmatrix_pop s') u k
            = xdiv (xsum_pop u (λ i, at2 (Qmatrix_ind s') i k)
                      (at2 (Qmatrix_pop s) u k))
                (INR (uniquePop_counts cfg !!! u))
     else Qmatrix_pop s' = Qmatrix_pop s).
Proof.
  intros Hdata HG HI HP Hpop. cbv zeta. unfold finish_Qmatrices. cbv zeta.
  destruct (finish_gene s Hdata HG) as (E1 & R1 & V1). cbv zeta in E1, R1, V1.
  set (s1 := for_copies _ _) in *.
  assert (HI1 : rows (n cfg) (K cfg) (Qmatrix_ind (set_groupIndex (-1) s1)))
    by (rewrite E1; exact HI).
  destruct (finish_ind (set_groupIndex (-1) s1) HI1 eq_refl) as (E2 & R2 & V2).
  cbv zeta in E2, R2, V2.
  set (s2 := for_range (n cfg) _ (set_groupIndex (-1) s1)) in *.
  assert (EG2 : Qmatrix_gene s2 = Qmatrix_gene s1) by (rewrite E2; reflexivity).
  assert (EI1 : Qmatrix_ind s1 = Qmatrix_ind s) by (rewrite E1; reflexivity).
  assert (EP2 : Qmatrix_pop s2 = Qmatrix_pop s) by (rewrite E2, E1; reflexivity).
  assert (F2 : s2 = set_Qmatrix_ind (Qmatrix_ind s2)
                      (set_Qmatrix_gene (Qmatrix_gene s2)
                         (set_groupIndex (Z.of_nat (first_copy (n cfg)) - 1) s))).
  { rewrite EG2. rewrite E2 at 1. rewrite E1 at 1. reflexivity. }
  assert (W1 : ∀ g k, (g < geneCopies cfg)%nat → (k < K cfg)%nat →
             at2 (Qmatrix_gene s2) g k
             = xexp (xsub (at2 (logQmatrix_gene s) g k) (xlog (INR (samples cfg))))
             ∧ ((0 < samples cfg)%nat → ∀ x, at2 (logQmatrix_gene s) g k = Fin x →
                at2 (Qmatrix_gene s2) g k = Fin (exp x / INR (samples cfg)))).
  { intros g k Hg Hk. rewrite EG2, (V1 g k Hg Hk). split; [reflexivity|].
    intros HS x ->. apply xexp_sub_log, HS. }
  assert (W2 : ∀ i k, (i < n cfg)%nat → (k < K cfg)%nat →
             at2 (Qmatrix_ind s2) i k
             = xdiv (xsum_upto (loci cfg * (ploidy_vec cfg !!! i))
                       (λ c, at2 (Qmatrix_gene s2) (first_copy i + c) k)
                       (at2 (Qmatrix_ind s) i k))
                 (INR (ploidy_vec cfg !!! i * loci cfg))).
  { intros i k Hi Hk. rewrite (V2 i k Hi Hk), EG2. simpl. rewrite EI1. reflexivity. }
  destruct (outputQmatrix_pop_on cfg).
  - assert (HP2 : rows (uniquePops cfg) (K cfg) (Qmatrix_pop s2))
      by (rewrite EP2; exact HP).
    destruct (finish_pop s2 HP2 Hpop) as (E3 & R3 & V3). cbv zeta in E3, R3, V3.
    set (s3 := for_range (uniquePops cfg) _ _) in *.
    assert (EG3 : Qmatrix_gene s3 = Qmatrix_gene s2) by (rewrite E3; reflexivity).
    assert (EI3 : Qmatrix_ind s3 = Qmatrix_ind s2) by (rewrite E3; reflexivity).
    split; [|split; [|split]].
    + rewrite EG3, EI3. rewrite E3 at 1. rewrite F2 at 1. reflexivity.
    + intros g k Hg Hk. rewrite EG3. apply W1; assumption.
    + intros i k Hi Hk. rewrite EI3, EG3. apply W2; assumption.
    + intros u k Hu Hk. rewrite (V3 u k Hu Hk), EI3, EP2. reflexivity.
  - split; [|split; [|split]].
    + rewrite <- F2. symmetry. apply set_Qmatrix_pop_same.
    + exact W1.
    + exact W2.
    + exact EP2.
Qed.

(** X21: the block that finishes the Q matrices writes [groupIndex],
    [Qmatrix_gene], [Qmatrix_ind] and, when it is asked for, [Qmatrix_pop]:
    an entry of [Qmatrix_gene] is the exponential of the accumulated
    [logQmatrix_gene] minus [log(samples)]; a row of [Qmatrix_ind] is what it
    held plus the rows of [Qmatrix_gene] of the [loci * ploidy] gene copies
    of the individual, divided by their number; a row of [Qmatrix_pop] is
    what it held plus the rows of the individuals of the population,
    divided by [uniquePop_counts]. *)
Theorem finish_Qmatrices_spec (s : chain) :
  data_ok →
  rows (geneCopies cfg) (K cfg) (Qmatrix_gene s) →
  rows (n cfg) (K cfg) (Qmatrix_ind s) →
  rows (uniquePops cfg) (K cfg) (Qmatrix_pop s) →
  (∀ i, (i < n cfg)%nat → (pop_index cfg !!! i < uniquePops cfg)%nat) →
  let s' := finish_Qmatrices s in
  s' = set_Qmatrix_pop (Qmatrix_pop s')
         (set_Qmatrix_ind (Qmatrix_ind s')
            (set_Qmatrix_gene (Qmatrix_gene s')
               (set_groupIndex (Z.of_nat (first_copy (n cfg)) - 1) s)))
  ∧ (∀ g k, (g < geneCopies cfg)%nat → (k < K cfg)%nat →
       at2 (Qmatrix_gene s') g k
       = xexp (xsub (at2 (logQmatrix_gene s) g k) (xlog (INR (samples cfg))))
       ∧ ((0 < samples cfg)%nat → ∀ x, at2 (logQmatrix_gene s) g k = Fin x →
          at2 (Qmatrix_gene s') g k = Fin (exp x / INR (samples cfg))))
  ∧ (∀ i k, (i < n cfg)%nat → (k < K cfg)%nat →
       at2 (Qmatrix_ind s') i k
       = xdiv (xsum_upto (loci cfg * (ploidy_vec cfg !!! i))
                 (λ c, at2 (Qmatrix_gene s') (first_copy i + c) k)
                 (at2 (Qmatrix_ind s) i k))
           (INR (ploidy_vec cfg !!! i * loci cfg)))
  ∧ (if outputQmatrix_pop_on cfg
     then ∀ u k, (u < uniquePops cfg)%nat → (k < K cfg)%nat →
            at2 (Qmatrix_pop s') u k
            = xdiv (xsum_pop u (λ i, at2 (Qmatrix_ind s') i k)
                      (at2 (Qmatrix_pop s) u k))
                (INR (uniquePop_counts cfg !!! u))
     else Qmatrix_pop s' = Qmatrix_pop s).
Proof. exact (finish_Qmatrices_rows s). Qed.

(** ** The gene-level Q matrix of a run *)

(** The accumulator [h <- logSum(h, v)] after [j] values, from [log 0]. *)
Lemma logSum_acc_closed (v : nat → R) (j : nat) :
  (0 < j)%nat →
  for_range j (λ i h, logSum h (Fin (v i))) (xlog 0)
  = Fin (ln (sum_upto j (λ i, exp (v i)))).
Proof.
  intros Hj. induction j as [|j IH]; [lia|].
  rewrite for_range_S, sum_upto_S. destruct j as [|j].
  - rewrite for_range_0, xlog_0, sum_upto_0. simpl.
    rewrite Rplus_0_l, ln_exp. reflexivity.
  - rewrite IH by lia. simpl. rewrite exp_ln; [reflexivity|].
    apply sum_upto_pos; [lia|]. intros i _. apply exp_pos.
Qed.

(** What one iteration with the label alignment does to [logQmatrix_gene]. *)
Lemma mcmc_step_store (d : draws) (b1 b2 : bool) (rep ts ts' : nat) (s s' : chain) :
  data_ok → rows (geneCopies cfg) (K cfg) (logQmatrix_gene s) →
  mcmc_step d b1 b2 true rep (Some (ts, s)) = Some (ts', s') →
  rows (geneCopies cfg) (K cfg) (logQmatrix_gene s')
  ∧ ∀ g k, (g < geneCopies cfg)%nat → (k < K cfg)%nat →
      at2 (logQmatrix_gene s') g k
      = if decide (burnin cfg ≤ rep)%nat
        then logSum (at2 (logQmatrix_gene s) g k)
               (Fin (at2 (logQmatrix_gene_new s') g k))
        else at2 (logQmatrix_gene s) g k.
Proof.
  intros Hdata Hr. unfold mcmc_step. simpl. intros H.
  destruct (for_range ts _ (Some s)) as [x|] eqn:Hx; [|discriminate].
  simpl in H. injection H as _ <-.
  assert (E0 : logQmatrix_gene x = logQmatrix_gene s).
  { revert Hx. generalize x. induction ts as [|m IH]; intros y Hy.
    - rewrite for_range_0 in Hy. injection Hy as <-. reflexivity.
    - rewrite for_range_S in Hy. unfold thin_step at 1 in Hy.
      destruct (for_range m _ (Some s)) as [z|]; [|discriminate]. simpl in Hy.
      destruct (group_update _ z) as [w|] eqn:Hw; [|discriminate]. simpl in Hy.
      injection Hy as <-.
      apply (group_update_keeps logQmatrix_gene) in Hw; try ignored.
      rewrite <- (IH z eq_refl), <- Hw.
      destruct (fixAlpha_on cfg); [reflexivity|].
      apply alpha_update_keeps. ignored. }
  set (x1 := updateQmatrix (chooseBestLabelPermutation (produceQmatrix x))).
  assert (E1 : logQmatrix_gene x1 = logQmatrix_gene s).
  { unfold x1. rewrite updateQmatrix_keeps by ignored.
    rewrite chooseBestLabelPermutation_keeps by ignored.
    rewrite produceQmatrix_keeps by ignored. exact E0. }
  set (x2 := if decide (burnin cfg ≤ rep)%nat then storeQmatrix x1 else x1).
  pose (q := λ y : chain, (logQmatrix_gene y, logQmatrix_gene_new y)).
  set (x3 := d_logLikeGroup x2).
  set (x4 := if b1 then _ else x3).
  set (x5 := if decide (burnin cfg ≤ rep)%nat then _ else x4).
  assert (E5 : q x5 = q x2).
  { assert (E3 : q x3 = q x2) by (apply d_logLikeGroup_keeps; ignored).
    assert (E4 : q x4 = q x3).
    { unfold x4. destruct b1; [|reflexivity].
      rewrite d_logLikeJoint_keeps, drawFreqs_keeps by ignored. reflexivity. }
    unfold x5. destruct (decide _); [|congruence].
    rewrite record_likelihood_keeps by ignored. congruence. }
  unfold q in E5. injection E5 as Ea Eb. rewrite Ea, Eb. unfold x2.
  destruct (decide (burnin cfg ≤ rep)%nat).
  - assert (Hr1 : rows (geneCopies cfg) (K cfg) (logQmatrix_gene x1))
      by (rewrite E1; exact Hr).
    destruct (storeQmatrix_rows x1 Hdata Hr1) as (Es & Rs & Vs). cbv zeta in Es, Rs, Vs.
    split; [exact Rs|]. intros g k Hg Hk.
    rewrite (proj1 (Vs g k Hg Hk)), E1.
    replace (logQmatrix_gene_new (storeQmatrix x1)) with (logQmatrix_gene_new x1)
      by (rewrite Es; reflexivity).
    reflexivity.
  - split; [rewrite E1; exact Hr|]. intros g k _ _. rewrite E1. reflexivity.
Qed.

Lemma mcmc_loop_store (d : draws) (b1 b2 : bool) (s : chain) (m ts : nat) (x : chain) :
  data_ok → rows (geneCopies cfg) (K cfg) (logQmatrix_gene s) →
  for_range m (mcmc_step d b1 b2 true) (Some (1%nat, s)) = Some (ts, x) →
  rows (geneCopies cfg) (K cfg) (logQmatrix_gene x)
  ∧ ∀ g k, (g < geneCopies cfg)%nat → (k < K cfg)%nat →
      at2 (logQmatrix_gene x) g k
      = for_range (m - burnin cfg)
          (λ i h, logSum h (Fin (logQ_trace d b1 b2 s (burnin cfg + i) g k)))
          (at2 (logQmatrix_gene s) g k).
Proof.
  intros Hdata Hr. revert ts x. induction m as [|m IH]; intros ts x H.
  - rewrite for_range_0 in H. injection H as _ <-. split; [exact Hr|].
    intros g k _ _. reflexivity.
  - pose proof H as Hrun. rewrite for_range_S in H.
    destruct (for_range m _ (Some (1%nat, s))) as [[ts0 y]|] eqn:Hy;
      [|rewrite mcmc_step_None in H; discriminate].
    destruct (IH ts0 y eq_refl) as [Ry Vy].
    destruct (mcmc_step_store d b1 b2 m ts0 ts y x Hdata Ry H) as [Rx Vx].
    split; [exact Rx|]. intros g k Hg Hk.
    rewrite (Vx g k Hg Hk), (Vy g k Hg Hk).
    assert (Htr : logQ_trace d b1 b2 s m g k = at2 (logQmatrix_gene_new x) g k)
      by (unfold logQ_trace; rewrite Hrun; reflexivity).
    destruct (decide (burnin cfg ≤ m)%nat) as [Hb|Hb].
    + replace (S m - burnin cfg)%nat with (S (m - burnin cfg)) by lia.
      rewrite for_range_S.
      replace (burnin cfg + (m - burnin cfg))%nat with m by lia.
      rewrite Htr. reflexivity.
    + replace (S m - burnin cfg)%nat with (m - burnin cfg)%nat by lia. reflexivity.
Qed.

Lemma run_Q_rows (d : draws) (b b1 b2 : bool) (us : nat → R)
    (s0 s s' : chain) :
  data_ok → (0 < samples cfg)%nat →
  (∀ i, (i < n cfg)%nat → (pop_index cfg !!! i < uniquePops cfg)%nat) →
  reset b us s0 = Some s →
  perform_MCMC d b1 b2 true s = Some s' →
  (∀ g k, (g < geneCopies cfg)%nat → (k < K cfg)%nat →
     at2 (Qmatrix_gene s') g k
     = Fin (sum_upto (samples cfg)
              (λ i, exp (logQ_trace d b1 b2 s (burnin cfg + i) g k))
            / INR (samples cfg)))
  ∧ (∀ i k, (i < n cfg)%nat → (k < K cfg)%nat →
       at2 (Qmatrix_ind s') i k
       = xdiv (xsum_upto (loci cfg * (ploidy_vec cfg !!! i))
                 (λ c, at2 (Qmatrix_gene s') (first_copy i + c) k) (Fin 0))
           (INR (ploidy_vec cfg !!! i * loci cfg))).
Proof.
  intros Hdata HS Hpop Hreset H.
  unfold reset in Hreset. cbv zeta in Hreset.
  pose proof (reset_tail_keeps reset_Q_members us _ s ltac:(ignored) ltac:(ignored)
                ltac:(ignored) ltac:(ignored) ltac:(ignored) ltac:(ignored) Hreset) as E.
  assert (E' : reset_Q_members s
               = (replicate (geneCopies cfg) (replicate (K cfg) 0),
                  replicate (geneCopies cfg) (replicate (K cfg) 0),
                  replicate (geneCopies cfg) (replicate (K cfg) 0),
                  replicate (geneCopies cfg) (replicate (K cfg) (xlog 0)),
                  replicate (geneCopies cfg) (replicate (K cfg) (Fin 0)),
                  replicate (n cfg) (replicate (K cfg) (Fin 0)),
                  replicate (uniquePops cfg) (replicate (K cfg) (Fin 0))))
    by (rewrite E; destruct b; reflexivity).
  clear E. unfold reset_Q_members in E'. injection E' as _ _ _ ELQ EQG EQI EQP.
  unfold perform_MCMC in H.
  destruct (for_range (burnin cfg + samples cfg) _ (Some (1%nat, s)))
    as [[ts x]|] eqn:Hrun; [|discriminate].
  simpl in H. injection H as <-.
  assert (Hr : rows (geneCopies cfg) (K cfg) (logQmatrix_gene s))
    by (rewrite ELQ; apply rows_replicate).
  destruct (mcmc_loop_store d b1 b2 s _ ts x Hdata Hr Hrun) as [Rx Vx].
  replace (burnin cfg + samples cfg - burnin cfg)%nat with (samples cfg) in Vx by lia.
  pose (q := λ y : chain, (Qmatrix_gene y, Qmatrix_ind y, Qmatrix_pop y)).
  assert (Eq : q x = q s).
  { assert (Hloop : ∀ m ts y,
      for_range m (mcmc_step d b1 b2 true) (Some (1%nat, s)) = Some (ts, y) →
      q y = q s).
    { induction m as [|m IH]; intros ts1 y Hy.
      - rewrite for_range_0 in Hy. injection Hy as _ <-. reflexivity.
      - rewrite for_range_S in Hy.
        destruct (for_range m _ (Some (1%nat, s))) as [[ts0 z]|] eqn:Hz;
          [|rewrite mcmc_step_None in Hy; discriminate].
        apply mcmc_step_split in Hy as (_ & w & -> & Hw).
        rewrite <- (IH ts0 z eq_refl), <- (Hw _ q ltac:(repeat split; ignored)).
        destruct (decide _); [|reflexivity].
        apply record_likelihood_keeps; ignored. }
    apply (Hloop _ ts x Hrun). }
  unfold q in Eq. injection Eq as Eg Ei Ep.
  destruct (finish_Qmatrices_rows x Hdata) as (_ & VG & VI & _).
  - rewrite Eg, EQG. apply rows_replicate.
  - rewrite Ei, EQI. apply rows_replicate.
  - rewrite Ep, EQP. apply rows_replicate.
  - exact Hpop.
  - split; [|intros i k Hi Hk; simpl; rewrite (VI i k Hi Hk), Ei, EQI,
                at2_replicate by assumption; reflexivity].
    intros g k Hg Hk.
    simpl. destruct (VG g k Hg Hk) as [_ VF].
    rewrite (VF HS (ln (sum_upto (samples cfg)
                          (λ i, exp (logQ_trace d b1 b2 s (burnin cfg + i) g k))))).
    + rewrite exp_ln; [reflexivity|].
      apply sum_upto_pos; [exact HS|]. intros i _. apply exp_pos.
    + rewrite (Vx g k Hg Hk), ELQ, at2_replicate by assumption.
      apply logSum_acc_closed, HS.
Qed.

(** X22: in a run of [perform_MCMC] with the label alignment on a chain
    that has been reset, every entry of [Qmatrix_gene] is the mean, over the
    [samples] recorded iterations, of the exponential of the entry of
    [logQmatrix_gene_new] at the end of the iteration, that is of the aligned
    Q matrix of the iteration. *)
Theorem Qmatrix_gene_mean (d : draws) (b b1 b2 : bool) (us : nat → R)
    (s0 s s' : chain) :
  data_ok → (0 < samples cfg)%nat →
  (∀ i, (i < n cfg)%nat → (pop_index cfg !!! i < uniquePops cfg)%nat) →
  reset b us s0 = Some s →
  perform_MCMC d b1 b2 true s = Some s' →
  ∀ g k, (g < geneCopies cfg)%nat → (k < K cfg)%nat →
    at2 (Qmatrix_gene s') g k
    = Fin (sum_upto (samples cfg)
             (λ i, exp (logQ_trace d b1 b2 s (burnin cfg + i) g k))
           / INR (samples cfg)).
Proof.
  intros Hdata HS Hpop Hreset H.
  apply (proj1 (run_Q_rows d b b1 b2 us s0 s s' Hdata HS Hpop Hreset H)).
Qed.

(** ** The options of a run *)

Lemma thin_loop_keeps_run {B} (q : chain → B) (b1 b2 b3 : bool) (d : draws)
    (rep m : nat) (s s' : chain) :
  ignores_run b1 b2 b3 q →
  for_range m (thin_step d rep) (Some s) = Some s' → q s' = q s.
Proof.
  intros ((H1 & H2 & H3 & H4 & H5 & H6 & H7 & H8) & Ha & _).
  revert s'. induction m as [|m IH]; intros s' H.
  - rewrite for_range_0 in H. injection H as <-. reflexivity.
  - rewrite for_range_S in H. unfold thin_step at 1 in H.
    destruct (for_range m _ (Some s)) as [x|]; [|discriminate]. simpl in H.
    destruct (group_update _ x) as [y|] eqn:Hy; [|discriminate]. simpl in H.
    injection H as <-. apply (group_update_keeps q) in Hy; try assumption.
    rewrite <- (IH x eq_refl), <- Hy.
    destruct (fixAlpha_on cfg); [reflexivity|]. apply alpha_update_keeps, Ha. reflexivity.
Qed.

Lemma mcmc_step_keeps_run {B} (q : chain → B) (d : draws) (b1 b2 b3 : bool)
    (rep ts ts' : nat) (s s' : chain) :
  ignores_run b1 b2 b3 q →
  mcmc_step d b1 b2 b3 rep (Some (ts, s)) = Some (ts', s') → q s' = q s.
Proof.
  intros Hq. unfold mcmc_step. simpl. intros H.
  destruct (for_range ts _ (Some s)) as [x|] eqn:Hx; [|discriminate].
  simpl in H. injection H as _ <-.
  pose proof (thin_loop_keeps_run q b1 b2 b3 d rep ts s x Hq Hx) as E0.
  destruct Hq as ((H1 & H2 & H3 & H4 & H5 & H6 & H7 & H8) & Ha & HL & HF & HS
                  & (L1 & L2 & L3 & L4)).
  set (x1 := if b3 then _ else x).
  assert (E1 : q x1 = q s).
  { unfold x1. destruct b3; [|exact E0]. rewrite <- E0.
    destruct (HL eq_refl) as ((G1 & G2 & G3 & G4 & G5) & (G6 & G7 & G8) & _).
    destruct (decide _);
      rewrite ?storeQmatrix_keeps, updateQmatrix_keeps,
        chooseBestLabelPermutation_keeps, produceQmatrix_keeps by assumption;
      reflexivity. }
  set (x2 := d_logLikeGroup x1).
  assert (E2 : q x2 = q s) by (unfold x2; rewrite d_logLikeGroup_keeps; assumption).
  set (x3 := if b1 then _ else x2).
  assert (E3 : q x3 = q s).
  { unfold x3. destruct b1; [|exact E2].
    destruct (HF eq_refl) as (F1 & F2 & F3 & _).
    rewrite d_logLikeJoint_keeps, drawFreqs_keeps by assumption. exact E2. }
  destruct (decide _); [|exact E3]. rewrite <- E3.
  unfold record_likelihood. cbv zeta.
  set (y1 := set_logLikeGroup_sumSquared _ (set_logLikeGroup_sum _ x3)).
  assert (Ey1 : q y1 = q x3) by (unfold y1; rewrite (L3 _ _), (L2 _ _); reflexivity).
  set (y2 := if b2 then _ else y1).
  assert (Ey2 : q y2 = q x3).
  { unfold y2. destruct b2; [|exact Ey1]. rewrite (HS eq_refl _ _). exact Ey1. }
  set (y3 := set_harmonic _ y2).
  assert (Ey3 : q y3 = q x3) by (unfold y3; rewrite (L4 _ _); exact Ey2).
  destruct b1; [|exact Ey3].
  destruct (HF eq_refl) as (_ & _ & _ & F4 & F5).
  rewrite (F5 _ _), (F4 _ _). exact Ey3.
Qed.

Lemma perform_MCMC_keeps_run {B} (q : chain → B) (d : draws) (b1 b2 b3 : bool)
    (s s' : chain) :
  ignores_run b1 b2 b3 q →
  perform_MCMC d b1 b2 b3 s = Some s' → q s' = q s.
Proof.
  intros Hq H. unfold perform_MCMC in H.
  destruct (for_range (burnin cfg + samples cfg) _ (Some (1%nat, s)))
    as [[ts x]|] eqn:Hrun; [|discriminate].
  simpl in H. injection H as <-.
  assert (Hloop : ∀ m ts y,
    for_range m (mcmc_step d b1 b2 b3) (Some (1%nat, s)) = Some (ts, y) → q y = q s).
  { induction m as [|m IH]; intros ts1 y Hy.
    - rewrite for_range_0 in Hy. injection Hy as _ <-. reflexivity.
    - rewrite for_range_S in Hy.
      destruct (for_range m _ (Some (1%nat, s))) as [[ts0 z]|] eqn:Hz;
        [|rewrite mcmc_step_None in Hy; discriminate].
      apply (mcmc_step_keeps_run q) in Hy; [|exact Hq].
      rewrite Hy. apply (IH ts0 z eq_refl). }
  rewrite <- (Hloop _ ts x Hrun).
  destruct Hq as ((H1 & _) & _ & HL & _ & _ & (_ & _ & _ & L4)).
  rewrite (L4 _ _). destruct b3; [|reflexivity].
  destruct (HL eq_refl) as (_ & _ & (G1 & G2 & G3)).
  apply finish_Qmatrices_keeps; assumption.
Qed.

(** X23: the options of [perform_MCMC] switch off whole groups of writes:
    without the label alignment no Q matrix and no member of the solver is
    written; without the draw of the frequencies the frequencies, the joint
    likelihood and its sums are not written; the store of the likelihood is
    written only when asked for; [alpha] is not written when it is fixed. *)
Theorem perform_MCMC_options (d : draws) (b1 b2 b3 : bool) (s s' : chain) :
  perform_MCMC d b1 b2 b3 s = Some s' →
  (b3 = false → Q_members s' = Q_members s ∧ solver_members s' = solver_members s)
  ∧ (b1 = false → joint_members s' = joint_members s)
  ∧ (b2 = false → logLikeGroup_store s' = logLikeGroup_store s)
  ∧ (fixAlpha_on cfg = true → alpha s' = alpha s).
Proof.
  intros H. split; [|split; [|split]].
  - intros ->. split.
    + apply (perform_MCMC_keeps_run Q_members d b1 b2 false s s'); [|exact H].
      repeat split; try ignored; intros; try discriminate; ignored.
    + apply (perform_MCMC_keeps_run solver_members d b1 b2 false s s'); [|exact H].
      repeat split; try ignored; intros; try discriminate; ignored.
  - intros ->.
    apply (perform_MCMC_keeps_run joint_members d false b2 b3 s s'); [|exact H].
    repeat split; try ignored; intros; try discriminate; ignored.
  - intros ->.
    apply (perform_MCMC_keeps_run logLikeGroup_store d b1 false b3 s s'); [|exact H].
    repeat split; try ignored; intros; try discriminate; ignored.
  - intros Hfix.
    apply (perform_MCMC_keeps_run alpha d b1 b2 b3 s s'); [|exact H].
    repeat split; try ignored; intros; try congruence; ignored.
Qed.

(** X24: at [beta = 1] the weights that [group_update] computes for a gene
    copy are those that [produceQmatrix] computes on the same counts: the
    two functions leave the same [probVec] and [probVecSum]. *)
Theorem weights_at_beta_one (ind l p : nat) (s : chain) :
  beta cfg = 1 → group_probs ind l p s = Q_probs ind l p s.
Proof.
  intros Hb. unfold group_probs, Q_probs. apply for_range_ext. intros k x _.
  destruct (decide (datum ind l p = 0%nat)); [reflexivity|].
  rewrite decide_False by (intros Hn; apply Hn, Hb). reflexivity.
Qed.

(** ** The rows of the final gene-level Q matrix *)

Lemma sum_upto_plus (m : nat) (u v : nat → R) :
  sum_upto m (λ j, u j + v j) = sum_upto m u + sum_upto m v.
Proof.
  induction m as [|m IH]; [rewrite !sum_upto_0; lra|].
  rewrite !sum_upto_S, IH. lra.
Qed.

Lemma sum_upto_swap (a b : nat) (f : nat → nat → R) :
  sum_upto a (λ i, sum_upto b (λ j, f i j))
  = sum_upto b (λ j, sum_upto a (λ i, f i j)).
Proof.
  induction a as [|a IH].
  - rewrite sum_upto_0. rewrite (sum_upto_ext b _ (λ _, 0)) by reflexivity.
    rewrite sum_upto_const. lra.
  - rewrite sum_upto_S, IH.
    rewrite (sum_upto_ext b (λ j, sum_upto (S a) (λ i, f i j))
               (λ j, sum_upto a (λ i, f i j) + f a j))
      by (intros j _; apply (sum_upto_S a (λ i, f i j))).
    rewrite sum_upto_plus. reflexivity.
Qed.

(** Every row of the Q matrix of the iteration is a probability vector
    whose logarithm is in [logQmatrix_gene_new]. *)
Lemma produced_rows (x : chain) :
  data_ok → 0 < lambda cfg → 0 < alpha x → consistent x → Q_shaped x →
  let y := produceQmatrix x in
  Q_shaped y
  ∧ ∀ g, (g < geneCopies cfg)%nat →
      (∀ k, (k < K cfg)%nat →
         0 < at2 (Qmatrix_gene_new y) g k
         ∧ at2 (logQmatrix_gene_new y) g k = ln (at2 (Qmatrix_gene_new y) g k))
      ∧ sum_upto (K cfg) (λ k, at2 (Qmatrix_gene_new y) g k) = 1.
Proof.
  intros Hdata Hlam Ha Hs HQ. cbv zeta.
  destruct (produceQmatrix_rows x Hdata (cs_shaped _ Hs) HQ) as [HQ' Hv].
  cbv zeta in HQ', Hv. split; [exact HQ'|]. intros g Hg.
  assert (HG : geneCopies cfg = length copies) by apply Hdata.
  destruct (lookup_lt_is_Some_2 copies g ltac:(lia)) as [[[ind l] p] Hc].
  pose proof (copies_bounds _ _ _ _ Hc) as (Hind & Hl & Hp).
  pose proof (data_ok_lookup _ _ _ _ Hdata Hc) as Hd.
  assert (HK : (0 < K cfg)%nat).
  { destruct Hs as [Hsh Hlab _].
    pose proof (Forall_lookup_total_1 _ _ g Hlab) as Hlg. simpl in Hlg.
    rewrite (sh_group _ Hsh) in Hlg. specialize (Hlg Hg). lia. }
  assert (Hw : ∀ k, (k < K cfg)%nat → 0 < Q_weight ind l p x k).
  { intros k Hk. apply Q_weight_pos; try assumption. apply consistent_nonneg, Hs. }
  assert (HS : 0 < sum_upto (K cfg) (Q_weight ind l p x))
    by (apply sum_upto_pos; assumption).
  split.
  - intros k Hk. destruct (Hv g ind l p k Hc Hk) as [V1 V2]. split; [|exact V2].
    rewrite V1. apply Rdiv_lt_0_compat; [apply Hw, Hk | exact HS].
  - rewrite (sum_upto_ext _ _ (λ k, Q_weight ind l p x k
                                    / sum_upto (K cfg) (Q_weight ind l p x)))
      by (intros k Hk; apply (Hv g ind l p k Hc Hk)).
    rewrite sum_upto_div. field. lra.
Qed.

(** The alignment permutes the rows of [logQmatrix_gene_new], which are
    still the logarithms of probability vectors. *)
Lemma aligned_rows (x : chain) :
  hungarian_permutes → shaped x → Q_shaped x →
  (∀ g, (g < geneCopies cfg)%nat →
     (∀ k, (k < K cfg)%nat →
        0 < at2 (Qmatrix_gene_new x) g k
        ∧ at2 (logQmatrix_gene_new x) g k = ln (at2 (Qmatrix_gene_new x) g k))
     ∧ sum_upto (K cfg) (λ k, at2 (Qmatrix_gene_new x) g k) = 1) →
  let y := chooseBestLabelPermutation x in
  Q_shaped y
  ∧ ∀ g, (g < geneCopies cfg)%nat →
      sum_upto (K cfg) (λ k, exp (at2 (logQmatrix_gene_new y) g k)) = 1.
Proof.
  intros Hh [H1 H2 H3 H4 H5 H6 H7 H8] [HQn HQ] Hrow. cbv zeta.
  unfold chooseBestLabelPermutation. cbv zeta.
  destruct (fill_costMat_spec x H7) as [Hrows _].
  rewrite fill_costMat_eq in *. simpl in Hrows.
  set (C := for_range (K cfg) _ (costMat x)) in *.
  set (s1 := set_costMat C x).
  set (p := hungarian (costMat s1)).
  set (s2 := set_bestPerm p s1).
  pose proof (Hh C Hrows) as Hp. change (hungarian C) with p in Hp.
  destruct (inverse_loop p (bestPermOrder x) (K cfg) Hp H8) as (Hol & Hov & Hback & Hoperm).
  destruct (relabel_eq s2) as [Eid Emove].
  change (bestPerm s2) with p in Eid, Emove.
  change (bestPermOrder s2) with (bestPermOrder x) in Eid, Emove.
  set (o := for_range (K cfg) (λ k o, <[p !!! k := k]> o) (bestPermOrder x)) in *.
  assert (Hexp : ∀ g k, (g < geneCopies cfg)%nat → (k < K cfg)%nat →
            exp (at2 (logQmatrix_gene_new x) g k) = at2 (Qmatrix_gene_new x) g k).
  { intros g k Hg Hk. destruct (proj1 (Hrow g Hg) k Hk) as [Hpos ->].
    apply exp_ln, Hpos. }
  destruct (relabel_cases s2) as [Hid|Hmove]; change (bestPerm s2) with p in *.
  - rewrite Eid by exact Hid. simpl. split; [split; assumption|].
    intros g Hg. rewrite <- (proj2 (Hrow g Hg)). apply sum_upto_ext.
    intros k Hk. apply Hexp; assumption.
  - rewrite Emove by exact Hmove. rewrite swap_labels_eq. cbv zeta. simpl.
    destruct (fill2_spec (λ i k _, at2 (logQmatrix_gene_new x) i (o !!! k)) _ _ _ HQ)
      as [R V].
    split; [split; assumption|].
    intros g Hg. rewrite <- (proj2 (Hrow g Hg)).
    rewrite <- (sum_upto_permute o (K cfg) (λ k, at2 (Qmatrix_gene_new x) g k) Hoperm).
    apply sum_upto_ext. intros k Hk. rewrite (V g k Hg Hk).
    apply Hexp; [exact Hg | apply Hback, Hk].
Qed.

Lemma Q_shaped_ext (s s' : chain) :
  (Qmatrix_gene_new s', logQmatrix_gene_new s')
  = (Qmatrix_gene_new s, logQmatrix_gene_new s) →
  Q_shaped s → Q_shaped s'.
Proof.
  intros E [Ha Hb]. injection E as E1 E2. split; [rewrite E1 | rewrite E2]; assumption.
Qed.

(** An iteration with the label alignment. *)
Lemma mcmc_step_Q (d : draws) (b1 b2 : bool) (rep ts : nat) (s : chain) :
  data_ok → hungarian_permutes → 0 < lambda cfg →
  (∀ rep thin g, 0 <= u_group d rep thin g < 1) →
  sound s → Q_shaped s →
  ∃ ts' s', mcmc_step d b1 b2 true rep (Some (ts, s)) = Some (ts', s')
            ∧ sound s' ∧ Q_shaped s'
            ∧ ∀ g, (g < geneCopies cfg)%nat →
                sum_upto (K cfg) (λ k, exp (at2 (logQmatrix_gene_new s') g k)) = 1.
Proof.
  intros Hdata Hh Hlam Hus Hs HQ.
  destruct (mcmc_step_total d b1 b2 true rep ts s Hdata Hh Hlam Hus Hs)
    as (ts' & s' & Hstep & Hs').
  exists ts', s'. split; [exact Hstep|]. split; [exact Hs'|].
  unfold mcmc_step in Hstep. simpl in Hstep.
  destruct (thin_loop_total d rep ts s Hdata Hlam Hus Hs) as (x & Hx & Hcx & Hax).
  rewrite Hx in Hstep. simpl in Hstep. injection Hstep as _ <-.
  pose (q := λ y : chain, (Qmatrix_gene_new y, logQmatrix_gene_new y)).
  assert (E0 : q x = q s).
  { apply (thin_loop_keeps_run q b1 b2 false d rep ts s x); [|exact Hx].
    repeat split; try ignored; intros; try discriminate; ignored. }
  pose proof (Q_shaped_ext s x E0 HQ) as HQx.
  destruct (produced_rows x Hdata Hlam ltac:(lra) Hcx HQx) as [HQ1 Hrow1].
  cbv zeta in HQ1, Hrow1.
  set (x1 := produceQmatrix x) in *.
  assert (Hsh1 : shaped x1).
  { apply (cs_shaped x1). eapply consistent_core; [apply produceQmatrix_core|].
    exact Hcx. }
  destruct (aligned_rows x1 Hh Hsh1 HQ1 Hrow1) as [HQ2 Hrow2]. cbv zeta in HQ2, Hrow2.
  set (x2 := chooseBestLabelPermutation x1) in *.
  set (x3 := updateQmatrix x2).
  set (x4 := if decide (burnin cfg ≤ rep)%nat then storeQmatrix x3 else x3).
  set (x5 := d_logLikeGroup x4).
  set (x6 := if b1 then _ else x5).
  set (x7 := if decide (burnin cfg ≤ rep)%nat then _ else x6).
  assert (E7 : q x7 = q x2).
  { assert (E3 : q x3 = q x2) by (apply updateQmatrix_keeps; ignored).
    assert (E4 : q x4 = q x3).
    { unfold x4. destruct (decide _); [|reflexivity].
      apply storeQmatrix_keeps; ignored. }
    assert (E5 : q x5 = q x4) by (apply d_logLikeGroup_keeps; ignored).
    assert (E6 : q x6 = q x5).
    { unfold x6. destruct b1; [|reflexivity].
      rewrite d_logLikeJoint_keeps, drawFreqs_keeps by ignored. reflexivity. }
    assert (E7 : q x7 = q x6).
    { unfold x7. destruct (decide _); [|reflexivity].
      apply record_likelihood_keeps; ignored. }
    congruence. }
  split; [exact (Q_shaped_ext x2 x7 E7 HQ2)|].
  unfold q in E7. injection E7 as _ ->. exact Hrow2.
Qed.

Lemma mcmc_loop_Q (d : draws) (b1 b2 : bool) (s : chain) (m : nat) :
  data_ok → hungarian_permutes → 0 < lambda cfg →
  (∀ rep thin g, 0 <= u_group d rep thin g < 1) →
  sound s → Q_shaped s →
  ∃ ts x, for_range m (mcmc_step d b1 b2 true) (Some (1%nat, s)) = Some (ts, x)
          ∧ sound x ∧ Q_shaped x
          ∧ ((0 < m)%nat → ∀ g, (g < geneCopies cfg)%nat →
               sum_upto (K cfg) (λ k, exp (at2 (logQmatrix_gene_new x) g k)) = 1).
Proof.
  intros Hdata Hh Hlam Hus Hs HQ. induction m as [|m (ts & x & Hx & Hsx & HQx & _)].
  - exists 1%nat, s. split; [reflexivity|]. split; [exact Hs|]. split; [exact HQ|].
    intros; lia.
  - rewrite for_range_S, Hx.
    destruct (mcmc_step_Q d b1 b2 m ts x Hdata Hh Hlam Hus Hsx HQx)
      as (ts' & x' & Hstep & Hs' & HQ' & Hrow).
    exists ts', x'. split; [exact Hstep|]. split; [exact Hs'|]. split; [exact HQ'|].
    intros _. exact Hrow.
Qed.

(** The entries of the final [Qmatrix_gene] in a run on a reset chain. *)
Lemma gene_row_values (d : draws) (b b1 b2 : bool) (us : nat → R) (s0 s s' : chain) :
  data_ok → hungarian_permutes → 0 < lambda cfg →
  (∀ rep thin g, 0 <= u_group d rep thin g < 1) →
  (0 < samples cfg)%nat →
  (∀ i, (i < n cfg)%nat → (pop_index cfg !!! i < uniquePops cfg)%nat) →
  shaped s0 → 0 < alpha s0 <= 10 →
  reset b us s0 = Some s →
  perform_MCMC d b1 b2 true s = Some s' →
  let Q g k := sum_upto (samples cfg)
                 (λ i, exp (logQ_trace d b1 b2 s (burnin cfg + i) g k))
               / INR (samples cfg) in
  (∀ g k, (g < geneCopies cfg)%nat → (k < K cfg)%nat →
     at2 (Qmatrix_gene s') g k = Fin (Q g k) ∧ 0 < Q g k)
  ∧ ∀ g, (g < geneCopies cfg)%nat → sum_upto (K cfg) (Q g) = 1.
Proof.
  intros Hdata Hh Hlam Hus HS Hpop Hsh0 Ha0 Hreset Hrun. cbv zeta.
  pose proof (reset_consistent b us s0 s Hdata Hsh0 Hreset) as Hc.
  assert (Ha : alpha s = alpha s0).
  { pose proof Hreset as Hr. unfold reset in Hr. cbv zeta in Hr.
    apply (reset_tail_keeps alpha) in Hr; try ignored. rewrite Hr.
    destruct b; reflexivity. }
  assert (HQ : Q_shaped s).
  { pose proof Hreset as Hr. unfold reset in Hr. cbv zeta in Hr.
    apply (reset_tail_keeps (λ y, (Qmatrix_gene_new y, logQmatrix_gene_new y)))
      in Hr; try ignored.
    apply (Q_shaped_ext _ s Hr). destruct b; split; apply rows_replicate. }
  assert (Hs : sound s) by (split; [exact Hc | rewrite Ha; exact Ha0]).
  assert (Htr : ∀ rep g, (g < geneCopies cfg)%nat →
            sum_upto (K cfg) (λ k, exp (logQ_trace d b1 b2 s rep g k)) = 1).
  { intros rep g Hg.
    destruct (mcmc_loop_Q d b1 b2 s (S rep) Hdata Hh Hlam Hus Hs HQ)
      as (ts & x & Hx & _ & _ & Hrow).
    unfold logQ_trace. rewrite Hx. apply Hrow; [lia | exact Hg]. }
  assert (HSr : 0 < INR (samples cfg)) by (apply lt_0_INR; lia).
  split.
  - intros g k Hg Hk. split.
    + apply (proj1 (run_Q_rows d b b1 b2 us s0 s s' Hdata HS Hpop Hreset Hrun));
        assumption.
    + apply Rdiv_lt_0_compat; [|exact HSr].
      apply sum_upto_pos; [exact HS|]. intros i _. apply exp_pos.
  - intros g Hg. rewrite sum_upto_div.
    rewrite <- (sum_upto_swap (samples cfg) (K cfg)
                  (λ i k, exp (logQ_trace d b1 b2 s (burnin cfg + i) g k))).
    rewrite (sum_upto_ext _ _ (λ _, 1)) by (intros i _; apply Htr, Hg).
    rewrite sum_upto_const. field. lra.
Qed.

(** X25: after [reset] and a run of [perform_MCMC] with the label alignment,
    with deviates in [0, 1), [lambda > 0], [alpha] in (0, 10] and a solver
    that returns permutations, every row of [Qmatrix_gene] is a probability
    vector: its entries are finite and positive and they sum to 1. *)
Theorem Qmatrix_gene_rows (d : draws) (b b1 b2 : bool) (us : nat → R)
    (s0 s s' : chain) :
  data_ok → hungarian_permutes → 0 < lambda cfg →
  (∀ rep thin g, 0 <= u_group d rep thin g < 1) →
  (0 < samples cfg)%nat →
  (∀ i, (i < n cfg)%nat → (pop_index cfg !!! i < uniquePops cfg)%nat) →
  shaped s0 → 0 < alpha s0 <= 10 →
  reset b us s0 = Some s →
  perform_MCMC d b1 b2 true s = Some s' →
  ∃ Q : nat → nat → R,
    (∀ g k, (g < geneCopies cfg)%nat → (k < K cfg)%nat →
       at2 (Qmatrix_gene s') g k = Fin (Q g k) ∧ 0 < Q g k)
    ∧ ∀ g, (g < geneCopies cfg)%nat → sum_upto (K cfg) (Q g) = 1.
Proof.
  intros Hdata Hh Hlam Hus HS Hpop Hsh0 Ha0 Hreset Hrun.
  eexists. exact (gene_row_values d b b1 b2 us s0 s s' Hdata Hh Hlam Hus HS Hpop
                    Hsh0 Ha0 Hreset Hrun).
Qed.

Lemma first_copy_mono (i j : nat) : (i ≤ j)%nat → (first_copy i ≤ first_copy j)%nat.
Proof.
  induction 1 as [|j _ IH]; [lia|]. rewrite first_copy_S. lia.
Qed.

Lemma bind_seq_length {A} (f : nat → list A) (m : nat) :
  length (seq 0 m ≫= f) = for_range m (λ i a, a + length (f i))%nat 0%nat.
Proof.
  induction m as [|m IH]; [reflexivity|].
  rewrite seq_S, bind_app, length_app, IH, for_range_S. simpl.
  rewrite app_nil_r. reflexivity.
Qed.

(** The gene copies are counted by [first_copy]. *)
Lemma copies_length : length copies = first_copy (n cfg).
Proof.
  unfold copies, first_copy. rewrite bind_seq_length. apply for_range_ext.
  intros i a _. f_equal. rewrite bind_seq_length.
  generalize (loci cfg). intros m. induction m as [|m IH]; [reflexivity|].
  rewrite for_range_S, IH, bind_seq_length.
  assert (E : for_range (ploidy_vec cfg !!! i)
                (λ p a, (a + length [(i, m, p)])%nat) 0%nat = ploidy_vec cfg !!! i).
  { generalize (ploidy_vec cfg !!! i). intros q. induction q as [|q IHq];
      [reflexivity|]. rewrite for_range_S, IHq. simpl. lia. }
  rewrite E. lia.
Qed.

Lemma xsum_upto_fin (m : nat) (f : nat → xreal) (g : nat → R) (a : R) :
  (∀ c, (c < m)%nat → f c = Fin (g c)) →
  xsum_upto m f (Fin a) = Fin (a + sum_upto m g).
Proof.
  intros H. induction m as [|m IH].
  - unfold xsum_upto. rewrite for_range_0, sum_upto_0, Rplus_0_r. reflexivity.
  - rewrite xsum_upto_S, IH, H, sum_upto_S by (intros; auto with lia). simpl.
    rewrite Rplus_assoc. reflexivity.
Qed.

(** X26: under the same conditions every row of [Qmatrix_ind] of an
    individual with at least one gene copy is a probability vector, the mean
    of the rows of [Qmatrix_gene] of its gene copies; the row of an
    individual without gene copies is not a number. *)
Theorem Qmatrix_ind_rows (d : draws) (b b1 b2 : bool) (us : nat → R)
    (s0 s s' : chain) :
  data_ok → hungarian_permutes → 0 < lambda cfg →
  (∀ rep thin g, 0 <= u_group d rep thin g < 1) →
  (0 < samples cfg)%nat →
  (∀ i, (i < n cfg)%nat → (pop_index cfg !!! i < uniquePops cfg)%nat) →
  shaped s0 → 0 < alpha s0 <= 10 →
  reset b us s0 = Some s →
  perform_MCMC d b1 b2 true s = Some s' →
  ∀ i, (i < n cfg)%nat →
    ((0 < ploidy_vec cfg !!! i * loci cfg)%nat →
     ∃ q : nat → R,
       (∀ k, (k < K cfg)%nat → at2 (Qmatrix_ind s') i k = Fin (q k) ∧ 0 < q k)
       ∧ sum_upto (K cfg) q = 1)
    ∧ ((ploidy_vec cfg !!! i * loci cfg = 0)%nat →
       ∀ k, (k < K cfg)%nat → at2 (Qmatrix_ind s') i k = NaN).
Proof.
  intros Hdata Hh Hlam Hus HS Hpop Hsh0 Ha0 Hreset Hrun i Hi.
  destruct (gene_row_values d b b1 b2 us s0 s s' Hdata Hh Hlam Hus HS Hpop
              Hsh0 Ha0 Hreset Hrun) as [HG Hsum]. cbv zeta in HG, Hsum.
  destruct (run_Q_rows d b b1 b2 us s0 s s' Hdata HS Hpop Hreset Hrun) as [_ HI].
  set (Q := λ g k, sum_upto (samples cfg)
                     (λ i, exp (logQ_trace d b1 b2 s (burnin cfg + i) g k))
                   / INR (samples cfg)) in *.
  set (N := (loci cfg * (ploidy_vec cfg !!! i))%nat).
  assert (Hin : ∀ c, (c < N)%nat → (first_copy i + c < geneCopies cfg)%nat).
  { intros c Hc. rewrite (proj1 Hdata), copies_length.
    pose proof (first_copy_mono (S i) (n cfg) ltac:(lia)) as Hm.
    rewrite first_copy_S in Hm. unfold N in Hc. lia. }
  assert (Hrow : ∀ k, (k < K cfg)%nat →
            at2 (Qmatrix_ind s') i k
            = xdiv (Fin (0 + sum_upto N (λ c, Q (first_copy i + c)%nat k)))
                (INR (ploidy_vec cfg !!! i * loci cfg))).
  { intros k Hk. rewrite (HI i k Hi Hk). fold N. f_equal.
    apply xsum_upto_fin. intros c Hc. apply HG; [apply Hin, Hc | exact Hk]. }
  split.
  - intros HN.
    assert (HNr : 0 < INR (ploidy_vec cfg !!! i * loci cfg)) by (apply lt_0_INR; lia).
    exists (λ k, (0 + sum_upto N (λ c, Q (first_copy i + c)%nat k))
                 / INR (ploidy_vec cfg !!! i * loci cfg)).
    split.
    + intros k Hk. rewrite (Hrow k Hk). simpl. rewrite decide_False by lra.
      split; [reflexivity|]. apply Rdiv_lt_0_compat; [|exact HNr].
      rewrite Rplus_0_l. apply sum_upto_pos; [unfold N; lia|].
      intros c Hc. apply HG; [apply Hin, Hc | exact Hk].
    + rewrite sum_upto_div.
      rewrite (sum_upto_ext _ _ (λ k, sum_upto N (λ c, Q (first_copy i + c)%nat k)))
        by (intros; apply Rplus_0_l).
      rewrite <- (sum_upto_swap N (K cfg) (λ c k, Q (first_copy i + c)%nat k)).
      rewrite (sum_upto_ext _ _ (λ _, 1)) by (intros c Hc; apply Hsum, Hin, Hc).
      rewrite sum_upto_const. unfold N. rewrite (Nat.mul_comm (loci cfg)).
      field. lra.
  - intros HN k Hk. rewrite (Hrow k Hk).
    assert (EN : N = 0%nat) by (unfold N; lia). rewrite EN, sum_upto_0, HN.
    simpl. rewrite decide_True by reflexivity.
    rewrite decide_False by lra. rewrite decide_False by lra. reflexivity.
Qed.

End Chain.

(** ** Statements that compare two configurations *)

(** C4: the proposal is accepted exactly when the uniform deviate is below
    [exp (log_p alpha' - log_p alpha)], with [log_p] the Dirichlet-multinomial
    marginal of the admixture counts; for a deviate in [0,1) this is the
    event of probability [min 1 ratio]; the ratio has no other term, and the
    call does not depend on [beta]. *)
Theorem alpha_update_acceptance (lgamma : R → R) (cfg : config) (proposal u : R)
    (s : chain) :
  let alpha' := reflect_alpha proposal in
  let ratio := exp (log_p lgamma cfg alpha' s - log_p lgamma cfg (alpha s) s) in
  alpha_update lgamma cfg proposal u s
  = (if decide (u < ratio) then set_alpha alpha' s else s)
  ∧ (u < 1 → (u < ratio ↔ u < Rmin 1 ratio))
  ∧ (∀ b, alpha_update lgamma (with_beta b cfg) proposal u s
          = alpha_update lgamma cfg proposal u s).
Proof.
  cbv zeta. split; [apply alpha_update_eq|]. split.
  - intros Hu. unfold Rmin. destruct (Rle_dec _ _); lra.
  - intros b. rewrite !alpha_update_eq. reflexivity.
Qed.

(** ** The small chain *)

Lemma data_ok_ex : data_ok cfg_ex.
Proof. split; [reflexivity|]. repeat constructor. Qed.

Lemma shaped_ex : shaped cfg_ex chain_ex.
Proof.
  constructor; try reflexivity.
  - split; [reflexivity|].
    repeat apply Forall_cons; try apply Forall_nil;
      (split; [reflexivity|]; intros [|l] Hl; [reflexivity | simpl in Hl; lia]).
  - split; [reflexivity | repeat constructor].
  - split; [reflexivity | repeat constructor].
  - split; [reflexivity | repeat constructor].
Qed.

Lemma Q_shaped_ex : Q_shaped cfg_ex chain_ex.
Proof. constructor; (split; [reflexivity | repeat constructor]). Qed.

Lemma consistent_ex : consistent cfg_ex chain_ex.
Proof.
  constructor.
  - exact shaped_ex.
  - repeat constructor.
  - constructor.
    + intros k [|l] j Hk Hl Hj; [|simpl in Hl; lia].
      destruct k as [|[|k]]; [| |simpl in Hk; lia];
        (destruct j as [|[|j]]; [reflexivity | reflexivity | simpl in Hj; lia]).
    + intros k [|l] Hk Hl; [|simpl in Hl; lia].
      destruct k as [|[|k]]; [reflexivity | reflexivity | simpl in Hk; lia].
    + intros [|i] k Hi Hk; [|simpl in Hi; lia].
      destruct k as [|[|k]]; [reflexivity | reflexivity | simpl in Hk; lia].
    + intros [|i] Hi; [reflexivity | simpl in Hi; lia].
Qed.

Lemma hungarian_ok_ex : hungarian_ok hungarian_ex cfg_ex.
Proof.
  intros C _. unfold hungarian_ex, solves, assignment_cost. simpl.
  assert (Hcost : ∀ sigma : list nat,
            sum_upto 2 (λ k, at2 C k (sigma !!! k))
            = at2 C 0 (sigma !!! 0%nat) + at2 C 1 (sigma !!! 1%nat)).
  { intros sigma. unfold sum_upto, sumR. simpl. lra. }
  destruct (decide _) as [Hle|Hgt]; (split; [|intros sigma Hs]).
  - reflexivity.
  - rewrite !Hcost. symmetry in Hs. apply Permutation_length_2_inv in Hs.
    destruct Hs as [->| ->]; simpl; lra.
  - apply perm_swap.
  - rewrite !Hcost. symmetry in Hs. apply Permutation_length_2_inv in Hs.
    destruct Hs as [->| ->]; simpl; lra.
Qed.

Lemma hungarian_permutes_ex : hungarian_permutes hungarian_ex cfg_ex.
Proof. intros C HC. apply hungarian_ok_ex, HC. Qed.

(** ** The theorems at the small chain *)

Lemma lambda_ex_pos : 0 < lambda cfg_ex.
Proof. simpl. lra. Qed.

Lemma alpha_ex_range : 0 < alpha chain_ex <= 10.
Proof. simpl. lra. Qed.

Lemma alpha_ex_pos : 0 < alpha chain_ex.
Proof. simpl. lra. Qed.

Lemma draws_ex_unit (rep thin g : nat) : 0 <= u_group draws_ex rep thin g < 1.
Proof. simpl. lra. Qed.

Lemma group_update_step_witness :
  (data_ok cfg_ex ∧ 0 < lambda cfg_ex ∧ 0 < alpha chain_ex
   ∧ consistent cfg_ex chain_ex
   ∧ copies cfg_ex !! 0%nat = Some (0, 0, 0)%nat
   ∧ groupIndex chain_ex = (Z.of_nat 0 - 1)%Z)
  ∧ let s1 := remove_copy cfg_ex 0 0 0 (next_copy chain_ex) in
    let w := posterior_weight cfg_ex 0 0 0 s1 in
    group_step cfg_ex (λ _, 0) 0 0 0 chain_ex
    = (k ← sample1 (map w (seq 0 2)) (sum_upto 2 w) 0;
       Some (add_copy cfg_ex 0 0 0
               (set_linearGroup (<[0%nat := k]> (linearGroup chain_ex))
                  (set_probVecSum (sum_upto 2 w)
                     (set_probVec (map w (seq 0 2)) s1))))).
Proof.
  split.
  - exact (conj data_ok_ex (conj lambda_ex_pos (conj alpha_ex_pos (conj consistent_ex
             (conj eq_refl eq_refl))))).
  - exact (proj1 (proj2
      (group_update_step cfg_ex (λ _, 0) 0 0 0 0 chain_ex data_ok_ex lambda_ex_pos
         alpha_ex_pos consistent_ex eq_refl eq_refl))).
Defined.

Lemma sufficient_statistics_consistent_witness :
  ∃ s, (data_ok cfg_ex ∧ hungarian_permutes hungarian_ex cfg_ex
        ∧ reachable lgamma_ex hungarian_ex cfg_ex s)
       ∧ stats_consistent cfg_ex s.
Proof.
  destruct (reset_total cfg_ex true (λ _, 0) chain_ex ltac:(simpl; lia)
              (λ _, conj (Rle_refl 0) Rlt_0_1)) as [r Hr].
  assert (Hreach : reachable lgamma_ex hungarian_ex cfg_ex r)
    by (eapply reach_reset; [exact shaped_ex | exact Hr]).
  exists r. split.
  - exact (conj data_ok_ex (conj hungarian_permutes_ex Hreach)).
  - exact (sufficient_statistics_consistent lgamma_ex hungarian_ex cfg_ex r
             data_ok_ex hungarian_permutes_ex Hreach).
Defined.

Lemma chooseBestLabelPermutation_spec_witness :
  (hungarian_ok hungarian_ex cfg_ex ∧ shaped cfg_ex chain_ex ∧ Q_shaped cfg_ex chain_ex)
  ∧ logQmatrix_gene_running (chooseBestLabelPermutation hungarian_ex cfg_ex chain_ex)
    = logQmatrix_gene_running chain_ex.
Proof.
  split.
  - exact (conj hungarian_ok_ex (conj shaped_ex Q_shaped_ex)).
  - apply (chooseBestLabelPermutation_spec hungarian_ex cfg_ex chain_ex
             hungarian_ok_ex shaped_ex Q_shaped_ex).
Defined.

Lemma alpha_update_range_witness :
  0 < alpha chain_ex <= 10
  ∧ 0 < alpha (alpha_update lgamma_ex cfg_ex 12 0 chain_ex) <= 10.
Proof.
  split.
  - exact alpha_ex_range.
  - apply (alpha_update_range lgamma_ex cfg_ex 12 0 chain_ex alpha_ex_range).
Defined.

Lemma produceQmatrix_spec_witness :
  (data_ok cfg_ex ∧ 0 < lambda cfg_ex ∧ 0 < alpha chain_ex
   ∧ consistent cfg_ex chain_ex ∧ Q_shaped cfg_ex chain_ex)
  ∧ sum_upto 2 (λ k, at2 (Qmatrix_gene_new (produceQmatrix cfg_ex chain_ex)) 0 k) = 1.
Proof.
  split.
  - exact (conj data_ok_ex (conj lambda_ex_pos (conj alpha_ex_pos
             (conj consistent_ex Q_shaped_ex)))).
  - apply (proj2 (produceQmatrix_spec cfg_ex chain_ex data_ok_ex lambda_ex_pos
                    alpha_ex_pos consistent_ex Q_shaped_ex) 0%nat 0%nat 0%nat 0%nat
             eq_refl).
Defined.

Lemma logLikeGroup_label_invariant_witness :
  (shaped cfg_ex chain_ex ∧ [1%nat; 0%nat] ≡ₚ seq 0 (K cfg_ex))
  ∧ logLikeGroup
      (d_logLikeGroup lgamma_ex cfg_ex
         (relabel cfg_ex (set_bestPerm [1%nat; 0%nat] chain_ex)))
    = logLikeGroup (d_logLikeGroup lgamma_ex cfg_ex chain_ex).
Proof.
  split.
  - exact (conj shaped_ex (perm_swap 0%nat 1%nat [])).
  - exact (proj1 (logLikeGroup_label_invariant lgamma_ex hungarian_ex cfg_ex chain_ex
                    [1%nat; 0%nat] shaped_ex (perm_swap 0%nat 1%nat []))).
Defined.

Lemma harmonic_mean_evidence_witness :
  ∃ s',
    ((0 < samples cfg_ex)%nat ∧ harmonic chain_ex = xlog 0
     ∧ perform_MCMC lgamma_ex hungarian_ex cfg_ex draws_ex false true true chain_ex
       = Some s')
    ∧ harmonic s'
      = Fin (ln (INR 1)
             - ln (sum_upto 1 (λ i,
                     exp (- logLike_trace lgamma_ex hungarian_ex cfg_ex draws_ex
                              false true true chain_ex (0 + i))))).
Proof.
  destruct (perform_MCMC_total lgamma_ex hungarian_ex cfg_ex draws_ex false true true
              chain_ex data_ok_ex hungarian_permutes_ex lambda_ex_pos draws_ex_unit
              (conj consistent_ex alpha_ex_range)) as (s' & Hs' & _).
  exists s'.
  assert (Hh : harmonic chain_ex = xlog 0) by (symmetry; apply xlog_0).
  split.
  - exact (conj (le_n 1) (conj Hh Hs')).
  - exact (proj1 (harmonic_mean_evidence lgamma_ex hungarian_ex cfg_ex draws_ex
                    false true true chain_ex s' (le_n 1) Hh Hs')).
Defined.

Lemma weights_positive_witness :
  (data_ok cfg_ex ∧ 0 < lambda cfg_ex ∧ 0 < alpha (set_groupIndex 0 chain_ex)
   ∧ consistent cfg_ex (set_groupIndex 0 chain_ex)
   ∧ copies cfg_ex !! 1%nat = Some (0, 0, 1)%nat
   ∧ groupIndex (set_groupIndex 0 chain_ex) = (Z.of_nat 1 - 1)%Z)
  ∧ probVecSum
      (group_probs cfg_ex 0 0 1
         (remove_copy cfg_ex 0 0 1 (next_copy (set_groupIndex 0 chain_ex)))) ≠ 0.
Proof.
  assert (Hc : consistent cfg_ex (set_groupIndex 0 chain_ex)).
  { eapply consistent_core; [|exact consistent_ex]. reflexivity. }
  split.
  - exact (conj data_ok_ex (conj lambda_ex_pos (conj alpha_ex_pos (conj Hc
             (conj eq_refl eq_refl))))).
  - apply (weights_positive cfg_ex 1 0 0 1 (set_groupIndex 0 chain_ex) data_ok_ex
             lambda_ex_pos alpha_ex_pos Hc eq_refl eq_refl).
Defined.

(** ** Further examples

    The properties of the other member functions at the small chain. *)

Lemma zero_unit (g : nat) : 0 <= (λ _ : nat, 0) g < 1.
Proof. simpl. lra. Qed.

Lemma K_ex_pos : (0 < K cfg_ex)%nat.
Proof. simpl. lia. Qed.

Lemma samples_ex_pos : (0 < samples cfg_ex)%nat.
Proof. simpl. lia. Qed.

Lemma pop_index_ex (i : nat) :
  (i < n cfg_ex)%nat → (pop_index cfg_ex !!! i < uniquePops cfg_ex)%nat.
Proof. intros Hi. destruct i as [|i]; [simpl; lia | simpl in Hi; lia]. Qed.

Lemma rows_ex {A} (x : A) : rows 2 2 [[x; x]; [x; x]].
Proof. split; [reflexivity | repeat constructor]. Qed.

Lemma freqs_shaped_ex : freqs_shaped cfg_ex chain_ex.
Proof.
  split.
  - split; [reflexivity|].
    repeat apply Forall_cons; try apply Forall_nil;
      (split; [reflexivity|]; intros [|l] Hl; [reflexivity | simpl in Hl; lia]).
  - split; [reflexivity | repeat constructor].
Qed.

(** A chain after [reset], and a run on it. *)
Lemma reset_ex :
  ∃ s, reset cfg_ex true (λ _, 0) chain_ex = Some s
       ∧ consistent cfg_ex s ∧ 0 < alpha s <= 10.
Proof.
  destruct (reset_total cfg_ex true (λ _, 0) chain_ex K_ex_pos zero_unit) as [s Hs].
  exists s. split; [exact Hs|]. split.
  - exact (reset_consistent cfg_ex true (λ _, 0) chain_ex s data_ok_ex shaped_ex Hs).
  - pose proof Hs as Hr. unfold reset in Hr. cbv zeta in Hr.
    apply (reset_tail_keeps cfg_ex alpha) in Hr; try (intros ? ?; reflexivity).
    rewrite Hr. simpl. lra.
Qed.

Lemma run_ex (b1 b2 b3 : bool) :
  ∃ s s', reset cfg_ex true (λ _, 0) chain_ex = Some s
          ∧ perform_MCMC lgamma_ex hungarian_ex cfg_ex draws_ex b1 b2 b3 s = Some s'.
Proof.
  destruct reset_ex as (s & Hs & Hc & Ha).
  destruct (perform_MCMC_total lgamma_ex hungarian_ex cfg_ex draws_ex b1 b2 b3 s
              data_ok_ex hungarian_permutes_ex lambda_ex_pos draws_ex_unit
              (conj Hc Ha)) as (s' & Hs' & _).
  exists s, s'. split; assumption.
Qed.

Lemma group_update_frame_witness :
  ∃ s', group_update cfg_ex (λ _, 0) chain_ex = Some s'
        ∧ outside_sweep s' = outside_sweep chain_ex.
Proof.
  destruct (group_update_total cfg_ex (λ _, 0) chain_ex data_ok_ex lambda_ex_pos
              alpha_ex_pos zero_unit consistent_ex) as (s' & Hs' & _).
  exists s'. split; [exact Hs'|].
  exact (group_update_frame cfg_ex (λ _, 0) chain_ex s' Hs').
Defined.

Lemma thinning_schedule_witness :
  ∃ ts x,
    for_range 1 (mcmc_step lgamma_ex hungarian_ex cfg_ex draws_ex false true true)
      (Some (1%nat, chain_ex)) = Some (ts, x)
    ∧ ts = (if decide (1 ≤ burnin cfg_ex)%nat then 1%nat else thinning cfg_ex).
Proof.
  destruct (mcmc_step_total lgamma_ex hungarian_ex cfg_ex draws_ex false true true
              0 1 chain_ex data_ok_ex hungarian_permutes_ex lambda_ex_pos
              draws_ex_unit (conj consistent_ex alpha_ex_range))
    as (ts & x & Hx & _).
  exists ts, x. split; [exact Hx|].
  exact (thinning_schedule lgamma_ex hungarian_ex cfg_ex draws_ex false true true
           chain_ex 1 ts x Hx).
Defined.

Lemma likelihood_sums_witness :
  ∃ s',
    perform_MCMC lgamma_ex hungarian_ex cfg_ex draws_ex false true true chain_ex
    = Some s'
    ∧ logLikeGroup_sum s'
      = logLikeGroup_sum chain_ex
        + sum_upto (samples cfg_ex)
            (λ i, logLike_trace lgamma_ex hungarian_ex cfg_ex draws_ex false true true
                    chain_ex (burnin cfg_ex + i)).
Proof.
  destruct (perform_MCMC_total lgamma_ex hungarian_ex cfg_ex draws_ex false true true
              chain_ex data_ok_ex hungarian_permutes_ex lambda_ex_pos draws_ex_unit
              (conj consistent_ex alpha_ex_range)) as (s' & Hs' & _).
  exists s'. split; [exact Hs'|].
  exact (proj1 (proj1 (likelihood_sums lgamma_ex hungarian_ex cfg_ex draws_ex
                         false true true chain_ex s' Hs'))).
Defined.

Lemma harmonic_no_samples_witness :
  ∃ s',
    (samples cfg_ex0 = 0%nat ∧ harmonic chain_ex = xlog 0
     ∧ perform_MCMC lgamma_ex hungarian_ex cfg_ex0 draws_ex false true false chain_ex
       = Some s')
    ∧ harmonic s' = NaN.
Proof.
  assert (Hh : harmonic chain_ex = xlog 0) by (symmetry; apply xlog_0).
  eexists. split.
  - split; [reflexivity|]. split; [exact Hh | reflexivity].
  - exact (harmonic_no_samples lgamma_ex hungarian_ex cfg_ex0 draws_ex false true false
             chain_ex _ eq_refl Hh eq_refl).
Defined.


Lemma updateQmatrix_spec_witness :
  rows (geneCopies cfg_ex) (K cfg_ex) (logQmatrix_gene_running chain_ex)
  ∧ exp (at2 (logQmatrix_gene_running (updateQmatrix cfg_ex chain_ex)) 0 0)
    = exp (at2 (logQmatrix_gene_running chain_ex) 0 0)
      + exp (at2 (logQmatrix_gene_new chain_ex) 0 0).
Proof.
  split.
  - exact (rows_ex 0).
  - exact (proj2 (proj2 (proj2 (updateQmatrix_spec cfg_ex chain_ex (rows_ex 0)))
                    0%nat 0%nat ltac:(simpl; lia) ltac:(simpl; lia))).
Defined.

Lemma storeQmatrix_spec_witness :
  (data_ok cfg_ex ∧ rows (geneCopies cfg_ex) (K cfg_ex) (logQmatrix_gene chain_ex))
  ∧ at2 (logQmatrix_gene (storeQmatrix cfg_ex chain_ex)) 0 0
    = logSum (at2 (logQmatrix_gene chain_ex) 0 0)
        (Fin (at2 (logQmatrix_gene_new chain_ex) 0 0)).
Proof.
  split.
  - exact (conj data_ok_ex (rows_ex NegInf)).
  - exact (proj1 (proj2 (proj2 (storeQmatrix_spec cfg_ex chain_ex data_ok_ex
                                  (rows_ex NegInf)))
                    0%nat 0%nat ltac:(simpl; lia) ltac:(simpl; lia))).
Defined.

Lemma drawFreqs_spec_witness :
  freqs_shaped cfg_ex chain_ex
  ∧ at3 (alleleFreqs (drawFreqs cfg_ex (λ _ _ _, 1) (λ _ _, 1) chain_ex)) 0 0 0
    = 1 / sum_upto (J cfg_ex !!! 0%nat) (λ _, 1).
Proof.
  split.
  - exact freqs_shaped_ex.
  - exact (proj1 (proj2 (proj2 (drawFreqs_spec cfg_ex (λ _ _ _, 1) (λ _ _, 1) chain_ex
                                  freqs_shaped_ex)))
             0%nat 0%nat 0%nat ltac:(simpl; lia) ltac:(simpl; lia) ltac:(simpl; lia)).
Defined.

Lemma drawFreqs_simplex_witness :
  (freqs_shaped cfg_ex chain_ex
   ∧ (∀ k l j : nat, 0 < (λ _ _ _ : nat, 1) k l j)
   ∧ (∀ i k : nat, 0 < (λ _ _ : nat, 1) i k))
  ∧ sum_upto (K cfg_ex)
      (λ k, at2 (admixFreqs (drawFreqs cfg_ex (λ _ _ _, 1) (λ _ _, 1) chain_ex)) 0 k)
    = 1.
Proof.
  split.
  - exact (conj freqs_shaped_ex (conj (λ _ _ _, Rlt_0_1) (λ _ _, Rlt_0_1))).
  - exact (proj2 (proj2 (drawFreqs_simplex cfg_ex (λ _ _ _, 1) (λ _ _, 1) chain_ex
                           freqs_shaped_ex (λ _ _ _, Rlt_0_1) (λ _ _, Rlt_0_1))
                    0%nat ltac:(simpl; lia)) K_ex_pos).
Defined.

Lemma logLikeJoint_nonpos_witness :
  (data_ok cfg_ex ∧ freqs_shaped cfg_ex chain_ex ∧ (0 < K cfg_ex)%nat
   ∧ (∀ k l j : nat, 0 < (λ _ _ _ : nat, 1) k l j)
   ∧ (∀ i k : nat, 0 < (λ _ _ : nat, 1) i k))
  ∧ logLikeJoint
      (d_logLikeJoint cfg_ex (drawFreqs cfg_ex (λ _ _ _, 1) (λ _ _, 1) chain_ex)) <= 0.
Proof.
  split.
  - exact (conj data_ok_ex (conj freqs_shaped_ex (conj K_ex_pos
             (conj (λ _ _ _, Rlt_0_1) (λ _ _, Rlt_0_1))))).
  - exact (proj2 (logLikeJoint_nonpos cfg_ex (λ _ _ _, 1) (λ _ _, 1) chain_ex
                    data_ok_ex freqs_shaped_ex K_ex_pos
                    (λ _ _ _, Rlt_0_1) (λ _ _, Rlt_0_1))).
Defined.

Lemma reset_frame_witness :
  ∃ s, reset cfg_ex false (λ _, 0) chain_ex = Some s
       ∧ outside_reset s = outside_reset chain_ex
       ∧ logQmatrix_gene_running s = logQmatrix_gene_running chain_ex.
Proof.
  destruct (reset_total cfg_ex false (λ _, 0) chain_ex K_ex_pos zero_unit) as [s Hs].
  exists s. split; [exact Hs|].
  pose proof (reset_frame cfg_ex false (λ _, 0) chain_ex s Hs) as (H1 & H2 & _).
  exact (conj H1 H2).
Defined.

Lemma constructed_reset_witness :
  (data_ok cfg_ex ∧ (0 < K cfg_ex)%nat ∧ (∀ g : nat, 0 <= (λ _ : nat, 0) g < 1))
  ∧ ∃ s, reset cfg_ex true (λ _, 0) (MCMCobject_admixture cfg_ex 1) = Some s
         ∧ consistent cfg_ex s ∧ stats_consistent cfg_ex s ∧ alpha s = 1.
Proof.
  split.
  - exact (conj data_ok_ex (conj K_ex_pos zero_unit)).
  - exact (constructed_reset cfg_ex 1 true (λ _, 0) data_ok_ex K_ex_pos zero_unit).
Defined.

Lemma counts_determined_witness :
  ∃ s,
    (reachable lgamma_ex hungarian_ex cfg_ex s
     ∧ reachable lgamma_ex hungarian_ex cfg_ex
         (alpha_update lgamma_ex cfg_ex 12 0 s)
     ∧ data_ok cfg_ex ∧ hungarian_permutes hungarian_ex cfg_ex
     ∧ linearGroup (alpha_update lgamma_ex cfg_ex 12 0 s) = linearGroup s)
    ∧ alleleCounts (alpha_update lgamma_ex cfg_ex 12 0 s) = alleleCounts s.
Proof.
  destruct (reset_total cfg_ex true (λ _, 0) chain_ex K_ex_pos zero_unit) as [s Hs].
  assert (Hr : reachable lgamma_ex hungarian_ex cfg_ex s)
    by (eapply reach_reset; [exact shaped_ex | exact Hs]).
  assert (Hr' : reachable lgamma_ex hungarian_ex cfg_ex
                  (alpha_update lgamma_ex cfg_ex 12 0 s))
    by (apply reach_alpha_update, Hr).
  assert (E : linearGroup (alpha_update lgamma_ex cfg_ex 12 0 s) = linearGroup s).
  { pose proof (alpha_update_core lgamma_ex cfg_ex 12 0 s) as Ec.
    unfold core in Ec. injection Ec as Ec _ _ _ _ _ _ _. exact Ec. }
  exists s. split.
  - exact (conj Hr (conj Hr' (conj data_ok_ex (conj hungarian_permutes_ex E)))).
  - exact (proj1 (counts_determined lgamma_ex hungarian_ex cfg_ex s _ Hr Hr'
                    data_ok_ex hungarian_permutes_ex E)).
Defined.

Lemma data_ok_one : data_ok cfg_one.
Proof. split; [reflexivity|]. repeat constructor. Qed.

Lemma data_ok_miss : data_ok cfg_miss.
Proof. split; [reflexivity|]. repeat constructor. Qed.

(** A consistent chain of a configuration, from the constructor and
    [reset]. *)
Lemma started (cfg : config) :
  data_ok cfg → (0 < K cfg)%nat →
  ∃ s, consistent cfg s ∧ alpha s = 1.
Proof.
  intros Hdata HK.
  destruct (reset_total cfg true (λ _, 0) (MCMCobject_admixture cfg 1) HK zero_unit)
    as [s Hs].
  exists s. split.
  - exact (reset_consistent cfg true (λ _, 0) _ s Hdata (constructor_shaped cfg 1) Hs).
  - unfold reset in Hs. cbv zeta in Hs.
    apply (reset_tail_keeps cfg alpha) in Hs; try (intros ? ?; reflexivity).
    exact Hs.
Qed.

Lemma single_deme_witness :
  ∃ s s',
    (K cfg_one = 1%nat ∧ data_ok cfg_one ∧ consistent cfg_one s
     ∧ group_update cfg_one (λ _, 0) s = Some s')
    ∧ statistics s' = statistics s.
Proof.
  destruct (started cfg_one data_ok_one ltac:(simpl; lia)) as (s & Hc & Ha).
  destruct (group_update_total cfg_one (λ _, 0) s data_ok_one ltac:(simpl; lra)
              ltac:(rewrite Ha; lra) zero_unit Hc) as (s' & Hs' & _).
  exists s, s'. split.
  - exact (conj eq_refl (conj data_ok_one (conj Hc Hs'))).
  - exact (proj2 (single_deme cfg_one (λ _, 0) s s' eq_refl data_ok_one Hc Hs')).
Defined.

Lemma missing_ex (c : nat * nat * nat) : c ∈ copies cfg_miss → allele cfg_miss c = 0%nat.
Proof.
  intros Hc. change (copies cfg_miss) with [(0, 0, 0); (0, 0, 1)]%nat in Hc.
  apply elem_of_cons in Hc as [->|Hc]; [reflexivity|].
  apply elem_of_cons in Hc as [->|Hc]; [reflexivity|].
  apply elem_of_nil in Hc. contradiction.
Qed.

Lemma all_missing_witness :
  ∃ s,
    ((∀ c, c ∈ copies cfg_miss → allele cfg_miss c = 0%nat) ∧ consistent cfg_miss s)
    ∧ logLikeGroup (d_logLikeGroup lgamma_ex cfg_miss s) = 0.
Proof.
  destruct (started cfg_miss data_ok_miss ltac:(simpl; lia)) as (s & Hc & _).
  exists s. split.
  - exact (conj missing_ex Hc).
  - exact (proj1 (proj2 (all_missing lgamma_ex cfg_miss s missing_ex Hc))).
Defined.

Lemma relabel_round_trip_witness :
  (data_ok cfg_ex ∧ consistent cfg_ex chain_ex ∧ [1%nat; 0%nat] ≡ₚ seq 0 (K cfg_ex))
  ∧ statistics
      (relabel cfg_ex
         (set_bestPerm
            (bestPermOrder (relabel cfg_ex (set_bestPerm [1%nat; 0%nat] chain_ex)))
            (relabel cfg_ex (set_bestPerm [1%nat; 0%nat] chain_ex))))
    = statistics chain_ex.
Proof.
  split.
  - exact (conj data_ok_ex (conj consistent_ex (perm_swap 0%nat 1%nat []))).
  - exact (proj2 (proj2 (relabel_round_trip cfg_ex chain_ex [1%nat; 0%nat] data_ok_ex
                           consistent_ex (perm_swap 0%nat 1%nat [])))).
Defined.

Lemma rows_ind_ex {A} (x : A) : rows 1 2 [[x; x]].
Proof. split; [reflexivity | repeat constructor]. Qed.

Lemma finish_Qmatrices_spec_witness :
  (data_ok cfg_ex
   ∧ rows (geneCopies cfg_ex) (K cfg_ex) (Qmatrix_gene chain_ex)
   ∧ rows (n cfg_ex) (K cfg_ex) (Qmatrix_ind chain_ex)
   ∧ rows (uniquePops cfg_ex) (K cfg_ex) (Qmatrix_pop chain_ex)
   ∧ (∀ i, (i < n cfg_ex)%nat → (pop_index cfg_ex !!! i < uniquePops cfg_ex)%nat))
  ∧ at2 (Qmatrix_gene (finish_Qmatrices cfg_ex chain_ex)) 0 0
    = xexp (xsub (at2 (logQmatrix_gene chain_ex) 0 0) (xlog (INR (samples cfg_ex)))).
Proof.
  split.
  - exact (conj data_ok_ex (conj (rows_ex (Fin 0)) (conj (rows_ind_ex (Fin 0))
             (conj (rows_ind_ex (Fin 0)) pop_index_ex)))).
  - exact (proj1 (proj1 (proj2 (finish_Qmatrices_spec cfg_ex chain_ex data_ok_ex
                                  (rows_ex (Fin 0)) (rows_ind_ex (Fin 0))
                                  (rows_ind_ex (Fin 0)) pop_index_ex))
                    0%nat 0%nat ltac:(simpl; lia) ltac:(simpl; lia))).
Defined.

Lemma Qmatrix_gene_mean_witness :
  ∃ s s',
    (data_ok cfg_ex ∧ (0 < samples cfg_ex)%nat
     ∧ (∀ i, (i < n cfg_ex)%nat → (pop_index cfg_ex !!! i < uniquePops cfg_ex)%nat)
     ∧ reset cfg_ex true (λ _, 0) chain_ex = Some s
     ∧ perform_MCMC lgamma_ex hungarian_ex cfg_ex draws_ex false true true s = Some s')
    ∧ at2 (Qmatrix_gene s') 0 0
      = Fin (sum_upto (samples cfg_ex)
               (λ i, exp (logQ_trace lgamma_ex hungarian_ex cfg_ex draws_ex false true s
                            (burnin cfg_ex + i) 0 0))
             / INR (samples cfg_ex)).
Proof.
  destruct (run_ex false true true) as (s & s' & Hs & Hs').
  exists s, s'. split.
  - exact (conj data_ok_ex (conj samples_ex_pos (conj pop_index_ex (conj Hs Hs')))).
  - exact (Qmatrix_gene_mean lgamma_ex hungarian_ex cfg_ex draws_ex true false true
             (λ _, 0) chain_ex s s' data_ok_ex samples_ex_pos pop_index_ex Hs Hs'
             0%nat 0%nat ltac:(simpl; lia) ltac:(simpl; lia)).
Defined.

Lemma perform_MCMC_options_witness :
  ∃ s',
    perform_MCMC lgamma_ex hungarian_ex cfg_ex draws_ex false true false chain_ex
    = Some s'
    ∧ Q_members s' = Q_members chain_ex ∧ alpha s' = alpha chain_ex.
Proof.
  destruct (perform_MCMC_total lgamma_ex hungarian_ex cfg_ex draws_ex false true false
              chain_ex data_ok_ex hungarian_permutes_ex lambda_ex_pos draws_ex_unit
              (conj consistent_ex alpha_ex_range)) as (s' & Hs' & _).
  exists s'. split; [exact Hs'|].
  pose proof (perform_MCMC_options lgamma_ex hungarian_ex cfg_ex draws_ex
                false true false chain_ex s' Hs') as (H1 & _ & _ & H4).
  exact (conj (proj1 (H1 eq_refl)) (H4 eq_refl)).
Defined.

Lemma weights_at_beta_one_witness :
  beta cfg_ex = 1
  ∧ group_probs cfg_ex 0 0 0 chain_ex = Q_probs cfg_ex 0 0 0 chain_ex.
Proof.
  split.
  - reflexivity.
  - exact (weights_at_beta_one cfg_ex 0 0 0 chain_ex eq_refl).
Defined.

Lemma Qmatrix_gene_rows_witness :
  ∃ s s',
    (data_ok cfg_ex ∧ hungarian_permutes hungarian_ex cfg_ex ∧ 0 < lambda cfg_ex
     ∧ (∀ rep thin g, 0 <= u_group draws_ex rep thin g < 1)
     ∧ (0 < samples cfg_ex)%nat
     ∧ (∀ i, (i < n cfg_ex)%nat → (pop_index cfg_ex !!! i < uniquePops cfg_ex)%nat)
     ∧ shaped cfg_ex chain_ex ∧ 0 < alpha chain_ex <= 10
     ∧ reset cfg_ex true (λ _, 0) chain_ex = Some s
     ∧ perform_MCMC lgamma_ex hungarian_ex cfg_ex draws_ex false true true s = Some s')
    ∧ ∃ Q : nat → nat → R,
        (∀ g k, (g < geneCopies cfg_ex)%nat → (k < K cfg_ex)%nat →
           at2 (Qmatrix_gene s') g k = Fin (Q g k) ∧ 0 < Q g k)
        ∧ ∀ g, (g < geneCopies cfg_ex)%nat → sum_upto (K cfg_ex) (Q g) = 1.
Proof.
  destruct (run_ex false true true) as (s & s' & Hs & Hs').
  exists s, s'. split.
  - exact (conj data_ok_ex (conj hungarian_permutes_ex (conj lambda_ex_pos
             (conj draws_ex_unit (conj samples_ex_pos (conj pop_index_ex
                (conj shaped_ex (conj alpha_ex_range (conj Hs Hs'))))))))).
  - exact (Qmatrix_gene_rows lgamma_ex hungarian_ex cfg_ex draws_ex true false true
             (λ _, 0) chain_ex s s' data_ok_ex hungarian_permutes_ex lambda_ex_pos
             draws_ex_unit samples_ex_pos pop_index_ex shaped_ex alpha_ex_range Hs Hs').
Defined.

Lemma Qmatrix_ind_rows_witness :
  ∃ s s',
    (data_ok cfg_ex ∧ hungarian_permutes hungarian_ex cfg_ex ∧ 0 < lambda cfg_ex
     ∧ (∀ rep thin g, 0 <= u_group draws_ex rep thin g < 1)
     ∧ (0 < samples cfg_ex)%nat
     ∧ (∀ i, (i < n cfg_ex)%nat → (pop_index cfg_ex !!! i < uniquePops cfg_ex)%nat)
     ∧ shaped cfg_ex chain_ex ∧ 0 < alpha chain_ex <= 10
     ∧ reset cfg_ex true (λ _, 0) chain_ex = Some s
     ∧ perform_MCMC lgamma_ex hungarian_ex cfg_ex draws_ex false true true s = Some s')
    ∧ ∃ q : nat → R,
        (∀ k, (k < K cfg_ex)%nat → at2 (Qmatrix_ind s') 0 k = Fin (q k) ∧ 0 < q k)
        ∧ sum_upto (K cfg_ex) q = 1.
Proof.
  destruct (run_ex false true true) as (s & s' & Hs & Hs').
  exists s, s'. split.
  - exact (conj data_ok_ex (conj hungarian_permutes_ex (conj lambda_ex_pos
             (conj draws_ex_unit (conj samples_ex_pos (conj pop_index_ex
                (conj shaped_ex (conj alpha_ex_range (conj Hs Hs'))))))))).
  - exact (proj1 (Qmatrix_ind_rows lgamma_ex hungarian_ex cfg_ex draws_ex true false true
                    (λ _, 0) chain_ex s s' data_ok_ex hungarian_permutes_ex lambda_ex_pos
                    draws_ex_unit samples_ex_pos pop_index_ex shaped_ex alpha_ex_range
                    Hs Hs' 0%nat ltac:(simpl; lia)) ltac:(simpl; lia)).
Defined.

(** * The binary64 reading *)

Import PrimFloat.

(** From [1e18] the subtraction of 20 is absorbed by the rounding, and the
    loop test stays true. *)
Lemma wrap_down64_stuck (fuel : nat) : Binary64.wrap_down64 fuel 1e18%float = None.
Proof.
  induction fuel as [|fuel IH]; [reflexivity|].
  change (Binary64.wrap_down64 (S fuel) 1e18%float)
    with (Binary64.wrap_down64 fuel 1e18%float).
  exact IH.
Qed.

Lemma wrap_up64_stuck (fuel : nat) : Binary64.wrap_up64 fuel (-1e18)%float = None.
Proof.
  induction fuel as [|fuel IH]; [reflexivity|].
  change (Binary64.wrap_up64 (S fuel) (-1e18)%float)
    with (Binary64.wrap_up64 fuel (-1e18)%float).
  exact IH.
Qed.

(** C5: on binary64 the reflection does not return for the finite proposal
    [1e18]: [1e18 > 20] holds and [1e18 - 20] rounds to [1e18], so the loop
    [while (alpha_new > 20) alpha_new -= 20] never ends, whatever the number
    of passes allowed; the loop [while (alpha_new < -10) alpha_new += 20]
    does the same from [-1e18]. *)
Theorem reflect_alpha_stuck :
  ((20 <? 1e18)%float = true ∧ (1e18 - 20)%float = 1e18%float
   ∧ ∀ fuel, Binary64.reflect_alpha64 fuel 1e18%float = None)
  ∧ ((-1e18 <? -10)%float = true ∧ (-1e18 + 20)%float = (-1e18)%float
     ∧ ∀ fuel, Binary64.reflect_alpha64 fuel (-1e18)%float = None).
Proof.
  split; (split; [reflexivity|]; split; [reflexivity|]); intros [|fuel]; try reflexivity.
  - unfold Binary64.reflect_alpha64.
    change ((1e18 <? 0)%float || (10 <? 1e18)%float) with true. cbv iota.
    change (Binary64.wrap_up64 (S fuel) 1e18%float) with (Some 1e18%float).
    cbn -[Binary64.wrap_down64]. rewrite (wrap_down64_stuck (S fuel)). reflexivity.
  - unfold Binary64.reflect_alpha64.
    change ((-1e18 <? 0)%float || (10 <? -1e18)%float) with true. cbv iota.
    rewrite (wrap_up64_stuck (S fuel)). reflexivity.
Qed.

(** Proposals of ordinary size are reflected within a few passes. *)
Example reflect_alpha64_examples :
  Binary64.reflect_alpha64 3 (-25.5)%float = Some 5.5%float
  ∧ Binary64.reflect_alpha64 3 47.25%float = Some 7.25%float
  ∧ Binary64.reflect_alpha64 3 0%float = Some Binary64.pow10_m300.
Proof. repeat split; vm_compute; reflexivity. Qed.

(** C7: two demes, one locus with two alleles, [lambda = 1], allele counts
    (2, 2) in the first deme and (2, 3) in the second.  The loop of
    [d_logLikeGroup] gives [-7.495541943884255] on these tensors and
    [-7.495541943884256] on the tensors with the two deme rows swapped: the
    two binary64 values are not equal. *)
Lemma logLikeGroup_order_counterexample :
  let ac := [[[2; 2]]; [[2; 3]]]%Z in
  let tot := [[4]; [5]]%Z in
  let p := [1; 0]%nat in
  let v := Binary64.d_logLikeGroup64 Binary64.lgamma_table 1 2 1 [2%nat] ac tot in
  let v' := Binary64.d_logLikeGroup64 Binary64.lgamma_table 1 2 1 [2%nat]
              (map (λ k, ac !!! (p !!! k)) (seq 0 2))
              (map (λ k, tot !!! (p !!! k)) (seq 0 2)) in
  v = (-0x1.dfb6f58eb1dd8p+2)%float ∧ v' = (-0x1.dfb6f58eb1dd9p+2)%float
  ∧ (v =? v')%float = false.
Proof. cbv zeta. repeat split; vm_compute; reflexivity. Qed.
